(** * Schema compilation and reference resolution of libyang: a shallow
      embedding of [resolve.c], [context.c] and [log.c] and the properties
      of its specification.

    The embedding follows the C sources function by function.  C strings are
    [string]s (the bytes before the terminating NUL; reading past the end
    yields NUL), [int] values are [Z], arrays and node arenas are lists
    accessed with stdpp's lookup and insert, out-parameters become fields of
    a result record, and the global mutable state a function touches (the
    schema graph, the unres arrays, the log) is threaded explicitly.

    Layout: part I holds every definition, part II every lemma. *)

From Stdlib Require Import ZArith String Ascii List Lia Bool.
From Stdlib Require Import OrdersEx DecimalString QArith.
From Stdlib Require DecimalFacts DecimalPos DecimalN.
From stdpp Require Import base list option.

#[local] Set Warnings "-register-all".
#[local] Open Scope string_scope.
#[local] Open Scope list_scope.
#[local] Open Scope Z_scope.

(** ** Return codes of the C sources *)

Definition EXIT_SUCCESS : Z := 0.
Definition EXIT_FAILURE : Z := 1.

(** * Part I: the embedding *)

(** ** C strings and the <ctype.h> predicates ("C" locale) *)

Definition NUL : ascii := Ascii.zero.

Definition char_code (c : ascii) : Z := Z.of_N (N_of_ascii c).

(** [id[i]]: the byte at offset [i], NUL from the terminator on. *)
Definition cchar (id : string) (i : nat) : ascii :=
  match String.get i id with
  | Some c => c
  | None => NUL
  end.

(** [id + n]: pointer arithmetic on a C string. *)
Fixpoint cskip (n : nat) (id : string) : string :=
  match n, id with
  | O, _ => id
  | S n', String _ rest => cskip n' rest
  | S _, EmptyString => EmptyString
  end.

Definition ceq (a b : ascii) : bool := Ascii.eqb a b.
Definition cnonzero (a : ascii) : bool := negb (Ascii.eqb a NUL).

Definition in_range (lo hi : Z) (c : ascii) : bool :=
  (lo <=? char_code c) && (char_code c <=? hi).

Definition isupper (c : ascii) : bool := in_range 65 90 c.
Definition islower (c : ascii) : bool := in_range 97 122 c.
Definition isalpha (c : ascii) : bool := isupper c || islower c.
Definition isdigit (c : ascii) : bool := in_range 48 57 c.
Definition isalnum (c : ascii) : bool := isalpha c || isdigit c.
Definition isspace (c : ascii) : bool :=
  (char_code c =? 32) || in_range 9 13 c.

(** [strncmp(a, b, n) == 0] *)
Fixpoint strncmp0 (a b : string) (n : nat) : bool :=
  match n with
  | O => true
  | S n' =>
      let ca := cchar a 0 in
      let cb := cchar b 0 in
      if negb (ceq ca cb) then false
      else if ceq ca NUL then true
      else strncmp0 (cskip 1 a) (cskip 1 b) n'
  end.

(** [strcmp(a, b) == 0] on NUL-free contents. *)
Definition strcmp0 (a b : string) : bool := String.eqb a b.

(** ** PathLex: the identifier scanners of resolve.c *)

(** The [while] loop of [parse_identifier]: counts the identifier characters
    that follow the first one. *)
Fixpoint parse_identifier_loop (id : string) (parsed : Z) : Z :=
  match id with
  | String c rest =>
      if isalnum c || ceq c "_" || ceq c "-" || ceq c "."
      then parse_identifier_loop rest (parsed + 1)
      else parsed
  | EmptyString => parsed
  end.

(** The guard against identifiers starting with "xml", as the source writes
    it (note the index in the test against ['M']). *)
Definition xml_guard (id : string) : bool :=
  (ceq (cchar id 0) "x" || ceq (cchar id 0) "X")
  && (cnonzero (cchar id 0) && (ceq (cchar id 1) "m" || ceq (cchar id 0) "M"))
  && (cnonzero (cchar id 1) && (ceq (cchar id 2) "l" || ceq (cchar id 2) "L")).

Definition parse_identifier (id : string) : Z :=
  let parsed := 0 in
  if xml_guard id then - parsed
  else if negb (isalpha (cchar id 0)) && negb (ceq (cchar id 0) "_") then - parsed
  else parse_identifier_loop (cskip 1 id) (parsed + 1).

(** The guard the documentation of [parse_identifier] asks for:
    [(('X'|'x') ('M'|'m') ('L'|'l'))]. *)
Definition xml_prefix_nocase (id : string) : bool :=
  (ceq (cchar id 0) "x" || ceq (cchar id 0) "X")
  && (ceq (cchar id 1) "m" || ceq (cchar id 1) "M")
  && (ceq (cchar id 2) "l" || ceq (cchar id 2) "L").

(** Grammar side: an identifier start and an identifier character. *)
Definition ident_start (c : ascii) : bool := isalpha c || ceq c "_".
Definition ident_char (c : ascii) : bool :=
  isalnum c || ceq c "_" || ceq c "-" || ceq c ".".

(** Length of the longest prefix of [id] made of identifier characters. *)
Fixpoint ident_run (id : string) : nat :=
  match id with
  | String c rest => if ident_char c then S (ident_run rest) else O
  | EmptyString => O
  end.

(** Out-parameters of [parse_node_identifier]; a pointer into the parsed
    string is the suffix it points at, [None] is NULL. *)
Record node_identifier := {
  ni_ret : Z;
  ni_mod_name : option string;
  ni_mod_name_len : Z;
  ni_name : option string;
  ni_nam_len : Z
}.

Definition parse_node_identifier (id0 : string) : node_identifier :=
  let ret := parse_identifier id0 in
  if ret <? 1 then
    {| ni_ret := ret; ni_mod_name := None; ni_mod_name_len := 0;
       ni_name := None; ni_nam_len := 0 |}
  else
    let parsed := ret in
    let id := cskip (Z.to_nat ret) id0 in
    if ceq (cchar id 0) ":" then
      let parsed := parsed + 1 in
      let id := cskip 1 id in
      let ret2 := parse_identifier id in
      if ret2 <? 1 then
        {| ni_ret := - parsed + ret2; ni_mod_name := Some id0;
           ni_mod_name_len := ret; ni_name := None; ni_nam_len := 0 |}
      else
        {| ni_ret := parsed + ret2; ni_mod_name := Some id0;
           ni_mod_name_len := ret; ni_name := Some id; ni_nam_len := ret2 |}
    else
      {| ni_ret := parsed; ni_mod_name := None; ni_mod_name_len := 0;
         ni_name := Some id0; ni_nam_len := ret |}.

(** Out-parameters of [parse_schema_nodeid]; [sn_is_relative] is the value of
    [*is_relative] after the call (-1 unset, 1 relative, 0 absolute). *)
Record schema_nodeid := {
  sn_ret : Z;
  sn_mod_name : option string;
  sn_mod_name_len : Z;
  sn_name : option string;
  sn_nam_len : Z;
  sn_is_relative : Z
}.

Definition parse_schema_nodeid (id0 : string) (is_relative : Z) : schema_nodeid :=
  let fail r rel :=
    {| sn_ret := r; sn_mod_name := None; sn_mod_name_len := 0;
       sn_name := None; sn_nam_len := 0; sn_is_relative := rel |} in
  let continue parsed id rel :=
    let ni := parse_node_identifier id in
    if ni_ret ni <? 1 then
      {| sn_ret := - parsed + ni_ret ni; sn_mod_name := ni_mod_name ni;
         sn_mod_name_len := ni_mod_name_len ni; sn_name := ni_name ni;
         sn_nam_len := ni_nam_len ni; sn_is_relative := rel |}
    else
      {| sn_ret := parsed + ni_ret ni; sn_mod_name := ni_mod_name ni;
         sn_mod_name_len := ni_mod_name_len ni; sn_name := ni_name ni;
         sn_nam_len := ni_nam_len ni; sn_is_relative := rel |} in
  if negb (ceq (cchar id0 0) "/") then
    if negb (is_relative =? -1) then fail 0 is_relative
    else
      if strncmp0 id0 "./" 2 then continue 2 (cskip 2 id0) 1
      else continue 0 id0 1
  else
    let rel := if is_relative =? -1 then 0 else is_relative in
    continue 1 (cskip 1 id0) rel.

(** ** resolve.c: length and range restrictions *)

(** [LY_DATA_TYPE] *)
Inductive LY_DATA_TYPE : Set :=
| LY_TYPE_DER | LY_TYPE_BINARY | LY_TYPE_BITS | LY_TYPE_BOOL | LY_TYPE_DEC64
| LY_TYPE_EMPTY | LY_TYPE_ENUM | LY_TYPE_IDENT | LY_TYPE_INST | LY_TYPE_LEAFREF
| LY_TYPE_STRING | LY_TYPE_UNION
| LY_TYPE_INT8 | LY_TYPE_UINT8 | LY_TYPE_INT16 | LY_TYPE_UINT16
| LY_TYPE_INT32 | LY_TYPE_UINT32 | LY_TYPE_INT64 | LY_TYPE_UINT64.

#[global] Instance LY_DATA_TYPE_eq_dec : EqDecision LY_DATA_TYPE.
Proof. solve_decision. Defined.

(** [struct lys_type], the members the interval resolution reads:
    [type_restr] is the expression of the restriction of the base at hand
    ([info.binary.length], [info.dec64.range], [info.num.range] or
    [info.str.length], [None] for NULL), [type_dig] is [info.dec64.dig], and
    [type_der] is the type of the typedef [der] points to, [None] for a type
    that is not derived. *)
Inductive lys_type : Type :=
| LysType (base : LY_DATA_TYPE) (restr : option string) (dig : Z) (der : option lys_type).

Definition type_base (t : lys_type) : LY_DATA_TYPE := let 'LysType b _ _ _ := t in b.
Definition type_restr (t : lys_type) : option string := let 'LysType _ r _ _ := t in r.
Definition type_dig (t : lys_type) : Z := let 'LysType _ _ d _ := t in d.
Definition type_der (t : lys_type) : option lys_type := let 'LysType _ _ _ d := t in d.

(** [struct len_ran_intv]; the list is the chain of [next].  The members of
    the union [value] hold the number they denote: an unsigned or signed
    64-bit integer, or a long double (the values that occur, integers of 64
    bits and quotients of 2^63 by a power of two, are exact in the extended
    format). *)
Record len_ran_intv := {
  intv_kind : Z;
  intv_min : Q;
  intv_max : Q;
  intv_type : lys_type
}.

Fixpoint skip_while (p : ascii -> bool) (s : string) : string :=
  match s with
  | String c rest => if p c then skip_while p rest else s
  | EmptyString => s
  end.

(** The digits [atoll] reads, most significant first. *)
Fixpoint atoll_digits (s : string) (acc : Z) : Z :=
  match s with
  | String c rest =>
      if isdigit c then atoll_digits rest (10 * acc + (char_code c - 48)) else acc
  | EmptyString => acc
  end.

Definition LLONG_MAX : Z := 9223372036854775807.
Definition LLONG_MIN : Z := -9223372036854775808.

(** [atoll]: white space, a sign, digits; out of range it returns the
    nearest bound, as [strtoll] does. *)
Definition atoll (s : string) : Z :=
  let s := skip_while isspace s in
  let v :=
    if ceq (cchar s 0) "-" then - atoll_digits (cskip 1 s) 0
    else if ceq (cchar s 0) "+" then atoll_digits (cskip 1 s) 0
    else atoll_digits s 0 in
  Z.max LLONG_MIN (Z.min LLONG_MAX v).

(** Storing the [long long] that [atoll] returns in a member of [value]:
    the conversion to [uint64_t] wraps around. *)
Definition store_value (kind : Z) (v : Z) : Q :=
  if kind =? 0 then inject_Z (v mod 2 ^ 64) else inject_Z v.

(** The [switch] on [type->base]: the kind (0 unsigned, 1 signed, 2
    floating point) with [local_min] and [local_max].  The literal
    9223372036854775807.0 is a double, that is 2^63. *)
Definition base_limits (t : lys_type) : option (Z * Q * Q) :=
  match type_base t with
  | LY_TYPE_BINARY => Some (0, inject_Z 0, inject_Z 18446744073709551615)
  | LY_TYPE_DEC64 =>
      Some (2, Qmake (-9223372036854775808) (Z.to_pos (2 ^ type_dig t)),
               Qmake 9223372036854775808 (Z.to_pos (2 ^ type_dig t)))
  | LY_TYPE_INT8 => Some (1, inject_Z (-128), inject_Z 127)
  | LY_TYPE_INT16 => Some (1, inject_Z (-32768), inject_Z 32767)
  | LY_TYPE_INT32 => Some (1, inject_Z (-2147483648), inject_Z 2147483647)
  | LY_TYPE_INT64 => Some (1, inject_Z (-9223372036854775808), inject_Z 9223372036854775807)
  | LY_TYPE_UINT8 => Some (0, inject_Z 0, inject_Z 255)
  | LY_TYPE_UINT16 => Some (0, inject_Z 0, inject_Z 65535)
  | LY_TYPE_UINT32 => Some (0, inject_Z 0, inject_Z 4294967295)
  | LY_TYPE_UINT64 => Some (0, inject_Z 0, inject_Z 18446744073709551615)
  | LY_TYPE_STRING => Some (0, inject_Z 0, inject_Z 18446744073709551615)
  | _ => None
  end.

Definition starts_number (ptr : string) : bool :=
  isdigit (cchar ptr 0) || ceq (cchar ptr 0) "+" || ceq (cchar ptr 0) "-".

(** One iteration of the loop over the segments of the restriction: the
    bounds of the interval that starts at [seg_ptr], [None] where the source
    jumps to [error]. *)
Definition parse_segment (kind : Z) (local_min local_max : Q) (seg_ptr : string)
  : option (Q * Q) :=
  (* min *)
  let ptr := skip_while isspace seg_ptr in
  match
    if starts_number ptr then
      let v := store_value kind (atoll ptr) in
      let ptr := if ceq (cchar ptr 0) "+" || ceq (cchar ptr 0) "-" then cskip 1 ptr else ptr in
      Some (v, skip_while isdigit ptr)
    else if strncmp0 ptr "min" 3 then Some (local_min, cskip 3 ptr)
    else if strncmp0 ptr "max" 3 then Some (local_max, cskip 3 ptr)
    else None
  with
  | None => None
  | Some (vmin, ptr) =>
      let ptr := skip_while isspace ptr in
      (* no interval or interval *)
      if ceq (cchar ptr 0) "|" || negb (cnonzero (cchar ptr 0)) then Some (vmin, vmin)
      else if strncmp0 ptr ".." 2 then
        (* skip ".." *)
        let ptr := skip_while isspace (cskip 2 ptr) in
        (* max *)
        if starts_number ptr then Some (vmin, store_value kind (atoll ptr))
        else if strncmp0 ptr "max" 3 then Some (vmin, local_max)
        else None
      else None
  end.

(** The values [seg_ptr] takes after the first: what follows each '|'
    ([seg_ptr = strchr(seg_ptr, '|'); seg_ptr++]). *)
Fixpoint next_segments (s : string) : list string :=
  match s with
  | EmptyString => []
  | String c rest => if ceq c "|" then rest :: next_segments rest else next_segments rest
  end.

Fixpoint parse_segments (kind : Z) (local_min local_max : Q) (type : lys_type)
  (segs : list string) : option (list len_ran_intv) :=
  match segs with
  | [] => Some []
  | seg :: rest =>
      match parse_segment kind local_min local_max seg with
      | None => None
      | Some (vmin, vmax) =>
          match parse_segments kind local_min local_max type rest with
          | None => None
          | Some l =>
              Some ({| intv_kind := kind; intv_min := vmin; intv_max := vmax;
                       intv_type := type |} :: l)
          end
      end
  end.

(** "check local restrictions against superior ones": the loop
    [while (tmp_local_intv && tmp_intv)] with the test that follows it;
    [false] where the source jumps to [error]. *)
Fixpoint check_superior (intv : list len_ran_intv) : list len_ran_intv -> bool :=
  fix check_local (local_intv : list len_ran_intv) : bool :=
    match local_intv with
    | [] => true
    | tmp_local_intv :: local_rest =>
        match intv with
        | [] => false
        | tmp_intv :: intv_rest =>
            (* it must be in this interval *)
            if Qle_bool (intv_min tmp_intv) (intv_min tmp_local_intv)
               && Qle_bool (intv_min tmp_local_intv) (intv_max tmp_intv)
            then
              (* this interval is covered, next one *)
              if Qle_bool (intv_max tmp_local_intv) (intv_max tmp_intv)
              then check_local local_rest
              else false
            else check_superior intv_rest local_intv
        end
    end.

Definition first_min (dflt : Q) (intv : list len_ran_intv) : Q :=
  match intv with
  | i :: _ => intv_min i
  | [] => dflt
  end.

Definition last_max (dflt : Q) (intv : list len_ran_intv) : Q :=
  match intv with
  | i :: rest => intv_max (List.last rest i)
  | [] => dflt
  end.

(** [resolve_len_ran_interval(str_restr, type, ret)]: the return value and
    [*ret] ([[]] for NULL, which it has on entry). *)
Fixpoint resolve_len_ran_interval (str_restr : option string) (type : lys_type)
  : Z * list len_ran_intv :=
  match base_limits type with
  | None => (-1, [])
  | Some (kind, local_min, local_max) =>
      let str_restr :=
        match str_restr with
        | Some s => Some s
        | None => type_restr type
        end in
      (* process superior types *)
      match
        match type with
        | LysType _ _ _ (Some der) =>
            let '(rc, intv) := resolve_len_ran_interval None der in
            if negb (rc =? 0) then None else Some intv
        | LysType _ _ _ None => Some []
        end
      with
      | None => (-1, [])
      | Some intv =>
          match str_restr with
          | None =>
              (* we do not have any restriction, return superior ones *)
              (EXIT_SUCCESS, intv)
          | Some s =>
              (* adjust local min and max *)
              let local_min := first_min local_min intv in
              let local_max := last_max local_max intv in
              (* finally parse our restriction *)
              match parse_segments kind local_min local_max type (s :: next_segments s) with
              | None => (-1, [])
              | Some local_intv =>
                  (* check local restrictions against superior ones *)
                  if match intv with
                     | [] => true
                     | _ => check_superior intv local_intv
                     end
                  then (EXIT_SUCCESS, intv ++ local_intv)
                  else (-1, [])
              end
          end
      end
  end.

(** *** Statement vocabulary for restrictions *)

(** The test of the source for "the local interval is covered by this
    one". *)
Definition covers (p c : len_ran_intv) : Prop :=
  (intv_min p <= intv_min c)%Q /\ (intv_min c <= intv_max p)%Q /\
  (intv_max c <= intv_max p)%Q.

(** The intervals [C] are covered by intervals of [P] taken at
    non-decreasing positions. *)
Inductive covered_in_order : list len_ran_intv -> list len_ran_intv -> Prop :=
| covered_nil (P : list len_ran_intv) : covered_in_order [] P
| covered_here (c p : len_ran_intv) (C P : list len_ran_intv) :
    covers p c -> covered_in_order C (p :: P) -> covered_in_order (c :: C) (p :: P)
| covered_next (p : len_ran_intv) (C P : list len_ran_intv) :
    covered_in_order C P -> covered_in_order C (p :: P).

(** The restriction the call works on. *)
Definition effective_restr (str_restr : option string) (type : lys_type) : option string :=
  match str_restr with
  | Some s => Some s
  | None => type_restr type
  end.

(** The intervals of [l] do not overlap and ascend. *)
Fixpoint ascending_disjoint (l : list len_ran_intv) : Prop :=
  match l with
  | a :: (b :: _) as rest => (intv_max a < intv_min b)%Q /\ ascending_disjoint rest
  | _ => True
  end.

(** The typedefs of scenario S2 and variants of the derived restriction. *)
Definition typedef_t1 : lys_type := LysType LY_TYPE_INT16 (Some "1..100") 0 None.
Definition typedef_t2 (range : string) : lys_type :=
  LysType LY_TYPE_INT16 (Some range) 0 (Some typedef_t1).

Definition mk_intv (lo hi : Z) (t : lys_type) : len_ran_intv :=
  {| intv_kind := 1; intv_min := inject_Z lo; intv_max := inject_Z hi; intv_type := t |}.

(** ** resolve.c: base identities *)

(** The double quote, for the messages that quote a name. *)
Definition dquote : string := String "034"%char EmptyString.

(** [struct lys_ident].  Identities live in the [ident] arrays of modules
    and submodules; a [struct lys_ident *] is the index of the identity in
    one arena.  [ident_der] is the NULL-terminated array of back-links to
    the derived identities: [None] for a NULL pointer, otherwise the entries
    before the terminator. *)
Record lys_ident := {
  ident_name : string;
  ident_base : option nat;
  ident_der : option (list nat)
}.

(** The members of [struct lys_module] (and of a submodule cast to it) that
    the identity resolution reads: the name, the [ident] array as arena
    indices, and the [inc] array, each include holding its submodule as an
    index in the table of modules, [None] for NULL. *)
Record lys_module_idents := {
  mi_name : string;
  mi_ident : list nat;
  mi_inc : list (option nat)
}.

Record ident_graph := {
  ig_ident : list lys_ident;
  ig_module : list lys_module_idents
}.

(** Messages of LOGVAL, formatted as log.c formats them. *)
Definition LYE_INARG_msg (value stmt : string) : string :=
  ("Invalid value " ++ dquote ++ value ++ dquote ++ " of " ++ dquote ++ stmt ++ dquote ++ ".")%string.

Definition circular_msg (basename : string) : string :=
  ("Circular reference of " ++ dquote ++ basename ++ dquote ++ " identity.")%string.

Definition LYE_INRESOLV_msg (what name : string) : string :=
  ("Failed to resolve " ++ what ++ " " ++ dquote ++ name ++ dquote ++ ".")%string.

Definition LYE_INMOD_msg (name : string) : string :=
  ("Module name " ++ dquote ++ name ++ dquote ++ " refers to an unknown module.")%string.

(** [for (i = 0; i < ident_size; i++) if (!strcmp(basename, ident[i].name))]:
    the first identity of the array with the name. *)
Fixpoint search_ident_array (h : list lys_ident) (basename : string) (ids : list nat)
  : option nat :=
  match ids with
  | [] => None
  | i :: rest =>
      match h !! i with
      | Some idn =>
          if strcmp0 basename (ident_name idn) then Some i
          else search_ident_array h basename rest
      | None => search_ident_array h basename rest
      end
  end.

(** The loop over the submodules; it stops at the first include without a
    submodule. *)
Fixpoint search_ident_inc (g : ident_graph) (basename : string) (inc : list (option nat))
  : option nat :=
  match inc with
  | [] => None
  | None :: _ => None
  | Some s :: rest =>
      match ig_module g !! s with
      | Some sub =>
          match search_ident_array (ig_ident g) basename (mi_ident sub) with
          | Some i => Some i
          | None => search_ident_inc g basename rest
          end
      | None => None
      end
  end.

(** The identity the two search loops of [resolve_base_ident_sub] stop at. *)
Definition search_base (g : ident_graph) (module : lys_module_idents) (basename : string)
  : option nat :=
  match search_ident_array (ig_ident g) basename (mi_ident module) with
  | Some i => Some i
  | None => search_ident_inc g basename (mi_inc module)
  end.

(** The check for a circular reference:
    [for (base_iter = base; base_iter; base_iter = base_iter->base)].
    Returns the identity the walk meets [ident] at, [Some None] when the
    chain ends without meeting it, and [None] when the walk has not ended
    within [fuel] steps. *)
Fixpoint circular_check (fuel : nat) (h : list lys_ident) (ident : nat)
  (base_iter : option nat) : option (option nat) :=
  match base_iter with
  | None => Some None
  | Some b =>
      if Nat.eqb ident b then Some (Some b)
      else
        match fuel with
        | O => None
        | S fuel' =>
            match h !! b with
            | Some bi => circular_check fuel' h ident (ident_base bi)
            | None => Some None
            end
        end
  end.

Definition set_ident_base (base : option nat) (i : lys_ident) : lys_ident :=
  {| ident_name := ident_name i; ident_base := base; ident_der := ident_der i |}.

(** [der[i] = ident; der[i + 1] = NULL] after the array has grown by one. *)
Definition add_der (ident : nat) (i : lys_ident) : lys_ident :=
  {| ident_name := ident_name i; ident_base := ident_base i;
     ident_der := Some (match ident_der i with
                        | Some der => der ++ [ident]
                        | None => [ident]
                        end) |}.

(** The loop that maintains the back-links:
    [while (base) { ...; base = base->base; }]. *)
Fixpoint add_backlinks (fuel : nat) (h : list lys_ident) (ident : nat) (base : option nat)
  : option (list lys_ident) :=
  match base with
  | None => Some h
  | Some b =>
      match fuel with
      | O => None
      | S fuel' =>
          match h !! b with
          | Some bi => add_backlinks fuel' (<[b := add_der ident bi]> h) ident (ident_base bi)
          | None => Some h
          end
      end
  end.

(** Result of [resolve_base_ident_sub]: the return value, [*ret], the
    identities after the call and the messages logged. *)
Record base_ident_result := {
  bi_rc : Z;
  bi_ret : option nat;
  bi_ident : list lys_ident;
  bi_log : list string
}.

(** [resolve_base_ident_sub(module, ident, basename, ret)]; [ret0] is the
    value of [*ret] on entry.  [None] when a walk of the base chain has not
    ended within [fuel] steps.  Allocation is assumed to succeed. *)
Definition resolve_base_ident_sub (fuel : nat) (g : ident_graph)
  (module : lys_module_idents) (ident : option nat) (basename : string)
  (ret0 : option nat) : option base_ident_result :=
  let h := ig_ident g in
  match search_base g module basename with
  | None =>
      Some {| bi_rc := EXIT_SUCCESS; bi_ret := ret0; bi_ident := h; bi_log := [] |}
  | Some base =>
      match ident with
      | None =>
          (* just search for type, so do not modify anything *)
          Some {| bi_rc := EXIT_SUCCESS; bi_ret := Some base; bi_ident := h; bi_log := [] |}
      | Some ident =>
          match circular_check fuel h ident (Some base) with
          | None => None
          | Some (Some base_iter) =>
              Some {| bi_rc := EXIT_FAILURE; bi_ret := ret0; bi_ident := h;
                      bi_log :=
                        [ LYE_INARG_msg
                            (match h !! base_iter with
                             | Some bi => ident_name bi
                             | None => ""
                             end) "base";
                          circular_msg basename ] |}
          | Some None =>
              (* checks done, store the result *)
              let h1 :=
                match h !! ident with
                | Some ii => <[ident := set_ident_base (Some base) ii]> h
                | None => h
                end in
              match add_backlinks fuel h1 ident (Some base) with
              | None => None
              | Some h2 =>
                  Some {| bi_rc := EXIT_SUCCESS; bi_ret := Some base;
                          bi_ident := h2; bi_log := [] |}
              end
          end
      end
  end.

(** The parts of [resolve_base_ident] that are not in these sources:
    [lys_get_import_module(module, NULL, 0, name, len)], which returns the
    module itself for a NULL name and otherwise the import with that name,
    and [lyp_check_status] on the referring identity (or type, [None]) and
    the base found. *)
Record ident_env := {
  lys_get_import_module : ident_graph -> nat -> option string -> option nat;
  lyp_check_status : ident_graph -> option nat -> nat -> Z
}.

(** [strchr(basename, ':')]: the offset of the first colon. *)
Fixpoint strchr_colon (s : string) : option nat :=
  match s with
  | EmptyString => None
  | String c rest =>
      if ceq c ":" then Some O
      else match strchr_colon rest with
           | Some n => Some (S n)
           | None => None
           end
  end.

(** The loop of [resolve_base_ident] over "all its submodules". *)
Fixpoint resolve_base_ident_inc (fuel : nat) (g : ident_graph) (ident : option nat)
  (name : string) (inc : list (option nat)) : option (option base_ident_result) :=
  match inc with
  | [] => Some None
  | None :: _ => Some None
  | Some s :: rest =>
      match ig_module g !! s with
      | None => Some None
      | Some sub =>
          match resolve_base_ident_sub fuel g sub ident name None with
          | None => None
          | Some r =>
              if negb (bi_rc r =? 0) then Some (Some r)
              else match bi_ret r with
                   | Some _ => Some (Some r)
                   | None => resolve_base_ident_inc fuel g ident name rest
                   end
          end
      end
  end.

(** [resolve_base_ident(module, ident, basename, parent, type)]: [ident] is
    the identity whose base is resolved, [None] when a type is filled (the
    identity found is then [bi_ret]). *)
Definition resolve_base_ident (E : ident_env) (fuel : nat) (g : ident_graph)
  (module : nat) (ident : option nat) (basename parent : string)
  : option base_ident_result :=
  let h := ig_ident g in
  let fail rc log := Some {| bi_rc := rc; bi_ret := None; bi_ident := h; bi_log := log |} in
  match ig_module g !! module with
  | None => fail (-1) []
  | Some m =>
      (* search for the base identity *)
      let '(mod_name, name) :=
        match strchr_colon basename with
        | Some len =>
            let name := cskip (S len) basename in
            if strncmp0 basename (mi_name m) len && negb (cnonzero (cchar (mi_name m) len))
            then (None, name)
            else if (len =? 0)%nat then (None, name)
            else (Some (String.substring 0 len basename), name)
        | None => (None, basename)
        end in
      (* get module where to search *)
      match lys_get_import_module E g module mod_name with
      | None => fail (-1) [LYE_INMOD_msg basename]
      | Some target =>
          match ig_module g !! target with
          | None => fail (-1) [LYE_INMOD_msg basename]
          | Some tm =>
              let finish (r : base_ident_result) :=
                if negb (bi_rc r =? 0)
                then Some {| bi_rc := EXIT_FAILURE; bi_ret := bi_ret r;
                             bi_ident := bi_ident r; bi_log := bi_log r |}
                else
                  match bi_ret r with
                  | Some found =>
                      (* check status *)
                      let g' := {| ig_ident := bi_ident r; ig_module := ig_module g |} in
                      if negb (lyp_check_status E g' ident found =? 0)
                      then Some {| bi_rc := -1; bi_ret := bi_ret r;
                                   bi_ident := bi_ident r; bi_log := bi_log r |}
                      else Some r
                  | None => fail EXIT_FAILURE [LYE_INRESOLV_msg parent basename]
                  end in
              (* search in the identified module ... *)
              match resolve_base_ident_sub fuel g tm ident name None with
              | None => None
              | Some r =>
                  if negb (bi_rc r =? 0) then finish r
                  else match bi_ret r with
                       | Some _ => finish r
                       | None =>
                           (* and all its submodules *)
                           match resolve_base_ident_inc fuel g ident name (mi_inc tm) with
                           | None => None
                           | Some (Some r) => finish r
                           | Some None =>
                               fail EXIT_FAILURE [LYE_INRESOLV_msg parent basename]
                           end
                       end
              end
          end
      end
  end.

(** ** The schema graph *)

(** [LYS_NODE].  The values of the enumeration are in tree_schema.h, which
    is not part of these sources; a node type is one constant, and a mask of
    node types ([a | b | c]) is the list of its constants. *)
Inductive LYS_NODE : Set :=
| LYS_UNKNOWN | LYS_AUGMENT | LYS_CONTAINER | LYS_CHOICE | LYS_LEAF | LYS_LEAFLIST
| LYS_LIST | LYS_ANYXML | LYS_GROUPING | LYS_CASE | LYS_INPUT | LYS_OUTPUT
| LYS_NOTIF | LYS_RPC | LYS_USES.

#[global] Instance LYS_NODE_eq_dec : EqDecision LYS_NODE.
Proof. solve_decision. Defined.

(** [nodetype & mask] *)
Definition nodetype_in (t : LYS_NODE) (mask : list LYS_NODE) : bool :=
  existsb (fun m => bool_decide (m = t)) mask.

(** Modelled from the spec: the config bits of [flags] of tree_schema.h,
    which is not among the sources: config true, config false, the mask of
    the two, and the mark of a config statement written on the node itself,
    a bit outside the mask. *)
Definition LYS_CONFIG_W : Z := 1.
Definition LYS_CONFIG_R : Z := 2.
Definition LYS_CONFIG_MASK : Z := 3.
Definition LYS_CONFIG_SET : Z := 4.

(** [struct lys_node] with the members of its variants that the resolver
    reads: the type base and [when] of a leaf, the [keys] of a list
    ([keys_size] is their number), the target of an augment.  Nodes live in
    one arena; a [struct lys_node *] is an index, [None] is NULL.  [prev] of
    the first sibling points to the last one. *)
Record lys_node := {
  node_name : option string;
  node_nodetype : LYS_NODE;
  node_flags : Z;
  node_module : nat;
  node_parent : option nat;
  node_child : option nat;
  node_next : option nat;
  node_prev : option nat;
  node_type_base : LY_DATA_TYPE;
  node_when : bool;
  node_keys : list (option nat);
  node_target_name : string;
  node_target : option nat
}.

Definition set_flags (f : Z) (n : lys_node) : lys_node :=
  {| node_name := node_name n; node_nodetype := node_nodetype n; node_flags := f;
     node_module := node_module n; node_parent := node_parent n;
     node_child := node_child n; node_next := node_next n; node_prev := node_prev n;
     node_type_base := node_type_base n; node_when := node_when n;
     node_keys := node_keys n; node_target_name := node_target_name n;
     node_target := node_target n |}.

Definition set_links (child next prev : option nat) (n : lys_node) : lys_node :=
  {| node_name := node_name n; node_nodetype := node_nodetype n;
     node_flags := node_flags n;
     node_module := node_module n; node_parent := node_parent n;
     node_child := child; node_next := next; node_prev := prev;
     node_type_base := node_type_base n; node_when := node_when n;
     node_keys := node_keys n; node_target_name := node_target_name n;
     node_target := node_target n |}.

Definition set_target (target : option nat) (n : lys_node) : lys_node :=
  {| node_name := node_name n; node_nodetype := node_nodetype n;
     node_flags := node_flags n;
     node_module := node_module n; node_parent := node_parent n;
     node_child := node_child n; node_next := node_next n; node_prev := node_prev n;
     node_type_base := node_type_base n; node_when := node_when n;
     node_keys := node_keys n; node_target_name := node_target_name n;
     node_target := target |}.

Definition set_keys (keys : list (option nat)) (n : lys_node) : lys_node :=
  {| node_name := node_name n; node_nodetype := node_nodetype n;
     node_flags := node_flags n;
     node_module := node_module n; node_parent := node_parent n;
     node_child := node_child n; node_next := node_next n; node_prev := node_prev n;
     node_type_base := node_type_base n; node_when := node_when n;
     node_keys := keys; node_target_name := node_target_name n;
     node_target := node_target n |}.

(** Modelled from the spec: [lys_parent] is in tree_schema.c, which is not
    part of these sources.  The children of an augment are spliced into the
    target's child list while the augment remains as metadata: the parent of
    a node placed by an augment is the augment's target. *)
Definition lys_parent (sch : list lys_node) (node : option nat) : option nat :=
  match node with
  | None => None
  | Some n =>
      match sch !! n with
      | None => None
      | Some nd =>
          match node_parent nd with
          | None => None
          | Some p =>
              match sch !! p with
              | Some pd =>
                  if bool_decide (node_nodetype pd = LYS_AUGMENT) then node_target pd
                  else Some p
              | None => Some p
              end
          end
      end
  end.

(** The options of [lys_getnext]. *)
Inductive getnext_option : Set :=
| LYS_GETNEXT_WITHCHOICE | LYS_GETNEXT_WITHCASE | LYS_GETNEXT_WITHGROUPING
| LYS_GETNEXT_WITHINOUT.

(** The functions of tree_schema.c and parser.c the resolver calls, which
    are not part of these sources:
    - [se_getnext sch parent module options]: the nodes that [lys_getnext]
      yields, in order, when called with NULL and then with the node it
      returned last;
    - [se_node_module]: [lys_node_module], the main module of a node;
    - [se_import_module sch module name]: [lys_get_import_module(module,
      NULL, 0, name, len)], the module itself for a NULL name;
    - [se_module_data]: the [data] of a module;
    - [se_main_module_name]: the name of [lys_main_module(module)];
    - [se_get_sibling sch siblings mod_name name mask]: [lys_get_sibling],
      its return value and [*ret];
    - [se_check_id sch node parent]: [lys_check_id(node, parent, NULL)];
    - [se_check_mandatory]: [lyp_check_mandatory];
    - [se_check_status sch node1 node2]: [lyp_check_status] on the flags,
      modules and names of two nodes. *)
Record schema_env := {
  se_getnext : list lys_node -> option nat -> nat -> list getnext_option -> list nat;
  se_node_module : list lys_node -> nat -> nat;
  se_import_module : list lys_node -> nat -> option string -> option nat;
  se_module_data : list lys_node -> nat -> option nat;
  se_main_module_name : nat -> string;
  se_get_sibling :
    list lys_node -> option nat -> string -> string -> list LYS_NODE -> Z * option nat;
  se_check_id : list lys_node -> nat -> nat -> Z;
  se_check_mandatory : list lys_node -> nat -> Z;
  se_check_status : list lys_node -> nat -> nat -> Z
}.

(** ** resolve.c: schema-nodeid resolution *)

(** The first [n] bytes [p] points at. *)
Definition cprefix (n : Z) (p : option string) : option string :=
  match p with
  | Some s => Some (String.substring 0 (Z.to_nat n) s)
  | None => None
  end.

(** [sibling->name && !strncmp(name, sibling->name, nam_len)
     && !sibling->name[nam_len]] *)
Definition name_match (name : option string) (nam_len : Z) (sibling_name : option string)
  : bool :=
  match name, sibling_name with
  | Some nm, Some sn =>
      strncmp0 nm sn (Z.to_nat nam_len) && negb (cnonzero (cchar sn (Z.to_nat nam_len)))
  | _, _ => false
  end.

(** [schema_nodeid_siblingcheck]: the return value (0 done, 1 continue, 2
    break, -1 error) with [*shorthand] and [*start] after the call. *)
Definition schema_nodeid_siblingcheck (E : schema_env) (sch : list lys_node)
  (sibling : nat) (sd : lys_node) (shorthand : Z) (id : string) (module : nat)
  (mod_name : option string) (start : option nat) : Z * Z * option nat :=
  (* module check *)
  match se_import_module E sch module mod_name with
  | None => (-1, shorthand, start)
  | Some prefix_mod =>
      if negb (Nat.eqb prefix_mod (se_node_module E sch sibling)) then (1, shorthand, start)
      else
        (* check for shorthand cases - then 'start' does not change *)
        let is_sh :=
          match lys_parent sch (Some sibling) with
          | Some p =>
              match sch !! p with
              | Some pd =>
                  bool_decide (node_nodetype pd = LYS_CHOICE)
                  && negb (bool_decide (node_nodetype sd = LYS_CASE))
              | None => false
              end
          | None => false
          end in
        let shorthand :=
          if is_sh && negb (shorthand =? -1)
          then (if shorthand =? 0 then 1 else 0)
          else shorthand in
        (* the result node? *)
        if negb (cnonzero (cchar id 0)) then
          if shorthand =? 1 then (1, shorthand, start) else (0, shorthand, start)
        else if negb is_sh then
          (* move down the tree, if possible *)
          if nodetype_in (node_nodetype sd) [LYS_LEAF; LYS_LEAFLIST; LYS_ANYXML]
          then (-1, shorthand, start)
          else (2, shorthand, node_child sd)
        else (2, shorthand, start)
  end.

(** How the inner [while] over the siblings ends. *)
Inductive sibling_scan : Set :=
| ScanFound (sibling : nat)
| ScanNoMatch
| ScanError
| ScanBreak (sibling : nat) (shorthand : Z) (start : option nat).

(** The inner [while ((sibling = lys_getnext(...)))] of the two resolvers;
    [ret_nodetype] is [None] where the source does not test the node type
    of the result. *)
Fixpoint scan_siblings (E : schema_env) (sch : list lys_node)
  (ret_nodetype : option (list LYS_NODE)) (name : option string) (nam_len : Z)
  (id : string) (module : nat) (mod_name : option string)
  (siblings : list nat) (shorthand : Z) (start : option nat) : sibling_scan :=
  match siblings with
  | [] => ScanNoMatch
  | sibling :: rest =>
      match sch !! sibling with
      | None =>
          scan_siblings E sch ret_nodetype name nam_len id module mod_name rest shorthand start
      | Some sd =>
          (* name match *)
          if name_match name nam_len (node_name sd) then
            let '(r, shorthand', start') :=
              schema_nodeid_siblingcheck E sch sibling sd shorthand id module mod_name start in
            if r =? 0 then
              match ret_nodetype with
              | Some mask =>
                  if negb (nodetype_in (node_nodetype sd) mask)
                  then (* wrong node type, too bad *)
                    scan_siblings E sch ret_nodetype name nam_len id module mod_name rest
                      shorthand' start'
                  else ScanFound sibling
              | None => ScanFound sibling
              end
            else if r =? 1 then
              scan_siblings E sch ret_nodetype name nam_len id module mod_name rest
                shorthand' start'
            else if r =? 2 then ScanBreak sibling shorthand' start'
            else ScanError
          else
            scan_siblings E sch ret_nodetype name nam_len id module mod_name rest shorthand start
      end
  end.

(** Result of a resolver: the return value and [*ret] after the call. *)
Record nodeid_result := {
  nr_rc : Z;
  nr_ret : option nat
}.

(** The loop [while (1)] that the two resolvers share, from the point where
    a segment has been parsed: [id] is what remains of the nodeid and [off]
    is [id - nodeid]; [sn] is the segment just parsed.  The resolvers differ
    in the options of [lys_getnext], in the module given to it
    ([getnext_mod]) and to the sibling check ([module]), in the test of the
    node type of the result and in [no_innerlist].  [fuel] bounds the number
    of segments; running out of it is the "cannot get here" of the
    sources. *)
Fixpoint schema_nodeid_loop (E : schema_env) (sch : list lys_node)
  (options : list getnext_option) (ret_nodetype : option (list LYS_NODE))
  (no_innerlist : bool) (getnext_mod module : nat)
  (fuel : nat) (id : string) (off : Z) (sn : schema_nodeid) (shorthand : Z)
  (start : option nat) (ret0 : option nat) : nodeid_result :=
  match fuel with
  | O => {| nr_rc := -1; nr_ret := ret0 |}
  | S fuel' =>
      match
        scan_siblings E sch ret_nodetype (sn_name sn) (sn_nam_len sn) id module
          (cprefix (sn_mod_name_len sn) (sn_mod_name sn))
          (se_getnext E sch (lys_parent sch start) getnext_mod options) shorthand start
      with
      | ScanFound sibling => {| nr_rc := EXIT_SUCCESS; nr_ret := Some sibling |}
      | ScanError => {| nr_rc := -1; nr_ret := ret0 |}
      | ScanNoMatch => (* no match *) {| nr_rc := EXIT_SUCCESS; nr_ret := None |}
      | ScanBreak sibling shorthand start =>
          if no_innerlist
             && match sch !! sibling with
                | Some sd => bool_decide (node_nodetype sd = LYS_LIST)
                | None => false
                end
          then {| nr_rc := -2; nr_ret := None |}
          else
            let sn' := parse_schema_nodeid id (sn_is_relative sn) in
            if sn_ret sn' <? 1 then {| nr_rc := (off - sn_ret sn') + 1; nr_ret := ret0 |}
            else
              schema_nodeid_loop E sch options ret_nodetype no_innerlist getnext_mod module
                fuel' (cskip (Z.to_nat (sn_ret sn')) id) (off + sn_ret sn') sn' shorthand
                start ret0
      end
  end.

(** [resolve_augment_schema_nodeid(nodeid, start, module, ret)]: exactly one
    of [start] (descendant nodeid) and [module] (absolute nodeid) is
    given. *)
Definition resolve_augment_schema_nodeid (E : schema_env) (sch : list lys_node)
  (nodeid : string) (start : option nat) (module : option nat) (ret0 : option nat)
  : nodeid_result :=
  let sn := parse_schema_nodeid nodeid (-1) in
  if sn_ret sn <? 1 then {| nr_rc := (0 - sn_ret sn) + 1; nr_ret := ret0 |}
  else
    let id := cskip (Z.to_nat (sn_ret sn)) nodeid in
    let is_relative := negb (sn_is_relative sn =? 0) in
    match (if is_relative then
             (* descendant-schema-nodeid *)
             match start with
             | None => None
             | Some s =>
                 match sch !! s with
                 | Some sd => Some (node_module sd, node_module sd, start)
                 | None => None
                 end
             end
           else
             (* absolute-schema-nodeid *)
             match module with
             | None => None
             | Some m =>
                 match se_import_module E sch m
                         (cprefix (sn_mod_name_len sn) (sn_mod_name sn)) with
                 | None => None
                 | Some start_mod => Some (m, start_mod, se_module_data E sch start_mod)
                 end
             end)
    with
    | None => {| nr_rc := -1; nr_ret := ret0 |}
    | Some (module, start_mod, start) =>
        schema_nodeid_loop E sch
          [LYS_GETNEXT_WITHCHOICE; LYS_GETNEXT_WITHCASE; LYS_GETNEXT_WITHINOUT] None false
          start_mod module (S (String.length nodeid)) id (sn_ret sn) sn 0 start ret0
    end.

(** [resolve_descendant_schema_nodeid(nodeid, start, ret_nodetype,
    check_shorthand, no_innerlist, ret)] *)
Definition resolve_descendant_schema_nodeid (E : schema_env) (sch : list lys_node)
  (nodeid : string) (start : nat) (ret_nodetype : list LYS_NODE)
  (check_shorthand no_innerlist : bool) (ret0 : option nat) : nodeid_result :=
  let shorthand := if check_shorthand then 0 else -1 in
  match sch !! start with
  | None => {| nr_rc := -1; nr_ret := ret0 |}
  | Some sd =>
      let module := node_module sd in
      let sn := parse_schema_nodeid nodeid (-1) in
      if sn_ret sn <? 1 then {| nr_rc := (0 - sn_ret sn) + 1; nr_ret := ret0 |}
      else if sn_is_relative sn =? 0 then {| nr_rc := -1; nr_ret := ret0 |}
      else
        schema_nodeid_loop E sch [LYS_GETNEXT_WITHCHOICE; LYS_GETNEXT_WITHCASE]
          (Some ret_nodetype) no_innerlist module module (S (String.length nodeid))
          (cskip (Z.to_nat (sn_ret sn)) nodeid) (sn_ret sn) sn shorthand (Some start) ret0
  end.

(** *** Statement vocabulary: the syntax of a nodeid by itself *)

(** The offset at which the segment-by-segment parse of what remains of a
    nodeid fails, [None] when every segment parses: [id] is the rest at
    offset [off], [first] tells the first segment (parsed even when
    empty). *)
Fixpoint nodeid_syntax_scan (fuel : nat) (id : string) (off : Z) (is_relative : Z)
  (first : bool) : option Z :=
  match fuel with
  | O => None
  | S fuel' =>
      if negb first && negb (cnonzero (cchar id 0)) then None
      else
        let sn := parse_schema_nodeid id is_relative in
        if sn_ret sn <? 1 then Some (off - sn_ret sn)
        else nodeid_syntax_scan fuel' (cskip (Z.to_nat (sn_ret sn)) id) (off + sn_ret sn)
               (sn_is_relative sn) false
  end.

Definition nodeid_syntax_error (nodeid : string) : option Z :=
  nodeid_syntax_scan (S (S (String.length nodeid))) nodeid 0 (-1) true.


(** *** Statement vocabulary: the walk of a resolver down the schema *)

(** A point of the walk: what remains of the nodeid after the segment
    parsed last, the offset of the rest in the nodeid, this segment, the
    state of the shorthand check and the scope. *)
Record nodeid_point := {
  np_id : string;
  np_off : Z;
  np_sn : schema_nodeid;
  np_shorthand : Z;
  np_start : option nat
}.

(** The point after the first segment [sn] of [nodeid]. *)
Definition first_point (nodeid : string) (sn : schema_nodeid) (shorthand : Z)
  (start : option nat) : nodeid_point :=
  {| np_id := cskip (Z.to_nat (sn_ret sn)) nodeid; np_off := sn_ret sn; np_sn := sn;
     np_shorthand := shorthand; np_start := start |}.

(** The segment that follows the point [p]. *)
Definition next_segment (p : nodeid_point) : schema_nodeid :=
  parse_schema_nodeid (np_id p) (sn_is_relative (np_sn p)).

(** The point after the segment that follows [p], in the scope [start]. *)
Definition next_point (p : nodeid_point) (shorthand : Z) (start : option nat)
  : nodeid_point :=
  {| np_id := cskip (Z.to_nat (sn_ret (next_segment p))) (np_id p);
     np_off := np_off p + sn_ret (next_segment p);
     np_sn := next_segment p;
     np_shorthand := shorthand;
     np_start := start |}.

Section NodeidWalk.

Variable E : schema_env.
Variable sch : list lys_node.
Variable options : list getnext_option.
Variable ret_nodetype : option (list LYS_NODE).
Variable no_innerlist : bool.
Variables getnext_mod module : nat.

(** The search for the segment of [p] among the nodes of its scope. *)
Definition point_scan (p : nodeid_point) : sibling_scan :=
  scan_siblings E sch ret_nodetype (sn_name (np_sn p)) (sn_nam_len (np_sn p)) (np_id p)
    module (cprefix (sn_mod_name_len (np_sn p)) (sn_mod_name (np_sn p)))
    (se_getnext E sch (lys_parent sch (np_start p)) getnext_mod options)
    (np_shorthand p) (np_start p).

(** The node is a list and inner lists are refused. *)
Definition inner_list (sibling : nat) : bool :=
  no_innerlist
  && match sch !! sibling with
     | Some sd => bool_decide (node_nodetype sd = LYS_LIST)
     | None => false
     end.

(** The resolver at the points of its walk. *)
Definition loop_from (fuel : nat) (p : nodeid_point) (ret0 : option nat) : nodeid_result :=
  schema_nodeid_loop E sch options ret_nodetype no_innerlist getnext_mod module fuel
    (np_id p) (np_off p) (np_sn p) (np_shorthand p) (np_start p) ret0.

(** The walk from [p] reaches [q]: at every point before [q] the segment
    names a node to go on from, the nodeid goes on, this node is not a
    refused list, and the next segment parses. *)
Inductive walk_reaches : nodeid_point -> nodeid_point -> Prop :=
| wr_here (p : nodeid_point) : walk_reaches p p
| wr_down (p q : nodeid_point) (sibling : nat) (shorthand : Z) (start : option nat) :
    point_scan p = ScanBreak sibling shorthand start ->
    inner_list sibling = false ->
    1 <= sn_ret (next_segment p) ->
    walk_reaches (next_point p shorthand start) q ->
    walk_reaches p q.

(** How the walk ends at the point [q], with the value returned and [*ret]
    after the call, [ret0] being [*ret] before it: the segment is the last
    one and names the node [s] (success); no node of the scope matches
    (success, NULL); the search fails, for an unknown module prefix or a
    step below a leaf (-1); the node to go on from is a refused list (-2,
    NULL); or the next segment is malformed, the value returned being one
    more than the offset at which its parse fails. *)
Inductive point_outcome (q : nodeid_point) (ret0 : option nat) : nodeid_result -> Prop :=
| po_found (s : nat) :
    point_scan q = ScanFound s ->
    point_outcome q ret0 {| nr_rc := EXIT_SUCCESS; nr_ret := Some s |}
| po_no_match :
    point_scan q = ScanNoMatch ->
    point_outcome q ret0 {| nr_rc := EXIT_SUCCESS; nr_ret := None |}
| po_error :
    point_scan q = ScanError ->
    point_outcome q ret0 {| nr_rc := -1; nr_ret := ret0 |}
| po_inner_list (sibling : nat) (shorthand : Z) (start : option nat) :
    point_scan q = ScanBreak sibling shorthand start ->
    inner_list sibling = true ->
    point_outcome q ret0 {| nr_rc := -2; nr_ret := None |}
| po_syntax (sibling : nat) (shorthand : Z) (start : option nat) :
    point_scan q = ScanBreak sibling shorthand start ->
    inner_list sibling = false ->
    sn_ret (next_segment q) < 1 ->
    point_outcome q ret0
      {| nr_rc := (np_off q - sn_ret (next_segment q)) + 1; nr_ret := ret0 |}.

End NodeidWalk.

(** The scope in which [resolve_augment_schema_nodeid] starts, after a
    first segment [sn]: the module given to the sibling check, the module
    given to [lys_getnext] and the first node of the scope; [None] where the
    resolver returns -1 (no start node for a descendant nodeid, no module
    or an unknown prefix for an absolute one). *)
Definition augment_scope (E : schema_env) (sch : list lys_node) (sn : schema_nodeid)
  (start module : option nat) : option (nat * nat * option nat) :=
  if negb (sn_is_relative sn =? 0) then
    match start with
    | None => None
    | Some s =>
        match sch !! s with
        | Some sd => Some (node_module sd, node_module sd, start)
        | None => None
        end
    end
  else
    match module with
    | None => None
    | Some m =>
        match se_import_module E sch m (cprefix (sn_mod_name_len sn) (sn_mod_name sn)) with
        | None => None
        | Some start_mod => Some (m, start_mod, se_module_data E sch start_mod)
        end
    end.
(** ** resolve.c: augments *)

(** The codes given to LOGVAL. *)
Inductive LY_ECODE : Set :=
| LYE_INCHAR | LYE_INRESOLV | LYE_INCHILDSTMT | LYE_INARG | LYE_SPEC | LYE_DUPID
| LYE_KEY_NLEAF | LYE_KEY_TYPE | LYE_KEY_CONFIG | LYE_KEY_MISS | LYE_KEY_DUP
| LYE_INSTATUS.

(** [LY_TREE_FOR(first, elem)]: the siblings from [first] on along [next];
    [fuel] bounds the walk. *)
Fixpoint sibling_chain (fuel : nat) (sch : list lys_node) (first : option nat) : list nat :=
  match fuel, first with
  | S fuel', Some n =>
      n :: match sch !! n with
           | Some nd => sibling_chain fuel' sch (node_next nd)
           | None => []
           end
  | _, _ => []
  end.

(** [inherit_config_flag(node)]: over the siblings from [node] on, each
    takes over the config bits of its parent and hands them down to its
    children.  [None] when the walk has not ended within [fuel] nodes or
    meets a node without a parent. *)
Fixpoint inherit_config_flag (fuel : nat) (sch : list lys_node) (node : option nat)
  : option (list lys_node) :=
  match node with
  | None => Some sch
  | Some n =>
      match fuel with
      | O => None
      | S fuel' =>
          match sch !! n, lys_parent sch (Some n) with
          | Some nd, Some p =>
              match sch !! p with
              | Some pd =>
                  let sch1 :=
                    <[n := set_flags
                             (Z.lor (node_flags nd) (Z.land (node_flags pd) LYS_CONFIG_MASK))
                             nd]> sch in
                  match inherit_config_flag fuel' sch1 (node_child nd) with
                  | Some sch2 => inherit_config_flag fuel' sch2 (node_next nd)
                  | None => None
                  end
              | None => None
              end
          | _, _ => None
          end
      end
  end.

(** [LY_TREE_FOR(aug->child, sub) { inherit_config_flag(sub); }] *)
Fixpoint inherit_config_each (fuel : nat) (sch : list lys_node) (subs : list nat)
  : option (list lys_node) :=
  match subs with
  | [] => Some sch
  | sub :: rest =>
      match inherit_config_flag fuel sch (Some sub) with
      | Some sch' => inherit_config_each fuel sch' rest
      | None => None
      end
  end.

(** Result of [resolve_augment]: the return value, the schema after the
    call and the codes logged. *)
Record augment_result := {
  ar_rc : Z;
  ar_schema : list lys_node;
  ar_log : list LY_ECODE
}.

(** "reconnect augmenting data into the target - add them to the target
    child list" *)
Definition splice_children (sch : list lys_node) (target : nat) (td : lys_node)
  (aug_child : nat) : list lys_node :=
  match node_child td with
  | Some tc =>
      match sch !! tc, sch !! aug_child with
      | Some tcd, Some acd =>
          match node_prev tcd with
          | Some sub =>
              (* sub->next = aug->child *)
              let sch :=
                match sch !! sub with
                | Some sd =>
                    <[sub := set_links (node_child sd) (Some aug_child) (node_prev sd) sd]> sch
                | None => sch
                end in
              (* aug->target->child->prev = aug->child->prev *)
              let sch :=
                match sch !! tc with
                | Some tcd' =>
                    <[tc := set_links (node_child tcd') (node_next tcd') (node_prev acd) tcd']> sch
                | None => sch
                end in
              (* aug->child->prev = sub *)
              match sch !! aug_child with
              | Some acd' =>
                  <[aug_child := set_links (node_child acd') (node_next acd') (Some sub) acd']> sch
              | None => sch
              end
          | None => sch
          end
      | _, _ => sch
      end
  | None => <[target := set_links (Some aug_child) (node_next td) (node_prev td) td]> sch
  end.

(** [resolve_augment(aug, siblings)]; [None] as for
    [inherit_config_flag]. *)
Definition resolve_augment (E : schema_env) (fuel : nat) (sch : list lys_node)
  (aug : nat) (siblings : option nat) : option augment_result :=
  match sch !! aug with
  | None => None
  | Some ad =>
      (* resolve target node *)
      let r := resolve_augment_schema_nodeid E sch (node_target_name ad) siblings
                 (match siblings with Some _ => None | None => Some (node_module ad) end)
                 (node_target ad) in
      let sch := <[aug := set_target (nr_ret r) ad]> sch in
      let ad := set_target (nr_ret r) ad in
      let ret rc log := Some {| ar_rc := rc; ar_schema := sch; ar_log := log |} in
      if nr_rc r =? -1 then ret (-1) []
      else if 0 <? nr_rc r then ret (-1) [LYE_INCHAR]
      else
        match node_target ad with
        | None => ret EXIT_FAILURE [LYE_INRESOLV]
        | Some target =>
            match node_child ad, sch !! target with
            | None, _ => (* nothing to do *) ret EXIT_SUCCESS []
            | Some _, None => None
            | Some aug_child, Some td =>
                let subs := sibling_chain fuel sch (Some aug_child) in
                let sub_types :=
                  map (fun s => match sch !! s with
                                | Some sd => node_nodetype sd
                                | None => LYS_UNKNOWN
                                end) subs in
                (* check for mandatory nodes *)
                if bool_decide (node_parent ad = None)
                   && negb (Nat.eqb (se_node_module E sch aug) (se_node_module E sch target))
                   && negb (se_check_mandatory E sch aug =? 0)
                then ret (-1) [LYE_INCHILDSTMT; LYE_SPEC]
                else
                  (* check augment target type and then augment nodes type *)
                  let bad_sub :=
                    if nodetype_in (node_nodetype td)
                         [LYS_CONTAINER; LYS_LIST; LYS_CASE; LYS_INPUT; LYS_OUTPUT; LYS_NOTIF]
                    then Some (negb (forallb (fun t => nodetype_in t
                                 [LYS_ANYXML; LYS_CONTAINER; LYS_LEAF; LYS_LIST; LYS_LEAFLIST;
                                  LYS_USES; LYS_CHOICE]) sub_types))
                    else if bool_decide (node_nodetype td = LYS_CHOICE)
                    then Some (negb (forallb (fun t => nodetype_in t
                                 [LYS_CASE; LYS_ANYXML; LYS_CONTAINER; LYS_LEAF; LYS_LIST;
                                  LYS_LEAFLIST]) sub_types))
                    else None in
                  match bad_sub with
                  | None => ret (-1) [LYE_INARG; LYE_SPEC]
                  | Some true => ret (-1) [LYE_INCHILDSTMT; LYE_SPEC]
                  | Some false =>
                      (* inherit config information from parent *)
                      let sch :=
                        <[aug := set_flags
                                   (Z.lor (node_flags ad)
                                      (Z.land (node_flags td) LYS_CONFIG_MASK)) ad]> sch in
                      match inherit_config_each fuel sch subs with
                      | None => None
                      | Some sch =>
                          (* check identifier uniqueness as in lys_node_addchild() *)
                          if negb (forallb (fun s => se_check_id E sch s target =? 0) subs)
                          then Some {| ar_rc := -1; ar_schema := sch; ar_log := [LYE_DUPID] |}
                          else
                            match sch !! target with
                            | Some td =>
                                Some {| ar_rc := EXIT_SUCCESS;
                                        ar_schema := splice_children sch target td aug_child;
                                        ar_log := [] |}
                            | None => None
                            end
                      end
                  end
            end
        end
  end.

(** ** resolve.c: list keys *)

(** [strpbrk(s, " \t\n")]: the offset of the first blank, tab or line
    feed. *)
Fixpoint strpbrk_blank (s : string) : option nat :=
  match s with
  | EmptyString => None
  | String c rest =>
      if (char_code c =? 32) || (char_code c =? 9) || (char_code c =? 10) then Some O
      else match strpbrk_blank rest with
           | Some n => Some (S n)
           | None => None
           end
  end.

(** "get the key name": the name at [keys_str] and [value] after the white
    space has been skipped, [None] for NULL. *)
Definition next_key (keys_str : string) : string * option string :=
  match strpbrk_blank keys_str with
  | Some len =>
      (String.substring 0 len keys_str, Some (skip_while isspace (cskip len keys_str)))
  | None => (keys_str, None)
  end.

(** [check_key(list, index, name, len)] on the array [keys]: the return
    value and the codes logged; [None] when the key has no parent. *)
Definition check_key (sch : list lys_node) (ld : lys_node) (keys : list (option nat))
  (index : nat) : option (Z * list LY_ECODE) :=
  match keys !! index with
  | Some (Some key) =>
      match sch !! key with
      | None => None
      | Some kd =>
          (* uniqueness *)
          if existsb (fun kj => bool_decide (kj = Some key)) (take index keys)
          then Some (-1, [LYE_KEY_DUP])
          (* key is a leaf *)
          else if negb (bool_decide (node_nodetype kd = LYS_LEAF))
          then Some (-1, [LYE_KEY_NLEAF])
          (* type of the leaf is not built-in empty *)
          else if bool_decide (node_type_base kd = LY_TYPE_EMPTY)
          then Some (-1, [LYE_KEY_TYPE])
          (* config attribute is the same as of the list *)
          else if negb (Z.land (node_flags ld) LYS_CONFIG_MASK
                        =? Z.land (node_flags kd) LYS_CONFIG_MASK)
          then Some (-1, [LYE_KEY_CONFIG])
          else
            match node_parent kd with
            | None => None
            | Some p =>
                match sch !! p with
                | None => None
                | Some pd =>
                    (* key is not placed from augment *)
                    if bool_decide (node_nodetype pd = LYS_AUGMENT)
                    then Some (-1, [LYE_KEY_MISS; LYE_SPEC])
                    (* key is not when-conditional *)
                    else if node_when kd then Some (-1, [LYE_INCHILDSTMT; LYE_SPEC])
                    else Some (EXIT_SUCCESS, [])
                end
            end
      end
  | _ => (* existence *) Some (-1, [LYE_KEY_MISS])
  end.

(** The loop of [resolve_list_keys] with [n] keys to go from index [i]: the
    return value, the array [keys] and the codes logged.  The functions it
    calls do not read [list->keys], the only member it writes; they are
    given the schema as it is on entry.  [None] when the source reads
    through a NULL pointer ([keys_str] after the last name, a key without
    parent). *)
Fixpoint resolve_list_keys_loop (E : schema_env) (sch : list lys_node) (list_node : nat)
  (ld : lys_node) (n i : nat) (keys : list (option nat)) (keys_str : option string)
  : option (Z * list (option nat) * list LY_ECODE) :=
  match n with
  | O => Some (EXIT_SUCCESS, keys, [])
  | S n' =>
      match keys_str with
      | None => None
      | Some ks =>
          let '(name, value) := next_key ks in
          let '(rc, ret) :=
            se_get_sibling E sch (node_child ld) (se_main_module_name E (node_module ld))
              name [LYS_LEAF] in
          let keys := <[i := ret]> keys in
          if negb (rc =? 0) then Some (EXIT_FAILURE, keys, [LYE_INRESOLV])
          else
            match check_key sch ld keys i with
            | None => None
            | Some (c, log) =>
                if negb (c =? 0) then Some (-1, keys, log)
                else
                  match ret with
                  | None => None
                  | Some key =>
                      (* check status *)
                      if negb (se_check_status E sch list_node key =? 0)
                      then Some (-1, keys, [LYE_INSTATUS])
                      else resolve_list_keys_loop E sch list_node ld n' (S i) keys value
                  end
            end
      end
  end.

(** [resolve_list_keys(list, keys_str)] *)
Definition resolve_list_keys (E : schema_env) (sch : list lys_node) (list_node : nat)
  (keys_str : string) : option (Z * list lys_node * list LY_ECODE) :=
  match sch !! list_node with
  | None => None
  | Some ld =>
      match resolve_list_keys_loop E sch list_node ld (length (node_keys ld)) 0
              (node_keys ld) (Some keys_str) with
      | Some (rc, keys, log) => Some (rc, <[list_node := set_keys keys ld]> sch, log)
      | None => None
      end
  end.

(** *** Statement vocabulary for list keys *)

(** The first [n] key names, as the loop cuts them. *)
Fixpoint key_names (n : nat) (keys_str : option string) : option (list string) :=
  match n with
  | O => Some []
  | S n' =>
      match keys_str with
      | None => None
      | Some ks =>
          match key_names n' (snd (next_key ks)) with
          | Some l => Some (fst (next_key ks) :: l)
          | None => None
          end
      end
  end.

(** The conditions [check_key] tests, on the key stored at [index]. *)
Definition key_checked (sch : list lys_node) (ld : lys_node) (keys : list (option nat))
  (index : nat) (key : nat) (kd : lys_node) (p : nat) (pd : lys_node) : Prop :=
  keys !! index = Some (Some key) /\
  sch !! key = Some kd /\
  (forall j, (j < index)%nat -> keys !! j <> Some (Some key)) /\
  node_nodetype kd = LYS_LEAF /\
  node_type_base kd <> LY_TYPE_EMPTY /\
  Z.land (node_flags ld) LYS_CONFIG_MASK = Z.land (node_flags kd) LYS_CONFIG_MASK /\
  node_parent kd = Some p /\ sch !! p = Some pd /\ node_nodetype pd <> LYS_AUGMENT /\
  node_when kd = false.

(** The name [name] resolves to the node [key]: [lys_get_sibling], asked
    for a leaf of this name among the children of the list, returns it. *)
Definition key_found (E : schema_env) (sch : list lys_node) (ld : lys_node)
  (name : string) (key : nat) : Prop :=
  se_get_sibling E sch (node_child ld) (se_main_module_name E (node_module ld))
    name [LYS_LEAF] = (0, Some key).

(** No earlier key of the list is the node [key]. *)
Definition key_distinct (keys : list (option nat)) (index key : nat) : Prop :=
  forall j, (j < index)%nat -> keys !! j <> Some (Some key).

(** The key at [index], named [name], passes every test of the loop. *)
Definition key_passes (E : schema_env) (sch : list lys_node) (list_node : nat)
  (ld : lys_node) (keys : list (option nat)) (index : nat) (name : string) : Prop :=
  exists key kd p pd,
    key_found E sch ld name key /\
    key_checked sch ld keys index key kd p pd /\
    se_check_status E sch list_node key = 0.

(** Modelled from the spec: [lys_get_sibling] (tree_schema.c) is not part
    of these sources.  What is assumed of it: with success it returns a
    node, and this node is one of the siblings it was given, has the name
    asked for and one of the node types asked for. *)
Definition get_sibling_among (E : schema_env) (sch : list lys_node) : Prop :=
  forall siblings mod_name name types ret,
    se_get_sibling E sch siblings mod_name name types = (0, ret) ->
    exists key kd,
      ret = Some key /\
      In key (sibling_chain (length sch) sch siblings) /\
      sch !! key = Some kd /\
      node_name kd = Some name /\
      nodetype_in (node_nodetype kd) types = true.

(** The conditions on the key at [index], named [name]: the name resolves
    to a node [key] stored at [index]; [key] is an immediate child of the
    list, a leaf of this name; no earlier key is the same node; its type is
    not the built-in empty; it has the config of the list; it is not placed
    by an augment; it has no when; and its status fits the list's. *)
Definition key_accepted (E : schema_env) (sch : list lys_node) (list_node : nat)
  (ld : lys_node) (keys : list (option nat)) (index : nat) (name : string) : Prop :=
  exists key kd p pd,
    key_found E sch ld name key /\
    keys !! index = Some (Some key) /\
    In key (sibling_chain (length sch) sch (node_child ld)) /\
    sch !! key = Some kd /\
    node_name kd = Some name /\
    node_nodetype kd = LYS_LEAF /\
    key_distinct keys index key /\
    node_type_base kd <> LY_TYPE_EMPTY /\
    Z.land (node_flags ld) LYS_CONFIG_MASK = Z.land (node_flags kd) LYS_CONFIG_MASK /\
    node_parent kd = Some p /\ sch !! p = Some pd /\ node_nodetype pd <> LYS_AUGMENT /\
    node_when kd = false /\
    se_check_status E sch list_node key = 0.

(** The refusal of the key at [index], named [name]: the first condition it
    breaks, in the order in which they are tested, with the value returned
    and the codes logged for it. *)
Inductive key_refused (E : schema_env) (sch : list lys_node) (list_node : nat)
  (ld : lys_node) (keys : list (option nat)) (index : nat) (name : string)
  : Z -> list LY_ECODE -> Prop :=
| kr_unresolved (c : Z) (ret : option nat) :
    (* the name denotes no leaf among the children *)
    se_get_sibling E sch (node_child ld) (se_main_module_name E (node_module ld))
      name [LYS_LEAF] = (c, ret) ->
    c <> 0 ->
    key_refused E sch list_node ld keys index name EXIT_FAILURE [LYE_INRESOLV]
| kr_missing :
    (* no node is stored for the key *)
    se_get_sibling E sch (node_child ld) (se_main_module_name E (node_module ld))
      name [LYS_LEAF] = (0, None) ->
    key_refused E sch list_node ld keys index name (-1) [LYE_KEY_MISS]
| kr_duplicate (key j : nat) :
    (* the node is an earlier key of the list *)
    key_found E sch ld name key ->
    (j < index)%nat -> keys !! j = Some (Some key) ->
    key_refused E sch list_node ld keys index name (-1) [LYE_KEY_DUP]
| kr_not_leaf (key : nat) (kd : lys_node) :
    key_found E sch ld name key -> key_distinct keys index key ->
    sch !! key = Some kd ->
    node_nodetype kd <> LYS_LEAF ->
    key_refused E sch list_node ld keys index name (-1) [LYE_KEY_NLEAF]
| kr_type_empty (key : nat) (kd : lys_node) :
    key_found E sch ld name key -> key_distinct keys index key ->
    sch !! key = Some kd -> node_nodetype kd = LYS_LEAF ->
    node_type_base kd = LY_TYPE_EMPTY ->
    key_refused E sch list_node ld keys index name (-1) [LYE_KEY_TYPE]
| kr_config (key : nat) (kd : lys_node) :
    key_found E sch ld name key -> key_distinct keys index key ->
    sch !! key = Some kd -> node_nodetype kd = LYS_LEAF ->
    node_type_base kd <> LY_TYPE_EMPTY ->
    Z.land (node_flags ld) LYS_CONFIG_MASK <> Z.land (node_flags kd) LYS_CONFIG_MASK ->
    key_refused E sch list_node ld keys index name (-1) [LYE_KEY_CONFIG]
| kr_augment (key : nat) (kd : lys_node) (p : nat) (pd : lys_node) :
    key_found E sch ld name key -> key_distinct keys index key ->
    sch !! key = Some kd -> node_nodetype kd = LYS_LEAF ->
    node_type_base kd <> LY_TYPE_EMPTY ->
    Z.land (node_flags ld) LYS_CONFIG_MASK = Z.land (node_flags kd) LYS_CONFIG_MASK ->
    node_parent kd = Some p -> sch !! p = Some pd ->
    node_nodetype pd = LYS_AUGMENT ->
    key_refused E sch list_node ld keys index name (-1) [LYE_KEY_MISS; LYE_SPEC]
| kr_when (key : nat) (kd : lys_node) (p : nat) (pd : lys_node) :
    key_found E sch ld name key -> key_distinct keys index key ->
    sch !! key = Some kd -> node_nodetype kd = LYS_LEAF ->
    node_type_base kd <> LY_TYPE_EMPTY ->
    Z.land (node_flags ld) LYS_CONFIG_MASK = Z.land (node_flags kd) LYS_CONFIG_MASK ->
    node_parent kd = Some p -> sch !! p = Some pd ->
    node_nodetype pd <> LYS_AUGMENT ->
    node_when kd = true ->
    key_refused E sch list_node ld keys index name (-1) [LYE_INCHILDSTMT; LYE_SPEC]
| kr_status (key : nat) (kd : lys_node) (p : nat) (pd : lys_node) :
    key_found E sch ld name key ->
    key_checked sch ld keys index key kd p pd ->
    se_check_status E sch list_node key <> 0 ->
    key_refused E sch list_node ld keys index name (-1) [LYE_INSTATUS].

(** ** Schema trees of containers, lists and leaves *)

Definition mk_node (name : string) (nodetype : LYS_NODE) (flags : Z) (module : nat)
  (parent child next prev : option nat) : lys_node :=
  {| node_name := Some name; node_nodetype := nodetype; node_flags := flags;
     node_module := module; node_parent := parent; node_child := child;
     node_next := next; node_prev := prev; node_type_base := LY_TYPE_STRING;
     node_when := false; node_keys := []; node_target_name := ""; node_target := None |}.

(** The top-level data nodes of a module, in arena order. *)
Definition top_level (sch : list lys_node) (module : nat) : list nat :=
  List.filter
    (fun n => match sch !! n with
              | Some nd =>
                  bool_decide (node_parent nd = None) && Nat.eqb (node_module nd) module
                  && negb (bool_decide (node_nodetype nd = LYS_AUGMENT))
              | None => false
              end)
    (seq 0 (length sch)).

Fixpoint module_index (names : list string) (name : string) (i : nat) : option nat :=
  match names with
  | [] => None
  | n :: rest => if String.eqb n name then Some i else module_index rest name (S i)
  end.

(** Modelled from the spec: the navigation and lookup functions of
    tree_schema.c and parser.c are not part of these sources.  For schema
    trees made of containers, lists and leaves (no uses, choice, case,
    grouping, input or output), in a context whose modules have the names
    [names]: [lys_getnext] yields each child of the parent once, in order,
    and the top-level nodes of the module for a NULL parent; a NULL name
    denotes the module itself and a name the module so called;
    [lys_get_sibling] scans the siblings for the name and the node type;
    [lys_check_id] refuses a name a child of the parent already has; no node
    is mandatory and every status is current. *)
Definition plain_env (names : list string) : schema_env :=
  {| se_getnext := fun sch parent module _ =>
       match parent with
       | Some p =>
           match sch !! p with
           | Some pd => sibling_chain (length sch) sch (node_child pd)
           | None => []
           end
       | None => top_level sch module
       end;
     se_node_module := fun sch n =>
       match sch !! n with
       | Some nd => node_module nd
       | None => O
       end;
     se_import_module := fun _ module name =>
       match name with
       | None => Some module
       | Some s => module_index names s 0
       end;
     se_module_data := fun sch module => List.head (top_level sch module);
     se_main_module_name := fun module => List.nth module names "";
     se_get_sibling := fun sch siblings _ name mask =>
       match
         List.find
           (fun n => match sch !! n with
                     | Some nd =>
                         nodetype_in (node_nodetype nd) mask
                         && match node_name nd with
                            | Some s => String.eqb s name
                            | None => false
                            end
                     | None => false
                     end)
           (sibling_chain (length sch) sch siblings)
       with
       | Some n => (EXIT_SUCCESS, Some n)
       | None => (EXIT_FAILURE, None)
       end;
     se_check_id := fun sch node parent =>
       match sch !! node, sch !! parent with
       | Some nd, Some pd =>
           if existsb
                (fun n => negb (Nat.eqb n node)
                          && match sch !! n with
                             | Some cd =>
                                 match node_name cd, node_name nd with
                                 | Some a, Some b => String.eqb a b
                                 | _, _ => false
                                 end
                             | None => false
                             end)
                (sibling_chain (length sch) sch (node_child pd))
           then EXIT_FAILURE else EXIT_SUCCESS
       | _, _ => EXIT_SUCCESS
       end;
     se_check_mandatory := fun _ _ => 0;
     se_check_status := fun _ _ _ => 0 |}.

(** A module "m" with the list "l" and its leaf "x". *)
Definition schema_list_x : list lys_node :=
  [ mk_node "l" LYS_LIST LYS_CONFIG_W 0 None (Some 1%nat) None (Some 0%nat);
    mk_node "x" LYS_LEAF LYS_CONFIG_W 0 (Some 0%nat) None None (Some 1%nat) ].

(** A module "m" with the container "c" (config true) and its leaf "a",
    and an augment of "/c" that adds the leaf "b" with an explicit
    "config false". *)
Definition schema_augment_c : list lys_node :=
  [ mk_node "c" LYS_CONTAINER LYS_CONFIG_W 0 None (Some 1%nat) None (Some 0%nat);
    mk_node "a" LYS_LEAF LYS_CONFIG_W 0 (Some 0%nat) None None (Some 1%nat);
    {| node_name := None; node_nodetype := LYS_AUGMENT; node_flags := 0;
       node_module := 0; node_parent := None; node_child := Some 3%nat;
       node_next := None; node_prev := None; node_type_base := LY_TYPE_DER;
       node_when := false; node_keys := []; node_target_name := "/c";
       node_target := None |};
    mk_node "b" LYS_LEAF (Z.lor LYS_CONFIG_R LYS_CONFIG_SET) 0 (Some 2%nat) None None
      (Some 3%nat) ].

(** A module "m" with the list "l" of keys "a b" and its leaves "a", "b"
    and "v". *)
Definition schema_list_keys : list lys_node :=
  [ set_keys [None; None]
      (mk_node "l" LYS_LIST LYS_CONFIG_W 0 None (Some 1%nat) None (Some 0%nat));
    mk_node "a" LYS_LEAF LYS_CONFIG_W 0 (Some 0%nat) None (Some 2%nat) (Some 3%nat);
    mk_node "b" LYS_LEAF LYS_CONFIG_W 0 (Some 0%nat) None (Some 3%nat) (Some 1%nat);
    mk_node "v" LYS_LEAF LYS_CONFIG_W 0 (Some 0%nat) None None (Some 2%nat) ].

(** A list "l" whose second leaf "e" has the built-in type empty and whose
    third leaf "r" is config false. *)
Definition schema_list_refused : list lys_node :=
  [ set_keys [None; None]
      (mk_node "l" LYS_LIST LYS_CONFIG_W 0 None (Some 1%nat) None (Some 0%nat));
    mk_node "a" LYS_LEAF LYS_CONFIG_W 0 (Some 0%nat) None (Some 2%nat) (Some 3%nat);
    {| node_name := Some "e"; node_nodetype := LYS_LEAF; node_flags := LYS_CONFIG_W;
       node_module := 0; node_parent := Some 0%nat; node_child := None;
       node_next := Some 3%nat; node_prev := Some 1%nat; node_type_base := LY_TYPE_EMPTY;
       node_when := false; node_keys := []; node_target_name := ""; node_target := None |};
    mk_node "r" LYS_LEAF LYS_CONFIG_R 0 (Some 0%nat) None None (Some 2%nat) ].

(** ** resolve.c: the worklist of unresolved schema items *)

(** [enum UNRES_ITEM] *)
Inductive UNRES_ITEM : Set :=
| UNRES_RESOLVED | UNRES_DELETE
| UNRES_IDENT | UNRES_TYPE_IDENTREF | UNRES_TYPE_LEAFREF | UNRES_TYPE_DER
| UNRES_TYPE_DFLT | UNRES_IFFEAT | UNRES_CHOICE_DFLT | UNRES_USES
| UNRES_LIST_KEYS | UNRES_LIST_UNIQ | UNRES_AUGMENT
| UNRES_LEAFREF | UNRES_INSTID | UNRES_WHEN | UNRES_MUST | UNRES_EMPTYCONT.

#[global] Instance UNRES_ITEM_eq_dec : EqDecision UNRES_ITEM.
Proof. solve_decision. Defined.

(** One index of the parallel arrays [item], [type], [str_snode] and
    [module] of [struct unres_schema]: [ue_item] stands for what the item
    resolver receives ([item[i]], [str_snode[i]] and the module). *)
Record unres_entry (A : Type) := {
  ue_item : A;
  ue_type : UNRES_ITEM
}.
Arguments ue_item {A} _.
Arguments ue_type {A} _.

(** [resolve_unres_schema_item] seen from the worklist: with the state of
    [ly_vlog_hide] at the call ([true]: diagnostics hidden), the schema
    state, the worklist (which it may search) and an item with its type, it
    returns its code, the schema state after the attempt, and what the
    attempt did through [unres_schema_add_node]: [None] when it did not call
    it, otherwise the entries the calls stored at the end of the arrays
    (none when every call resolved its item at once).  The whole is [None]
    for an attempt that does not return. *)
Definition item_resolver (St A : Type) : Type :=
  bool -> St -> list (unres_entry A) -> A -> UNRES_ITEM ->
  option (Z * St * option (list (unres_entry A))).

(** A call of the item resolver, as the worklist observes it: the index of
    the entry, the state of [ly_vlog_hide] at the call and the code
    returned. *)
Record attempt := {
  at_index : nat;
  at_hide : bool;
  at_rc : Z
}.

(** What the loops of [resolve_unres_schema] carry: the schema state, the
    arrays ([unres->count] is their length), the counter [resolved], the
    flag of [ly_vlog_hide], and the calls made so far. *)
Record unres_run (St A : Type) := {
  run_state : St;
  run_unres : list (unres_entry A);
  run_resolved : nat;
  run_hide : bool;
  run_trace : list attempt
}.
Arguments run_state {St A} _.
Arguments run_unres {St A} _.
Arguments run_resolved {St A} _.
Arguments run_hide {St A} _.
Arguments run_trace {St A} _.

(** [ly_vlog_hide(hide)] (log.c): the flag is set, not counted. *)
Definition ly_vlog_hide {St A : Type} (hide : bool) (r : unres_run St A) : unres_run St A :=
  {| run_state := run_state r; run_unres := run_unres r; run_resolved := run_resolved r;
     run_hide := hide; run_trace := run_trace r |}.

(** [rc = resolve_unres_schema_item(mod, unres->item[i], unres->type[i],
    unres->str_snode[i], unres)].  [unres_schema_add_node] ends with
    [ly_vlog_hide(0)]: after an attempt that called it, diagnostics are
    visible. *)
Definition attempt_item {St A : Type} (resolve_unres_schema_item : item_resolver St A)
  (r : unres_run St A) (i : nat) (e : unres_entry A) : option (Z * unres_run St A) :=
  match
    resolve_unres_schema_item (run_hide r) (run_state r) (run_unres r) (ue_item e) (ue_type e)
  with
  | None => None
  | Some (rc, st, added) =>
      Some (rc,
            {| run_state := st;
               run_unres := run_unres r ++ default [] added;
               run_resolved := run_resolved r;
               run_hide := match added with
                           | Some _ => false
                           | None => run_hide r
                           end;
               run_trace :=
                 run_trace r
                 ++ [ {| at_index := i; at_hide := run_hide r; at_rc := rc |} ] |})
  end.

(** [unres->type[i] = UNRES_RESOLVED; ++resolved;] *)
Definition mark_resolved {St A : Type} (i : nat) (r : unres_run St A) : unres_run St A :=
  {| run_state := run_state r;
     run_unres :=
       match run_unres r !! i with
       | Some e => <[i := {| ue_item := ue_item e; ue_type := UNRES_RESOLVED |}]> (run_unres r)
       | None => run_unres r
       end;
     run_resolved := S (run_resolved r);
     run_hide := run_hide r;
     run_trace := run_trace r |}.

Definition uses_or_der (t : UNRES_ITEM) : bool :=
  bool_decide (t = UNRES_USES) || bool_decide (t = UNRES_TYPE_DER).

Definition not_resolved (t : UNRES_ITEM) : bool :=
  negb (bool_decide (t = UNRES_RESOLVED)).

(** How a pass over the arrays ends: at the end of the arrays, with the
    counters [unres_count] and [res_count] of the pass, or at an item whose
    resolution returned -1. *)
Inductive pass_result (St A : Type) : Type :=
| PassEnd (r : unres_run St A) (unres_count res_count : nat)
| PassError (r : unres_run St A).
Arguments PassEnd {St A} _ _ _.
Arguments PassError {St A} _.

(** The [for] loop of the "uses" phase from index [i] on.  The arrays can
    grow while the loop runs; [None] when the loop has not reached their end
    within [fuel] iterations or an attempt does not return. *)
Fixpoint uses_pass {St A : Type} (resolve_unres_schema_item : item_resolver St A)
  (fuel i : nat) (r : unres_run St A) (unres_count res_count : nat)
  : option (pass_result St A) :=
  match fuel with
  | O => None
  | S fuel' =>
      match run_unres r !! i with
      | None => Some (PassEnd r unres_count res_count)
      | Some e =>
          if negb (uses_or_der (ue_type e))
          then uses_pass resolve_unres_schema_item fuel' (S i) r unres_count res_count
          else
            match attempt_item resolve_unres_schema_item r i e with
            | None => None
            | Some (rc, r') =>
                if rc =? 0 then
                  uses_pass resolve_unres_schema_item fuel' (S i) (mark_resolved i r')
                    (S unres_count) (S res_count)
                else if rc =? -1 then Some (PassError r')
                else uses_pass resolve_unres_schema_item fuel' (S i) r' (S unres_count)
                       res_count
            end
      end
  end.

(** The [do ... while (res_count && (res_count < unres_count))] around it:
    the counters of the last pass, or the error of an item. *)
Fixpoint uses_phase {St A : Type} (resolve_unres_schema_item : item_resolver St A)
  (fuel : nat) (r : unres_run St A) : option (pass_result St A) :=
  match fuel with
  | O => None
  | S fuel' =>
      match uses_pass resolve_unres_schema_item (S fuel') 0 r 0 0 with
      | None => None
      | Some (PassError r') => Some (PassError r')
      | Some (PassEnd r' unres_count res_count) =>
          if negb (res_count =? 0)%nat && (res_count <? unres_count)%nat
          then uses_phase resolve_unres_schema_item fuel' r'
          else Some (PassEnd r' unres_count res_count)
      end
  end.

(** The loop over "the rest". *)
Fixpoint rest_pass {St A : Type} (resolve_unres_schema_item : item_resolver St A)
  (fuel i : nat) (r : unres_run St A) : option (pass_result St A) :=
  match fuel with
  | O => None
  | S fuel' =>
      match run_unres r !! i with
      | None => Some (PassEnd r 0 0)
      | Some e =>
          if negb (not_resolved (ue_type e))
          then rest_pass resolve_unres_schema_item fuel' (S i) r
          else
            match attempt_item resolve_unres_schema_item r i e with
            | None => None
            | Some (rc, r') =>
                if rc =? 0
                then rest_pass resolve_unres_schema_item fuel' (S i) (mark_resolved i r')
                else if rc =? -1 then Some (PassError r')
                else rest_pass resolve_unres_schema_item fuel' (S i) r'
            end
      end
  end.

(** The last loop: the unresolved items once more, the return values
    ignored. *)
Fixpoint final_pass {St A : Type} (resolve_unres_schema_item : item_resolver St A)
  (fuel i : nat) (r : unres_run St A) : option (unres_run St A) :=
  match fuel with
  | O => None
  | S fuel' =>
      match run_unres r !! i with
      | None => Some r
      | Some e =>
          if negb (not_resolved (ue_type e))
          then final_pass resolve_unres_schema_item fuel' (S i) r
          else
            match attempt_item resolve_unres_schema_item r i e with
            | None => None
            | Some (_, r') => final_pass resolve_unres_schema_item fuel' (S i) r'
            end
      end
  end.

(** What [resolve_unres_schema] leaves behind: its return value, the schema
    state, the arrays with [unres->count], the flag of [ly_vlog_hide] and
    the calls of the item resolver it made. *)
Record schema_result (St A : Type) := {
  sr_rc : Z;
  sr_state : St;
  sr_entries : list (unres_entry A);
  sr_count : nat;
  sr_hide : bool;
  sr_trace : list attempt
}.
Arguments sr_rc {St A} _.
Arguments sr_state {St A} _.
Arguments sr_entries {St A} _.
Arguments sr_count {St A} _.
Arguments sr_hide {St A} _.
Arguments sr_trace {St A} _.

Definition schema_return {St A : Type} (rc : Z) (count : nat) (r : unres_run St A)
  : schema_result St A :=
  {| sr_rc := rc; sr_state := run_state r; sr_entries := run_unres r;
     sr_count := count; sr_hide := run_hide r; sr_trace := run_trace r |}.

(** [resolve_unres_schema(mod, unres)]; [None] when a loop has not ended
    within [fuel] iterations or an attempt does not return. *)
Definition resolve_unres_schema {St A : Type} (resolve_unres_schema_item : item_resolver St A)
  (fuel : nat) (st : St) (unres : list (unres_entry A)) : option (schema_result St A) :=
  (* ly_vlog_hide(1); *)
  let r0 := {| run_state := st; run_unres := unres; run_resolved := 0; run_hide := true;
               run_trace := [] |} in
  (* uses *)
  match uses_phase resolve_unres_schema_item fuel r0 with
  | None => None
  | Some (PassError r) =>
      (* ly_vlog_hide(0); return -1; *)
      let r := ly_vlog_hide false r in
      Some (schema_return (-1) (length (run_unres r)) r)
  | Some (PassEnd r unres_count res_count) =>
      if (res_count <? unres_count)%nat
      then (* return -1; *) Some (schema_return (-1) (length (run_unres r)) r)
      else
        (* the rest *)
        match rest_pass resolve_unres_schema_item fuel 0 r with
        | None => None
        | Some (PassError r) =>
            (* ly_vlog_hide(0); return rc; *)
            let r := ly_vlog_hide false r in
            Some (schema_return (-1) (length (run_unres r)) r)
        | Some (PassEnd r _ _) =>
            let r := ly_vlog_hide false r in
            if (run_resolved r <? length (run_unres r))%nat
            then
              match final_pass resolve_unres_schema_item fuel 0 r with
              | None => None
              | Some r => Some (schema_return (-1) (length (run_unres r)) r)
              end
            else (* unres->count = 0; *) Some (schema_return EXIT_SUCCESS 0 r)
        end
  end.

(** *** Statement vocabulary for the worklist *)

(** Indices, from [i] on, of the entries of the arrays that are not
    resolved. *)
Fixpoint unresolved_from {A : Type} (i : nat) (l : list (unres_entry A)) : list nat :=
  match l with
  | [] => []
  | e :: rest =>
      if not_resolved (ue_type e) then i :: unresolved_from (S i) rest
      else unresolved_from (S i) rest
  end.

(** Indices, from [i] on, of the uses and derived types of the arrays. *)
Fixpoint uses_from {A : Type} (i : nat) (l : list (unres_entry A)) : list nat :=
  match l with
  | [] => []
  | e :: rest =>
      if uses_or_der (ue_type e) then i :: uses_from (S i) rest
      else uses_from (S i) rest
  end.

(** The indices attempted with diagnostics visible, in the order of the
    calls. *)
Fixpoint visible_attempts (t : list attempt) : list nat :=
  match t with
  | [] => []
  | a :: rest =>
      if at_hide a then visible_attempts rest
      else at_index a :: visible_attempts rest
  end.
(** *** Item resolvers to run the worklist on *)

(** An item is the code its resolution returns; the attempt does not call
    [unres_schema_add_node]. *)
Definition code_resolver : item_resolver unit Z :=
  fun _ st _ a _ => Some (a, st, None).

(** Every attempt is a forward reference that registers one more uses. *)
Definition registering_resolver : item_resolver unit Z :=
  fun _ st _ a _ =>
    Some (EXIT_FAILURE, st, Some [ {| ue_item := a; ue_type := UNRES_USES |} ]).
(** ** resolve.c: identities in the worklist *)

(** An entry of type UNRES_IDENT: [item[i]] is the identity and
    [str_snode[i]] the name of its base. *)
Record ident_item := {
  ii_ident : nat;
  ii_base_name : string
}.

(** The schema state the resolution of identities works on: the identities
    and the messages handed to the log callback (or written to stderr).
    With diagnostics hidden [log_vprintf] hands out nothing. *)
Record ident_state := {
  is_graph : ident_graph;
  is_printed : list string
}.

(** [resolve_unres_schema_item(mod, item, type, str_snode, unres)] for an
    entry of type UNRES_IDENT:
    [rc = resolve_base_ident(mod, ident, base_name, "identity", NULL)];
    [mod] is the main module given to [resolve_unres_schema].  The
    resolution of the entries of the other types is [other].
    [resolve_base_ident] does not call [unres_schema_add_node].  What
    [lyp_check_status] itself logs is not part of these sources and not
    among the messages. *)
Definition ident_item_resolver (E : ident_env) (fuel : nat) (mod_ : nat)
  (other : item_resolver ident_state ident_item) : item_resolver ident_state ident_item :=
  fun hide st unres item type =>
    match type with
    | UNRES_IDENT =>
        match
          resolve_base_ident E fuel (is_graph st) mod_ (Some (ii_ident item))
            (ii_base_name item) "identity"
        with
        | None => None
        | Some r =>
            Some (bi_rc r,
                  {| is_graph := {| ig_ident := bi_ident r;
                                    ig_module := ig_module (is_graph st) |};
                     is_printed := is_printed st ++ (if hide then [] else bi_log r) |},
                  None)
        end
    | _ => other hide st unres item type
    end.

(** Modelled from the spec: [lys_get_import_module] and [lyp_check_status]
    (tree_schema.c and parser.c) are not part of these sources.  Here a
    NULL name denotes the module itself and no module is imported; and a
    reference from a definition to one of a lower status in the same module
    is refused: the identities [deprecated] are deprecated, the others and
    the types are current. *)
Definition status_env (deprecated : list nat) : ident_env :=
  {| lys_get_import_module := fun _ module name =>
       match name with
       | None => Some module
       | Some _ => None
       end;
     lyp_check_status := fun _ ident found =>
       let referring_deprecated :=
         match ident with
         | Some i => bool_decide (i ∈ deprecated)
         | None => false
         end in
       if negb referring_deprecated && bool_decide (found ∈ deprecated)
       then EXIT_FAILURE else EXIT_SUCCESS |}.

(** A module "m" with the identities "A" and "B", no base resolved yet. *)
Definition graph_a_b : ident_graph :=
  {| ig_ident := [ {| ident_name := "A"; ident_base := None; ident_der := None |};
                   {| ident_name := "B"; ident_base := None; ident_der := None |} ];
     ig_module := [ {| mi_name := "m"; mi_ident := [0%nat; 1%nat]; mi_inc := [] |} ] |}.

(** The worklist of "identity A { base B; } identity B { base A; }". *)
Definition unres_a_b : list (unres_entry ident_item) :=
  [ {| ue_item := {| ii_ident := 0; ii_base_name := "B" |}; ue_type := UNRES_IDENT |};
    {| ue_item := {| ii_ident := 1; ii_base_name := "A" |}; ue_type := UNRES_IDENT |} ].

(** No entry of another type is resolved here. *)
Definition no_other : item_resolver ident_state ident_item :=
  fun _ _ _ _ _ => None.
(** * Data resolution: [resolve_unres_data] *)

(** [struct lyd_node] as the data resolver reads it: the name, node type and
    presence of its schema node, the when status, and the links of the tree.
    Pointers are indices of the arena; [dn_prev] is never null (the first
    sibling points to the last). [dn_freed] is the ghost mark of released
    memory. *)
Record lyd_data : Set := {
  dn_name : string;
  dn_nodetype : LYS_NODE;
  dn_presence : bool;
  dn_when_status : Z;
  dn_parent : option nat;
  dn_child : option nat;
  dn_next : option nat;
  dn_prev : nat;
  dn_freed : bool
}.

Definition set_when_status (s : Z) (d : lyd_data) : lyd_data :=
  {| dn_name := dn_name d; dn_nodetype := dn_nodetype d; dn_presence := dn_presence d;
     dn_when_status := s; dn_parent := dn_parent d; dn_child := dn_child d;
     dn_next := dn_next d; dn_prev := dn_prev d; dn_freed := dn_freed d |}.

Definition set_data_links (parent child next : option nat) (prev : nat) (d : lyd_data)
  : lyd_data :=
  {| dn_name := dn_name d; dn_nodetype := dn_nodetype d; dn_presence := dn_presence d;
     dn_when_status := dn_when_status d; dn_parent := parent; dn_child := child;
     dn_next := next; dn_prev := prev; dn_freed := dn_freed d |}.

Definition set_freed (d : lyd_data) : lyd_data :=
  {| dn_name := dn_name d; dn_nodetype := dn_nodetype d; dn_presence := dn_presence d;
     dn_when_status := dn_when_status d; dn_parent := dn_parent d; dn_child := dn_child d;
     dn_next := dn_next d; dn_prev := dn_prev d; dn_freed := true |}.

(** What [resolve_unres_data] uses and the sources do not hold: the when
    status macros of tree_data.h, the tree operations of tree_data.c, and the
    item resolver, whose every branch evaluates through lyxp_eval or the path
    resolvers on the data tree. The item resolver returns 0 (done; a false
    when is left in the when status), 1 (not resolvable yet) or -1. *)
Record data_env : Type := {
  LYD_WHEN_FALSE : Z;
  LYD_WHEN_DONE : Z -> bool;
  resolve_unres_data_item : list lyd_data -> nat -> UNRES_ITEM -> Z * list lyd_data;
  lyd_unlink : list lyd_data -> nat -> list lyd_data;
  lyd_free : list lyd_data -> nat -> list lyd_data
}.

(** The codes [LOGERR] is called with here. *)
Inductive LY_ERR : Set := LY_SUCCESS | LY_EVALID.

(** [uint32_t] arithmetic of the counters. *)
Definition u32 (x : Z) : Z := x mod 2 ^ 32.

(** The variables of [resolve_unres_data]: the tree, [*root] (the outer
    option is the pointer [root] itself), the two arrays of the unres
    structure, the counters, and the [LOGERR] calls made. *)
Record data_run : Type := {
  dr_tree : list lyd_data;
  dr_root : option (option nat);
  dr_node : list (option nat);
  dr_type : list UNRES_ITEM;
  dr_resolved : Z;
  dr_del_items : Z;
  dr_when_stmt : Z;
  dr_progress : bool;
  dr_errors : list LY_ERR
}.

Definition set_dr_tree (t : list lyd_data) (r : data_run) : data_run :=
  {| dr_tree := t; dr_root := dr_root r; dr_node := dr_node r; dr_type := dr_type r;
     dr_resolved := dr_resolved r; dr_del_items := dr_del_items r;
     dr_when_stmt := dr_when_stmt r; dr_progress := dr_progress r;
     dr_errors := dr_errors r |}.

Definition set_dr_root (x : option (option nat)) (r : data_run) : data_run :=
  {| dr_tree := dr_tree r; dr_root := x; dr_node := dr_node r; dr_type := dr_type r;
     dr_resolved := dr_resolved r; dr_del_items := dr_del_items r;
     dr_when_stmt := dr_when_stmt r; dr_progress := dr_progress r;
     dr_errors := dr_errors r |}.

Definition set_dr_node (i : nat) (x : option nat) (r : data_run) : data_run :=
  {| dr_tree := dr_tree r; dr_root := dr_root r; dr_node := <[i := x]> (dr_node r);
     dr_type := dr_type r;
     dr_resolved := dr_resolved r; dr_del_items := dr_del_items r;
     dr_when_stmt := dr_when_stmt r; dr_progress := dr_progress r;
     dr_errors := dr_errors r |}.

Definition set_dr_type (i : nat) (t : UNRES_ITEM) (r : data_run) : data_run :=
  {| dr_tree := dr_tree r; dr_root := dr_root r; dr_node := dr_node r;
     dr_type := <[i := t]> (dr_type r);
     dr_resolved := dr_resolved r; dr_del_items := dr_del_items r;
     dr_when_stmt := dr_when_stmt r; dr_progress := dr_progress r;
     dr_errors := dr_errors r |}.

Definition set_dr_resolved (x : Z) (r : data_run) : data_run :=
  {| dr_tree := dr_tree r; dr_root := dr_root r; dr_node := dr_node r; dr_type := dr_type r;
     dr_resolved := x; dr_del_items := dr_del_items r;
     dr_when_stmt := dr_when_stmt r; dr_progress := dr_progress r;
     dr_errors := dr_errors r |}.

Definition set_dr_del_items (x : Z) (r : data_run) : data_run :=
  {| dr_tree := dr_tree r; dr_root := dr_root r; dr_node := dr_node r; dr_type := dr_type r;
     dr_resolved := dr_resolved r; dr_del_items := x;
     dr_when_stmt := dr_when_stmt r; dr_progress := dr_progress r;
     dr_errors := dr_errors r |}.

Definition set_dr_when_stmt (x : Z) (r : data_run) : data_run :=
  {| dr_tree := dr_tree r; dr_root := dr_root r; dr_node := dr_node r; dr_type := dr_type r;
     dr_resolved := dr_resolved r; dr_del_items := dr_del_items r;
     dr_when_stmt := x; dr_progress := dr_progress r;
     dr_errors := dr_errors r |}.

Definition set_dr_progress (x : bool) (r : data_run) : data_run :=
  {| dr_tree := dr_tree r; dr_root := dr_root r; dr_node := dr_node r; dr_type := dr_type r;
     dr_resolved := dr_resolved r; dr_del_items := dr_del_items r;
     dr_when_stmt := dr_when_stmt r; dr_progress := x;
     dr_errors := dr_errors r |}.

(** [LOGERR(code, ...)] *)
Definition logerr (code : LY_ERR) (r : data_run) : data_run :=
  {| dr_tree := dr_tree r; dr_root := dr_root r; dr_node := dr_node r; dr_type := dr_type r;
     dr_resolved := dr_resolved r; dr_del_items := dr_del_items r;
     dr_when_stmt := dr_when_stmt r; dr_progress := dr_progress r;
     dr_errors := dr_errors r ++ [code] |}.

(** [resolved++] *)
Definition incr_resolved (r : data_run) : data_run :=
  set_dr_resolved (u32 (dr_resolved r + 1)) r.

(** One turn of a loop whose body may return from the function. *)
Inductive loop_step (A : Type) : Type :=
| Next (a : A)
| Return (rc : Z) (a : A).
Arguments Next {A} a.
Arguments Return {A} rc a.

(** How the walk over the parents of a when item ends: at the top with every
    parent decided, at a parent whose when is not decided, or at an unlinked
    parent whose when is false. *)
Inductive parent_walk : Set := WalkTop | WalkPending | WalkUnlinked.

(** [for (parent = node->parent; parent && LYD_WHEN_DONE(parent->when_status);
    parent = parent->parent)] with its [break]; the fuel bounds the depth. *)
Fixpoint when_parents (E : data_env) (fuel : nat) (tree : list lyd_data)
  (parent : option nat) : option parent_walk :=
  match fuel with
  | O => None
  | S fuel' =>
      match parent with
      | None => Some WalkTop
      | Some p =>
          pd ← tree !! p;
          if LYD_WHEN_DONE E (dn_when_status pd) then
            if bool_decide (dn_parent pd = None)
               && negb (Z.land (dn_when_status pd) (LYD_WHEN_FALSE E) =? 0)
            then Some WalkUnlinked
            else when_parents E fuel' tree (dn_parent pd)
          else Some WalkPending
      end
  end.

(** The loop that climbs from a false-when node over the non-presence
    containers it would leave empty. *)
Fixpoint empty_cont_top (fuel : nat) (tree : list lyd_data) (parent : nat) : option nat :=
  match fuel with
  | O => None
  | S fuel' =>
      d ← tree !! parent;
      match dn_parent d with
      | None => Some parent
      | Some pp =>
          ppd ← tree !! pp;
          if bool_decide (dn_nodetype ppd = LYS_CONTAINER) then
            if dn_presence ppd then Some parent
            else if bool_decide (dn_next d <> None) || negb (dn_prev d =? parent)%nat
                 then Some parent
                 else empty_cont_top fuel' tree pp
          else Some parent
      end
  end.

(** [for (parent = unres->node[j]; parent; parent = parent->parent)
    if (parent == unres->node[i])] *)
Fixpoint in_subtree (fuel : nat) (tree : list lyd_data) (parent : option nat) (top : nat)
  : option bool :=
  match fuel with
  | O => None
  | S fuel' =>
      match parent with
      | None => Some false
      | Some p =>
          if (p =? top)%nat then Some true
          else d ← tree !! p; in_subtree fuel' tree (dn_parent d) top
      end
  end.

(** "update the rest of unres items": every item not yet resolved whose node
    lies in the subtree of [top] becomes resolved, and is counted. *)
Fixpoint update_rest (n j : nat) (top : nat) (r : data_run) : option data_run :=
  match n with
  | O => Some r
  | S n' =>
      t ← dr_type r !! j;
      if bool_decide (t = UNRES_RESOLVED) || bool_decide (t = UNRES_DELETE)
      then update_rest n' (S j) top r
      else
        nj ← dr_node r !! j;
        b ← in_subtree (S (length (dr_tree r))) (dr_tree r) nj top;
        if b : bool
        then update_rest n' (S j) top (incr_resolved (set_dr_type j UNRES_RESOLVED r))
        else update_rest n' (S j) top r
  end.

(** The body of the when loop for item [i]. *)
Definition when_item (E : data_env) (keepemptycont first : bool) (i : nat) (r : data_run)
  : option (loop_step data_run) :=
  t ← dr_type r !! i;
  if negb (bool_decide (t = UNRES_WHEN)) then Some (Next r)
  else
    let r := if first then set_dr_when_stmt (u32 (dr_when_stmt r + 1)) r else r in
    n ← mjoin (dr_node r !! i);
    nd ← dr_tree r !! n;
    w ← when_parents E (S (length (dr_tree r))) (dr_tree r) (dn_parent nd);
    match w with
    | WalkPending => Some (Next r)
    | WalkUnlinked =>
        let tree := <[n := set_when_status
                             (Z.lor (dn_when_status nd) (LYD_WHEN_FALSE E)) nd]> (dr_tree r) in
        Some (Next (incr_resolved (set_dr_type i UNRES_RESOLVED (set_dr_tree tree r))))
    | WalkTop =>
        let '(rc, tree) := resolve_unres_data_item E (dr_tree r) n t in
        let r := set_dr_tree tree r in
        if rc =? 0 then
          nd ← tree !! n;
          if negb (Z.land (dn_when_status nd) (LYD_WHEN_FALSE E) =? 0) then
            match dr_root r with
            | None => Some (Return (-1) (logerr LY_EVALID r))
            | Some root =>
                top ← (if keepemptycont then Some n
                       else empty_cont_top (S (length tree)) tree n);
                td ← tree !! top;
                let r := set_dr_node i (Some top) r in
                let r := if bool_decide (root = Some top)
                         then set_dr_root (Some (dn_next td)) r else r in
                let r := set_dr_tree (lyd_unlink E tree top) r in
                let r := set_dr_type i UNRES_DELETE r in
                let r := set_dr_del_items (u32 (dr_del_items r + 1)) r in
                r ← update_rest (length (dr_node r)) 0 top r;
                Some (Next (set_dr_progress true (incr_resolved r)))
            end
          else
            Some (Next (set_dr_progress true
                          (incr_resolved (set_dr_type i UNRES_RESOLVED r))))
        else if rc =? -1 then Some (Return (-1) r)
        else Some (Next r)
    end.

(** [for (i = 0; i < unres->count; i++)] of the when loop *)
Fixpoint when_pass (E : data_env) (keepemptycont first : bool) (n i : nat) (r : data_run)
  : option (loop_step data_run) :=
  match n with
  | O => Some (Next r)
  | S n' =>
      s ← when_item E keepemptycont first i r;
      match s with
      | Next r' => when_pass E keepemptycont first n' (S i) r'
      | Return rc r' => Some (Return rc r')
      end
  end.

(** [do { ... first = 0; } while (progress && resolved < when_stmt)] *)
Fixpoint when_phase (E : data_env) (keepemptycont : bool) (fuel : nat) (first : bool)
  (r : data_run) : option (loop_step data_run) :=
  match fuel with
  | O => None
  | S fuel' =>
      s ← when_pass E keepemptycont first (length (dr_node r)) 0 (set_dr_progress false r);
      match s with
      | Return rc r' => Some (Return rc r')
      | Next r' =>
          if dr_progress r' && (dr_resolved r' <? dr_when_stmt r')
          then when_phase E keepemptycont fuel' false r'
          else Some (Next r')
      end
  end.

(** [for (i = 0; del_items && i < unres->count; i++)]: the unlinked subtrees
    are released. *)
Fixpoint delete_pass (E : data_env) (n i : nat) (r : data_run) : data_run :=
  match n with
  | O => r
  | S n' =>
      if dr_del_items r =? 0 then r
      else
        match dr_type r !! i with
        | Some UNRES_DELETE =>
            let r' :=
              match mjoin (dr_node r !! i) with
              | None => r
              | Some nd => set_dr_tree (lyd_free E (dr_tree r) nd) r
              end in
            delete_pass E n' (S i)
              (set_dr_del_items (u32 (dr_del_items r' - 1)) (set_dr_type i UNRES_RESOLVED r'))
        | _ => delete_pass E n' (S i) r
        end
  end.

(** The "rest" loop. *)
Fixpoint data_rest_pass (E : data_env) (n i : nat) (r : data_run)
  : option (loop_step data_run) :=
  match n with
  | O => Some (Next r)
  | S n' =>
      t ← dr_type r !! i;
      if bool_decide (t = UNRES_RESOLVED) then data_rest_pass E n' (S i) r
      else
        nd ← mjoin (dr_node r !! i);
        let '(rc, tree) := resolve_unres_data_item E (dr_tree r) nd t in
        let r := set_dr_tree tree r in
        if rc =? 0 then
          data_rest_pass E n' (S i) (incr_resolved (set_dr_type i UNRES_RESOLVED r))
        else if rc =? -1 then Some (Return (-1) r)
        else data_rest_pass E n' (S i) r
  end.

(** The last loop, which runs the resolver once more on what is left. *)
Fixpoint data_report_pass (E : data_env) (n i : nat) (r : data_run) : option data_run :=
  match n with
  | O => Some r
  | S n' =>
      t ← dr_type r !! i;
      if bool_decide (t = UNRES_RESOLVED) then data_report_pass E n' (S i) r
      else
        nd ← mjoin (dr_node r !! i);
        data_report_pass E n' (S i)
          (set_dr_tree (snd (resolve_unres_data_item E (dr_tree r) nd t)) r)
  end.

Record data_result : Type := {
  res_rc : Z;
  res_count : nat;
  res_run : data_run
}.

(** [resolve_unres_data(unres, root, options)]; of the options only
    [options & LYD_OPT_KEEPEMPTYCONT] is read. The result is [None] when the
    fuel of the when loop is used up or a pointer leaves the arena. Calls of
    [ly_vlog_hide] are left out. *)
Definition resolve_unres_data (E : data_env) (fuel : nat) (tree : list lyd_data)
  (node : list (option nat)) (type : list UNRES_ITEM) (root : option (option nat))
  (keepemptycont : bool) : option data_result :=
  let count := length node in
  let r0 := {| dr_tree := tree; dr_root := root; dr_node := node; dr_type := type;
               dr_resolved := 0; dr_del_items := 0; dr_when_stmt := 0;
               dr_progress := false; dr_errors := [] |} in
  if (count =? 0)%nat then Some {| res_rc := EXIT_SUCCESS; res_count := count; res_run := r0 |}
  else
    s ← when_phase E keepemptycont fuel true r0;
    match s with
    | Return rc r => Some {| res_rc := rc; res_count := count; res_run := r |}
    | Next r =>
        if dr_resolved r <? dr_when_stmt r
        then Some {| res_rc := -1; res_count := count; res_run := logerr LY_EVALID r |}
        else
          let r := delete_pass E count 0 r in
          s ← data_rest_pass E count 0 r;
          match s with
          | Return rc r => Some {| res_rc := rc; res_count := count; res_run := r |}
          | Next r =>
              if dr_resolved r <? Z.of_nat count then
                r ← data_report_pass E count 0 r;
                Some {| res_rc := -1; res_count := count; res_run := r |}
              else Some {| res_rc := EXIT_SUCCESS; res_count := 0%nat; res_run := r |}
          end
    end.

(** ** Vocabulary of the when conditions *)

(** The nodes reachable from [start] through [child] and [next]. *)
Fixpoint subtree_nodes (fuel : nat) (tree : list lyd_data) (start : option nat) : list nat :=
  match fuel with
  | O => []
  | S fuel' =>
      match start with
      | None => []
      | Some n =>
          match tree !! n with
          | None => []
          | Some d =>
              n :: subtree_nodes fuel' tree (dn_child d)
                ++ subtree_nodes fuel' tree (dn_next d)
          end
      end
  end.

(** The nodes of the tree the caller holds after the call. *)
Definition remaining_nodes (res : data_result) : list nat :=
  match dr_root (res_run res) with
  | Some root =>
      subtree_nodes (S (length (dr_tree (res_run res)))) (dr_tree (res_run res)) root
  | None => []
  end.

Definition when_false (E : data_env) (tree : list lyd_data) (n : nat) : bool :=
  match tree !! n with
  | Some d => negb (Z.land (dn_when_status d) (LYD_WHEN_FALSE E) =? 0)
  | None => false
  end.

(** ** A data environment *)

(** Modelled from the spec: the when status of tree_data.h, which is not
    among the sources. A node with a when condition starts as [LYD_WHEN]
    (not evaluated); evaluation adds [LYD_WHEN_TRUE] or [LYD_WHEN_FALSE]; the
    status is decided when the node has no condition or carries a result. *)
Definition spec_LYD_WHEN : Z := 4.
Definition spec_LYD_WHEN_TRUE : Z := 2.
Definition spec_LYD_WHEN_FALSE : Z := 1.
Definition spec_LYD_WHEN_DONE (status : Z) : bool :=
  (Z.land status spec_LYD_WHEN =? 0)
  || negb (Z.land status (Z.lor spec_LYD_WHEN_TRUE spec_LYD_WHEN_FALSE) =? 0).

(** The first of the siblings of [n]: the one whose [prev] is the last. *)
Fixpoint first_sibling (fuel : nat) (tree : list lyd_data) (n : nat) : nat :=
  match fuel with
  | O => n
  | S fuel' =>
      match tree !! n with
      | None => n
      | Some d =>
          match tree !! dn_prev d with
          | Some pd => if bool_decide (dn_next pd = None) then n
                       else first_sibling fuel' tree (dn_prev d)
          | None => n
          end
      end
  end.

(** Modelled from the spec: [lyd_unlink] of tree_data.c, which is not among
    the sources: the node leaves its parent and its siblings and becomes a
    tree of its own. *)
Definition spec_lyd_unlink (tree : list lyd_data) (n : nat) : list lyd_data :=
  match tree !! n with
  | None => tree
  | Some d =>
      let first := first_sibling (length tree) tree n in
      (* node->prev->next, unless the node is the first sibling *)
      let t1 :=
        if (first =? n)%nat then tree
        else alter (fun pd => set_data_links (dn_parent pd) (dn_child pd) (dn_next d)
                                (dn_prev pd) pd) (dn_prev d) tree in
      (* node->next->prev, or the last pointer of the first sibling *)
      let t2 :=
        match dn_next d with
        | Some nx => alter (fun xd => set_data_links (dn_parent xd) (dn_child xd) (dn_next xd)
                                       (dn_prev d) xd) nx t1
        | None => alter (fun fd => set_data_links (dn_parent fd) (dn_child fd) (dn_next fd)
                                     (dn_prev d) fd) first t1
        end in
      (* the parent's first child *)
      let t3 :=
        match dn_parent d with
        | Some p => alter (fun pd => if bool_decide (dn_child pd = Some n)
                                     then set_data_links (dn_parent pd) (dn_next d)
                                            (dn_next pd) (dn_prev pd) pd
                                     else pd) p t2
        | None => t2
        end in
      alter (fun nd => set_data_links None (dn_child nd) None n nd) n t3
  end.

(** Modelled from the spec: [lyd_free] of tree_data.c, which is not among the
    sources: the node is unlinked and released with its whole subtree. *)
Definition spec_lyd_free (tree : list lyd_data) (n : nat) : list lyd_data :=
  let t1 := spec_lyd_unlink tree n in
  fold_right (fun k t => alter set_freed k t) t1 (subtree_nodes (S (length t1)) t1 (Some n)).

(** Whether a sibling of [n] named [name] is in the tree, and its status. *)
Fixpoint find_sibling (fuel : nat) (tree : list lyd_data) (cur : option nat) (name : string)
  : option lyd_data :=
  match fuel with
  | O => None
  | S fuel' =>
      match cur with
      | None => None
      | Some c =>
          match tree !! c with
          | None => None
          | Some d => if String.eqb (dn_name d) name then Some d
                      else find_sibling fuel' tree (dn_next d) name
          end
      end
  end.

(** Modelled from the spec: the item resolver for the data of a module with

      container c { when "../q"; }
      container q { when "false()"; must "true()"; }

    whose XPath evaluation (lyxp_eval) is not among the sources. The when of
    [q] is false. The when of [c] looks for a sibling [q]: while the when of
    that sibling is not decided the item is not resolvable yet (1); with no
    such sibling the when is false. A must holds. *)
Definition spec_data_item (tree : list lyd_data) (n : nat) (type : UNRES_ITEM)
  : Z * list lyd_data :=
  match tree !! n with
  | None => (-1, tree)
  | Some d =>
      let decide (b : bool) :=
        (0, <[n := set_when_status
                     (Z.lor (dn_when_status d)
                        (if b then spec_LYD_WHEN_TRUE else spec_LYD_WHEN_FALSE)) d]> tree) in
      match type with
      | UNRES_WHEN =>
          if String.eqb (dn_name d) "q" then decide false
          else if String.eqb (dn_name d) "c" then
            match find_sibling (S (length tree)) tree
                    (Some (first_sibling (length tree) tree n)) "q" with
            | Some qd => if spec_LYD_WHEN_DONE (dn_when_status qd) then decide true
                         else (1, tree)
            | None => decide false
            end
          else decide true
      | UNRES_MUST | UNRES_LEAFREF | UNRES_INSTID => (0, tree)
      | _ => (-1, tree)
      end
  end.

Definition spec_data_env : data_env :=
  {| LYD_WHEN_FALSE := spec_LYD_WHEN_FALSE;
     LYD_WHEN_DONE := spec_LYD_WHEN_DONE;
     resolve_unres_data_item := spec_data_item;
     lyd_unlink := spec_lyd_unlink;
     lyd_free := spec_lyd_free |}.

Definition mk_data (name : string) (parent child next : option nat) (prev : nat) : lyd_data :=
  {| dn_name := name; dn_nodetype := LYS_CONTAINER; dn_presence := false;
     dn_when_status := spec_LYD_WHEN; dn_parent := parent; dn_child := child;
     dn_next := next; dn_prev := prev; dn_freed := false |}.

(** The data <c/><q/>: two top-level containers, each with a when. *)
Definition data_c_q : list lyd_data :=
  [ mk_data "c" None None (Some 1%nat) 1;
    mk_data "q" None None None 0 ].

(** The data <q/><c/>. *)
Definition data_q_c : list lyd_data :=
  [ mk_data "q" None None (Some 1%nat) 1;
    mk_data "c" None None None 0 ].

(** ** context.c: the context and its module list *)

(** The sign of [strcmp(a, b)]: bytes compared as unsigned values. *)
Definition strcmp (a b : string) : comparison := String_as_OT.compare a b.

Record lys_revision := { rev_date : string }.

Record lys_feature := { feature_name : string; feature_flags : Z }.

Record lys_submodule := {
  submodule_name : string;
  submodule_rev : list lys_revision;
  submodule_filepath : option string;
  submodule_features : list lys_feature
}.

Record lys_include := { inc_submodule : option lys_submodule }.

(** What [ylib_deviation] reads through [imp[i].module]. *)
Record lys_import := {
  imp_module_name : string;
  imp_module_rev : list lys_revision;
  imp_external : Z
}.

(** [struct lys_module], the fields context.c reads.  [rev_size],
    [features_size], [imp_size] and [inc_size] are the lengths of the lists;
    [module_data] tells whether [data] is non-NULL. *)
Record lys_module := {
  module_name : string;
  module_ns : string;
  module_rev : list lys_revision;
  module_filepath : option string;
  module_features : list lys_feature;
  module_imp : list lys_import;
  module_inc : list lys_include;
  module_implemented : bool;
  module_data : bool
}.

Definition set_implemented (b : bool) (m : lys_module) : lys_module :=
  {| module_name := module_name m; module_ns := module_ns m;
     module_rev := module_rev m; module_filepath := module_filepath m;
     module_features := module_features m; module_imp := module_imp m;
     module_inc := module_inc m; module_implemented := b;
     module_data := module_data m |}.

(** [rev[0].date] *)
Definition rev0_date (rev : list lys_revision) : string :=
  match rev with
  | r :: _ => rev_date r
  | [] => ""
  end.

Definition rev_size (rev : list lys_revision) : Z := Z.of_nat (length rev).

(** [struct ly_ctx]: [models_list] holds the [models.used] entries of
    [models.list]; an entry is a module pointer, [None] for NULL. *)
Record ly_ctx := {
  models_list : list (option lys_module);
  models_search_path : option string;
  models_module_set_id : Z
}.

(** The loop of [ly_ctx_get_module_by] from index [i] on; [field] is the
    member selected by [offset], [result] the module remembered so far (its
    index and the module). *)
Fixpoint ly_ctx_get_module_by_loop (key : string) (field : lys_module -> string)
  (revision : option string) (i : nat) (l : list (option lys_module))
  (result : option (nat * lys_module)) : option (nat * lys_module) :=
  match l with
  | [] => result
  | None :: rest => ly_ctx_get_module_by_loop key field revision (S i) rest result
  | Some m :: rest =>
      if negb (strcmp0 key (field m))
      then ly_ctx_get_module_by_loop key field revision (S i) rest result
      else
        match revision with
        | None =>
            match result with
            | Some (_, r) =>
                if rev_size (module_rev m) =? 0
                then ly_ctx_get_module_by_loop key field revision (S i) rest result
                else if negb (rev_size (module_rev r) =? 0)
                        && match strcmp (rev0_date (module_rev m)) (rev0_date (module_rev r)) with
                           | Lt => true
                           | _ => false
                           end
                then ly_ctx_get_module_by_loop key field revision (S i) rest result
                else ly_ctx_get_module_by_loop key field revision (S i) rest (Some (i, m))
            | None => ly_ctx_get_module_by_loop key field revision (S i) rest (Some (i, m))
            end
        | Some rv =>
            if negb (rev_size (module_rev m) =? 0) && strcmp0 rv (rev0_date (module_rev m))
            then Some (i, m)
            else ly_ctx_get_module_by_loop key field revision (S i) rest result
        end
  end.

Definition ly_ctx_get_module_by (ctx : option ly_ctx) (key : option string)
  (field : lys_module -> string) (revision : option string) : option (nat * lys_module) :=
  match ctx, key with
  | Some c, Some k => ly_ctx_get_module_by_loop k field revision 0 (models_list c) None
  | _, _ => None
  end.

Definition ly_ctx_get_module_by_ns (ctx : option ly_ctx) (ns : option string)
  (revision : option string) : option (nat * lys_module) :=
  ly_ctx_get_module_by ctx ns module_ns revision.

Definition ly_ctx_get_module (ctx : option ly_ctx) (name : option string)
  (revision : option string) : option (nat * lys_module) :=
  ly_ctx_get_module_by ctx name module_name revision.

(** *** Data trees built by [ly_ctx_info] *)

Inductive lyd_node : Type :=
| LydNode (name : string) (value : option string) (child : list lyd_node).

Definition lyd_name (n : lyd_node) : string := let 'LydNode s _ _ := n in s.
Definition lyd_value (n : lyd_node) : option string := let 'LydNode _ v _ := n in v.
Definition lyd_child (n : lyd_node) : list lyd_node := let 'LydNode _ _ c := n in c.

(** Linking a new node as the last child of its parent. *)
Definition lyd_insert_last (parent child : lyd_node) : lyd_node :=
  LydNode (lyd_name parent) (lyd_value parent) (lyd_child parent ++ [child]).

(** The collaborators of context.c that are not part of these sources: the
    schema parser with the four embedded models, the search-directory
    lookup and the data-tree library.  [lys_parse_mem ctx data] returns the
    index in the context of the module it added, with the context after the
    call; [lyd_new] and [lyd_new_leaf] return the node they created for the
    given parent; every one of them can fail (NULL, non-zero). *)
Record ctx_env := {
  yin_text : Type;
  yang_2016_02_11_yin : yin_text;
  ietf_inet_types_2013_07_15_yin : yin_text;
  ietf_yang_types_2013_07_15_yin : yin_text;
  ietf_yang_library_2016_02_01_yin : yin_text;
  lys_parse_mem : ly_ctx -> yin_text -> option (nat * ly_ctx);
  search_dir_path : string -> option string;
  lyd_new : option lyd_node -> string -> option lyd_node;
  lyd_new_leaf : lyd_node -> string -> string -> option lyd_node;
  lyd_validate : lyd_node -> option lyd_node
}.

Definition IETF_YANG_LIB_REV : string := "2016-02-01".

(** [module->implemented = 0] through the pointer the parser returned. *)
Definition clear_implemented (i : nat) (ctx : ly_ctx) : ly_ctx :=
  {| models_list :=
       match models_list ctx !! i with
       | Some (Some m) => <[i := Some (set_implemented false m)]> (models_list ctx)
       | _ => models_list ctx
       end;
     models_search_path := models_search_path ctx;
     models_module_set_id := models_module_set_id ctx |}.

Definition ly_ctx_new (E : ctx_env) (search_dir : option string) : option ly_ctx :=
  match
    match search_dir with
    | Some d =>
        match search_dir_path E d with
        | Some p => Some (Some p)
        | None => None
        end
    | None => Some None
    end
  with
  | None => None
  | Some path =>
      let ctx := {| models_list := []; models_search_path := path;
                    models_module_set_id := 1 |} in
      (* load (fake) YANG module *)
      match lys_parse_mem E ctx (yang_2016_02_11_yin E) with
      | None => None
      | Some (_, ctx) =>
          (* load ietf-inet-types *)
          match lys_parse_mem E ctx (ietf_inet_types_2013_07_15_yin E) with
          | None => None
          | Some (module, ctx) =>
              let ctx := clear_implemented module ctx in
              (* load ietf-yang-types *)
              match lys_parse_mem E ctx (ietf_yang_types_2013_07_15_yin E) with
              | None => None
              | Some (module, ctx) =>
                  let ctx := clear_implemented module ctx in
                  (* load ietf-yang-library *)
                  match lys_parse_mem E ctx (ietf_yang_library_2016_02_01_yin E) with
                  | None => None
                  | Some (_, ctx) => Some ctx
                  end
              end
          end
      end
  end.

(** A leaf added under [parent]: [None] when [lyd_new_leaf] fails. *)
Definition add_leaf (E : ctx_env) (parent : lyd_node) (name value : string)
  : option lyd_node :=
  match lyd_new_leaf E parent name value with
  | Some leaf => Some (lyd_insert_last parent leaf)
  | None => None
  end.

(** Modelled from the spec: the flag of an enabled feature, of
    tree_schema.h, which is not among the sources. *)
Definition LYS_FENABLED : Z := 256.

Fixpoint ylib_feature_list (E : ctx_env) (parent : lyd_node) (fs : list lys_feature)
  : option lyd_node :=
  match fs with
  | [] => Some parent
  | f :: rest =>
      if Z.land (feature_flags f) LYS_FENABLED =? 0
      then ylib_feature_list E parent rest
      else match add_leaf E parent "feature" (feature_name f) with
           | Some parent => ylib_feature_list E parent rest
           | None => None
           end
  end.

(** The submodule loops stop at the first include without a submodule. *)
Fixpoint ylib_feature_inc (E : ctx_env) (parent : lyd_node) (inc : list lys_include)
  : option lyd_node :=
  match inc with
  | [] => Some parent
  | i :: rest =>
      match inc_submodule i with
      | None => Some parent
      | Some sub =>
          match ylib_feature_list E parent (submodule_features sub) with
          | Some parent => ylib_feature_inc E parent rest
          | None => None
          end
      end
  end.

Definition ylib_feature (E : ctx_env) (parent : lyd_node) (cur_mod : lys_module)
  : option lyd_node :=
  match ylib_feature_list E parent (module_features cur_mod) with
  | Some parent => ylib_feature_inc E parent (module_inc cur_mod)
  | None => None
  end.

Fixpoint ylib_deviation_list (E : ctx_env) (parent : lyd_node) (imp : list lys_import)
  : option lyd_node :=
  match imp with
  | [] => Some parent
  | i :: rest =>
      if imp_external i =? 2 then
        let revision :=
          if rev_size (imp_module_rev i) =? 0 then "" else rev0_date (imp_module_rev i) in
        match lyd_new E (Some parent) "deviation" with
        | None => None
        | Some cont =>
            match add_leaf E cont "name" (imp_module_name i) with
            | None => None
            | Some cont =>
                match add_leaf E cont "revision" revision with
                | None => None
                | Some cont => ylib_deviation_list E (lyd_insert_last parent cont) rest
                end
            end
        end
      else ylib_deviation_list E parent rest
  end.

Definition ylib_deviation (E : ctx_env) (parent : lyd_node) (cur_mod : lys_module)
  : option lyd_node :=
  ylib_deviation_list E parent (module_imp cur_mod).

Fixpoint ylib_submodules_list (E : ctx_env) (cont : lyd_node) (inc : list lys_include)
  : option lyd_node :=
  match inc with
  | [] => Some cont
  | i :: rest =>
      match inc_submodule i with
      | None => Some cont
      | Some sub =>
          match lyd_new E (Some cont) "submodule" with
          | None => None
          | Some item =>
              match add_leaf E item "name" (submodule_name sub) with
              | None => None
              | Some item =>
                  match add_leaf E item "revision"
                          (if rev_size (submodule_rev sub) =? 0 then ""
                           else rev0_date (submodule_rev sub)) with
                  | None => None
                  | Some item =>
                      match
                        match submodule_filepath sub with
                        | Some fp => add_leaf E item "schema" ("file://" ++ fp)
                        | None => Some item
                        end
                      with
                      | None => None
                      | Some item =>
                          ylib_submodules_list E (lyd_insert_last cont item) rest
                      end
                  end
              end
          end
      end
  end.

(** With [inc_size] zero nothing is created.  Otherwise the "submodules"
    container is created first; the source does not test that creation, the
    embedding returns failure when it fails. *)
Definition ylib_submodules (E : ctx_env) (parent : lyd_node) (cur_mod : lys_module)
  : option lyd_node :=
  match module_inc cur_mod with
  | [] => Some parent
  | inc =>
      match lyd_new E (Some parent) "submodules" with
      | None => None
      | Some cont =>
          match ylib_submodules_list E cont inc with
          | Some cont => Some (lyd_insert_last parent cont)
          | None => None
          end
      end
  end.

(** One iteration of the loop of [ly_ctx_info]: the "module" entry of one
    module.  The entry is filled and then becomes the last child of [root];
    the source links it on creation and fills it through the pointer, and
    frees [root] as a whole on any failure, so the tree returned is the
    same. *)
Definition ly_ctx_info_module (E : ctx_env) (root : lyd_node) (m : lys_module)
  : option lyd_node :=
  match lyd_new E (Some root) "module" with
  | None => None
  | Some cont =>
  match add_leaf E cont "name" (module_name m) with
  | None => None
  | Some cont =>
  match add_leaf E cont "revision"
          (if rev_size (module_rev m) =? 0 then "" else rev0_date (module_rev m)) with
  | None => None
  | Some cont =>
  match
    match module_filepath m with
    | Some fp => add_leaf E cont "schema" ("file://" ++ fp)
    | None => Some cont
    end
  with
  | None => None
  | Some cont =>
  match add_leaf E cont "namespace" (module_ns m) with
  | None => None
  | Some cont =>
  match ylib_feature E cont m with
  | None => None
  | Some cont =>
  match ylib_deviation E cont m with
  | None => None
  | Some cont =>
  match
    if module_implemented m then add_leaf E cont "conformance-type" "implement"
    else add_leaf E cont "conformance-type" "import"
  with
  | None => None
  | Some cont =>
  match ylib_submodules E cont m with
  | None => None
  | Some cont => Some (lyd_insert_last root cont)
  end end end end end end end end end.

(** The loop over [models.list]; a NULL entry cannot be dereferenced, the
    embedding fails there. *)
Fixpoint ly_ctx_info_loop (E : ctx_env) (root : lyd_node) (l : list (option lys_module))
  : option lyd_node :=
  match l with
  | [] => Some root
  | None :: _ => None
  | Some m :: rest =>
      match ly_ctx_info_module E root m with
      | Some root => ly_ctx_info_loop E root rest
      | None => None
      end
  end.

(** [sprintf(id, "%u", n)] *)
Definition sprintf_u (n : Z) : string :=
  NilZero.string_of_uint (N.to_uint (Z.to_N n)).

Definition ly_ctx_info (E : ctx_env) (ctx : option ly_ctx) : option lyd_node :=
  match ctx with
  | None => None
  | Some ctx =>
      match ly_ctx_get_module (Some ctx) (Some "ietf-yang-library") (Some IETF_YANG_LIB_REV) with
      | None => None
      | Some (_, ylib) =>
          if negb (module_data ylib) then None
          else
            match lyd_new E None "modules-state" with
            | None => None
            | Some root =>
                match ly_ctx_info_loop E root (models_list ctx) with
                | None => None
                | Some root =>
                    match add_leaf E root "module-set-id"
                            (sprintf_u (models_module_set_id ctx)) with
                    | None => None
                    | Some root => lyd_validate E root
                    end
                end
            end
      end
  end.

(** *** Statement vocabulary for the module lookups *)

(** [a] is not newer than [b] in the order [strcmp] gives to dates. *)
Definition date_le (a b : string) : Prop := strcmp a b <> Gt.

(** What a lookup without revision must return among the entries [l]: no
    module when none has the key; otherwise a module with the key such that
    every module with the key that has a revision is not newer, and has no
    revision only if none has one. *)
Definition newest_with_key (field : lys_module -> string) (key : string)
  (l : list (option lys_module)) (res : option (nat * lys_module)) : Prop :=
  match res with
  | None => forall j m, l !! j = Some (Some m) -> field m <> key
  | Some (i, r) =>
      l !! i = Some (Some r) /\ field r = key /\
      forall j m, l !! j = Some (Some m) -> field m = key -> module_rev m <> [] ->
        module_rev r <> [] /\
        date_le (rev0_date (module_rev m)) (rev0_date (module_rev r))
  end.

(** What a lookup with revision [rv] must return. *)
Definition exact_revision (field : lys_module -> string) (key rv : string)
  (l : list (option lys_module)) (res : option (nat * lys_module)) : Prop :=
  match res with
  | None => forall j m, l !! j = Some (Some m) -> field m = key ->
              module_rev m = [] \/ rev0_date (module_rev m) <> rv
  | Some (i, r) =>
      l !! i = Some (Some r) /\ field r = key /\
      module_rev r <> [] /\ rev0_date (module_rev r) = rv
  end.

(** *** A reference instance of the collaborators of context.c *)

(** Modelled from the spec: the four models embedded in context.c
    (../models/*.h) are not part of these sources.  Each is represented by
    the module it describes, with the name and the revision its file name
    carries; a parsed main module is implemented and has data where the
    model defines nodes. *)
Definition embedded_model (name ns rev : string) (data : bool) : lys_module :=
  {| module_name := name; module_ns := ns;
     module_rev := [ {| rev_date := rev |} ];
     module_filepath := None; module_features := []; module_imp := [];
     module_inc := []; module_implemented := true; module_data := data |}.

(** Modelled from the spec: [lys_parse_mem] (the YIN parser, absent from
    these sources) adds the module a text describes at the end of the
    context's module list, marked implemented, and returns it; the context
    hands out a new module-set-id for every module added. *)
Definition spec_lys_parse_mem (ctx : ly_ctx) (data : lys_module)
  : option (nat * ly_ctx) :=
  Some (length (models_list ctx),
        {| models_list := models_list ctx ++ [Some (set_implemented true data)];
           models_search_path := models_search_path ctx;
           models_module_set_id := models_module_set_id ctx + 1 |}).

(** Modelled from the spec: [lyd_new], [lyd_new_leaf] and [lyd_validate]
    (the data-tree library, absent from these sources) create an inner node,
    create a leaf with its value, and accept a tree that conforms to the
    schema. *)
Definition spec_env : ctx_env :=
  {| yin_text := lys_module;
     yang_2016_02_11_yin :=
       embedded_model "yang" "urn:ietf:params:xml:ns:yang:1" "2016-02-11" false;
     ietf_inet_types_2013_07_15_yin :=
       embedded_model "ietf-inet-types" "urn:ietf:params:xml:ns:yang:ietf-inet-types"
         "2013-07-15" false;
     ietf_yang_types_2013_07_15_yin :=
       embedded_model "ietf-yang-types" "urn:ietf:params:xml:ns:yang:ietf-yang-types"
         "2013-07-15" false;
     ietf_yang_library_2016_02_01_yin :=
       embedded_model "ietf-yang-library" "urn:ietf:params:xml:ns:yang:ietf-yang-library"
         "2016-02-01" true;
     lys_parse_mem := spec_lys_parse_mem;
     search_dir_path := fun d => Some d;
     lyd_new := fun _ name => Some (LydNode name None []);
     lyd_new_leaf := fun _ name value => Some (LydNode name (Some value) []);
     lyd_validate := fun root => Some root |}.

(** The contract of the collaborators under which the context is specified.
    [describes t] is the module the text [t] defines; the module-set-id,
    printed with %u, is an unsigned counter and the parser keeps it one. *)
Record ctx_contract (E : ctx_env) (describes : yin_text E -> lys_module) : Prop := {
  parse_adds :
    forall ctx t i ctx', lys_parse_mem E ctx t = Some (i, ctx') ->
      i = length (models_list ctx) /\
      models_list ctx' = models_list ctx ++ [Some (describes t)] /\
      module_implemented (describes t) = true;
  yang_name : module_name (describes (yang_2016_02_11_yin E)) = "yang";
  inet_name : module_name (describes (ietf_inet_types_2013_07_15_yin E)) = "ietf-inet-types";
  types_name : module_name (describes (ietf_yang_types_2013_07_15_yin E)) = "ietf-yang-types";
  library_name :
    module_name (describes (ietf_yang_library_2016_02_01_yin E)) = "ietf-yang-library";
  library_rev :
    exists older, module_rev (describes (ietf_yang_library_2016_02_01_yin E))
                  = {| rev_date := "2016-02-01" |} :: older;
  library_data : module_data (describes (ietf_yang_library_2016_02_01_yin E)) = true;
  parse_set_id :
    forall ctx t i ctx', lys_parse_mem E ctx t = Some (i, ctx') ->
      0 <= models_module_set_id ctx -> 0 <= models_module_set_id ctx';
  new_creates : forall parent name, lyd_new E parent name = Some (LydNode name None []);
  leaf_creates :
    forall parent name value,
      lyd_new_leaf E parent name value = Some (LydNode name (Some value) []);
  validate_keeps :
    forall root, exists root', lyd_validate E root = Some root' /\
      lyd_name root' = lyd_name root /\
      forall c, In c (lyd_child root) -> In c (lyd_child root')
}.

(** *** Decimal notation *)

(** The value of a decimal digit. *)
Definition digit_value (c : ascii) : option Z :=
  let n := Z.of_N (N_of_ascii c) in
  if (48 <=? n) && (n <=? 57) then Some (n - 48) else None.

Fixpoint decimal_value_acc (s : string) (acc : Z) : option Z :=
  match s with
  | EmptyString => Some acc
  | String c rest =>
      match digit_value c with
      | Some d => decimal_value_acc rest (10 * acc + d)
      | None => None
      end
  end.

(** The number a non-empty string of decimal digits denotes, the most
    significant digit first. *)
Definition decimal_value (s : string) : option Z :=
  match s with
  | EmptyString => None
  | _ => decimal_value_acc s 0
  end.

(** A numeral of several digits that starts with the digit 0. *)
Definition leading_zero (s : string) : bool :=
  match s with
  | String c (String _ _) => Ascii.eqb c "0"
  | _ => false
  end.

(** The value of the digits [d] after the value [acc] of the digits before
    them. *)
Fixpoint uint_value (d : Decimal.uint) (acc : Z) : Z :=
  match d with
  | Decimal.Nil => acc
  | Decimal.D0 l => uint_value l (10 * acc + 0)
  | Decimal.D1 l => uint_value l (10 * acc + 1)
  | Decimal.D2 l => uint_value l (10 * acc + 2)
  | Decimal.D3 l => uint_value l (10 * acc + 3)
  | Decimal.D4 l => uint_value l (10 * acc + 4)
  | Decimal.D5 l => uint_value l (10 * acc + 5)
  | Decimal.D6 l => uint_value l (10 * acc + 6)
  | Decimal.D7 l => uint_value l (10 * acc + 7)
  | Decimal.D8 l => uint_value l (10 * acc + 8)
  | Decimal.D9 l => uint_value l (10 * acc + 9)
  end.

(** The tree [root] has a "module" entry for the module called [name] with
    the conformance type [conf]. *)
Definition has_module_entry (root : lyd_node) (name conf : string) : Prop :=
  exists entry, In entry (lyd_child root) /\ lyd_name entry = "module" /\
    In (LydNode "name" (Some name) []) (lyd_child entry) /\
    In (LydNode "conformance-type" (Some conf) []) (lyd_child entry).

(** [r'] is [r] with further children. *)
Definition lyd_extends (r r' : lyd_node) : Prop :=
  lyd_name r' = lyd_name r /\ forall c, In c (lyd_child r) -> In c (lyd_child r').

(** Invariant of the loop without revision: [result] is the newest module
    with the key among the entries [pre] already visited. *)
Definition newest_so_far (field : lys_module -> string) (key : string)
  (full pre : list (option lys_module)) (res : option (nat * lys_module)) : Prop :=
  match res with
  | None => forall j m, pre !! j = Some (Some m) -> field m <> key
  | Some (i, r) =>
      full !! i = Some (Some r) /\ field r = key /\
      forall j m, pre !! j = Some (Some m) -> field m = key -> module_rev m <> [] ->
        module_rev r <> [] /\
        date_le (rev0_date (module_rev m)) (rev0_date (module_rev r))
  end.

(** ** PathLex: whole identifiers *)

(** [s] is an identifier from its first to its last byte: [parse_identifier]
    consumes all of it. *)
Definition whole_identifier (s : string) : Prop :=
  s <> EmptyString /\ parse_identifier s = Z.of_nat (String.length s).

(** ** PathLex: instance-identifiers and predicates *)

(** The number of bytes a [while (isspace(id[0]))] or [while (isdigit(id[0]))]
    loop steps over. *)
Fixpoint char_run (p : ascii -> bool) (id : string) : nat :=
  match id with
  | String c rest => if p c then S (char_run p rest) else O
  | EmptyString => O
  end.

(** [strchr(id, c) - id] for a character [c] other than NUL; [None] is
    NULL. *)
Fixpoint strchr (id : string) (c : ascii) : option nat :=
  match id with
  | EmptyString => None
  | String d rest => if ceq d c then Some O else option_map S (strchr rest c)
  end.

(** Out-parameters of [parse_instance_identifier], every one of them given
    by the caller. *)
Record instance_identifier : Set := {
  ii_ret : Z;
  ii_model : option string;
  ii_mod_len : Z;
  ii_name : option string;
  ii_nam_len : Z;
  ii_has_predicate : Z
}.

Definition parse_instance_identifier (id0 : string) : instance_identifier :=
  let parsed := 0 in
  if negb (ceq (cchar id0 0) "/") then
    {| ii_ret := - parsed; ii_model := None; ii_mod_len := 0; ii_name := None;
       ii_nam_len := 0; ii_has_predicate := 0 |}
  else
    let parsed := parsed + 1 in
    let id := cskip 1 id0 in
    let ni := parse_node_identifier id in
    if ni_ret ni <? 1 then
      {| ii_ret := - parsed + ni_ret ni; ii_model := ni_mod_name ni;
         ii_mod_len := ni_mod_name_len ni; ii_name := ni_name ni;
         ii_nam_len := ni_nam_len ni; ii_has_predicate := 0 |}
    else if bool_decide (ni_mod_name ni = None) then
      {| ii_ret := - parsed; ii_model := ni_mod_name ni;
         ii_mod_len := ni_mod_name_len ni; ii_name := ni_name ni;
         ii_nam_len := ni_nam_len ni; ii_has_predicate := 0 |}
    else
      let parsed := parsed + ni_ret ni in
      let id := cskip (Z.to_nat (ni_ret ni)) id in
      {| ii_ret := parsed; ii_model := ni_mod_name ni;
         ii_mod_len := ni_mod_name_len ni; ii_name := ni_name ni;
         ii_nam_len := ni_nam_len ni;
         ii_has_predicate := if ceq (cchar id 0) "[" then 1 else 0 |}.

(** The character of a double quote. *)
Definition dquote_char : ascii := "034"%char.

(** Out-parameters of [parse_predicate], every one of them given by the
    caller. *)
Record predicate : Set := {
  pr_ret : Z;
  pr_model : option string;
  pr_mod_len : Z;
  pr_name : option string;
  pr_nam_len : Z;
  pr_value : option string;
  pr_val_len : Z;
  pr_has_predicate : Z
}.

(** The part of [parse_predicate] after the name: white space, the equals
    sign, white space, the quoted value, white space and the closing
    bracket. *)
Definition parse_predicate_value (parsed : Z) (id : string) (model : option string)
  (mod_len : Z) (name : option string) (nam_len : Z) : predicate :=
  let fail parsed :=
    {| pr_ret := - parsed; pr_model := model; pr_mod_len := mod_len; pr_name := name;
       pr_nam_len := nam_len; pr_value := None; pr_val_len := 0; pr_has_predicate := 0 |} in
  let n := char_run isspace id in
  let parsed := parsed + Z.of_nat n in
  let id := cskip n id in
  if negb (ceq (cchar id 0) "=") then fail parsed
  else
    let parsed := parsed + 1 in
    let id := cskip 1 id in
    let n := char_run isspace id in
    let parsed := parsed + Z.of_nat n in
    let id := cskip n id in
    if ceq (cchar id 0) dquote_char || ceq (cchar id 0) "'" then
      let quote := cchar id 0 in
      let parsed := parsed + 1 in
      let id := cskip 1 id in
      match strchr id quote with
      | None => fail parsed
      | Some ret =>
          let value := id in
          let parsed := parsed + (Z.of_nat ret + 1) in
          let id := cskip (ret + 1) id in
          let n := char_run isspace id in
          let parsed := parsed + Z.of_nat n in
          let id := cskip n id in
          if negb (ceq (cchar id 0) "]") then
            {| pr_ret := - parsed; pr_model := model; pr_mod_len := mod_len;
               pr_name := name; pr_nam_len := nam_len; pr_value := Some value;
               pr_val_len := Z.of_nat ret; pr_has_predicate := 0 |}
          else
            let parsed := parsed + 1 in
            let id := cskip 1 id in
            {| pr_ret := parsed; pr_model := model; pr_mod_len := mod_len;
               pr_name := name; pr_nam_len := nam_len; pr_value := Some value;
               pr_val_len := Z.of_nat ret;
               pr_has_predicate := if ceq (cchar id 0) "[" then 1 else 0 |}
      end
    else fail parsed.

Definition parse_predicate (id0 : string) : predicate :=
  let stop r model mod_len name nam_len :=
    {| pr_ret := r; pr_model := model; pr_mod_len := mod_len; pr_name := name;
       pr_nam_len := nam_len; pr_value := None; pr_val_len := 0; pr_has_predicate := 0 |} in
  let parsed := 0 in
  if negb (ceq (cchar id0 0) "[") then stop (- parsed) None 0 None 0
  else
    let parsed := parsed + 1 in
    let id := cskip 1 id0 in
    let n := char_run isspace id in
    let parsed := parsed + Z.of_nat n in
    let id := cskip n id in
    if isdigit (cchar id 0) then
      (* pos *)
      let name := id in
      if ceq (cchar id 0) "0" && isdigit (cchar id 1)
      then stop (- (parsed + 1)) None 0 (Some name) 0
      else
        let n := char_run isdigit id in
        parse_predicate_value (parsed + Z.of_nat n) (cskip n id) None 0 (Some name)
          (Z.of_nat n)
    else if ceq (cchar id 0) "." then
      parse_predicate_value (parsed + 1) (cskip 1 id) None 0 (Some id) 1
    else
      (* node-identifier *)
      let ni := parse_node_identifier id in
      if ni_ret ni <? 1 then
        stop (- parsed + ni_ret ni) (ni_mod_name ni) (ni_mod_name_len ni) (ni_name ni)
          (ni_nam_len ni)
      else if bool_decide (ni_mod_name ni = None) then
        stop (- parsed) (ni_mod_name ni) (ni_mod_name_len ni) (ni_name ni) (ni_nam_len ni)
      else
        parse_predicate_value (parsed + ni_ret ni) (cskip (Z.to_nat (ni_ret ni)) id)
          (ni_mod_name ni) (ni_mod_name_len ni) (ni_name ni) (ni_nam_len ni).

(** * The unres arrays *)

(** Modelled from the spec: [ly_realloc] of common.c, which is not among the
    sources: [realloc] that releases the block when it fails. An array is
    the list of its elements and NULL is the empty list; [ok] tells whether
    the allocation succeeds, [uninit] is what the new part of the block
    holds. *)
Definition ly_realloc {A : Type} (ok : bool) (uninit : A) (ptr : list A) (n : nat) : list A :=
  if ok then resize n uninit ptr else [].

(** [memmove(&arr[dst], &arr[src], n * sizeof *arr)] inside the block. *)
Definition memmove {A : Type} (arr : list A) (dst src n : nat) : list A :=
  take dst arr ++ take n (drop src arr) ++ drop (dst + n) arr.

(** ** [struct unres_data] *)

Record unres_data : Set := {
  und_node : list (option nat);
  und_type : list UNRES_ITEM;
  und_count : Z
}.

(** [unres_data_add(unres, node, type)]; [lyd_when] is the value of
    [LYD_WHEN]. The result is the return value, the data tree and the
    structure; the message of LOGMEM is not recorded. *)
Definition unres_data_add (ok_node ok_type : bool) (lyd_when : Z) (tree : list lyd_data)
  (unres : unres_data) (node : nat) (type : UNRES_ITEM)
  : Z * list lyd_data * unres_data :=
  let count := u32 (und_count unres + 1) in
  let nodes := ly_realloc ok_node None (und_node unres) (Z.to_nat count) in
  if negb ok_node then
    (-1, tree, {| und_node := nodes; und_type := und_type unres; und_count := count |})
  else
    let nodes := <[Z.to_nat (u32 (count - 1)) := Some node]> nodes in
    let types := ly_realloc ok_type UNRES_RESOLVED (und_type unres) (Z.to_nat count) in
    if negb ok_type then
      (-1, tree, {| und_node := nodes; und_type := types; und_count := count |})
    else
      let types := <[Z.to_nat (u32 (count - 1)) := type]> types in
      let tree :=
        if bool_decide (type = UNRES_WHEN)
        then alter (set_when_status lyd_when) node tree
        else tree in
      (EXIT_SUCCESS, tree, {| und_node := nodes; und_type := types; und_count := count |}).

(** [unres_data_del(unres, i)]: only the node array is moved. *)
Definition unres_data_del (unres : unres_data) (i : Z) : unres_data :=
  let nodes :=
    if u32 (i + 1) <? und_count unres then
      memmove (und_node unres) (Z.to_nat i) (Z.to_nat (u32 (i + 1)))
        (Z.to_nat (u32 (und_count unres - u32 (i + 1))))
    else if i =? 0 then []
    else und_node unres in
  {| und_node := nodes; und_type := und_type unres; und_count := u32 (und_count unres - 1) |}.

(** The nodes and the types the structure holds: the first [count] elements
    of the arrays. *)
Definition unres_nodes (unres : unres_data) : list (option nat) :=
  take (Z.to_nat (und_count unres)) (und_node unres).

Definition unres_types (unres : unres_data) : list UNRES_ITEM :=
  take (Z.to_nat (und_count unres)) (und_type unres).

(** The structure is within its blocks and its counter can grow. *)
Definition unres_data_wf (unres : unres_data) : Prop :=
  0 <= und_count unres < 2 ^ 32 - 1 /\
  (Z.to_nat (und_count unres) <= length (und_node unres))%nat /\
  (Z.to_nat (und_count unres) <= length (und_type unres))%nat.

(** ** [struct unres_schema] *)

(** The four arrays and the counter; items, schema nodes (or strings) and
    modules are pointers, here numbers. *)
Record unres_schema : Set := {
  uns_item : list nat;
  uns_type : list UNRES_ITEM;
  uns_str_snode : list nat;
  uns_module : list nat;
  uns_count : Z
}.

(** [unres_schema_find(unres, item, type)]: the loop, then the conversion of
    the [uint32_t] result to [int]. *)
Fixpoint unres_schema_find_loop (unres : unres_schema) (item : nat) (type : UNRES_ITEM)
  (n : nat) (i : Z) : Z :=
  match n with
  | O => 2 ^ 32 - 1
  | S n' =>
      if bool_decide (uns_item unres !! Z.to_nat i = Some item)
         && bool_decide (uns_type unres !! Z.to_nat i = Some type)
      then i
      else unres_schema_find_loop unres item type n' (i + 1)
  end.

Definition int_of_u32 (x : Z) : Z := if x <? 2 ^ 31 then x else x - 2 ^ 32.

Definition unres_schema_find (unres : unres_schema) (item : nat) (type : UNRES_ITEM) : Z :=
  int_of_u32 (unres_schema_find_loop unres item type (Z.to_nat (uns_count unres)) 0).

#[global] Instance LY_ERR_eq_dec : EqDecision LY_ERR.
Proof. solve_decision. Defined.

(** What [unres_schema_add_node] calls: the item resolver (with the
    structure it may extend), the value of [ly_errno] it leaves, the
    unlinking of the XML element of a derived type, and the result of each
    of the four allocations. *)
Record unres_add_env (St : Type) : Type := {
  ua_resolve_unres_schema_item :
    St -> unres_schema -> nat -> nat -> UNRES_ITEM -> nat -> Z * St * unres_schema;
  ua_ly_errno : St -> LY_ERR;
  ua_unlink_der : St -> nat -> St;
  ua_alloc : nat -> bool
}.
Arguments ua_resolve_unres_schema_item {St} _.
Arguments ua_ly_errno {St} _.
Arguments ua_unlink_der {St} _.
Arguments ua_alloc {St} _.

Record unres_add_result (St : Type) : Type := {
  uar_rc : Z;
  uar_state : St;
  uar_unres : unres_schema;
  uar_errors : list LY_ERR
}.
Arguments uar_rc {St} _.
Arguments uar_state {St} _.
Arguments uar_unres {St} _.
Arguments uar_errors {St} _.

(** [unres_schema_add_node(mod, unres, item, type, snode)]; the resolver
    runs with the log hidden. [uar_errors] holds the codes LOGERR is called
    with; what [print_unres_schema_item_fail] and LOGMEM print is not
    recorded. *)
Definition unres_schema_add_node {St : Type} (E : unres_add_env St) (st : St)
  (unres : unres_schema) (mod_ item : nat) (type : UNRES_ITEM) (snode : nat)
  : unres_add_result St :=
  let '(rc, st, unres) := ua_resolve_unres_schema_item E st unres mod_ item type snode in
  if negb (rc =? EXIT_FAILURE) then
    {| uar_rc := rc; uar_state := st; uar_unres := unres;
       uar_errors := if (rc =? -1) && bool_decide (ua_ly_errno E st = LY_EVALID)
                     then [LY_EVALID] else [] |}
  else
    let st := if bool_decide (type = UNRES_TYPE_DER) then ua_unlink_der E st item else st in
    let count := u32 (uns_count unres + 1) in
    let last := Z.to_nat (u32 (count - 1)) in
    let stop items types snodes modules :=
      {| uar_rc := -1; uar_state := st;
         uar_unres := {| uns_item := items; uns_type := types; uns_str_snode := snodes;
                         uns_module := modules; uns_count := count |};
         uar_errors := [] |} in
    let items := ly_realloc (ua_alloc E 0%nat) 0%nat (uns_item unres) (Z.to_nat count) in
    if negb (ua_alloc E 0%nat) then
      stop items (uns_type unres) (uns_str_snode unres) (uns_module unres)
    else
      let items := <[last := item]> items in
      let types := ly_realloc (ua_alloc E 1%nat) UNRES_RESOLVED (uns_type unres) (Z.to_nat count) in
      if negb (ua_alloc E 1%nat) then stop items types (uns_str_snode unres) (uns_module unres)
      else
        let types := <[last := type]> types in
        let snodes :=
          ly_realloc (ua_alloc E 2%nat) 0%nat (uns_str_snode unres) (Z.to_nat count) in
        if negb (ua_alloc E 2%nat) then stop items types snodes (uns_module unres)
        else
          let snodes := <[last := snode]> snodes in
          let modules :=
            ly_realloc (ua_alloc E 3%nat) 0%nat (uns_module unres) (Z.to_nat count) in
          if negb (ua_alloc E 3%nat) then stop items types snodes modules
          else
            let modules := <[last := mod_]> modules in
            {| uar_rc := EXIT_SUCCESS; uar_state := st;
               uar_unres := {| uns_item := items; uns_type := types;
                               uns_str_snode := snodes; uns_module := modules;
                               uns_count := count |};
               uar_errors := [] |}.

(** The structure is within its blocks and its counter can grow. *)
Definition unres_schema_wf (unres : unres_schema) : Prop :=
  0 <= uns_count unres < 2 ^ 31 - 1 /\
  (Z.to_nat (uns_count unres) <= length (uns_item unres))%nat /\
  (Z.to_nat (uns_count unres) <= length (uns_type unres))%nat /\
  (Z.to_nat (uns_count unres) <= length (uns_str_snode unres))%nat /\
  (Z.to_nat (uns_count unres) <= length (uns_module unres))%nat.

(** The entry [i] of the structure is the item [item] with the type
    [type]. *)
Definition unres_schema_holds (unres : unres_schema) (i : Z) (item : nat) (type : UNRES_ITEM)
  : Prop :=
  0 <= i < uns_count unres /\
  uns_item unres !! Z.to_nat i = Some item /\ uns_type unres !! Z.to_nat i = Some type.

(** The loop of [unres_schema_free]: the entries of [module] become
    resolved ([free_der] releases what a derived type still holds), the
    unresolved entries of other modules are counted. *)
Fixpoint unres_schema_free_loop {St : Type} (free_der : St -> nat -> St)
  (module : option nat) (n : nat) (i : nat) (st : St) (unres : unres_schema)
  (unresolved : Z) : option (St * unres_schema * Z) :=
  match n with
  | O => Some (st, unres, unresolved)
  | S n' =>
      m ← uns_module unres !! i;
      t ← uns_type unres !! i;
      if negb (bool_decide (Some m = module)) then
        unres_schema_free_loop free_der module n' (S i) st unres
          (if negb (bool_decide (t = UNRES_RESOLVED)) then u32 (unresolved + 1)
           else unresolved)
      else
        st ← (if bool_decide (t = UNRES_TYPE_DER)
              then it ← uns_item unres !! i; Some (free_der st it)
              else Some st);
        unres_schema_free_loop free_der module n' (S i) st
          {| uns_item := uns_item unres; uns_type := <[i := UNRES_RESOLVED]> (uns_type unres);
             uns_str_snode := uns_str_snode unres; uns_module := uns_module unres;
             uns_count := uns_count unres |}
          unresolved
  end.

(** [unres_schema_free(module, unres)]: [*unres] after the call ([None] is
    NULL, also when the structure was released). [submodule] is
    [module->type]. *)
Definition unres_schema_free {St : Type} (free_der : St -> nat -> St)
  (module : option nat) (submodule : bool) (st : St) (unres : option unres_schema)
  : option (St * option unres_schema) :=
  match unres with
  | None => Some (st, None)
  | Some u =>
      '(st, u', unresolved) ←
        unres_schema_free_loop free_der module (Z.to_nat (uns_count u)) 0 st u 0;
      if bool_decide (module = None) || ((unresolved =? 0) && negb submodule)
      then Some (st, None)
      else Some (st, Some u')
  end.

(** Every entry of another module than [module] is resolved. *)
Definition others_resolved (unres : unres_schema) (module : option nat) : Prop :=
  forall j m t,
    (j < Z.to_nat (uns_count unres))%nat ->
    uns_module unres !! j = Some m -> uns_type unres !! j = Some t ->
    Some m <> module -> t = UNRES_RESOLVED.

(** * context.c: submodules, older revisions, iteration *)

(** Modelled from the spec: [ly_strequal] of common.c, which is not among
    the sources: whether two strings are equal (its third argument tells
    that both are in the dictionary, where equal strings are one). *)
Definition ly_strequal (a b : string) : bool := String.eqb a b.

(** [ly_ctx_get_module_iter(ctx, idx)]: the entry returned (NULL at the end,
    for a NULL argument, and for a NULL entry) and [*idx] after the call.
    Here and in the functions below [ly_errno], which is set to LY_EINVAL
    for a NULL argument, is not part of the result. *)
Definition ly_ctx_get_module_iter (ctx : option ly_ctx) (idx : option Z)
  : option lys_module * option Z :=
  match ctx, idx with
  | Some c, Some i =>
      if Z.of_nat (length (models_list c)) <=? i then (None, idx)
      else (mjoin (models_list c !! Z.to_nat i), Some (u32 (i + 1)))
  | _, _ => (None, idx)
  end.

(** The loop of [ly_ctx_get_submodule2] over the includes. *)
Fixpoint ly_ctx_get_submodule2_loop (inc : list lys_include) (submodule : string)
  : option lys_submodule :=
  match inc with
  | [] => None
  | i :: rest =>
      match inc_submodule i with
      | Some result =>
          if ly_strequal submodule (submodule_name result) then Some result
          else ly_ctx_get_submodule2_loop rest submodule
      | None => ly_ctx_get_submodule2_loop rest submodule
      end
  end.

Definition ly_ctx_get_submodule2 (main_module : option lys_module) (submodule : option string)
  : option lys_submodule :=
  match main_module, submodule with
  | Some m, Some s => ly_ctx_get_submodule2_loop (module_inc m) s
  | _, _ => None
  end.

Definition is_Gt (c : comparison) : bool := match c with Gt => true | _ => false end.
Definition is_Lt (c : comparison) : bool := match c with Lt => true | _ => false end.
Definition is_Eq (c : comparison) : bool := match c with Eq => true | _ => false end.

(** The body of the [while] loop of [ly_ctx_get_submodule] for the main
    module [mainmod]: the value of [ret] after it, and whether the loop is
    left. *)
Definition ly_ctx_get_submodule_step (module revision : option string) (submodule : string)
  (sub_revision : option string) (mainmod : lys_module) (ret : option lys_submodule)
  : option lys_submodule * bool :=
  if match module with
     | Some name => negb (is_Eq (strcmp (module_name mainmod) name))
     | None => false
     end
  then (ret, false)
  else if match revision with
          | Some rv => bool_decide (module_rev mainmod = [])
                       || negb (is_Eq (strcmp rv (rev0_date (module_rev mainmod))))
          | None => false
          end
  then (ret, false)
  else
    match ly_ctx_get_submodule2 (Some mainmod) (Some submodule) with
    | None => (ret, false)
    | Some submod =>
        match sub_revision with
        | None =>
            match ret with
            | Some r =>
                if negb (bool_decide (submodule_rev submod = []))
                   && (bool_decide (submodule_rev r = [])
                       || is_Gt (strcmp (rev0_date (submodule_rev submod))
                                   (rev0_date (submodule_rev r))))
                then (Some submod, false)
                else (ret, false)
            | None => (Some submod, false)
            end
        | Some sr =>
            if bool_decide (submodule_rev submod = []) then (ret, false)
            else if is_Eq (strcmp sr (rev0_date (submodule_rev submod)))
                 then (Some submod, true)
                 else (ret, false)
        end
    end.

(** [while ((mainmod = ly_ctx_get_module_iter(ctx, &idx)))]; the fuel bounds
    the number of turns. *)
Fixpoint ly_ctx_get_submodule_loop (fuel : nat) (ctx : ly_ctx) (idx : Z)
  (module revision : option string) (submodule : string) (sub_revision : option string)
  (ret : option lys_submodule) : option (option lys_submodule) :=
  match fuel with
  | O => None
  | S fuel' =>
      match ly_ctx_get_module_iter (Some ctx) (Some idx) with
      | (Some mainmod, Some idx') =>
          let '(ret', stop) :=
            ly_ctx_get_submodule_step module revision submodule sub_revision mainmod ret in
          if stop then Some ret'
          else ly_ctx_get_submodule_loop fuel' ctx idx' module revision submodule
                 sub_revision ret'
      | _ => Some ret
      end
  end.

(** [ly_ctx_get_submodule(ctx, module, revision, submodule, sub_revision)] *)
Definition ly_ctx_get_submodule (ctx : option ly_ctx) (module revision submodule
  sub_revision : option string) : option lys_submodule :=
  match ctx, submodule with
  | Some c, Some s =>
      if bool_decide (revision <> None) && bool_decide (module = None) then None
      else
        default None
          (ly_ctx_get_submodule_loop (S (length (models_list c))) c 0 module revision s
             sub_revision None)
  | _, _ => None
  end.

(** The loop of [ly_ctx_get_module_older]; [module] is the entry [mi] of the
    context, [md]. The result is [None] when the loop reads through a NULL
    entry. *)
Fixpoint ly_ctx_get_module_older_loop (mi : nat) (md : lys_module) (i : nat)
  (l : list (option lys_module)) (result : option (nat * lys_module))
  : option (option (nat * lys_module)) :=
  match l with
  | [] => Some result
  | None :: _ => None
  | Some iter :: rest =>
      if (i =? mi)%nat || (rev_size (module_rev iter) =? 0)
      then ly_ctx_get_module_older_loop mi md (S i) rest result
      else if negb (ly_strequal (module_name md) (module_name iter))
      then ly_ctx_get_module_older_loop mi md (S i) rest result
      else if is_Lt (strcmp (rev0_date (module_rev iter)) (rev0_date (module_rev md)))
      then
        match result with
        | Some (_, r) =>
            if is_Gt (strcmp (rev0_date (module_rev iter)) (rev0_date (module_rev r)))
            then ly_ctx_get_module_older_loop mi md (S i) rest (Some (i, iter))
            else ly_ctx_get_module_older_loop mi md (S i) rest result
        | None => ly_ctx_get_module_older_loop mi md (S i) rest (Some (i, iter))
        end
      else ly_ctx_get_module_older_loop mi md (S i) rest result
  end.

(** [ly_ctx_get_module_older(ctx, module)], for a module of the context
    given by its index. *)
Definition ly_ctx_get_module_older (ctx : option ly_ctx) (module : option nat)
  : option (option (nat * lys_module)) :=
  match ctx, module with
  | Some c, Some mi =>
      match mjoin (models_list c !! mi) with
      | Some md =>
          if rev_size (module_rev md) =? 0 then Some None
          else ly_ctx_get_module_older_loop mi md 0 (models_list c) None
      | None => None
      end
  | _, _ => Some None
  end.

(** ** Vocabulary *)

(** The submodules [ly_ctx_get_submodule] considers, in the order of the
    context: for each module before the first NULL entry that passes the
    name and revision filters, its first include of the name. *)
Fixpoint submodule_candidates (l : list (option lys_module)) (module revision : option string)
  (submodule : string) : list lys_submodule :=
  match l with
  | [] => []
  | None :: _ => []
  | Some m :: rest =>
      let tail := submodule_candidates rest module revision submodule in
      if match module with Some name => negb (String.eqb (module_name m) name) | None => false end
      then tail
      else if match revision with
              | Some rv => bool_decide (module_rev m = [])
                           || negb (String.eqb rv (rev0_date (module_rev m)))
              | None => false
              end
      then tail
      else
        match ly_ctx_get_submodule2 (Some m) (Some submodule) with
        | Some s => s :: tail
        | None => tail
        end
  end.

(** [iter] is an older revision of the module [md]: another entry of the
    context with the same name and a revision before that of [md]. *)
Definition older_revision (l : list (option lys_module)) (mi : nat) (md : lys_module)
  (i : nat) (iter : lys_module) : Prop :=
  l !! i = Some (Some iter) /\ i <> mi /\ module_rev iter <> [] /\
  module_name iter = module_name md /\
  strcmp (rev0_date (module_rev iter)) (rev0_date (module_rev md)) = Lt.

(** The loop of [ly_ctx_get_submodule] as a scan of the module list. *)
Fixpoint submodule_scan (l : list (option lys_module)) (module revision : option string)
  (submodule : string) (sub_revision : option string) (ret : option lys_submodule)
  : option lys_submodule :=
  match l with
  | [] => ret
  | None :: _ => ret
  | Some mainmod :: rest =>
      let '(ret', stop) :=
        ly_ctx_get_submodule_step module revision submodule sub_revision mainmod ret in
      if stop then ret'
      else submodule_scan rest module revision submodule sub_revision ret'
  end.

(** [s] is strictly preferred to [c] by the test of the loop: [s] has a
    revision, and [c] has none or an older one. *)
Definition strictly_newer (s c : lys_submodule) : Prop :=
  submodule_rev s <> [] /\
  (submodule_rev c = [] \/
   strcmp (rev0_date (submodule_rev s)) (rev0_date (submodule_rev c)) = Gt).

(** [res] is the first of the newest submodules of [cands]: it stands at a
    position [i] of the list, it is strictly preferred to every submodule
    before [i], and no submodule after [i] that has a revision is newer,
    [res] having a revision then. *)
Definition first_newest_submodule (cands : list lys_submodule) (res : option lys_submodule)
  : Prop :=
  match res with
  | None => cands = []
  | Some s =>
      exists i : nat,
        cands !! i = Some s /\
        (forall j c, (j < i)%nat -> cands !! j = Some c -> strictly_newer s c) /\
        (forall j c, (i < j)%nat -> cands !! j = Some c -> submodule_rev c <> [] ->
           submodule_rev s <> [] /\
           date_le (rev0_date (submodule_rev c)) (rev0_date (submodule_rev s)))
  end.

(** The test of a submodule against a requested revision. *)
Definition has_revision (sr : string) (s : lys_submodule) : bool :=
  negb (bool_decide (submodule_rev s = [])) && String.eqb sr (rev0_date (submodule_rev s)).

(** ** A context with two revisions of a module and of its submodule *)

Definition sub_2015 : lys_submodule :=
  {| submodule_name := "sub"; submodule_rev := [{| rev_date := "2015-01-01" |}];
     submodule_filepath := None; submodule_features := [] |}.

Definition sub_2016 : lys_submodule :=
  {| submodule_name := "sub"; submodule_rev := [{| rev_date := "2016-06-01" |}];
     submodule_filepath := None; submodule_features := [] |}.

Definition mod_with (name date : string) (inc : list lys_include) : lys_module :=
  {| module_name := name; module_ns := "urn:" ++ name;
     module_rev := [{| rev_date := date |}]; module_filepath := None;
     module_features := []; module_imp := []; module_inc := inc;
     module_implemented := true; module_data := true |}.

Definition ctx_two_revisions : ly_ctx :=
  {| models_list :=
       [ Some (mod_with "m" "2015-01-01" [{| inc_submodule := Some sub_2015 |}]);
         Some (mod_with "other" "2014-01-01" []);
         Some (mod_with "m" "2016-06-01" [{| inc_submodule := None |};
                                           {| inc_submodule := Some sub_2016 |}]);
         Some (mod_with "m" "2014-01-01" []) ];
     models_search_path := None;
     models_module_set_id := 4 |}.


(** Two distinct submodules "sub" of the same revision, included by two
    revisions of "m". *)
Definition sub_2016_a : lys_submodule :=
  {| submodule_name := "sub"; submodule_rev := [{| rev_date := "2016-06-01" |}];
     submodule_filepath := Some "a/sub.yang"; submodule_features := [] |}.

Definition sub_2016_b : lys_submodule :=
  {| submodule_name := "sub"; submodule_rev := [{| rev_date := "2016-06-01" |}];
     submodule_filepath := Some "b/sub.yang"; submodule_features := [] |}.

Definition ctx_equal_revisions : ly_ctx :=
  {| models_list :=
       [ Some (mod_with "m" "2015-01-01" [{| inc_submodule := Some sub_2015 |}]);
         Some (mod_with "m" "2016-06-01" [{| inc_submodule := Some sub_2016_a |}]);
         Some (mod_with "m" "2016-07-01" [{| inc_submodule := Some sub_2016_b |}]) ];
     models_search_path := None;
     models_module_set_id := 3 |}.

(** The invariant of the loop of [ly_ctx_get_module_older]: the result so
    far is the newest of the older revisions among the entries [pre] already
    visited. *)
Definition older_so_far (full : list (option lys_module)) (mi : nat) (md : lys_module)
  (pre : list (option lys_module)) (res : option (nat * lys_module)) : Prop :=
  match res with
  | None => forall i it, pre !! i = Some (Some it) -> ~ older_revision full mi md i it
  | Some (i, r) =>
      older_revision full mi md i r /\
      forall j it, pre !! j = Some (Some it) -> older_revision full mi md j it ->
        date_le (rev0_date (module_rev it)) (rev0_date (module_rev r))
  end.

(** * resolve.c: more schema resolvers *)

(** [resolve_choice_default_schema_nodeid(nodeid, start, ret)];
    [no_rpc_notif_node] is the mask [LYS_NO_RPC_NOTIF_NODE] of
    tree_schema.h. *)
Definition resolve_choice_default_schema_nodeid (E : schema_env) (sch : list lys_node)
  (no_rpc_notif_node : list LYS_NODE) (nodeid : string) (start : nat) (ret0 : option nat)
  : nodeid_result :=
  (* cannot actually be a path *)
  if bool_decide (strchr nodeid "/" <> None) then {| nr_rc := -1; nr_ret := ret0 |}
  else resolve_descendant_schema_nodeid E sch nodeid start no_rpc_notif_node true false ret0.

(** [resolve_absolute_schema_nodeid(nodeid, module, ret_nodetype, ret)] *)
Definition resolve_absolute_schema_nodeid (E : schema_env) (sch : list lys_node)
  (nodeid : string) (module : nat) (ret_nodetype : list LYS_NODE) (ret0 : option nat)
  : nodeid_result :=
  let start := se_module_data E sch module in
  let sn := parse_schema_nodeid nodeid (-1) in
  if sn_ret sn <? 1 then {| nr_rc := (0 - sn_ret sn) + 1; nr_ret := ret0 |}
  else if negb (sn_is_relative sn =? 0) then {| nr_rc := -1; nr_ret := ret0 |}
  else
    match se_import_module E sch module (cprefix (sn_mod_name_len sn) (sn_mod_name sn)) with
    | None => {| nr_rc := -1; nr_ret := ret0 |}
    | Some abs_start_mod =>
        schema_nodeid_loop E sch
          [LYS_GETNEXT_WITHCHOICE; LYS_GETNEXT_WITHCASE; LYS_GETNEXT_WITHINOUT;
           LYS_GETNEXT_WITHGROUPING]
          (Some ret_nodetype) false abs_start_mod module (S (String.length nodeid))
          (cskip (Z.to_nat (sn_ret sn)) nodeid) (sn_ret sn) sn 0 start ret0
    end.

(** Result of [resolve_unique]: the return value, the schema after the call
    and the codes logged. *)
Record unique_result : Set := {
  uq_rc : Z;
  uq_schema : list lys_node;
  uq_log : list LY_ECODE
}.

(** [resolve_unique(parent, uniq_str_path)]; [lys_unique] is the flag
    [LYS_UNIQUE] of tree_schema.h. [None] when the parent has no child, which
    the resolver it calls asserts. *)
Definition resolve_unique (E : schema_env) (lys_unique : Z) (sch : list lys_node)
  (parent : nat) (uniq_str_path : string) : option unique_result :=
  pd ← sch !! parent;
  start ← node_child pd;
  let r := resolve_descendant_schema_nodeid E sch uniq_str_path start [LYS_LEAF] true true
             None in
  let rc := nr_rc r in
  if negb (rc =? 0) then
    Some {| uq_rc := -1; uq_schema := sch;
            uq_log := LYE_INARG ::
                       (if 0 <? rc then [LYE_INCHAR]
                        else if rc =? -2 then [LYE_SPEC] else []) |}
  else
    match nr_ret r with
    | None => Some {| uq_rc := EXIT_FAILURE; uq_schema := sch; uq_log := [LYE_INARG; LYE_SPEC] |}
    | Some leaf =>
        ld ← sch !! leaf;
        if negb (bool_decide (node_nodetype ld = LYS_LEAF)) then
          Some {| uq_rc := -1; uq_schema := sch; uq_log := [LYE_INARG; LYE_SPEC] |}
        else if negb (se_check_status E sch parent leaf =? 0) then
          Some {| uq_rc := -1; uq_schema := sch; uq_log := [LYE_INSTATUS] |}
        else
          Some {| uq_rc := EXIT_SUCCESS;
                  uq_schema := <[leaf := set_flags (Z.lor (node_flags ld) lys_unique) ld]> sch;
                  uq_log := [] |}
    end.

(** [resolve_choice_dflt(choic, dflt)], from the first child of the choice
    (or of a uses inside it) on; [ly_strequal] on the names. The fuel bounds
    the number of nodes visited; the outer [None] tells that it ran out. *)
Fixpoint resolve_choice_dflt_from (fuel : nat) (sch : list lys_node) (child : option nat)
  (dflt : string) : option (option nat) :=
  match fuel with
  | O => None
  | S fuel' =>
      match child with
      | None => Some None
      | Some c =>
          cd ← sch !! c;
          ret ← (if bool_decide (node_nodetype cd = LYS_USES)
                 then resolve_choice_dflt_from fuel' sch (node_child cd) dflt
                 else Some None);
          match ret with
          | Some r => Some (Some r)
          | None =>
              if match node_name cd with
                 | Some name => ly_strequal name dflt
                 | None => false
                 end
                 && nodetype_in (node_nodetype cd)
                      [LYS_ANYXML; LYS_CASE; LYS_CONTAINER; LYS_LEAF; LYS_LEAFLIST; LYS_LIST]
              then Some (Some c)
              else resolve_choice_dflt_from fuel' sch (node_next cd) dflt
          end
      end
  end.

Definition resolve_choice_dflt (fuel : nat) (sch : list lys_node) (choic : nat)
  (dflt : string) : option (option nat) :=
  cd ← sch !! choic;
  resolve_choice_dflt_from fuel sch (node_child cd) dflt.

(** [node] is reached from the child list starting at [first] by going to
    next siblings and into the children of uses nodes. *)
Inductive through_uses (sch : list lys_node) : option nat -> nat -> Prop :=
| tu_here (n : nat) : through_uses sch (Some n) n
| tu_next (c : nat) (cd : lys_node) (n : nat) :
    sch !! c = Some cd -> through_uses sch (node_next cd) n -> through_uses sch (Some c) n
| tu_uses (c : nat) (cd : lys_node) (n : nat) :
    sch !! c = Some cd -> node_nodetype cd = LYS_USES ->
    through_uses sch (node_child cd) n -> through_uses sch (Some c) n.

(** The node types a default case of a choice can have. *)
Definition choice_dflt_types : list LYS_NODE :=
  [LYS_ANYXML; LYS_CASE; LYS_CONTAINER; LYS_LEAF; LYS_LEAFLIST; LYS_LIST].

(** A module "m" with the choice "ch": a uses whose grouping content is the
    container "x", and the cases "x" and "y". *)
Definition schema_choice : list lys_node :=
  [ mk_node "ch" LYS_CHOICE 0 0 None (Some 1%nat) None (Some 0%nat);
    mk_node "g" LYS_USES 0 0 (Some 0%nat) (Some 4%nat) (Some 2%nat) (Some 3%nat);
    mk_node "x" LYS_CASE 0 0 (Some 0%nat) None (Some 3%nat) (Some 1%nat);
    mk_node "y" LYS_CASE 0 0 (Some 0%nat) None None (Some 2%nat);
    mk_node "x" LYS_CONTAINER 0 0 (Some 1%nat) None None (Some 4%nat) ].


(** The node type the resolver asks for, when it asks. *)
Definition of_nodetype (sch : list lys_node) (ret_nodetype : option (list LYS_NODE))
  (ret : option nat) : Prop :=
  match ret with
  | None => True
  | Some s =>
      exists sd, sch !! s = Some sd /\
        match ret_nodetype with
        | Some mask => nodetype_in (node_nodetype sd) mask = true
        | None => True
        end
  end.


(** The sibling lists that [resolve_choice_dflt] can visit from [child] on,
    through uses nodes, end within [fuel] nodes and hold no dangling
    pointer. *)
Fixpoint choice_walk_ends (fuel : nat) (sch : list lys_node) (child : option nat) : bool :=
  match fuel with
  | O => false
  | S fuel' =>
      match child with
      | None => true
      | Some c =>
          match sch !! c with
          | None => false
          | Some cd =>
              (if bool_decide (node_nodetype cd = LYS_USES)
               then choice_walk_ends fuel' sch (node_child cd)
               else true)
              && choice_walk_ends fuel' sch (node_next cd)
          end
      end
  end.
(** * resolve.c: identityref values and the back-links of identities *)

(** [!strncmp(a, b, n) && !a[n]]: the string [a] is the first [n] bytes of
    what [b] points at. *)
Definition name_is (a : string) (b : option string) (n : Z) : bool :=
  match b with
  | Some b => strncmp0 a b (Z.to_nat n) && negb (cnonzero (cchar a (Z.to_nat n)))
  | None => false
  end.

(** The test of [resolve_identref] on an identity: its name is the name
    parsed and, with a prefix, the name of its module is the prefix. *)
Definition identref_match (module_name_of : nat -> string) (i : nat) (idn : lys_ident)
  (ni : node_identifier) : bool :=
  match ni_name ni with
  | Some name =>
      strcmp0 (ident_name idn) name
      && (bool_decide (ni_mod_name ni = None)
          || name_is (module_name_of i) (ni_mod_name ni) (ni_mod_name_len ni))
  | None => false
  end.

(** The loop over [base->der], up to the NULL that ends the array. *)
Fixpoint resolve_identref_der (h : list lys_ident) (module_name_of : nat -> string)
  (ni : node_identifier) (der : list nat) : option (option nat) :=
  match der with
  | [] => Some None
  | d :: rest =>
      dd ← h !! d;
      if identref_match module_name_of d dd ni then Some (Some d)
      else resolve_identref_der h module_name_of ni rest
  end.

(** [resolve_identref(base, ident_name, node)]: the identity returned and
    the codes logged. [module_name_of] gives [ident->module->name].  The
    outer [None] stands for a pointer outside the identities. *)
Definition resolve_identref (h : list lys_ident) (module_name_of : nat -> string)
  (base : option nat) (ident_name : option string) : option (option nat * list LY_ECODE) :=
  match base, ident_name with
  | Some b, Some s =>
      let ni := parse_node_identifier s in
      let rc := ni_ret ni in
      if rc <? 1 then Some (None, [LYE_INCHAR])
      else if rc <? Z.of_nat (String.length s) then Some (None, [LYE_INCHAR])
      else
        bd ← h !! b;
        if identref_match module_name_of b bd ni then Some (Some b, [])
        else
          r ← match ident_der bd with
              | Some der => resolve_identref_der h module_name_of ni der
              | None => Some None
              end;
          match r with
          | Some d => Some (Some d, [])
          | None => Some (None, [LYE_INRESOLV])
          end
  | _, _ => Some (None, [])
  end.

(** The string has no NUL byte inside, as every C string. *)
Definition nul_free (s : string) : Prop :=
  forall i, (i < String.length s)%nat -> cchar s i <> NUL.

(** The identity [i] has the name [name] and, when a module is asked for,
    is of the module [prefix]. *)
Definition identity_named (h : list lys_ident) (module_name_of : nat -> string)
  (prefix : option string) (name : string) (i : nat) : bool :=
  match h !! i with
  | Some idn =>
      String.eqb (ident_name idn) name
      && match prefix with
         | Some p => String.eqb (module_name_of i) p
         | None => true
         end
  | None => false
  end.

(** The text of a name with an optional prefix, as in an identityref value
    or an if-feature argument. *)
Definition prefixed_text (prefix : option string) (name : string) : string :=
  match prefix with
  | Some p => (p ++ ":" ++ name)%string
  | None => name
  end.

(** An identity [a] is on the chain of bases that starts at [start]. *)
Inductive on_base_chain (h : list lys_ident) : option nat -> nat -> Prop :=
| obc_here (a : nat) : on_base_chain h (Some a) a
| obc_step (b : nat) (bi : lys_ident) (a : nat) :
    h !! b = Some bi -> on_base_chain h (ident_base bi) a -> on_base_chain h (Some b) a.

(** The derived identities recorded in an identity. *)
Definition der_of (h : list lys_ident) (a : nat) : list nat :=
  match h !! a with
  | Some ai => default [] (ident_der ai)
  | None => []
  end.


(** Three identities of one module: "animal", "mammal" derived from it, and
    "dog", whose base is not resolved yet. *)
Definition graph_animals : ident_graph :=
  {| ig_ident := [ {| ident_name := "animal"; ident_base := None; ident_der := Some [1%nat] |};
                   {| ident_name := "mammal"; ident_base := Some 0%nat; ident_der := None |};
                   {| ident_name := "dog"; ident_base := None; ident_der := None |} ];
     ig_module := [] |}.

Definition module_animals : lys_module_idents :=
  {| mi_name := "zoo"; mi_ident := [0%nat; 1%nat; 2%nat]; mi_inc := [] |}.

(** The identities of [graph_animals] once the base of "dog" is "mammal". *)
Definition graph_animals_resolved : list lys_ident :=
  [ {| ident_name := "animal"; ident_base := None; ident_der := Some [1%nat; 2%nat] |};
    {| ident_name := "mammal"; ident_base := Some 0%nat; ident_der := Some [2%nat] |};
    {| ident_name := "dog"; ident_base := Some 1%nat; ident_der := None |} ].

(** The executable form of [nul_free]. *)
Fixpoint no_nul (s : string) : bool :=
  match s with
  | EmptyString => true
  | String c rest => cnonzero c && no_nul rest
  end.

(** The chain of bases from [start] ends within [fuel] identities. *)
Fixpoint base_chain_ends (fuel : nat) (h : list lys_ident) (start : option nat) : bool :=
  match start with
  | None => true
  | Some b =>
      match fuel with
      | O => false
      | S fuel' =>
          match h !! b with
          | Some bi => base_chain_ends fuel' h (ident_base bi)
          | None => true
          end
      end
  end.

(** * resolve.c: features *)

(** A [struct lys_feature *] into a module: [None] and the index in the
    [features] array of the module itself, or the index of an include and
    the index in the [features] array of its submodule. *)
Definition feature_ptr : Set := (option nat * nat)%type.

(** What [resolve_feature] calls: [lys_get_import_module(module, NULL, 0,
    mod_name, mod_name_len)] and [lyp_check_status] on the node [*ret]
    points at and a feature. *)
Record feature_env := {
  fe_import_module : lys_module -> option string -> option lys_module;
  fe_check_status : nat -> feature_ptr -> Z
}.

Definition LYE_INCHAR_msg (c : ascii) (s : string) : string :=
  ("Unexpected character(s) '" ++ String c EmptyString ++ "' ("
     ++ String.substring 0 15 s ++ ").")%string.

(** Result of [resolve_feature]: the return value, the feature written to
    [*ret] ([None] when nothing is written) and the messages logged. *)
Record feature_result : Set := {
  fr_rc : Z;
  fr_ret : option feature_ptr;
  fr_log : list string
}.

(** [for (j = 0; j < features_size; j++) if (!strcmp(name, features[j].name))] *)
Fixpoint feature_search (name : string) (fs : list lys_feature) (j : nat) : option nat :=
  match fs with
  | [] => None
  | f :: rest =>
      if strcmp0 name (feature_name f) then Some j else feature_search name rest (S j)
  end.

(** The body of the two loops at a hit; [ret] is the node [*ret] points at
    on entry when [ret] is given. *)
Definition feature_hit (E : feature_env) (ret : option nat) (f : feature_ptr) : feature_result :=
  match ret with
  | Some node =>
      (* check status *)
      if negb (fe_check_status E node f =? 0) then
        {| fr_rc := -1; fr_ret := None; fr_log := [] |}
      else {| fr_rc := EXIT_SUCCESS; fr_ret := Some f; fr_log := [] |}
  | None => {| fr_rc := EXIT_SUCCESS; fr_ret := None; fr_log := [] |}
  end.

(** The loop over the submodules, from the include [i] on. *)
Fixpoint resolve_feature_inc (E : feature_env) (id name : string) (ret : option nat)
  (inc : list lys_include) (i : nat) : feature_result :=
  match inc with
  | [] =>
      (* not found *)
      {| fr_rc := EXIT_FAILURE; fr_ret := None; fr_log := [LYE_INRESOLV_msg "feature" id] |}
  | inc0 :: rest =>
      match inc_submodule inc0 with
      | None =>
          (* not yet resolved *)
          resolve_feature_inc E id name ret rest (S i)
      | Some sub =>
          match feature_search name (submodule_features sub) 0 with
          | Some j => feature_hit E ret (Some i, j)
          | None => resolve_feature_inc E id name ret rest (S i)
          end
      end
  end.

(** [resolve_feature(id, module, ret)]. The outer [None] stands for the
    read of a NULL name, which a positive result of the parser excludes. *)
Definition resolve_feature (E : feature_env) (id : string) (module : lys_module)
  (ret : option nat) : option feature_result :=
  let ni := parse_node_identifier id in
  let i := ni_ret ni in
  if i <? 1 then
    Some {| fr_rc := -1; fr_ret := None;
            fr_log := [LYE_INCHAR_msg (cchar id (Z.to_nat (- i))) (cskip (Z.to_nat (- i)) id)] |}
  else
    let prefix := cprefix (ni_mod_name_len ni) (ni_mod_name ni) in
    match fe_import_module E module prefix with
    | None =>
        (* identity refers unknown data model *)
        Some {| fr_rc := -1; fr_ret := None;
                fr_log := [LYE_INMOD_msg (default EmptyString prefix)] |}
    | Some md =>
        name ← ni_name ni;
        (* search in the identified module ... *)
        match feature_search name (module_features md) 0 with
        | Some j => Some (feature_hit E ret (None, j))
        | None =>
            (* ... and all its submodules *)
            Some (resolve_feature_inc E id name ret (module_inc md) 0)
        end
    end.

(** The features of an array with their pointers, from the index [j] on. *)
Fixpoint features_from (m : option nat) (j : nat) (fs : list lys_feature)
  : list (feature_ptr * lys_feature) :=
  match fs with
  | [] => []
  | f :: rest => ((m, j), f) :: features_from m (S j) rest
  end.

(** The features of the resolved submodules, in the order of the includes. *)
Fixpoint features_of_includes (inc : list lys_include) (i : nat)
  : list (feature_ptr * lys_feature) :=
  match inc with
  | [] => []
  | inc0 :: rest =>
      match inc_submodule inc0 with
      | Some sub => features_from (Some i) 0 (submodule_features sub)
      | None => []
      end ++ features_of_includes rest (S i)
  end.

(** The features visible in a module: its own, then those of its resolved
    submodules. *)
Definition visible_features (md : lys_module) : list (feature_ptr * lys_feature) :=
  features_from None 0 (module_features md) ++ features_of_includes (module_inc md) 0.

(** A module "m" with the feature "ssh", an include that is not resolved
    yet and a submodule with the features "tls" and "ssh". *)
Definition mod_features : lys_module :=
  {| module_name := "m"; module_ns := "urn:m"; module_rev := []; module_filepath := None;
     module_features := [ {| feature_name := "ssh"; feature_flags := 0 |} ];
     module_imp := [];
     module_inc :=
       [ {| inc_submodule := None |};
         {| inc_submodule :=
              Some {| submodule_name := "sub"; submodule_rev := []; submodule_filepath := None;
                      submodule_features :=
                        [ {| feature_name := "tls"; feature_flags := 0 |};
                          {| feature_name := "ssh"; feature_flags := 0 |} ] |} |} ];
     module_implemented := true; module_data := true |}.

Definition env_features : feature_env :=
  {| fe_import_module := fun m prefix =>
       match prefix with
       | None => Some m
       | Some p => if String.eqb p "m" then Some mod_features else None
       end;
     fe_check_status := fun _ _ => 0 |}.

(** * resolve.c: the search of data nodes *)

(** [struct lyd_node] as [resolve_data] reads it: the module, name and node
    type of its schema node, and the links to the first child and the next
    sibling. Pointers are indices of the arena. *)
Record lyd_named : Set := {
  dm_module : nat;
  dm_name : string;
  dm_nodetype : LYS_NODE;
  dm_child : option nat;
  dm_next : option nat
}.

(** [node->schema->module == mod && !strncmp(node->schema->name, name, nam_len)
     && node->schema->name[nam_len] == '\0'] *)
Definition data_matches (mod_ : nat) (name : string) (nam_len : Z) (nd : lyd_named) : bool :=
  Nat.eqb (dm_module nd) mod_ && name_is (dm_name nd) (Some name) nam_len.

Definition set_nodes (nodes : list (option nat)) (count : Z) (p : unres_data) : unres_data :=
  {| und_node := nodes; und_type := und_type p; und_count := count |}.

(** The [LY_TREE_FOR] of [resolve_data] from [node] on. It ends with the
    structure, [i] and [flag], or returns when the block cannot grow; [ok]
    tells whether [ly_realloc] succeeds. [None] when the siblings do not end
    within [fuel] nodes. *)
Fixpoint resolve_data_siblings (ok : bool) (fuel : nat) (tree : list lyd_named)
  (mod_ : nat) (name : string) (nam_len : Z) (node : option nat)
  (parents : unres_data) (i : Z) (flag : bool)
  : option (loop_step (unres_data * Z * bool)) :=
  match node with
  | None => Some (Next (parents, i, flag))
  | Some n =>
      match fuel with
      | O => None
      | S fuel' =>
          nd ← tree !! n;
          if data_matches mod_ name nam_len nd then
            (* matching target *)
            if negb flag then
              (* put node instead of the current parent *)
              resolve_data_siblings ok fuel' tree mod_ name nam_len (dm_next nd)
                (set_nodes (<[Z.to_nat i := Some n]> (und_node parents)) (und_count parents)
                   parents)
                i true
            else
              (* multiple matching, so create a new node *)
              let count := u32 (und_count parents + 1) in
              let nodes := ly_realloc ok None (und_node parents) (Z.to_nat count) in
              if negb ok then Some (Return EXIT_FAILURE (set_nodes nodes count parents, i, flag))
              else
                resolve_data_siblings ok fuel' tree mod_ name nam_len (dm_next nd)
                  (set_nodes (<[Z.to_nat (u32 (count - 1)) := Some n]> nodes) count parents)
                  (u32 (i + 1)) flag
          else
            resolve_data_siblings ok fuel' tree mod_ name nam_len (dm_next nd) parents i flag
      end
  end.

(** The [for] loop of [resolve_data] over the parents. *)
Fixpoint resolve_data_loop (ok : bool) (fuel : nat) (tree : list lyd_named)
  (mod_ : nat) (name : string) (nam_len : Z) (start : option nat)
  (parents : unres_data) (i : Z) : option (Z * unres_data) :=
  if negb (i <? und_count parents) then
    Some (if negb (und_count parents =? 0) then EXIT_SUCCESS else EXIT_FAILURE, parents)
  else
    match fuel with
    | O => None
    | S fuel' =>
        p ← und_node parents !! Z.to_nat i;
        skip ← match p with
               | Some pn =>
                   pd ← tree !! pn;
                   Some (nodetype_in (dm_nodetype pd) [LYS_LEAF; LYS_LEAFLIST; LYS_ANYXML])
               | None => Some false
               end;
        if (skip : bool) then
          (* skip *)
          resolve_data_loop ok fuel' tree mod_ name nam_len start parents (u32 (i + 1))
        else
          first ← match p with
                  | Some pn => pd ← tree !! pn; Some (dm_child pd)
                  | None => Some start
                  end;
          r ← resolve_data_siblings ok fuel' tree mod_ name nam_len first parents i false;
          match r with
          | Return rc (parents, _, _) => Some (rc, parents)
          | Next (parents, i, flag) =>
              if negb flag then
                (* remove item from the parents list *)
                resolve_data_loop ok fuel' tree mod_ name nam_len start
                  (unres_data_del parents i) i
              else
                resolve_data_loop ok fuel' tree mod_ name nam_len start parents (u32 (i + 1))
          end
    end.

(** [resolve_data(mod, name, nam_len, start, parents)]: the return value and
    the structure. [ok_malloc] and [ok] tell whether [malloc] and
    [ly_realloc] succeed. *)
Definition resolve_data (ok_malloc ok : bool) (fuel : nat) (tree : list lyd_named)
  (mod_ : nat) (name : string) (nam_len : Z) (start : option nat) (parents : unres_data)
  : option (Z * unres_data) :=
  if und_count parents =? 0 then
    if negb ok_malloc then Some (-1, set_nodes [] 1 parents)
    else
      resolve_data_loop ok fuel tree mod_ name nam_len start (set_nodes [None] 1 parents) 0
  else resolve_data_loop ok fuel tree mod_ name nam_len start parents 0.

(** The siblings from [first] on; [None] when they do not end within [fuel]
    nodes or a pointer leaves the arena. *)
Fixpoint data_siblings (fuel : nat) (tree : list lyd_named) (first : option nat)
  : option (list nat) :=
  match first with
  | None => Some []
  | Some n =>
      match fuel with
      | O => None
      | S fuel' =>
          nd ← tree !! n;
          rest ← data_siblings fuel' tree (dm_next nd);
          Some (n :: rest)
      end
  end.

(** The node [n] is a match of the search. *)
Definition data_match_at (tree : list lyd_named) (mod_ : nat) (name : string) (nam_len : Z)
  (n : nat) : bool :=
  match tree !! n with
  | Some nd => data_matches mod_ name nam_len nd
  | None => false
  end.

(** Where the search for the only parent [p] starts: at [start] without a
    parent, at the first child of the parent otherwise. *)
Definition data_search_first (tree : list lyd_named) (start : option nat) (p : option nat)
  : option nat :=
  match p with
  | None => start
  | Some pn => pd ← tree !! pn; dm_child pd
  end.

(** A container "c" with the children "a", "b", "a" of the module 0, and a
    sibling "a" of another module. *)
Definition data_tree_named : list lyd_named :=
  [ {| dm_module := 0; dm_name := "c"; dm_nodetype := LYS_CONTAINER;
       dm_child := Some 1%nat; dm_next := None |};
    {| dm_module := 0; dm_name := "a"; dm_nodetype := LYS_LEAFLIST;
       dm_child := None; dm_next := Some 2%nat |};
    {| dm_module := 0; dm_name := "b"; dm_nodetype := LYS_LEAF;
       dm_child := None; dm_next := Some 3%nat |};
    {| dm_module := 0; dm_name := "a"; dm_nodetype := LYS_LEAFLIST;
       dm_child := None; dm_next := Some 4%nat |};
    {| dm_module := 1; dm_name := "a"; dm_nodetype := LYS_LEAF;
       dm_child := None; dm_next := None |} ].

(** * resolve.c: whether a when or a must applies to a data node *)

(** The [while] loop of [resolve_applies_when] from its condition on; the
    test at [check_augment] has an empty body. [None] when the parents do
    not end within [fuel] nodes or a pointer leaves the arena. *)
Fixpoint resolve_applies_when_loop (fuel : nat) (sch : list lys_node) (parent : option nat)
  : option Z :=
  match parent with
  | None => Some 0
  | Some p =>
      pd ← sch !! p;
      if nodetype_in (node_nodetype pd) [LYS_USES; LYS_CHOICE; LYS_CASE] then
        if node_when pd then Some 1
        else
          match fuel with
          | O => None
          | S fuel' => resolve_applies_when_loop fuel' sch (lys_parent sch (Some p))
          end
      else Some 0
  end.

(** [resolve_applies_when(node)], on the schema node of the data node. The
    [goto] enters the loop after the test of the when of [parent]. *)
Definition resolve_applies_when (fuel : nat) (sch : list lys_node) (schema : nat) : option Z :=
  sd ← sch !! schema;
  if negb (nodetype_in (node_nodetype sd) [LYS_NOTIF; LYS_RPC]) && node_when sd then Some 1
  else resolve_applies_when_loop fuel sch (lys_parent sch (Some schema)).

(** [a] is above [n] with only uses, choice and case nodes from the parent
    of [n] up to [a], [a] included. *)
Inductive schema_only_above (sch : list lys_node) : nat -> nat -> Prop :=
| soa_parent (n p : nat) (pd : lys_node) :
    lys_parent sch (Some n) = Some p -> sch !! p = Some pd ->
    nodetype_in (node_nodetype pd) [LYS_USES; LYS_CHOICE; LYS_CASE] = true ->
    schema_only_above sch n p
| soa_step (n p a : nat) (pd : lys_node) :
    lys_parent sch (Some n) = Some p -> sch !! p = Some pd ->
    nodetype_in (node_nodetype pd) [LYS_USES; LYS_CHOICE; LYS_CASE] = true ->
    schema_only_above sch p a ->
    schema_only_above sch n a.

(** The parents from [parent] on end within [fuel] nodes, all in the arena. *)
Fixpoint parents_end (fuel : nat) (sch : list lys_node) (parent : option nat) : bool :=
  match parent with
  | None => true
  | Some p =>
      match sch !! p with
      | None => false
      | Some _ =>
          match fuel with
          | O => false
          | S fuel' => parents_end fuel' sch (lys_parent sch (Some p))
          end
      end
  end.

(** The node has a when of its own that counts. *)
Definition own_when (sd : lys_node) : bool :=
  negb (nodetype_in (node_nodetype sd) [LYS_NOTIF; LYS_RPC]) && node_when sd.

Definition set_when (w : bool) (n : lys_node) : lys_node :=
  {| node_name := node_name n; node_nodetype := node_nodetype n;
     node_flags := node_flags n;
     node_module := node_module n; node_parent := node_parent n;
     node_child := node_child n; node_next := node_next n; node_prev := node_prev n;
     node_type_base := node_type_base n; node_when := w;
     node_keys := node_keys n; node_target_name := node_target_name n;
     node_target := node_target n |}.

(** A container "c" with the choice "ch", whose case "cs" has a when and
    holds the leaf "l"; the leaf "m" is added to the container by an augment
    with a when. *)
Definition schema_when : list lys_node :=
  [ mk_node "c" LYS_CONTAINER 0 0 None (Some 1%nat) None (Some 0%nat);
    mk_node "ch" LYS_CHOICE 0 0 (Some 0%nat) (Some 2%nat) (Some 5%nat) (Some 5%nat);
    set_when true (mk_node "cs" LYS_CASE 0 0 (Some 1%nat) (Some 3%nat) None (Some 2%nat));
    mk_node "l" LYS_LEAF 0 0 (Some 2%nat) None None (Some 3%nat);
    set_when true
      (set_target (Some 0%nat) (mk_node "aug" LYS_AUGMENT 0 0 None (Some 5%nat) None None));
    mk_node "m" LYS_LEAF 0 0 (Some 4%nat) None None (Some 1%nat) ].

(** * resolve.c: the config flag passed down *)

(** The second schema is the first with more config bits set in the flags
    of its nodes, and nothing else changed. *)
Definition config_bits_added (sch sch' : list lys_node) : Prop :=
  length sch' = length sch /\
  forall k nd, sch !! k = Some nd ->
    exists c, Z.land c LYS_CONFIG_MASK = c /\
      sch' !! k = Some (set_flags (Z.lor (node_flags nd) c) nd).

(** The walk of [inherit_config_flag] from [node] ends within [fuel] nodes
    and every node it visits has a parent. *)
Fixpoint config_walk_ends (fuel : nat) (sch : list lys_node) (node : option nat) : bool :=
  match node with
  | None => true
  | Some n =>
      match fuel with
      | O => false
      | S fuel' =>
          match sch !! n, lys_parent sch (Some n) with
          | Some nd, Some p =>
              match sch !! p with
              | Some _ =>
                  config_walk_ends fuel' sch (node_child nd)
                  && config_walk_ends fuel' sch (node_next nd)
              | None => false
              end
          | _, _ => false
          end
      end
  end.

(** * log.c: the path of an error *)

(** [enum LY_VLOG_ELEM]; [LY_VLOG_NONE] is 0. *)
Inductive LY_VLOG_ELEM : Set :=
| LY_VLOG_NONE | LY_VLOG_XML | LY_VLOG_LYS | LY_VLOG_LYD | LY_VLOG_STR.

(** The [const void *elem]: a node of the arena that [elem_type] tells, or a
    string. *)
Inductive vlog_elem : Set :=
| VE_node (n : nat)
| VE_str (s : string).

(** [struct lyxml_elem], by what the path reads: the name, the prefix of the
    namespace ([xe_ns] is [None] without a namespace, the prefix may be NULL)
    and the parent. *)
Record lyxml_elem : Set := {
  xe_name : string;
  xe_ns : option (option string);
  xe_parent : option nat
}.

(** [struct lyd_node], by what the path reads: the schema node, the links
    and, for a leaf, [value_str]. *)
Record lyd_pnode : Set := {
  pn_schema : nat;
  pn_parent : option nat;
  pn_child : option nat;
  pn_next : option nat;
  pn_value_str : option string
}.

(** What the path is built from: the three arenas, and the functions of
    tree_schema.c and tree_data.c that are not among the sources:
    [lys_node_module] of a schema node, [lyd_node_module] of a data node and
    the [name] of a module. *)
Record vlog_world : Type := {
  vw_xml : list lyxml_elem;
  vw_sch : list lys_node;
  vw_data : list lyd_pnode;
  vw_lys_node_module : nat -> nat;
  vw_lyd_node_module : nat -> nat;
  vw_module_name : nat -> string
}.

(** [uint16_t] arithmetic of the index. *)
Definition u16 (x : Z) : Z := x mod 2 ^ 16.

(** The buffer [path] (of [LY_BUF_SIZE] bytes), [*index], and whether
    LOGINT was called. *)
Record path_buf : Set := {
  pb_path : list ascii;
  pb_index : Z;
  pb_logint : bool
}.

(** [memcpy(&path[index], s, len)] with [len] the length of [s]; [None] for
    a copy that leaves the buffer. *)
Definition path_memcpy (path : list ascii) (index : Z) (s : string) : option (list ascii) :=
  let len := String.length s in
  if Z.of_nat (length path) <? index + Z.of_nat len then None
  else Some (take (Z.to_nat index) path ++ list_ascii_of_string s
               ++ drop (Z.to_nat index + len) path).

(** [*index -= strlen(s); memcpy(&path[*index], s, strlen(s));] *)
Definition prepend_str (s : string) (b : path_buf) : option path_buf :=
  let index := u16 (pb_index b - Z.of_nat (String.length s)) in
  path ← path_memcpy (pb_path b) index s;
  Some {| pb_path := path; pb_index := index; pb_logint := pb_logint b |}.

(** [path[--*index] = c;] *)
Definition prepend_char (c : ascii) (b : path_buf) : option path_buf :=
  let index := u16 (pb_index b - 1) in
  if Z.of_nat (length (pb_path b)) <=? index then None
  else Some {| pb_path := <[Z.to_nat index := c]> (pb_path b); pb_index := index;
               pb_logint := pb_logint b |}.

(** The end of the loop body: the name, the prefix with its colon if there
    is one, and the slash. *)
Definition prepend_segment (name : string) (prefix : option string) (b : path_buf)
  : option path_buf :=
  b ← prepend_str name b;
  b ← match prefix with
      | Some p => b ← prepend_char ":" b; prepend_str p b
      | None => Some b
      end;
  prepend_char "/" b.

(** [do { elem = lys_parent(elem); } while (elem && elem->nodetype == LYS_USES);] *)
Fixpoint vlog_lys_up (fuel : nat) (sch : list lys_node) (elem : nat) : option (option nat) :=
  match lys_parent sch (Some elem) with
  | None => Some None
  | Some p =>
      pd ← sch !! p;
      if bool_decide (node_nodetype pd = LYS_USES) then
        match fuel with
        | O => None
        | S fuel' => vlog_lys_up fuel' sch p
        end
      else Some (Some p)
  end.

(** [LY_TREE_FOR(dlist->child, diter) if (diter->schema == keys[i]) break;]:
    [diter] after the loop. *)
Fixpoint vlog_find_key (fuel : nat) (data : list lyd_pnode) (diter : option nat)
  (key : option nat) : option (option nat) :=
  match diter with
  | None => Some None
  | Some d =>
      match fuel with
      | O => None
      | S fuel' =>
          dd ← data !! d;
          if bool_decide (Some (pn_schema dd) = key) then Some (Some d)
          else vlog_find_key fuel' data (pn_next dd) key
      end
  end.

(** The loop over the keys of a list, from the last key to the first;
    [keys] holds [keys[keys_size - 1]], ..., [keys[0]]. *)
Fixpoint vlog_keys (W : vlog_world) (fuel : nat) (dlist : lyd_pnode) (slist : lys_node)
  (keys : list (option nat)) (b : path_buf) : option path_buf :=
  match keys with
  | [] => Some b
  | key :: rest =>
      diter ← vlog_find_key fuel (vw_data W) (pn_child dlist) key;
      b ← match diter with
          | Some d =>
              dd ← vw_data W !! d;
              match pn_value_str dd with
              | Some value_str =>
                  ds ← vw_sch W !! pn_schema dd;
                  dname ← node_name ds;
                  b ← prepend_str "']" b;
                  b ← prepend_str value_str b;
                  b ← prepend_str "='" b;
                  b ← prepend_str dname b;
                  b ← (if negb (Nat.eqb (node_module slist) (node_module ds)) then
                         b ← prepend_char ":" b;
                         prepend_str (vw_module_name W (node_module ds)) b
                       else Some b);
                  prepend_char "[" b
              | None => Some b
              end
          | None => Some b
          end;
      vlog_keys W fuel dlist slist rest b
  end.

(** [ly_vlog_build_path_reverse(elem_type, elem, path, index)]; [prefix] is
    the local variable, NULL on entry, [buf_size] is [LY_BUF_SIZE]. [None]
    for a write outside the buffer, a NULL name, a pointer outside its
    arena, or a walk that does not end within [fuel] steps. *)
Fixpoint vlog_build_loop (W : vlog_world) (buf_size : Z) (fuel : nat)
  (elem_type : LY_VLOG_ELEM) (elem : option vlog_elem) (prefix : option string)
  (b : path_buf) : option path_buf :=
  match elem with
  | None => Some b
  | Some e =>
      match fuel with
      | O => None
      | S fuel' =>
          match elem_type, e with
          | LY_VLOG_XML, VE_node n =>
              xe ← vw_xml W !! n;
              let name := xe_name xe in
              let prefix := match xe_ns xe with Some p => p | None => None end in
              let elem := VE_node <$> xe_parent xe in
              b ← prepend_segment name prefix b;
              vlog_build_loop W buf_size fuel' elem_type elem prefix b
          | LY_VLOG_LYS, VE_node n =>
              nd ← vw_sch W !! n;
              name ← node_name nd;
              prefix ← (if bool_decide (node_parent nd = None) then
                          Some (Some (vw_module_name W (vw_lys_node_module W n)))
                        else
                          p ← lys_parent (vw_sch W) (Some n);
                          if negb (Nat.eqb (vw_lys_node_module W n) (vw_lys_node_module W p))
                          then Some (Some (vw_module_name W (vw_lys_node_module W n)))
                          else Some prefix);
              elem ← vlog_lys_up fuel' (vw_sch W) n;
              b ← prepend_segment name prefix b;
              vlog_build_loop W buf_size fuel' elem_type (VE_node <$> elem) prefix b
          | LY_VLOG_LYD, VE_node n =>
              dn ← vw_data W !! n;
              sd ← vw_sch W !! pn_schema dn;
              name ← node_name sd;
              let prefix :=
                if match pn_parent dn with
                   | None => true
                   | Some p => negb (Nat.eqb (vw_lyd_node_module W n) (vw_lyd_node_module W p))
                   end
                then Some (vw_module_name W (vw_lyd_node_module W n))
                else prefix in
              (* handle predicates (keys) in case of lists *)
              b ← (if bool_decide (node_nodetype sd = LYS_LIST)
                   then vlog_keys W fuel' dn sd (rev (node_keys sd)) b
                   else Some b);
              b ← prepend_segment name prefix b;
              vlog_build_loop W buf_size fuel' elem_type (VE_node <$> pn_parent dn) prefix b
          | LY_VLOG_STR, VE_str s =>
              let len := Z.of_nat (String.length s) + 1 in
              let len := if buf_size <? len then buf_size - 1 else len in
              let index := u16 (buf_size - len) in
              path ← path_memcpy (pb_path b) index
                       (String.substring 0 (Z.to_nat (len - 1)) s);
              Some {| pb_path := path; pb_index := index; pb_logint := pb_logint b |}
          | LY_VLOG_NONE, _ =>
              (* shouldn't be here *)
              Some {| pb_path := pb_path b; pb_index := pb_index b; pb_logint := true |}
          | _, _ => None
          end
      end
  end.

Definition ly_vlog_build_path_reverse (W : vlog_world) (buf_size : Z) (fuel : nat)
  (elem_type : LY_VLOG_ELEM) (elem : option vlog_elem) (b : path_buf) : option path_buf :=
  vlog_build_loop W buf_size fuel elem_type elem None b.

(** The text of one step of the path. *)
Definition path_segment (name : string) (prefix : option string) : string :=
  match prefix with
  | Some p => ("/" ++ p ++ ":" ++ name)%string
  | None => ("/" ++ name)%string
  end.

(** The path of an XML element, from the root down. [None] when the parents
    do not end within [fuel] elements. *)
Fixpoint xml_path (fuel : nat) (xml : list lyxml_elem) (elem : option nat) : option string :=
  match elem with
  | None => Some EmptyString
  | Some n =>
      match fuel with
      | O => None
      | S fuel' =>
          xe ← xml !! n;
          above ← xml_path fuel' xml (xe_parent xe);
          Some (above ++ path_segment (xe_name xe)
                           (match xe_ns xe with Some p => p | None => None end))%string
      end
  end.

(** The buffer with the bytes [txt] written before [*index], and [*index]
    moved to their first byte. *)
Definition prepended (txt : list ascii) (b : path_buf) : path_buf :=
  let index := pb_index b - Z.of_nat (length txt) in
  {| pb_path := take (Z.to_nat index) (pb_path b) ++ txt
                  ++ drop (Z.to_nat (pb_index b)) (pb_path b);
     pb_index := index;
     pb_logint := pb_logint b |}.

(** Two elements: "config" in a namespace with the prefix "nc" and, inside
    it, "top" without a namespace. *)
Definition xml_two : list lyxml_elem :=
  [ {| xe_name := "config"; xe_ns := Some (Some "nc"); xe_parent := None |};
    {| xe_name := "top"; xe_ns := None; xe_parent := Some 0%nat |} ].

Definition world_xml : vlog_world :=
  {| vw_xml := xml_two; vw_sch := []; vw_data := [];
     vw_lys_node_module := fun _ => 0%nat; vw_lyd_node_module := fun _ => 0%nat;
     vw_module_name := fun _ => EmptyString |}.

(** A buffer of 16 bytes after [ly_vlog] has put the NUL at its end. *)
Definition buf16 : path_buf :=
  {| pb_path := repeat "."%char 15 ++ [NUL]; pb_index := 15; pb_logint := false |}.

(** The path of a schema node whose ancestors are all of its module: the
    uses nodes are left out and the top-level node alone has the name of the
    module as prefix. [None] when the parents do not end within [fuel]
    nodes or a node has no name. *)
Fixpoint lys_path (W : vlog_world) (fuel : nat) (elem : option nat) : option string :=
  match elem with
  | None => Some EmptyString
  | Some n =>
      match fuel with
      | O => None
      | S fuel' =>
          nd ← vw_sch W !! n;
          name ← node_name nd;
          up ← vlog_lys_up fuel' (vw_sch W) n;
          above ← lys_path W fuel' up;
          Some (above ++ path_segment name
                           (if bool_decide (node_parent nd = None)
                            then Some (vw_module_name W (vw_lys_node_module W n))
                            else None))%string
      end
  end.

(** Every node with a parent, from [elem] up, is of the module of its
    parent. *)
Fixpoint lys_one_module (W : vlog_world) (fuel : nat) (elem : option nat) : bool :=
  match elem with
  | None => true
  | Some n =>
      match fuel with
      | O => false
      | S fuel' =>
          match vw_sch W !! n with
          | None => false
          | Some nd =>
              (bool_decide (node_parent nd = None)
               || match lys_parent (vw_sch W) (Some n) with
                  | Some p => Nat.eqb (vw_lys_node_module W n) (vw_lys_node_module W p)
                  | None => false
                  end)
              && match vlog_lys_up fuel' (vw_sch W) n with
                 | Some up => lys_one_module W fuel' up
                 | None => false
                 end
          end
      end
  end.

(** The schema of [schema_choice] as the module "m". *)
Definition world_choice : vlog_world :=
  {| vw_xml := []; vw_sch := schema_choice; vw_data := [];
     vw_lys_node_module := fun _ => 0%nat; vw_lyd_node_module := fun _ => 0%nat;
     vw_module_name := fun _ => "m" |}.

(** * Part II: properties *)

(** ** PathLex: facts about [parse_identifier] *)

Lemma parse_identifier_loop_run (id : string) (parsed : Z) :
  parse_identifier_loop id parsed = parsed + Z.of_nat (ident_run id).
Proof.
  revert parsed; induction id as [|c rest IH]; intros parsed; simpl.
  - lia.
  - unfold ident_char. destruct (isalnum c || ceq c "_" || ceq c "-" || ceq c ".").
    + rewrite IH. lia.
    + lia.
Qed.

(** What the code computes: nothing for a guarded or ill-started string,
    otherwise the length of the longest run of identifier characters. *)
Lemma parse_identifier_value (id : string) :
  parse_identifier id =
    if xml_guard id then 0
    else if ident_start (cchar id 0) then Z.of_nat (ident_run id) else 0.
Proof.
  unfold parse_identifier.
  destruct (xml_guard id); [reflexivity|].
  unfold ident_start.
  destruct id as [|c rest]; [reflexivity|].
  change (cchar (String c rest) 0) with c.
  destruct (isalpha c) eqn:Ha; simpl.
  - rewrite parse_identifier_loop_run. unfold ident_char, isalnum. rewrite Ha. simpl. lia.
  - destruct (ceq c "_") eqn:Hu; simpl; [|reflexivity].
    rewrite parse_identifier_loop_run. unfold ident_char. rewrite Hu.
    rewrite orb_true_r. simpl. lia.
Qed.

Lemma parse_identifier_nonneg (id : string) : 0 <= parse_identifier id.
Proof.
  rewrite parse_identifier_value.
  destruct (xml_guard id); [lia|]. destruct (ident_start _); lia.
Qed.

(** The guard of the code is strictly weaker than the documented one. *)
Lemma xml_guard_implies_nocase (id : string) :
  xml_guard id = true -> xml_prefix_nocase id = true.
Proof.
  unfold xml_guard, xml_prefix_nocase.
  destruct (ceq (cchar id 0) "x") eqn:H0, (ceq (cchar id 0) "X") eqn:H0',
    (ceq (cchar id 1) "m") eqn:H1, (ceq (cchar id 1) "M") eqn:H1',
    (ceq (cchar id 0) "M") eqn:H0M; simpl; try congruence;
    try (rewrite ?andb_false_r; congruence);
    try (intros H; apply andb_prop in H as [_ H]; apply andb_prop in H as [_ H]; exact H);
    try (intros H; apply andb_prop in H as [H _]; apply andb_prop in H as [_ H]; discriminate).
  all: unfold ceq in *; apply Ascii.eqb_eq in H0M;
    first [apply Ascii.eqb_eq in H0 | apply Ascii.eqb_eq in H0']; congruence.
Qed.

(** C1 (evaluation at the failing inputs): of the eight casings of "xml" the
    code rejects only the four whose second letter is a lower-case 'm'; the
    four with an upper-case 'M' are accepted as identifiers of length 3,
    although the documentation of [parse_identifier] forbids them. *)
Theorem parse_identifier_xml_casings :
  (parse_identifier "xml" = 0 /\ parse_identifier "xmL" = 0 /\
   parse_identifier "Xml" = 0 /\ parse_identifier "XmL" = 0) /\
  (parse_identifier "xMl" = 3 /\ parse_identifier "xML" = 3 /\
   parse_identifier "XMl" = 3 /\ parse_identifier "XML" = 3) /\
  xml_prefix_nocase "xMl" = true.
Proof. repeat split; reflexivity. Qed.

(** ** resolve.c: length and range restrictions *)

Lemma check_superior_unfold (intv local_intv : list len_ran_intv) :
  check_superior intv local_intv =
    match local_intv with
    | [] => true
    | c :: local_rest =>
        match intv with
        | [] => false
        | p :: intv_rest =>
            if Qle_bool (intv_min p) (intv_min c) && Qle_bool (intv_min c) (intv_max p)
            then if Qle_bool (intv_max c) (intv_max p)
                 then check_superior intv local_rest
                 else false
            else check_superior intv_rest local_intv
        end
    end.
Proof. destruct intv, local_intv; reflexivity. Qed.

(** The check accepts only intervals covered, in order, by the superior
    ones. *)
Lemma check_superior_sound (P : list len_ran_intv) :
  forall C, check_superior P C = true -> covered_in_order C P.
Proof.
  induction P as [|p P IHP]; intros C.
  - rewrite check_superior_unfold. destruct C; [constructor | discriminate].
  - induction C as [|c C IHC]; [constructor|].
    rewrite check_superior_unfold.
    destruct (Qle_bool (intv_min p) (intv_min c) && Qle_bool (intv_min c) (intv_max p)) eqn:Ein.
    + destruct (Qle_bool (intv_max c) (intv_max p)) eqn:Emax; [|discriminate].
      intros H. apply andb_prop in Ein as [E1 E2].
      apply covered_here; [|apply IHC; exact H].
      repeat split; apply Qle_bool_iff; assumption.
    + intros H. apply covered_next. apply IHP. exact H.
Qed.

Lemma covered_in_order_exists (C P : list len_ran_intv) :
  covered_in_order C P -> Forall (fun c => Exists (fun p => covers p c) P) C.
Proof.
  induction 1 as [P | c p C P Hc _ IH | p C P _ IH].
  - constructor.
  - constructor; [apply Exists_cons_hd; exact Hc | exact IH].
  - eapply Forall_impl; [|exact IH]. intros c Hc. apply Exists_cons_tl. exact Hc.
Qed.

Lemma resolve_len_ran_interval_unfold (str_restr : option string) (t : lys_type) :
  resolve_len_ran_interval str_restr t =
    match base_limits t with
    | None => (-1, [])
    | Some (kind, local_min, local_max) =>
        match
          match type_der t with
          | Some der =>
              let '(rc, intv) := resolve_len_ran_interval None der in
              if negb (rc =? 0) then None else Some intv
          | None => Some []
          end
        with
        | None => (-1, [])
        | Some intv =>
            match effective_restr str_restr t with
            | None => (EXIT_SUCCESS, intv)
            | Some s =>
                match parse_segments kind (first_min local_min intv) (last_max local_max intv)
                        t (s :: next_segments s) with
                | None => (-1, [])
                | Some local_intv =>
                    if match intv with
                       | [] => true
                       | _ => check_superior intv local_intv
                       end
                    then (EXIT_SUCCESS, intv ++ local_intv)
                    else (-1, [])
                end
            end
        end
    end.
Proof. destruct t as [b r dg [d|]]; reflexivity. Qed.

(** The function returns success or -1, and -1 with no interval list. *)
Lemma resolve_len_ran_interval_codes (t : lys_type) :
  forall str_restr,
    fst (resolve_len_ran_interval str_restr t) = EXIT_SUCCESS \/
    resolve_len_ran_interval str_restr t = (-1, []).
Proof.
  intros str_restr. rewrite resolve_len_ran_interval_unfold.
  destruct (base_limits t) as [[[kind lmin] lmax]|]; [|right; reflexivity].
  destruct (match type_der t with
            | Some der => let '(rc, intv) := resolve_len_ran_interval None der in
                          if negb (rc =? 0) then None else Some intv
            | None => Some []
            end) as [intv|]; [|right; reflexivity].
  destruct (effective_restr str_restr t) as [s|]; [|left; reflexivity].
  destruct (parse_segments _ _ _ _ _) as [C|]; [|right; reflexivity].
  destruct (match intv with [] => true | _ => check_superior intv C end);
    [left | right]; reflexivity.
Qed.

(** C2 (amended): for a type whose superior chain returns the non-empty
    interval list [P], a restriction is accepted only if its text parses
    with "min" bound to the lower bound of the first interval of [P] and
    "max" to the upper bound of the last one, and every interval parsed has
    its lower bound inside an interval of [P] and its upper bound not above
    that interval's, the covering intervals taken at non-decreasing
    positions of [P]; the list returned is then [P] followed by the parsed
    intervals; every other input is rejected with -1 and no list. *)
Theorem resolve_len_ran_interval_child (str_restr : option string) (t d : lys_type)
  (s : string) (p0 : len_ran_intv) (P' : list len_ran_intv) (kind : Z) (bmin bmax : Q) :
  type_der t = Some d ->
  base_limits t = Some (kind, bmin, bmax) ->
  resolve_len_ran_interval None d = (EXIT_SUCCESS, p0 :: P') ->
  effective_restr str_restr t = Some s ->
  (fst (resolve_len_ran_interval str_restr t) = EXIT_SUCCESS ->
   exists C,
     resolve_len_ran_interval str_restr t = (EXIT_SUCCESS, (p0 :: P') ++ C) /\
     parse_segments kind (intv_min p0) (intv_max (List.last P' p0)) t (s :: next_segments s)
       = Some C /\
     covered_in_order C (p0 :: P') /\
     Forall (fun c => Exists (fun p => covers p c) (p0 :: P')) C) /\
  (fst (resolve_len_ran_interval str_restr t) <> EXIT_SUCCESS ->
   resolve_len_ran_interval str_restr t = (-1, [])).
Proof.
  intros Hder Hbase Hsup Hs. split.
  - rewrite resolve_len_ran_interval_unfold. rewrite Hbase, Hder, Hsup, Hs. simpl negb. cbv iota.
    simpl first_min. simpl last_max.
    destruct (parse_segments kind (intv_min p0) (intv_max (List.last P' p0)) t
                (s :: next_segments s)) as [C|] eqn:EC; [|simpl; discriminate].
    destruct (check_superior (p0 :: P') C) eqn:Echk; [|simpl; discriminate].
    intros _. exists C. split; [reflexivity|]. split; [reflexivity|].
    pose proof (check_superior_sound _ _ Echk) as Hcov.
    split; [exact Hcov | apply covered_in_order_exists; exact Hcov].
  - intros Hne. destruct (resolve_len_ran_interval_codes t str_restr) as [H|H];
      [contradiction | exact H].
Qed.

(** Scenario S2: the derived restriction inside the superior one. *)
Lemma resolve_len_ran_interval_child_witness :
  exists C,
    resolve_len_ran_interval None (typedef_t2 "10..50 | 80..90")
      = (EXIT_SUCCESS, [mk_intv 1 100 typedef_t1] ++ C) /\
    C = [ mk_intv 10 50 (typedef_t2 "10..50 | 80..90");
          mk_intv 80 90 (typedef_t2 "10..50 | 80..90") ] /\
    covered_in_order C [mk_intv 1 100 typedef_t1].
Proof.
  destruct (resolve_len_ran_interval_child None (typedef_t2 "10..50 | 80..90") typedef_t1
              "10..50 | 80..90" (mk_intv 1 100 typedef_t1) [] 1
              (inject_Z (-32768)) (inject_Z 32767)
              eq_refl eq_refl eq_refl eq_refl) as [Hok _].
  destruct (Hok eq_refl) as (C & Hres & Hparse & Hcov & _).
  exists C. split; [exact Hres|]. split; [|exact Hcov].
  vm_compute in Hparse. inversion Hparse. reflexivity.
Defined.

(** Scenario S2, second half: a derived restriction that leaves the
    superior one is rejected. *)
Lemma resolve_len_ran_interval_out_of_range :
  resolve_len_ran_interval None (typedef_t2 "10..200") = (-1, []).
Proof. reflexivity. Qed.

(** "min" and "max" bind to the ends of the whole list the superior chain
    returns: under [t2] with "10..50" under [t1] with "1..100" they denote 1
    and 50. *)
Lemma resolve_len_ran_interval_keywords :
  map (fun i => (intv_min i, intv_max i))
    (snd (resolve_len_ran_interval None
            (LysType LY_TYPE_INT16 (Some "min..max") 0 (Some (typedef_t2 "10..50")))))
  = [ (inject_Z 1, inject_Z 100); (inject_Z 10, inject_Z 50); (inject_Z 1, inject_Z 50) ].
Proof. reflexivity. Qed.

(** C2 (counterexample): under the superior restriction "1..100" the
    restriction "20 | 10" is accepted although its intervals descend, and
    the list returned, which starts with the superior interval, is not
    disjoint. *)
Lemma resolve_len_ran_interval_unordered :
  resolve_len_ran_interval None typedef_t1 = (EXIT_SUCCESS, [mk_intv 1 100 typedef_t1]) /\
  resolve_len_ran_interval None (typedef_t2 "20 | 10")
    = (EXIT_SUCCESS, [ mk_intv 1 100 typedef_t1;
                       mk_intv 20 20 (typedef_t2 "20 | 10");
                       mk_intv 10 10 (typedef_t2 "20 | 10") ]) /\
  ~ ascending_disjoint [ mk_intv 20 20 (typedef_t2 "20 | 10");
                         mk_intv 10 10 (typedef_t2 "20 | 10") ] /\
  ~ ascending_disjoint (snd (resolve_len_ran_interval None (typedef_t2 "20 | 10"))).
Proof.
  split; [reflexivity|]. split; [reflexivity|].
  split; intros [H _]; vm_compute in H; discriminate.
Qed.

(** ** resolve.c: base identities *)

(** The searches read the identities only through their names. *)
Lemma search_ident_array_names (h h' : list lys_ident) (basename : string) (ids : list nat) :
  ident_name <$> h = ident_name <$> h' ->
  search_ident_array h basename ids = search_ident_array h' basename ids.
Proof.
  intros Hn. induction ids as [|i rest IH]; simpl; [reflexivity|].
  assert (Hi : ident_name <$> (h !! i) = ident_name <$> (h' !! i))
    by (rewrite <- !list_lookup_fmap, Hn; reflexivity).
  destruct (h !! i) as [x|], (h' !! i) as [y|]; simpl in Hi; try discriminate.
  - inversion Hi as [Hxy]. rewrite Hxy, IH. reflexivity.
  - exact IH.
Qed.

Lemma search_base_names (g g' : ident_graph) (m : lys_module_idents) (basename : string) :
  ig_module g = ig_module g' ->
  ident_name <$> ig_ident g = ident_name <$> ig_ident g' ->
  search_base g m basename = search_base g' m basename.
Proof.
  intros Hm Hn. unfold search_base.
  rewrite (search_ident_array_names _ _ basename (mi_ident m) Hn).
  destruct (search_ident_array (ig_ident g') basename (mi_ident m)); [reflexivity|].
  generalize (mi_inc m) as inc. induction inc as [|[s|] rest IH]; simpl; try reflexivity.
  rewrite <- Hm. destruct (ig_module g !! s) as [sub|]; [|reflexivity].
  rewrite (search_ident_array_names _ _ basename (mi_ident sub) Hn).
  destruct (search_ident_array (ig_ident g') basename (mi_ident sub)); [reflexivity | exact IH].
Qed.

Lemma names_insert (h : list lys_ident) (i : nat) (x y : lys_ident) :
  h !! i = Some x -> ident_name y = ident_name x ->
  ident_name <$> <[i := y]> h = ident_name <$> h.
Proof.
  intros Hi Hy. rewrite list_fmap_insert. apply list_insert_id.
  rewrite list_lookup_fmap, Hi. simpl. congruence.
Qed.

Lemma add_backlinks_names (fuel : nat) :
  forall (h h' : list lys_ident) (ident : nat) (base : option nat),
    add_backlinks fuel h ident base = Some h' ->
    ident_name <$> h' = ident_name <$> h.
Proof.
  induction fuel as [|fuel IH]; intros h h' ident [b|] H; simpl in H;
    try discriminate; try (inversion H; reflexivity).
  destruct (h !! b) as [bi|] eqn:Hb; [|inversion H; reflexivity].
  apply IH in H. rewrite H. apply (names_insert h b bi); [exact Hb | reflexivity].
Qed.

(** A resolution that does not return success leaves every identity, and so
    every [der] array and every [base], as it was. *)
Lemma resolve_base_ident_sub_failure_pure (fuel : nat) (g : ident_graph)
  (m : lys_module_idents) (ident : option nat) (basename : string) (ret0 : option nat)
  (r : base_ident_result) :
  resolve_base_ident_sub fuel g m ident basename ret0 = Some r ->
  bi_rc r <> EXIT_SUCCESS ->
  bi_ident r = ig_ident g /\ bi_ret r = ret0 /\ In (circular_msg basename) (bi_log r).
Proof.
  unfold resolve_base_ident_sub. intros H Hrc.
  destruct (search_base g m basename) as [base|];
    [|inversion H; subst r; simpl in Hrc; congruence].
  destruct ident as [ident|]; [|inversion H; subst r; simpl in Hrc; congruence].
  destruct (circular_check fuel (ig_ident g) ident (Some base)) as [[base_iter|]|];
    [| |discriminate].
  - inversion H; subst r. simpl. split; [reflexivity|]. split; [reflexivity|]. auto.
  - destruct (add_backlinks _ _ _ _); [|discriminate].
    inversion H; subst r; simpl in Hrc; congruence.
Qed.

(** In a module that defines identity [a] with base [b] and identity [b]
    with base [a], the search for the base of [a] succeeds, writes the base
    and adds [a] to the [der] array of [b]; the search for the base of [b]
    then fails, logs the circular-reference message and modifies no
    identity. *)
Lemma resolve_base_ident_sub_cycle (fuel : nat) (g : ident_graph) (m : lys_module_idents)
  (a b : nat) (ia ib : lys_ident) (ret0 : option nat) :
  (1 <= fuel)%nat ->
  a <> b ->
  ig_ident g !! a = Some ia -> ig_ident g !! b = Some ib ->
  ident_base ia = None -> ident_base ib = None ->
  search_base g m (ident_name ia) = Some a ->
  search_base g m (ident_name ib) = Some b ->
  let h2 := <[b := add_der a ib]> (<[a := set_ident_base (Some b) ia]> (ig_ident g)) in
  resolve_base_ident_sub fuel g m (Some a) (ident_name ib) ret0
    = Some {| bi_rc := EXIT_SUCCESS; bi_ret := Some b; bi_ident := h2; bi_log := [] |} /\
  resolve_base_ident_sub fuel {| ig_ident := h2; ig_module := ig_module g |}
    m (Some b) (ident_name ia) ret0
    = Some {| bi_rc := EXIT_FAILURE; bi_ret := ret0; bi_ident := h2;
              bi_log := [ LYE_INARG_msg (ident_name ib) "base";
                          circular_msg (ident_name ia) ] |}.
Proof.
  intros Hfuel Hab Ha Hb Hba Hbb Hsa Hsb h2.
  destruct fuel as [|fuel]; [lia|].
  set (h1 := <[a := set_ident_base (Some b) ia]> (ig_ident g)) in *.
  assert (Hlen_a : (a < length (ig_ident g))%nat) by (eapply lookup_lt_Some; exact Ha).
  assert (Hh1b : h1 !! b = Some ib).
  { unfold h1. rewrite list_lookup_insert_ne by exact Hab. exact Hb. }
  assert (Hh1a : h1 !! a = Some (set_ident_base (Some b) ia)).
  { unfold h1. apply list_lookup_insert_eq. exact Hlen_a. }
  assert (Hh2a : h2 !! a = Some (set_ident_base (Some b) ia)).
  { unfold h2. rewrite list_lookup_insert_ne by congruence. exact Hh1a. }
  assert (Hneq : Nat.eqb a b = false) by (apply Nat.eqb_neq; exact Hab).
  assert (Hneq' : Nat.eqb b a = false) by (apply Nat.eqb_neq; congruence).
  assert (Hr1 : resolve_base_ident_sub (S fuel) g m (Some a) (ident_name ib) ret0
                = Some {| bi_rc := EXIT_SUCCESS; bi_ret := Some b; bi_ident := h2; bi_log := [] |}).
  { unfold resolve_base_ident_sub. rewrite Hsb. simpl circular_check.
    rewrite Hneq, Hb, Hbb.
    assert (Hcc : circular_check fuel (ig_ident g) a None = Some None) by (destruct fuel; reflexivity).
    rewrite Hcc, Ha. fold h1. simpl add_backlinks. rewrite Hh1b, Hbb. fold h2.
    assert (Hab2 : add_backlinks fuel h2 a None = Some h2) by (destruct fuel; reflexivity).
    rewrite Hab2. reflexivity. }
  split; [exact Hr1|].
  assert (Hh2b : h2 !! b = Some (add_der a ib)).
  { unfold h2. apply list_lookup_insert_eq. eapply lookup_lt_Some. exact Hh1b. }
  assert (Hnames : ident_name <$> h2 = ident_name <$> ig_ident g).
  { unfold h2. rewrite (names_insert h1 b ib) by (first [exact Hh1b | reflexivity]).
    unfold h1. apply (names_insert (ig_ident g) a ia); [exact Ha | reflexivity]. }
  assert (Hsa2 : search_base {| ig_ident := h2; ig_module := ig_module g |} m (ident_name ia)
                 = Some a).
  { rewrite <- Hsa. apply search_base_names; [reflexivity | exact Hnames]. }
  unfold resolve_base_ident_sub. rewrite Hsa2. simpl ig_ident. simpl circular_check.
  rewrite Hneq', Hh2a. simpl ident_base.
  assert (Hcc : circular_check fuel h2 b (Some b) = Some (Some b)).
  { destruct fuel; simpl; rewrite Nat.eqb_refl; reflexivity. }
  rewrite Hcc. rewrite Hh2b. reflexivity.
Qed.

(** ** resolve.c: schema-nodeid resolution *)

Lemma cskip_length_lt (n : nat) (id : string) :
  id <> EmptyString -> (1 <= n)%nat -> (String.length (cskip n id) < String.length id)%nat.
Proof.
  intros Hid Hn. destruct n as [|n]; [lia|]. destruct id as [|c rest]; [congruence|].
  simpl. clear Hid Hn. revert rest. induction n as [|n IH]; intros rest; simpl; [lia|].
  destruct rest as [|c' rest']; simpl; [lia|]. specialize (IH rest'). lia.
Qed.

Lemma cnonzero_nonempty (id : string) : cnonzero (cchar id 0) = true -> id <> EmptyString.
Proof. intros H ->. discriminate. Qed.

(** The sibling check asks to descend (2) only while the nodeid goes on. *)
Lemma siblingcheck_break_nonempty (E : schema_env) (sch : list lys_node) (sibling : nat)
  (sd : lys_node) (shorthand : Z) (id : string) (module : nat) (mod_name : option string)
  (start : option nat) (r sh' : Z) (start' : option nat) :
  schema_nodeid_siblingcheck E sch sibling sd shorthand id module mod_name start
    = (r, sh', start') ->
  (r = 0 \/ r = 1 \/ r = -1 \/ (r = 2 /\ cnonzero (cchar id 0) = true)).
Proof.
  unfold schema_nodeid_siblingcheck. cbv zeta. intros H.
  destruct (cnonzero (cchar id 0)) eqn:En; simpl negb in H; cbv iota in H.
  - assert (Hr : r = 0 \/ r = 1 \/ r = -1 \/ r = 2).
    { repeat match type of H with
             | context [match ?x with _ => _ end] => destruct x eqn:?
             end; inversion H; subst; auto. }
    destruct Hr as [Hr|[Hr|[Hr|Hr]]]; auto.
  - repeat match type of H with
           | context [match ?x with _ => _ end] => destruct x eqn:?
           end; inversion H; subst; auto.
Qed.

Lemma scan_siblings_break_nonempty (E : schema_env) (sch : list lys_node)
  (ret_nodetype : option (list LYS_NODE)) (name : option string) (nam_len : Z)
  (id : string) (module : nat) (mod_name : option string) (siblings : list nat) :
  forall shorthand start sibling sh' start',
    scan_siblings E sch ret_nodetype name nam_len id module mod_name siblings shorthand start
      = ScanBreak sibling sh' start' ->
    cnonzero (cchar id 0) = true.
Proof.
  induction siblings as [|s rest IH]; intros shorthand start sibling sh' start' H;
    simpl in H; [discriminate|].
  destruct (sch !! s) as [sd|]; [|exact (IH _ _ _ _ _ H)].
  destruct (name_match name nam_len (node_name sd)); [|exact (IH _ _ _ _ _ H)].
  destruct (schema_nodeid_siblingcheck E sch s sd shorthand id module mod_name start)
    as [[r sh1] st1] eqn:Ec.
  apply siblingcheck_break_nonempty in Ec.
  destruct Ec as [->|[->|[->|[-> Hne]]]]; simpl in H.
  - destruct ret_nodetype as [mask|]; [|discriminate].
    destruct (negb (nodetype_in _ _)); [exact (IH _ _ _ _ _ H) | discriminate].
  - exact (IH _ _ _ _ _ H).
  - discriminate.
  - exact Hne.
Qed.

(** A scope without a sibling of the name: no match. *)
Lemma scan_siblings_no_name (E : schema_env) (sch : list lys_node)
  (ret_nodetype : option (list LYS_NODE)) (name : option string) (nam_len : Z)
  (id : string) (module : nat) (mod_name : option string) (siblings : list nat) :
  (forall s sd, In s siblings -> sch !! s = Some sd ->
     name_match name nam_len (node_name sd) = false) ->
  forall shorthand start,
    scan_siblings E sch ret_nodetype name nam_len id module mod_name siblings shorthand start
      = ScanNoMatch.
Proof.
  induction siblings as [|s rest IH]; intros Hno shorthand start; simpl; [reflexivity|].
  assert (Hrest : forall s' sd, In s' rest -> sch !! s' = Some sd ->
                    name_match name nam_len (node_name sd) = false)
    by (intros s' sd Hs; apply Hno; right; exact Hs).
  destruct (sch !! s) as [sd|] eqn:Es; [|apply IH; exact Hrest].
  rewrite (Hno s sd (or_introl eq_refl) Es). apply IH. exact Hrest.
Qed.

Section NodeidLoop.

Variable E : schema_env.
Variable sch : list lys_node.
Variable options : list getnext_option.
Variable ret_nodetype : option (list LYS_NODE).
Variable no_innerlist : bool.
Variables getnext_mod module : nat.

(** The codes of the loop: success, -1, -2 under [no_innerlist] only, or
    one more than the offset at which the parse of the rest fails. *)
Lemma schema_nodeid_loop_codes (fuel : nat) :
  forall id off sn shorthand start ret0,
    let r := schema_nodeid_loop E sch options ret_nodetype no_innerlist getnext_mod module
               fuel id off sn shorthand start ret0 in
    (nr_rc r = 0 \/
     (nr_rc r = -1 /\ nr_ret r = ret0) \/
     (nr_rc r = -2 /\ no_innerlist = true /\ nr_ret r = None) \/
     (nr_ret r = ret0 /\
      nodeid_syntax_scan fuel id off (sn_is_relative sn) false = Some (nr_rc r - 1))).
Proof.
  induction fuel as [|fuel IH]; intros id off sn shorthand start ret0; simpl.
  - right. left. split; reflexivity.
  - destruct (scan_siblings E sch ret_nodetype (sn_name sn) (sn_nam_len sn) id module
                (cprefix (sn_mod_name_len sn) (sn_mod_name sn))
                (se_getnext E sch (lys_parent sch start) getnext_mod options) shorthand start)
      as [s| | |s sh' start'] eqn:Escan; simpl.
    + left. reflexivity.
    + left. reflexivity.
    + right. left. split; reflexivity.
    + apply scan_siblings_break_nonempty in Escan. rewrite Escan. simpl.
      destruct (no_innerlist && _) eqn:Eil.
      * right. right. left. simpl. apply andb_prop in Eil as [-> _]. auto.
      * destruct (sn_ret (parse_schema_nodeid id (sn_is_relative sn)) <? 1) eqn:Ep.
        -- right. right. right. simpl. split; [reflexivity|]. f_equal. lia.
        -- apply IH.
Qed.

(** Fuel beyond the length of what remains of the nodeid changes nothing:
    the loop never reaches its "cannot get here". *)
Lemma schema_nodeid_loop_fuel (fuel1 : nat) :
  forall fuel2 id off sn shorthand start ret0,
    (String.length id < fuel1)%nat -> (String.length id < fuel2)%nat ->
    schema_nodeid_loop E sch options ret_nodetype no_innerlist getnext_mod module
      fuel1 id off sn shorthand start ret0
    = schema_nodeid_loop E sch options ret_nodetype no_innerlist getnext_mod module
        fuel2 id off sn shorthand start ret0.
Proof.
  induction fuel1 as [|fuel1 IH]; intros fuel2 id off sn shorthand start ret0 H1 H2; [lia|].
  destruct fuel2 as [|fuel2]; [lia|]. simpl.
  destruct (scan_siblings E sch ret_nodetype (sn_name sn) (sn_nam_len sn) id module
              (cprefix (sn_mod_name_len sn) (sn_mod_name sn))
              (se_getnext E sch (lys_parent sch start) getnext_mod options) shorthand start)
    as [s| | |s sh' start'] eqn:Escan; try reflexivity.
  apply scan_siblings_break_nonempty, cnonzero_nonempty in Escan.
  destruct (no_innerlist && _); [reflexivity|].
  destruct (sn_ret (parse_schema_nodeid id (sn_is_relative sn)) <? 1) eqn:Ep; [reflexivity|].
  apply Z.ltb_ge in Ep.
  assert (Hlt : (String.length (cskip (Z.to_nat (sn_ret (parse_schema_nodeid id
                   (sn_is_relative sn)))) id) < String.length id)%nat)
    by (apply cskip_length_lt; [exact Escan | lia]).
  apply IH; lia.
Qed.

End NodeidLoop.

Lemma nodeid_syntax_scan_fuel (fuel1 : nat) :
  forall fuel2 id off is_relative,
    (String.length id < fuel1)%nat -> (String.length id < fuel2)%nat ->
    nodeid_syntax_scan fuel1 id off is_relative false
    = nodeid_syntax_scan fuel2 id off is_relative false.
Proof.
  induction fuel1 as [|fuel1 IH]; intros fuel2 id off rel H1 H2; [lia|].
  destruct fuel2 as [|fuel2]; [lia|]. simpl.
  destruct (cnonzero (cchar id 0)) eqn:En; simpl; [|reflexivity].
  apply cnonzero_nonempty in En.
  destruct (sn_ret (parse_schema_nodeid id rel) <? 1) eqn:Ep; [reflexivity|].
  apply Z.ltb_ge in Ep.
  assert (Hlt : (String.length (cskip (Z.to_nat (sn_ret (parse_schema_nodeid id rel))) id)
                 < String.length id)%nat)
    by (apply cskip_length_lt; [exact En | lia]).
  apply IH; lia.
Qed.

Lemma cskip_length_le (n : nat) : forall id, (String.length (cskip n id) <= String.length id)%nat.
Proof.
  induction n as [|n IH]; intros id; simpl; [lia|].
  destruct id as [|c rest]; simpl; [lia|]. specialize (IH rest). lia.
Qed.

(** The scan of a nodeid whose first segment parses. *)
Lemma nodeid_syntax_error_first (nodeid : string) :
  nodeid_syntax_error nodeid =
    let sn := parse_schema_nodeid nodeid (-1) in
    if sn_ret sn <? 1 then Some (0 - sn_ret sn)
    else nodeid_syntax_scan (S (String.length nodeid))
           (cskip (Z.to_nat (sn_ret sn)) nodeid) (sn_ret sn) (sn_is_relative sn) false.
Proof. reflexivity. Qed.

Section NodeidWalkFacts.

Variable E : schema_env.
Variable sch : list lys_node.
Variable options : list getnext_option.
Variable ret_nodetype : option (list LYS_NODE).
Variable no_innerlist : bool.
Variables getnext_mod module : nat.
Variable ret0 : option nat.

Lemma next_point_shorter (p : nodeid_point) (sibling : nat) (shorthand : Z)
  (start : option nat) :
  point_scan E sch options ret_nodetype getnext_mod module p
    = ScanBreak sibling shorthand start ->
  1 <= sn_ret (next_segment p) ->
  (String.length (np_id (next_point p shorthand start)) < String.length (np_id p))%nat.
Proof.
  intros Hscan Hparse. unfold point_scan in Hscan.
  apply scan_siblings_break_nonempty, cnonzero_nonempty in Hscan.
  cbn [next_point np_id]. apply cskip_length_lt; [exact Hscan | lia].
Qed.

(** The end of the walk forces the result of the resolver. *)
Lemma walk_outcome_forces (p q : nodeid_point) (r : nodeid_result) :
  walk_reaches E sch options ret_nodetype no_innerlist getnext_mod module p q ->
  point_outcome E sch options ret_nodetype no_innerlist getnext_mod module q ret0 r ->
  forall fuel, (String.length (np_id p) < fuel)%nat ->
    loop_from E sch options ret_nodetype no_innerlist getnext_mod module fuel p ret0 = r.
Proof.
  intros Hreach Hout.
  induction Hreach as [p | p q sibling sh st Hscan Hil Hparse Hreach IH];
    intros fuel Hf; (destruct fuel as [|fuel]; [lia|]);
    unfold loop_from; cbn [schema_nodeid_loop].
  - destruct Hout as [s Hs | Hs | Hs | s sh st Hs Hil | s sh st Hs Hil Hp];
      unfold point_scan in Hs; rewrite Hs; try reflexivity.
    + unfold inner_list in Hil. rewrite Hil. reflexivity.
    + unfold inner_list in Hil. rewrite Hil.
      unfold next_segment in Hp. apply Z.ltb_lt in Hp. rewrite Hp. reflexivity.
  - pose proof (next_point_shorter p sibling sh st Hscan Hparse) as Hlen.
    unfold point_scan in Hscan. rewrite Hscan.
    unfold inner_list in Hil. rewrite Hil.
    assert (Hp : (sn_ret (parse_schema_nodeid (np_id p) (sn_is_relative (np_sn p))) <? 1)
                 = false) by (apply Z.ltb_ge; exact Hparse).
    rewrite Hp.
    apply (IH Hout fuel). lia.
Qed.

(** The resolver returns what the end of its walk tells. *)
Lemma walk_outcome_exists (fuel : nat) :
  forall p, (String.length (np_id p) < fuel)%nat ->
    exists q,
      walk_reaches E sch options ret_nodetype no_innerlist getnext_mod module p q /\
      point_outcome E sch options ret_nodetype no_innerlist getnext_mod module q ret0
        (loop_from E sch options ret_nodetype no_innerlist getnext_mod module fuel p ret0).
Proof.
  induction fuel as [|fuel IH]; intros p Hf; [lia|].
  unfold loop_from. cbn [schema_nodeid_loop].
  destruct (scan_siblings E sch ret_nodetype (sn_name (np_sn p)) (sn_nam_len (np_sn p))
              (np_id p) module (cprefix (sn_mod_name_len (np_sn p)) (sn_mod_name (np_sn p)))
              (se_getnext E sch (lys_parent sch (np_start p)) getnext_mod options)
              (np_shorthand p) (np_start p)) as [s| | |s sh st] eqn:Escan.
  - exists p. split; [apply wr_here | apply po_found; exact Escan].
  - exists p. split; [apply wr_here | apply po_no_match; exact Escan].
  - exists p. split; [apply wr_here | apply po_error; exact Escan].
  - destruct (no_innerlist && _) eqn:Eil.
    + exists p. split; [apply wr_here|].
      exact (po_inner_list E sch options ret_nodetype no_innerlist getnext_mod module p ret0
               s sh st Escan Eil).
    + destruct (sn_ret (parse_schema_nodeid (np_id p) (sn_is_relative (np_sn p))) <? 1)
        eqn:Ep.
      * apply Z.ltb_lt in Ep. exists p. split; [apply wr_here|].
        exact (po_syntax E sch options ret_nodetype no_innerlist getnext_mod module p ret0
                 s sh st Escan Eil Ep).
      * apply Z.ltb_ge in Ep.
        pose proof (next_point_shorter p s sh st Escan Ep) as Hlen.
        destruct (IH (next_point p sh st)) as (q & Hreach & Hout); [lia|].
        exists q. split; [|exact Hout].
        exact (wr_down E sch options ret_nodetype no_innerlist getnext_mod module p q
                 s sh st Escan Eil Ep Hreach).
Qed.

(** The resolver returns [r] exactly when its walk ends with [r]. *)
Lemma loop_from_walk (fuel : nat) (p : nodeid_point) (r : nodeid_result) :
  (String.length (np_id p) < fuel)%nat ->
  loop_from E sch options ret_nodetype no_innerlist getnext_mod module fuel p ret0 = r <->
  exists q,
    walk_reaches E sch options ret_nodetype no_innerlist getnext_mod module p q /\
    point_outcome E sch options ret_nodetype no_innerlist getnext_mod module q ret0 r.
Proof.
  intros Hf. split.
  - intros <-. apply walk_outcome_exists. exact Hf.
  - intros (q & Hreach & Hout). exact (walk_outcome_forces p q r Hreach Hout fuel Hf).
Qed.

End NodeidWalkFacts.

Lemma first_point_length (nodeid : string) (sn : schema_nodeid) (shorthand : Z)
  (start : option nat) :
  (String.length (np_id (first_point nodeid sn shorthand start))
   < S (String.length nodeid))%nat.
Proof.
  cbn [first_point np_id].
  pose proof (cskip_length_le (Z.to_nat (sn_ret sn)) nodeid). lia.
Qed.

Lemma resolve_augment_schema_nodeid_scope (E : schema_env) (sch : list lys_node)
  (nodeid : string) (astart amodule : option nat) (ret0 : option nat) :
  let sn := parse_schema_nodeid nodeid (-1) in
  1 <= sn_ret sn ->
  resolve_augment_schema_nodeid E sch nodeid astart amodule ret0 =
    match augment_scope E sch sn astart amodule with
    | None => {| nr_rc := -1; nr_ret := ret0 |}
    | Some (m, gm, st) =>
        loop_from E sch
          [LYS_GETNEXT_WITHCHOICE; LYS_GETNEXT_WITHCASE; LYS_GETNEXT_WITHINOUT] None false
          gm m (S (String.length nodeid)) (first_point nodeid sn 0 st) ret0
    end.
Proof.
  intros sn Hret. unfold resolve_augment_schema_nodeid, augment_scope. fold sn. cbv zeta.
  assert (Ep : (sn_ret sn <? 1) = false) by (apply Z.ltb_ge; exact Hret). rewrite Ep.
  destruct (negb (sn_is_relative sn =? 0)).
  - destruct astart as [s|]; [|reflexivity]. destruct (sch !! s); reflexivity.
  - destruct amodule as [m|]; [|reflexivity].
    destruct (se_import_module E sch m _); reflexivity.
Qed.

Lemma resolve_descendant_schema_nodeid_walk (E : schema_env) (sch : list lys_node)
  (nodeid : string) (dstart : nat) (sd : lys_node) (mask : list LYS_NODE)
  (check_shorthand no_innerlist : bool) (ret0 : option nat) :
  let sn := parse_schema_nodeid nodeid (-1) in
  sch !! dstart = Some sd -> 1 <= sn_ret sn -> sn_is_relative sn <> 0 ->
  resolve_descendant_schema_nodeid E sch nodeid dstart mask check_shorthand no_innerlist ret0
  = loop_from E sch [LYS_GETNEXT_WITHCHOICE; LYS_GETNEXT_WITHCASE] (Some mask) no_innerlist
      (node_module sd) (node_module sd) (S (String.length nodeid))
      (first_point nodeid sn (if check_shorthand then 0 else -1) (Some dstart)) ret0.
Proof.
  intros sn Hsd Hret Hrel. unfold resolve_descendant_schema_nodeid. rewrite Hsd. fold sn.
  assert (Ep : (sn_ret sn <? 1) = false) by (apply Z.ltb_ge; exact Hret). rewrite Ep.
  assert (Er : (sn_is_relative sn =? 0) = false) by (apply Z.eqb_neq; exact Hrel).
  rewrite Er. reflexivity.
Qed.

(** ** resolve.c: the worklist of unresolved schema items *)

Section UnresSchema.

Context {St A : Type}.

Variable step : item_resolver St A.

Lemma visible_attempts_app (t1 t2 : list attempt) :
  visible_attempts (t1 ++ t2) = visible_attempts t1 ++ visible_attempts t2.
Proof.
  induction t1 as [|a t1 IH]; simpl; [reflexivity|].
  destruct (at_hide a); simpl; rewrite IH; reflexivity.
Qed.

Lemma visible_attempts_hidden (f : nat -> attempt) (l : list nat) :
  (forall i, at_hide (f i) = true) -> visible_attempts (f <$> l) = [].
Proof.
  intros Hf. induction l as [|i l IH]; simpl; [reflexivity|]. rewrite Hf. exact IH.
Qed.

Lemma uses_from_unresolved (l : list (unres_entry A)) :
  forall i, uses_from i l <> [] -> unresolved_from i l <> [].
Proof.
  induction l as [|e l IH]; intros i H; simpl in *; [exact H|].
  unfold uses_or_der, not_resolved in *.
  destruct (ue_type e); simpl in *; try discriminate; apply IH; exact H.
Qed.

(** A pass of the "uses" phase over uses and derived types that all stay
    forward references and call no [unres_schema_add_node]: each is
    attempted once, in order, with the flag as it is, and none is
    resolved. *)
Lemma uses_pass_forward (st : St) (u : list (unres_entry A)) (hide : bool) (resolved : nat) :
  (forall e, In e u -> uses_or_der (ue_type e) = true ->
     step hide st u (ue_item e) (ue_type e) = Some (EXIT_FAILURE, st, None)) ->
  forall fuel i t unres_count res_count,
    (length u - i < fuel)%nat ->
    uses_pass step fuel i
      {| run_state := st; run_unres := u; run_resolved := resolved; run_hide := hide;
         run_trace := t |} unres_count res_count
    = Some (PassEnd
              {| run_state := st; run_unres := u; run_resolved := resolved;
                 run_hide := hide;
                 run_trace :=
                   t ++ ((fun j => {| at_index := j; at_hide := hide;
                                      at_rc := EXIT_FAILURE |})
                         <$> uses_from i (drop i u)) |}
              (unres_count + length (uses_from i (drop i u))) res_count).
Proof.
  intros Hfwd. induction fuel as [|fuel IH]; intros i t uc rc Hf; [lia|].
  cbn [uses_pass run_unres].
  destruct (u !! i) as [e|] eqn:Ei.
  - pose proof (lookup_lt_Some _ _ _ Ei) as Hi.
    rewrite (drop_S _ _ _ Ei). cbn [uses_from].
    destruct (uses_or_der (ue_type e)) eqn:Eu; cbn [negb].
    + unfold attempt_item. cbn [run_hide run_state run_unres run_resolved run_trace].
      rewrite (Hfwd e); [|apply list_elem_of_In; eapply list_elem_of_lookup_2; exact Ei
                         |exact Eu].
      cbn [default]. rewrite app_nil_r.
      change (EXIT_FAILURE =? 0) with false. change (EXIT_FAILURE =? -1) with false.
      cbv iota. rewrite IH by lia.
      cbn [fmap list_fmap length]. rewrite <- app_assoc. cbn [app].
      do 2 f_equal. lia.
    + rewrite IH by lia. reflexivity.
  - apply lookup_ge_None in Ei. rewrite drop_ge by lia.
    cbn [uses_from fmap list_fmap length]. rewrite app_nil_r, Nat.add_0_r. reflexivity.
Qed.

(** C6 (the failing inputs): when the uses and derived types of a worklist
    all stay forward references (their attempts return EXIT_FAILURE, change
    nothing and do not call [unres_schema_add_node]) and there is at least
    one, [resolve_unres_schema] returns -1 after one pass over them: every
    entry of the worklist is left as it was, so unresolved entries remain;
    no entry is attempted with diagnostics visible, the final pass not being
    run; and the flag of [ly_vlog_hide] is left set, diagnostics staying
    hidden after the return. *)
Theorem resolve_unres_schema_uses_short (st : St) (u : list (unres_entry A)) (fuel : nat) :
  uses_from 0 u <> [] ->
  (forall e, In e u -> uses_or_der (ue_type e) = true ->
     step true st u (ue_item e) (ue_type e) = Some (EXIT_FAILURE, st, None)) ->
  (length u < fuel)%nat ->
  exists res,
    resolve_unres_schema step fuel st u = Some res /\
    sr_rc res = -1 /\
    sr_state res = st /\ sr_entries res = u /\ sr_count res = length u /\
    unresolved_from 0 (sr_entries res) <> [] /\
    at_index <$> sr_trace res = uses_from 0 u /\
    Forall (fun a => at_hide a = true /\ at_rc a = EXIT_FAILURE) (sr_trace res) /\
    visible_attempts (sr_trace res) = [] /\
    sr_hide res = true.
Proof.
  intros Hne Hfwd Hfuel. unfold resolve_unres_schema.
  destruct fuel as [|fuel]; [lia|]. cbn [uses_phase].
  rewrite (uses_pass_forward st u true 0 Hfwd (S fuel) 0 [] 0 0) by lia.
  rewrite drop_0. cbn [app Nat.add].
  change (negb (0 =? 0)%nat) with false. cbn [andb].
  destruct (uses_from 0 u) as [|j l] eqn:El; [contradiction|].
  change (0 <? length (j :: l))%nat with true. cbv iota.
  eexists. split; [reflexivity|].
  cbn [schema_return sr_rc sr_state sr_entries sr_count sr_hide sr_trace run_state
         run_unres run_hide run_trace].
  split; [reflexivity|]. split; [reflexivity|]. split; [reflexivity|].
  split; [reflexivity|].
  split; [apply uses_from_unresolved; rewrite El; discriminate|].
  split; [rewrite <- list_fmap_compose; apply list_fmap_id|].
  split; [|split; [|reflexivity]].
  - apply Forall_fmap. apply Forall_forall. intros x _. split; reflexivity.
  - apply visible_attempts_hidden. reflexivity.
Qed.

(** A worklist of one entry that is no uses and no derived type, whose
    attempts stay a forward reference and call no [unres_schema_add_node]:
    the entry is attempted once with diagnostics hidden and, in the final
    pass, once with diagnostics visible; the return value is -1. *)
Lemma resolve_unres_schema_forward_single (st st1 st2 : St) (e : unres_entry A)
  (rc2 : Z) (fuel : nat) :
  uses_or_der (ue_type e) = false ->
  not_resolved (ue_type e) = true ->
  step true st [e] (ue_item e) (ue_type e) = Some (EXIT_FAILURE, st1, None) ->
  step false st1 [e] (ue_item e) (ue_type e) = Some (rc2, st2, None) ->
  (2 <= fuel)%nat ->
  resolve_unres_schema step fuel st [e]
  = Some {| sr_rc := -1; sr_state := st2; sr_entries := [e]; sr_count := 1;
            sr_hide := false;
            sr_trace := [ {| at_index := 0; at_hide := true; at_rc := EXIT_FAILURE |};
                          {| at_index := 0; at_hide := false; at_rc := rc2 |} ] |}.
Proof.
  intros Hu Hn H1 H2 Hfuel.
  destruct fuel as [|[|fuel]]; [lia | lia |].
  unfold resolve_unres_schema.
  cbn [uses_phase uses_pass run_unres lookup list_lookup]. rewrite Hu. cbn [negb].
  change (negb (0 =? 0)%nat) with false. cbn [andb].
  change (0 <? 0)%nat with false. cbv iota.
  cbn [rest_pass run_unres lookup list_lookup]. rewrite Hn. cbn [negb].
  unfold attempt_item at 1. cbn [run_hide run_state run_unres run_resolved run_trace].
  rewrite H1. cbn [default app].
  change (EXIT_FAILURE =? 0) with false. change (EXIT_FAILURE =? -1) with false. cbv iota.
  cbn [run_unres lookup list_lookup ly_vlog_hide run_resolved length].
  change (0 <? 1)%nat with true. cbv iota.
  unfold ly_vlog_hide. cbn [run_state run_unres run_resolved run_hide run_trace].
  cbn [final_pass run_unres lookup list_lookup]. rewrite Hn. cbn [negb].
  unfold attempt_item. cbn [run_hide run_state run_unres run_resolved run_trace].
  rewrite H2. cbn [default app run_unres lookup list_lookup]. reflexivity.
Qed.

End UnresSchema.

(** A uses that stays a forward reference, before an identity. *)
Lemma resolve_unres_schema_uses_short_witness :
  exists res,
    resolve_unres_schema code_resolver 3 tt
      [ {| ue_item := EXIT_FAILURE; ue_type := UNRES_USES |};
        {| ue_item := EXIT_SUCCESS; ue_type := UNRES_IDENT |} ] = Some res /\
    sr_rc res = -1 /\
    unresolved_from 0 (sr_entries res) = [0%nat; 1%nat] /\
    sr_trace res = [ {| at_index := 0; at_hide := true; at_rc := EXIT_FAILURE |} ] /\
    visible_attempts (sr_trace res) = [] /\
    sr_hide res = true.
Proof.
  destruct (resolve_unres_schema_uses_short code_resolver tt
              [ {| ue_item := EXIT_FAILURE; ue_type := UNRES_USES |};
                {| ue_item := EXIT_SUCCESS; ue_type := UNRES_IDENT |} ] 3)
    as (res & Hrun & Hrc & _ & Hent & _ & _ & _ & _ & Hvis & Hhide).
  - discriminate.
  - intros e [<-|[<-|[]]] Hu; [reflexivity | discriminate Hu].
  - simpl. lia.
  - exists res. split; [exact Hrun|]. split; [exact Hrc|].
    split; [rewrite Hent; reflexivity|].
    split; [|split; [exact Hvis | exact Hhide]].
    vm_compute in Hrun. inversion Hrun. reflexivity.
Defined.

(** The same identity alone in the worklist, as a forward reference: the
    final pass is run, the entry is attempted again with diagnostics
    visible, and the flag is cleared. *)
Lemma resolve_unres_schema_final_pass_example :
  resolve_unres_schema code_resolver 3 tt
    [ {| ue_item := EXIT_FAILURE; ue_type := UNRES_IDENT |} ]
  = Some {| sr_rc := -1; sr_state := tt;
            sr_entries := [ {| ue_item := EXIT_FAILURE; ue_type := UNRES_IDENT |} ];
            sr_count := 1; sr_hide := false;
            sr_trace := [ {| at_index := 0; at_hide := true; at_rc := EXIT_FAILURE |};
                          {| at_index := 0; at_hide := false; at_rc := EXIT_FAILURE |} ] |}.
Proof. reflexivity. Qed.

(** An attempt that stores an entry with [unres_schema_add_node] leaves
    diagnostics visible: the entry it stored is attempted, in the same
    pass, with the flag cleared, and the flag stays so at the return. *)
Lemma resolve_unres_schema_add_node_unhides :
  resolve_unres_schema
    (fun _ st _ (a : Z) _ =>
       if a =? 0
       then Some (EXIT_FAILURE, st, Some [ {| ue_item := 1; ue_type := UNRES_USES |} ])
       else Some (EXIT_FAILURE, st, None))
    4 tt [ {| ue_item := 0; ue_type := UNRES_USES |} ]
  = Some {| sr_rc := -1; sr_state := tt;
            sr_entries := [ {| ue_item := 0; ue_type := UNRES_USES |};
                            {| ue_item := 1; ue_type := UNRES_USES |} ];
            sr_count := 2; sr_hide := false;
            sr_trace := [ {| at_index := 0; at_hide := true; at_rc := EXIT_FAILURE |};
                          {| at_index := 1; at_hide := false; at_rc := EXIT_FAILURE |} ] |}.
Proof. reflexivity. Qed.

(** Without a bound on what the attempts register the loop of the first
    phase need not end: with an item resolver that registers a uses at every
    attempt no amount of fuel suffices. *)
Lemma uses_pass_registering_diverges (fuel : nat) :
  forall i r uc rc,
    (i < length (run_unres r))%nat ->
    (forall e, In e (run_unres r) -> ue_type e = UNRES_USES) ->
    uses_pass registering_resolver fuel i r uc rc = None.
Proof.
  induction fuel as [|fuel IH]; intros i r uc rc Hi Hall; [reflexivity|].
  simpl. destruct (run_unres r !! i) as [e|] eqn:Ei.
  2:{ apply lookup_ge_None in Ei. lia. }
  assert (He : ue_type e = UNRES_USES).
  { apply Hall. apply list_elem_of_In. eapply list_elem_of_lookup_2. exact Ei. }
  rewrite He. simpl. apply IH.
  - simpl. rewrite length_app. simpl. lia.
  - simpl. intros x Hx. apply in_app_or in Hx as [Hx|[<-|[]]]; [apply Hall; exact Hx | reflexivity].
Qed.

Lemma resolve_unres_schema_registering_diverges (fuel : nat) :
  resolve_unres_schema registering_resolver fuel tt
    [ {| ue_item := 0; ue_type := UNRES_USES |} ] = None.
Proof.
  unfold resolve_unres_schema. destruct fuel as [|fuel]; [reflexivity|].
  cbn [uses_phase].
  rewrite (uses_pass_registering_diverges (S fuel)); [reflexivity | simpl; lia |].
  intros e [<-|[]]. reflexivity.
Qed.
(** ** resolve.c: a cycle of base identities *)

Lemma ident_graph_eta (g : ident_graph) :
  {| ig_ident := ig_ident g; ig_module := ig_module g |} = g.
Proof. destruct g. reflexivity. Qed.



(** ** resolve.c: schema-nodeid resolution, examples *)


(** ** resolve.c: augments *)

(** C4 (evaluation at the failing input): the augment of "/c" resolves, the
    leaf "b" is spliced after the leaf "a" of the target, and the config of
    the target is ORed into "b" although "b" carries LYS_CONFIG_SET with
    "config false": "b" ends with both config bits. *)
Theorem resolve_augment_explicit_config :
  exists r aug_after b_before b_after,
    resolve_augment (plain_env ["m"]) 4 schema_augment_c 2 None = Some r /\
    ar_rc r = EXIT_SUCCESS /\
    ar_schema r !! 2%nat = Some aug_after /\
    node_target aug_after = Some 0%nat /\
    Z.land (node_flags aug_after) LYS_CONFIG_MASK = LYS_CONFIG_W /\
    sibling_chain 4 schema_augment_c (Some 1%nat) = [1%nat] /\
    sibling_chain 4 schema_augment_c (Some 3%nat) = [3%nat] /\
    sibling_chain 4 (ar_schema r) (Some 1%nat) = [1%nat; 3%nat] /\
    schema_augment_c !! 3%nat = Some b_before /\
    ar_schema r !! 3%nat = Some b_after /\
    Z.land (node_flags b_before) LYS_CONFIG_SET = LYS_CONFIG_SET /\
    Z.land (node_flags b_before) LYS_CONFIG_MASK = LYS_CONFIG_R /\
    Z.land (node_flags b_after) LYS_CONFIG_MASK = Z.lor LYS_CONFIG_R LYS_CONFIG_W.
Proof.
  eexists. eexists. eexists. eexists.
  split; [vm_compute; reflexivity|].
  repeat split; reflexivity.
Qed.

(** ** resolve.c: list keys *)

Lemma existsb_take_key (key : nat) (keys : list (option nat)) :
  forall i,
    existsb (fun kj => bool_decide (kj = Some key)) (take i keys) = false <->
    (forall j, (j < i)%nat -> keys !! j <> Some (Some key)).
Proof.
  induction keys as [|k keys IH]; intros i.
  - rewrite take_nil. simpl. split; [intros _ j _; destruct j; discriminate | reflexivity].
  - destruct i as [|i]; simpl.
    + split; [intros _ j Hj; lia | reflexivity].
    + rewrite orb_false_iff, IH. split.
      * intros [Hk Hrest] j Hj. destruct j as [|j]; simpl.
        -- apply bool_decide_eq_false in Hk. congruence.
        -- apply Hrest. lia.
      * intros H. split.
        -- apply bool_decide_eq_false. intros ->. apply (H 0%nat); [lia | reflexivity].
        -- intros j Hj. apply (H (S j)). lia.
Qed.

(** [check_key] returns success exactly on these conditions, and -1 with
    the code of the first one that fails. *)
Lemma check_key_spec (sch : list lys_node) (ld : lys_node) (keys : list (option nat))
  (index : nat) (c : Z) (log : list LY_ECODE) :
  check_key sch ld keys index = Some (c, log) ->
  (c = EXIT_SUCCESS /\ log = [] /\
   exists key kd p pd, key_checked sch ld keys index key kd p pd) \/
  (c = -1 /\
   (forall key kd p pd, ~ key_checked sch ld keys index key kd p pd) /\
   (log = [LYE_KEY_MISS] \/ log = [LYE_KEY_DUP] \/ log = [LYE_KEY_NLEAF] \/
    log = [LYE_KEY_TYPE] \/ log = [LYE_KEY_CONFIG] \/ log = [LYE_KEY_MISS; LYE_SPEC] \/
    log = [LYE_INCHILDSTMT; LYE_SPEC])).
Proof.
  unfold check_key, key_checked. intros H.
  destruct (keys !! index) as [[key|]|] eqn:Ek.
  2,3: inversion H; subst; right; split; [reflexivity|]; split; [|auto];
       intros key kd p pd (Hk & _); discriminate.
  destruct (sch !! key) as [kd|] eqn:Ekd; [|discriminate].
  destruct (existsb _ (take index keys)) eqn:Edup.
  { inversion H; subst. right. split; [reflexivity|]. split; [|auto].
    intros key' kd' p pd (Hk & _ & Hu & _). inversion Hk; subst key'.
    pose proof (proj2 (existsb_take_key key keys index) Hu). congruence. }
  pose proof (proj1 (existsb_take_key key keys index) Edup) as Huniq.
  destruct (bool_decide_reflect (node_nodetype kd = LYS_LEAF)) as [Hleaf|Hleaf]; simpl in H.
  2:{ inversion H; subst. right. split; [reflexivity|]. split; [|auto 10].
      intros key' kd' p pd (Hk & Hs & _ & Hl & _). inversion Hk; subst key'.
      rewrite Ekd in Hs. inversion Hs; subst kd'. contradiction. }
  destruct (bool_decide_reflect (node_type_base kd = LY_TYPE_EMPTY)) as [Hty|Hty].
  { inversion H; subst. right. split; [reflexivity|]. split; [|auto 10].
    intros key' kd' p pd (Hk & Hs & _ & _ & Ht & _). inversion Hk; subst key'.
    rewrite Ekd in Hs. inversion Hs; subst kd'. contradiction. }
  destruct (Z.land (node_flags ld) LYS_CONFIG_MASK =? Z.land (node_flags kd) LYS_CONFIG_MASK)
    eqn:Ecfg; simpl in H.
  2:{ apply Z.eqb_neq in Ecfg.
      inversion H; subst. right. split; [reflexivity|]. split; [|auto 10].
      intros key' kd' p pd (Hk & Hs & _ & _ & _ & Hc & _). inversion Hk; subst key'.
      rewrite Ekd in Hs. inversion Hs; subst kd'. contradiction. }
  apply Z.eqb_eq in Ecfg.
  destruct (node_parent kd) as [p|] eqn:Ep; [|discriminate].
  destruct (sch !! p) as [pd|] eqn:Epd; [|discriminate].
  destruct (bool_decide_reflect (node_nodetype pd = LYS_AUGMENT)) as [Haug|Haug].
  { inversion H; subst. right. split; [reflexivity|]. split; [|auto 10].
    intros key' kd' p' pd' (Hk & Hs & _ & _ & _ & _ & Hp & Hpd & Hna & _).
    inversion Hk; subst key'. rewrite Ekd in Hs. inversion Hs; subst kd'.
    rewrite Ep in Hp. inversion Hp; subst p'. rewrite Epd in Hpd. inversion Hpd; subst pd'.
    contradiction. }
  destruct (node_when kd) eqn:Ew.
  { inversion H; subst. right. split; [reflexivity|]. split; [|auto 10].
    intros key' kd' p' pd' (Hk & Hs & _ & _ & _ & _ & _ & _ & _ & Hw).
    inversion Hk; subst key'. rewrite Ekd in Hs. inversion Hs; subst kd'. congruence. }
  inversion H; subst. left. split; [reflexivity|]. split; [reflexivity|].
  exists key, kd, p, pd. repeat split; assumption.
Qed.

Lemma key_passes_checked (E : schema_env) (sch : list lys_node) (list_node : nat)
  (ld : lys_node) (keys : list (option nat)) (index : nat) (name : string) :
  key_passes E sch list_node ld keys index name <->
  exists key kd p pd,
    se_get_sibling E sch (node_child ld) (se_main_module_name E (node_module ld))
      name [LYS_LEAF] = (0, Some key) /\
    key_checked sch ld keys index key kd p pd /\
    se_check_status E sch list_node key = 0.
Proof. reflexivity. Qed.

(** The conditions on a key read the array only at and before its index. *)
Lemma key_checked_agree (sch : list lys_node) (ld : lys_node)
  (keys keys' : list (option nat)) (index key : nat) (kd : lys_node) (p : nat)
  (pd : lys_node) :
  (forall j, (j <= index)%nat -> keys' !! j = keys !! j) ->
  key_checked sch ld keys index key kd p pd ->
  key_checked sch ld keys' index key kd p pd.
Proof.
  unfold key_checked.
  intros Hag (H2 & H3 & H4 & H5 & H6 & H7 & H8 & H9 & H10 & H11).
  split; [rewrite Hag by lia; exact H2|]. split; [exact H3|].
  split; [intros j Hj; rewrite Hag by lia; apply H4; exact Hj|].
  repeat split; assumption.
Qed.

Section ListKeys.

Variable E : schema_env.
Variable sch : list lys_node.
Variable list_node : nat.
Variable ld : lys_node.

Lemma resolve_list_keys_loop_spec (n : nat) :
  forall i keys keys_str rc keys' log,
    length keys = (i + n)%nat ->
    resolve_list_keys_loop E sch list_node ld n i keys keys_str = Some (rc, keys', log) ->
    length keys' = (i + n)%nat /\
    (forall j, (j < i)%nat -> keys' !! j = keys !! j) /\
    (rc = EXIT_SUCCESS \/ rc = EXIT_FAILURE \/ rc = -1) /\
    (rc = EXIT_SUCCESS ->
     exists names, key_names n keys_str = Some names /\
       forall d name, names !! d = Some name ->
         key_passes E sch list_node ld keys' (i + d) name) /\
    (forall names, key_names n keys_str = Some names ->
       (forall d name, names !! d = Some name ->
          key_passes E sch list_node ld keys' (i + d) name) ->
       rc = EXIT_SUCCESS).
Proof.
  induction n as [|n IH]; intros i keys keys_str rc keys' log Hlen Hrun; simpl in Hrun.
  - inversion Hrun; subst. split; [exact Hlen|]. split; [reflexivity|].
    split; [left; reflexivity|]. split; [|reflexivity].
    intros _. exists []. split; [reflexivity|]. intros d name Hd. destruct d; discriminate.
  - destruct keys_str as [ks|]; [|discriminate].
    destruct (next_key ks) as [name value] eqn:Enk.
    destruct (se_get_sibling E sch (node_child ld) (se_main_module_name E (node_module ld))
                name [LYS_LEAF]) as [c1 ret] eqn:Esib.
    assert (Hi : (i < length keys)%nat) by lia.
    assert (Hlen1 : length (<[i := ret]> keys) = (i + S n)%nat)
      by (rewrite length_insert; exact Hlen).
    assert (Hlow : forall j, (j < i)%nat -> <[i := ret]> keys !! j = keys !! j)
      by (intros j Hj; apply list_lookup_insert_ne; lia).
    assert (Hat : <[i := ret]> keys !! i = Some ret)
      by (apply list_lookup_insert_eq; exact Hi).
    assert (Hnames : forall names, key_names (S n) (Some ks) = Some names ->
              exists tl, names = name :: tl /\ key_names n value = Some tl).
    { intros names Hn. simpl in Hn. rewrite Enk in Hn. simpl in Hn.
      destruct (key_names n value) as [tl|]; [|discriminate].
      inversion Hn. exists tl. split; reflexivity. }
    destruct (c1 =? 0) eqn:Ec1; simpl in Hrun.
    2:{ (* the name does not resolve *)
        apply Z.eqb_neq in Ec1. inversion Hrun; subst.
        split; [exact Hlen1|]. split; [exact Hlow|]. split; [right; left; reflexivity|].
        split; [discriminate|].
        intros names Hn Hall. exfalso.
        destruct (Hnames names Hn) as (tl & -> & _).
        specialize (Hall 0%nat name eq_refl).
        apply (proj1 (key_passes_checked _ _ _ _ _ _ _)) in Hall as (key & kd & p & pd & Hs & _).
        rewrite Esib in Hs. inversion Hs. contradiction. }
    apply Z.eqb_eq in Ec1. subst c1.
    destruct (check_key sch ld (<[i := ret]> keys) i) as [[c lg]|] eqn:Eck; [|discriminate].
    destruct (check_key_spec _ _ _ _ _ _ Eck) as [(-> & -> & key & kd & p & pd & Hck)
                                                 |(-> & Hnone & _)].
    2:{ (* the key is refused *)
        simpl in Hrun. inversion Hrun; subst.
        split; [exact Hlen1|]. split; [exact Hlow|]. split; [right; right; reflexivity|].
        split; [discriminate|].
        intros names Hn Hall. exfalso.
        destruct (Hnames names Hn) as (tl & -> & _).
        specialize (Hall 0%nat name eq_refl). rewrite Nat.add_0_r in Hall.
        apply (proj1 (key_passes_checked _ _ _ _ _ _ _)) in Hall as (key & kd & p & pd & _ & Hck & _).
        exact (Hnone key kd p pd Hck). }
    simpl in Hrun.
    assert (Hret : ret = Some key).
    { destruct Hck as (Hk & _). rewrite Hat in Hk. inversion Hk. reflexivity. }
    subst ret.
    destruct (se_check_status E sch list_node key =? 0) eqn:Est; simpl in Hrun.
    2:{ (* the status does not fit *)
        apply Z.eqb_neq in Est. inversion Hrun; subst.
        split; [exact Hlen1|]. split; [exact Hlow|]. split; [right; right; reflexivity|].
        split; [discriminate|].
        intros names Hn Hall. exfalso.
        destruct (Hnames names Hn) as (tl & -> & _).
        specialize (Hall 0%nat name eq_refl).
        apply (proj1 (key_passes_checked _ _ _ _ _ _ _)) in Hall as (key' & kd' & p' & pd' & Hs & _ & Hst).
        rewrite Esib in Hs. inversion Hs; subst key'. contradiction. }
    apply Z.eqb_eq in Est.
    assert (Hlen2 : length (<[i := Some key]> keys) = (S i + n)%nat) by lia.
    destruct (IH (S i) _ value rc keys' log Hlen2 Hrun) as (L1 & L2 & L3 & L4 & L5).
    assert (Hhere : key_passes E sch list_node ld keys' (i + 0) name).
    { apply key_passes_checked. exists key, kd, p, pd.
      split; [exact Esib|]. split; [|exact Est].
      rewrite Nat.add_0_r.
      apply (key_checked_agree sch ld (<[i := Some key]> keys)); [|exact Hck].
      intros j Hj. apply L2. lia. }
    split; [lia|].
    split; [intros j Hj; rewrite L2 by lia; apply Hlow; exact Hj|].
    split; [exact L3|]. split.
    + intros Hrc. destruct (L4 Hrc) as (tl & Htl & Hall).
      exists (name :: tl). split.
      * simpl. rewrite Enk. simpl. rewrite Htl. reflexivity.
      * intros d nm Hd. destruct d as [|d]; simpl in Hd.
        -- inversion Hd; subst nm. exact Hhere.
        -- replace (i + S d)%nat with (S i + d)%nat by lia. apply Hall. exact Hd.
    + intros names Hn Hall. destruct (Hnames names Hn) as (tl & -> & Htl).
      apply (L5 tl Htl). intros d nm Hd.
      replace (S i + d)%nat with (i + S d)%nat by lia. apply Hall. exact Hd.
Qed.

End ListKeys.

(** What the loop logs: nothing on success, [LYE_INRESOLV] with
    EXIT_FAILURE, and with -1 the code of the first condition the key
    breaks. *)
Lemma resolve_list_keys_loop_log (E : schema_env) (sch : list lys_node) (list_node : nat)
  (ld : lys_node) (n : nat) :
  forall i keys keys_str rc keys' log,
    resolve_list_keys_loop E sch list_node ld n i keys keys_str = Some (rc, keys', log) ->
    (rc = EXIT_SUCCESS /\ log = []) \/
    (rc = EXIT_FAILURE /\ log = [LYE_INRESOLV]) \/
    (rc = -1 /\
     (log = [LYE_KEY_MISS] \/ log = [LYE_KEY_DUP] \/ log = [LYE_KEY_NLEAF] \/
      log = [LYE_KEY_TYPE] \/ log = [LYE_KEY_CONFIG] \/ log = [LYE_KEY_MISS; LYE_SPEC] \/
      log = [LYE_INCHILDSTMT; LYE_SPEC] \/ log = [LYE_INSTATUS])).
Proof.
  induction n as [|n IH]; intros i keys keys_str rc keys' log Hrun; simpl in Hrun.
  - inversion Hrun; subst. left. split; reflexivity.
  - destruct keys_str as [ks|]; [|discriminate].
    destruct (next_key ks) as [name value].
    destruct (se_get_sibling E sch (node_child ld) (se_main_module_name E (node_module ld))
                name [LYS_LEAF]) as [c1 ret].
    destruct (c1 =? 0); simpl in Hrun.
    2:{ inversion Hrun; subst. right. left. split; reflexivity. }
    destruct (check_key sch ld (<[i := ret]> keys) i) as [[c lg]|] eqn:Eck; [|discriminate].
    destruct (check_key_spec _ _ _ _ _ _ Eck) as [(-> & -> & _)|(-> & _ & Hlg)];
      simpl in Hrun.
    2:{ inversion Hrun; subst. right. right. split; [reflexivity|].
        intuition auto. }
    destruct ret as [key|]; [|discriminate].
    destruct (se_check_status E sch list_node key =? 0); simpl in Hrun.
    2:{ inversion Hrun; subst. right. right. split; [reflexivity|]. auto 10. }
    exact (IH _ _ _ _ _ _ Hrun).
Qed.

Lemma existsb_take_key_true (key : nat) (keys : list (option nat)) :
  forall i,
    existsb (fun kj => bool_decide (kj = Some key)) (take i keys) = true ->
    exists j, (j < i)%nat /\ keys !! j = Some (Some key).
Proof.
  induction keys as [|k keys IH]; intros i H.
  - rewrite take_nil in H. discriminate H.
  - destruct i as [|i]; simpl in H; [discriminate H|].
    apply orb_true_iff in H as [H|H].
    + apply bool_decide_eq_true in H. subst k. exists 0%nat. split; [lia | reflexivity].
    + destruct (IH i H) as (j & Hj & Hk). exists (S j). split; [lia | exact Hk].
Qed.

(** A refusal by [check_key] is the refusal for the first condition the key
    breaks. *)
Lemma check_key_refused (E : schema_env) (sch : list lys_node) (list_node : nat)
  (ld : lys_node) (keys : list (option nat)) (index : nat) (name : string)
  (ret : option nat) (c : Z) (log : list LY_ECODE) :
  se_get_sibling E sch (node_child ld) (se_main_module_name E (node_module ld))
    name [LYS_LEAF] = (0, ret) ->
  keys !! index = Some ret ->
  check_key sch ld keys index = Some (c, log) ->
  c <> EXIT_SUCCESS ->
  key_refused E sch list_node ld keys index name c log.
Proof.
  intros Hsib Hat H Hc. unfold check_key in H. rewrite Hat in H.
  destruct ret as [key|].
  2:{ inversion H; subst. apply kr_missing. exact Hsib. }
  assert (Hfound : key_found E sch ld name key) by exact Hsib.
  destruct (sch !! key) as [kd|] eqn:Ekd; [|discriminate H].
  destruct (existsb _ (take index keys)) eqn:Edup.
  { inversion H; subst.
    destruct (existsb_take_key_true key keys index Edup) as (j & Hj & Hk).
    exact (kr_duplicate E sch list_node ld keys index name key j Hfound Hj Hk). }
  assert (Huniq : key_distinct keys index key)
    by exact (proj1 (existsb_take_key key keys index) Edup).
  destruct (bool_decide_reflect (node_nodetype kd = LYS_LEAF)) as [Hleaf|Hleaf];
    cbn [negb] in H.
  2:{ inversion H; subst.
      exact (kr_not_leaf E sch list_node ld keys index name key kd Hfound Huniq Ekd Hleaf). }
  destruct (bool_decide_reflect (node_type_base kd = LY_TYPE_EMPTY)) as [Hty|Hty].
  { inversion H; subst.
    exact (kr_type_empty E sch list_node ld keys index name key kd Hfound Huniq Ekd Hleaf
             Hty). }
  destruct (Z.land (node_flags ld) LYS_CONFIG_MASK =? Z.land (node_flags kd) LYS_CONFIG_MASK)
    eqn:Ecfg; cbn [negb] in H.
  2:{ apply Z.eqb_neq in Ecfg. inversion H; subst.
      exact (kr_config E sch list_node ld keys index name key kd Hfound Huniq Ekd Hleaf
               Hty Ecfg). }
  apply Z.eqb_eq in Ecfg.
  destruct (node_parent kd) as [p|] eqn:Ep; [|discriminate H].
  destruct (sch !! p) as [pd|] eqn:Epd; [|discriminate H].
  destruct (bool_decide_reflect (node_nodetype pd = LYS_AUGMENT)) as [Haug|Haug].
  { inversion H; subst.
    exact (kr_augment E sch list_node ld keys index name key kd p pd Hfound Huniq Ekd Hleaf
             Hty Ecfg Ep Epd Haug). }
  destruct (node_when kd) eqn:Ew.
  { inversion H; subst.
    exact (kr_when E sch list_node ld keys index name key kd p pd Hfound Huniq Ekd Hleaf
             Hty Ecfg Ep Epd Haug Ew). }
  inversion H; subst. contradiction Hc. reflexivity.
Qed.

(** A refused key is not an accepted one. *)
Lemma key_refused_not_passes (E : schema_env) (sch : list lys_node) (list_node : nat)
  (ld : lys_node) (keys : list (option nat)) (index : nat) (name : string) (rc : Z)
  (log : list LY_ECODE) :
  key_refused E sch list_node ld keys index name rc log ->
  ~ key_passes E sch list_node ld keys index name.
Proof.
  intros Hr (key' & kd' & p' & pd' & Hf' & Hck & Hst).
  unfold key_found in Hf'.
  destruct Hck as (Hk & Hs & Hu & Hl & Ht & Hc & Hp & Hpd & Hna & Hw).
  assert (Hsame : forall key, key_found E sch ld name key -> key = key').
  { intros key Hf. unfold key_found in Hf. rewrite Hf' in Hf. inversion Hf. reflexivity. }
  destruct Hr as [c ret Hsib Hc0 | Hsib | key j Hf Hj Hkj
                 | key kd Hf _ Hskd Hx | key kd Hf _ Hskd _ Hx
                 | key kd Hf _ Hskd _ _ Hx | key kd p pd Hf _ Hskd _ _ _ Hpp Hppd Hx
                 | key kd p pd Hf _ Hskd _ _ _ _ _ _ Hx | key kd p pd Hf _ Hx].
  - rewrite Hf' in Hsib. inversion Hsib; subst. contradiction Hc0. reflexivity.
  - rewrite Hf' in Hsib. discriminate Hsib.
  - apply Hsame in Hf. subst key. exact (Hu j Hj Hkj).
  - apply Hsame in Hf. subst key. rewrite Hs in Hskd. inversion Hskd; subst kd.
    contradiction.
  - apply Hsame in Hf. subst key. rewrite Hs in Hskd. inversion Hskd; subst kd.
    contradiction.
  - apply Hsame in Hf. subst key. rewrite Hs in Hskd. inversion Hskd; subst kd.
    contradiction.
  - apply Hsame in Hf. subst key. rewrite Hs in Hskd. inversion Hskd; subst kd.
    rewrite Hp in Hpp. inversion Hpp; subst p. rewrite Hpd in Hppd. inversion Hppd; subst pd.
    contradiction.
  - apply Hsame in Hf. subst key. rewrite Hs in Hskd. inversion Hskd; subst kd.
    congruence.
  - apply Hsame in Hf. subst key. contradiction.
Qed.

(** When the loop fails, the names before the failing one pass every test,
    and the failing one is refused with the value and the codes of the
    loop. *)
Lemma resolve_list_keys_loop_refused (E : schema_env) (sch : list lys_node)
  (list_node : nat) (ld : lys_node) (n : nat) :
  forall i keys keys_str rc keys' log,
    length keys = (i + n)%nat ->
    resolve_list_keys_loop E sch list_node ld n i keys keys_str = Some (rc, keys', log) ->
    rc <> EXIT_SUCCESS ->
    exists d names name,
      (d < n)%nat /\
      key_names d keys_str = Some names /\
      key_names (S d) keys_str = Some (names ++ [name]) /\
      (forall j nm, names !! j = Some nm ->
         key_passes E sch list_node ld keys' (i + j) nm) /\
      key_refused E sch list_node ld keys' (i + d) name rc log.
Proof.
  induction n as [|n IH]; intros i keys keys_str rc keys' log Hlen Hrun Hrc;
    cbn [resolve_list_keys_loop] in Hrun.
  - inversion Hrun; subst. contradiction Hrc. reflexivity.
  - destruct keys_str as [ks|]; [|discriminate Hrun].
    destruct (next_key ks) as [name value] eqn:Enk.
    destruct (se_get_sibling E sch (node_child ld) (se_main_module_name E (node_module ld))
                name [LYS_LEAF]) as [c1 ret] eqn:Esib.
    assert (Hi : (i < length keys)%nat) by lia.
    assert (Hat : <[i := ret]> keys !! i = Some ret)
      by (apply list_lookup_insert_eq; exact Hi).
    assert (Hone : key_names 1 (Some ks) = Some ([] ++ [name]))
      by (cbn [key_names]; rewrite Enk; reflexivity).
    destruct (c1 =? 0) eqn:Ec1; cbn [negb] in Hrun.
    2:{ apply Z.eqb_neq in Ec1. inversion Hrun; subst.
        exists 0%nat, [], name. split; [lia|]. split; [reflexivity|]. split; [exact Hone|].
        split; [intros j nm Hj; destruct j; discriminate Hj|].
        exact (kr_unresolved E sch list_node ld _ _ name c1 ret Esib Ec1). }
    apply Z.eqb_eq in Ec1. subst c1.
    destruct (check_key sch ld (<[i := ret]> keys) i) as [[c lg]|] eqn:Eck;
      [|discriminate Hrun].
    destruct (c =? 0) eqn:Ec; cbn [negb] in Hrun.
    2:{ apply Z.eqb_neq in Ec. inversion Hrun; subst.
        exists 0%nat, [], name. split; [lia|]. split; [reflexivity|]. split; [exact Hone|].
        split; [intros j nm Hj; destruct j; discriminate Hj|].
        rewrite Nat.add_0_r.
        destruct (check_key_spec _ _ _ _ _ _ Eck) as [(-> & _)|(-> & _)];
          [contradiction Ec; reflexivity|].
        apply (check_key_refused E sch list_node ld _ i name ret (-1) log Esib Hat Eck).
        discriminate. }
    apply Z.eqb_eq in Ec. subst c.
    destruct (check_key_spec _ _ _ _ _ _ Eck) as [(_ & _ & key & kd & p & pd & Hck)
                                                 |(Hc & _)]; [|discriminate Hc].
    assert (Hret : ret = Some key).
    { destruct Hck as (Hk & _). rewrite Hat in Hk. inversion Hk. reflexivity. }
    subst ret.
    destruct (se_check_status E sch list_node key =? 0) eqn:Est; cbn [negb] in Hrun.
    2:{ apply Z.eqb_neq in Est. inversion Hrun; subst.
        exists 0%nat, [], name. split; [lia|]. split; [reflexivity|]. split; [exact Hone|].
        split; [intros j nm Hj; destruct j; discriminate Hj|].
        rewrite Nat.add_0_r.
        exact (kr_status E sch list_node ld _ i name key kd p pd Esib Hck Est). }
    apply Z.eqb_eq in Est.
    assert (Hlen2 : length (<[i := Some key]> keys) = (S i + n)%nat)
      by (rewrite length_insert; lia).
    destruct (resolve_list_keys_loop_spec E sch list_node ld n (S i) _ value rc keys' log
                Hlen2 Hrun) as (_ & L2 & _).
    destruct (IH (S i) _ value rc keys' log Hlen2 Hrun Hrc)
      as (d & names & nm' & Hd & Hn1 & Hn2 & Hpass & Href).
    exists (S d), (name :: names), nm'. split; [lia|]. split; [|split; [|split]].
    + cbn [key_names]. rewrite Enk. cbn [fst snd]. rewrite Hn1. reflexivity.
    + change (key_names (S (S d)) (Some ks))
        with (match key_names (S d) (snd (next_key ks)) with
              | Some l => Some (fst (next_key ks) :: l)
              | None => None
              end).
      rewrite Enk. cbn [fst snd]. rewrite Hn2. reflexivity.
    + intros j nm Hj. destruct j as [|j]; cbn in Hj.
      * inversion Hj; subst nm. rewrite Nat.add_0_r.
        exists key, kd, p, pd. split; [exact Esib|]. split; [|exact Est].
        apply (key_checked_agree sch ld (<[i := Some key]> keys)); [|exact Hck].
        intros j Hj'. apply L2. lia.
      * replace (i + S j)%nat with (S i + j)%nat by lia. apply Hpass. exact Hj.
    + replace (i + S d)%nat with (S i + d)%nat by lia. exact Href.
Qed.

(** Under the assumption on [lys_get_sibling], a key passes the tests of
    the loop exactly when it meets the conditions on a key. *)
Lemma key_passes_accepted (E : schema_env) (sch : list lys_node) (list_node : nat)
  (ld : lys_node) (keys : list (option nat)) (index : nat) (name : string) :
  get_sibling_among E sch ->
  key_passes E sch list_node ld keys index name <->
  key_accepted E sch list_node ld keys index name.
Proof.
  intros Hamong. unfold key_passes, key_accepted, key_checked. split.
  - intros (key & kd & p & pd & Hf & (H2 & H3 & H4 & H5 & H6 & H7 & H8 & H9 & H10 & H11)
            & H12).
    destruct (Hamong _ _ _ _ _ Hf) as (key' & kd' & Hk & Hin & Hs & Hname & _).
    inversion Hk; subst key'. rewrite H3 in Hs. inversion Hs; subst kd'.
    exists key, kd, p, pd. repeat split; assumption.
  - intros (key & kd & p & pd & Hf & H2 & _ & H3 & _ & H5 & H4 & H6 & H7 & H8 & H9 & H10
            & H11 & H12).
    exists key, kd, p, pd. repeat split; assumption.
Qed.


(** The scan for a sibling of [plain_env] returns siblings it was given. *)
Lemma plain_env_get_sibling_among (names : list string) (sch : list lys_node) :
  get_sibling_among (plain_env names) sch.
Proof.
  intros siblings mod_name name types ret H. cbn [se_get_sibling plain_env] in H.
  match type of H with
  | match List.find ?f ?l with _ => _ end = _ =>
      destruct (List.find f l) as [n|] eqn:Ef; [|discriminate H];
      apply find_some in Ef as [Hin Hf]
  end.
  inversion H; subst ret.
  destruct (sch !! n) as [nd|] eqn:En; [|discriminate Hf].
  apply andb_true_iff in Hf as [Hty Hnm].
  destruct (node_name nd) as [s|] eqn:Es; [|discriminate Hnm].
  apply String.eqb_eq in Hnm. subst s.
  exists n, nd. repeat split; assumption.
Defined.


(** A key named twice and a key that is not a child are refused. *)
Lemma resolve_list_keys_refusals :
  (fst <$> resolve_list_keys (plain_env ["m"]) schema_list_keys 0 "a a")
    = Some (-1, <[0%nat := set_keys [Some 1%nat; Some 1%nat]
                             (set_keys [None; None]
                                (mk_node "l" LYS_LIST LYS_CONFIG_W 0 None (Some 1%nat) None
                                   (Some 0%nat)))]> schema_list_keys) /\
  (snd <$> resolve_list_keys (plain_env ["m"]) schema_list_keys 0 "a a") = Some [LYE_KEY_DUP] /\
  (snd <$> resolve_list_keys (plain_env ["m"]) schema_list_keys 0 "a zz")
    = Some [LYE_INRESOLV].
Proof. repeat split; reflexivity. Qed.

(** ** When conditions in [resolve_unres_data] *)

(** With the two when items alone the second pass of the when loop evaluates
    the when of [c] after [q] is unlinked: both nodes are deleted. *)
Lemma resolve_unres_data_two_whens :
  exists res,
    resolve_unres_data spec_data_env 4 data_c_q [Some 0%nat; Some 1%nat]
      [UNRES_WHEN; UNRES_WHEN] (Some (Some 0%nat)) false = Some res /\
    res_rc res = EXIT_SUCCESS /\
    remaining_nodes res = [] /\
    dn_freed <$> dr_tree (res_run res) = [true; true].
Proof. eexists. split; [vm_compute; reflexivity|]. repeat split; reflexivity. Qed.

(** Without a root a false when ends the call with -1 and [LY_EVALID]. *)
Lemma resolve_unres_data_no_root :
  exists res,
    resolve_unres_data spec_data_env 4 data_c_q [Some 0%nat; Some 1%nat; Some 1%nat]
      [UNRES_WHEN; UNRES_WHEN; UNRES_MUST] None false = Some res /\
    res_rc res = -1 /\
    dr_errors (res_run res) = [LY_EVALID].
Proof. eexists. split; [vm_compute; reflexivity|]. split; reflexivity. Qed.

(** C5: on the data <c/><q/> with the items (when of c, when of q, must of
    q) and a root, the first pass of the when loop leaves the when of [c]
    pending, unlinks [q], and counts the must item of [q] into [resolved];
    the loop ends with [resolved = when_stmt = 2] although the when of [c]
    is not evaluated. The rest loop evaluates it: it is false, the item is
    marked resolved, and the call succeeds with [c], whose when is false,
    still in the tree and not released. *)
Theorem resolve_unres_data_keeps_when_false :
  exists res,
    resolve_unres_data spec_data_env 4 data_c_q [Some 0%nat; Some 1%nat; Some 1%nat]
      [UNRES_WHEN; UNRES_WHEN; UNRES_MUST] (Some (Some 0%nat)) false = Some res /\
    res_rc res = EXIT_SUCCESS /\
    dr_when_stmt (res_run res) = 2 /\
    dr_type (res_run res) = [UNRES_RESOLVED; UNRES_RESOLVED; UNRES_RESOLVED] /\
    dr_root (res_run res) = Some (Some 0%nat) /\
    remaining_nodes res = [0%nat] /\
    when_false spec_data_env (dr_tree (res_run res)) 0 = true /\
    dn_freed <$> dr_tree (res_run res) = [false; true].
Proof. eexists. split; [vm_compute; reflexivity|]. repeat split; reflexivity. Qed.

(** The state after the when loop on that input: one pass, the when of [c]
    still to do, and the counter already at the number of when items. *)
Lemma when_phase_counts_other_items :
  exists r,
    when_phase spec_data_env false 1 true
      {| dr_tree := data_c_q; dr_root := Some (Some 0%nat);
         dr_node := [Some 0%nat; Some 1%nat; Some 1%nat];
         dr_type := [UNRES_WHEN; UNRES_WHEN; UNRES_MUST];
         dr_resolved := 0; dr_del_items := 0; dr_when_stmt := 0;
         dr_progress := false; dr_errors := [] |} = Some (Next r) /\
    dr_type r = [UNRES_WHEN; UNRES_DELETE; UNRES_RESOLVED] /\
    dr_resolved r = 2 /\ dr_when_stmt r = 2.
Proof. eexists. split; [vm_compute; reflexivity|]. repeat split; reflexivity. Qed.

(** ** context.c: module lookup *)

Lemma rev_size_zero (rev : list lys_revision) :
  (rev_size rev =? 0) = true <-> rev = [].
Proof.
  unfold rev_size. rewrite Z.eqb_eq. destruct rev; simpl; split; intros H;
    try reflexivity; try discriminate; lia.
Qed.

Lemma rev_size_nonzero (rev : list lys_revision) :
  (rev_size rev =? 0) = false <-> rev <> [].
Proof.
  rewrite <- rev_size_zero. destruct (rev_size rev =? 0); split; congruence.
Qed.

Lemma strcmp_refl (a : string) : strcmp a a = Eq.
Proof.
  unfold strcmp. destruct (String_as_OT.compare_spec a a) as [_|H|H]; try reflexivity;
    exfalso; exact (StrictOrder_Irreflexive (R := String_as_OT.lt) a H).
Qed.

Lemma date_le_refl (a : string) : date_le a a.
Proof. unfold date_le. rewrite strcmp_refl. discriminate. Qed.

Lemma strcmp_lt_gt (a b : string) : strcmp a b = Lt -> strcmp b a = Gt.
Proof.
  unfold strcmp. intros H.
  destruct (String_as_OT.compare_spec b a) as [E|L|G]; try reflexivity.
  - hnf in E. subst. match type of H with String_as_OT.compare ?x ?x = _ =>
      pose proof (strcmp_refl x) as R; unfold strcmp in R; congruence end.
  - exfalso. apply (StrictOrder_Irreflexive (R := String_as_OT.lt) a).
    exact (StrictOrder_Transitive (R := String_as_OT.lt) _ _ _ H L).
Qed.

(** [m' <= r] and not [m < r] give [m' <= m]. *)
Lemma date_le_step (m' r m : string) :
  date_le m' r -> strcmp m r <> Lt -> date_le m' m.
Proof.
  unfold date_le, strcmp. intros H1 H2 HG.
  assert (Hm : String_as_OT.lt m m').
  { destruct (String_as_OT.compare_spec m m') as [E|L|G]; [| exact L |].
    - hnf in E. subst. match type of HG with String_as_OT.compare ?x ?x = _ =>
        pose proof (strcmp_refl x) as R; unfold strcmp in R; congruence end.
    - hnf in G. congruence. }
  destruct (String_as_OT.compare_spec m' r) as [E|L|G]; [| |congruence].
  - hnf in E. subst. apply H2. exact Hm.
  - apply H2. exact (StrictOrder_Transitive (R := String_as_OT.lt) _ _ _ Hm L).
Qed.

Lemma lookup_snoc_inv {A} (pre : list A) (x : A) (j : nat) (y : A) :
  (pre ++ [x]) !! j = Some y ->
  pre !! j = Some y \/ (j = length pre /\ y = x).
Proof.
  intros H. destruct (decide (j < length pre)%nat) as [Hlt|Hge].
  - left. rewrite lookup_app_l in H by exact Hlt. exact H.
  - right. rewrite lookup_app_r in H by lia.
    destruct (j - length pre)%nat eqn:E; simpl in H; [|discriminate].
    inversion H; subst. split; [lia | reflexivity].
Qed.

Ltac newest_step Hmax :=
  split; [first [eassumption | congruence]
         | split; [first [eassumption | congruence] | ]];
  let j := fresh "j" in let m' := fresh "m'" in
  let Hj := fresh "Hj" in let Hk := fresh "Hk" in let Hrev := fresh "Hrev" in
  intros j m' Hj Hk Hrev;
  apply lookup_snoc_inv in Hj as [Hj|[_ Hj]];
  [ try (pose proof (Hmax j m' Hj Hk Hrev) as [? ?])
  | try discriminate; try (inversion Hj; subst m') ].

Lemma get_module_by_loop_newest (field : lys_module -> string) (key : string)
  (l : list (option lys_module)) :
  forall (pre : list (option lys_module)) (res : option (nat * lys_module)),
    newest_so_far field key (pre ++ l) pre res ->
    newest_so_far field key (pre ++ l) (pre ++ l)
      (ly_ctx_get_module_by_loop key field None (length pre) l res).
Proof.
  induction l as [|x rest IH]; intros pre res Hinv; simpl.
  - rewrite app_nil_r in *. exact Hinv.
  - assert (Hfull : pre ++ x :: rest = (pre ++ [x]) ++ rest)
      by (rewrite <- app_assoc; reflexivity).
    assert (Hlen : S (length pre) = length (pre ++ [x]))
      by (rewrite length_app; simpl; lia).
    assert (Hx : (pre ++ x :: rest) !! length pre = Some x)
      by (rewrite lookup_app_r by lia; rewrite Nat.sub_diag; reflexivity).
    rewrite Hlen, Hfull.
    destruct x as [m|].
    + unfold strcmp0. destruct (String.eqb key (field m)) eqn:Ek; simpl.
      * apply String.eqb_eq in Ek.
        destruct res as [[i r]|].
        -- destruct Hinv as (Hi & Hr & Hmax).
           destruct (rev_size (module_rev m) =? 0) eqn:Em.
           ++ apply rev_size_zero in Em. apply IH. rewrite <- Hfull.
              newest_step Hmax; [split; assumption | congruence].
           ++ apply rev_size_nonzero in Em.
              destruct (rev_size (module_rev r) =? 0) eqn:Er; simpl.
              ** apply rev_size_zero in Er.
                 apply IH. rewrite <- Hfull.
                 newest_step Hmax; [congruence | split; [assumption | apply date_le_refl]].
              ** apply rev_size_nonzero in Er.
                 destruct (strcmp (rev0_date (module_rev m)) (rev0_date (module_rev r))) eqn:Ec.
                 --- apply IH. rewrite <- Hfull.
                     newest_step Hmax; (split; [assumption|]); [|apply date_le_refl].
                     apply (date_le_step _ (rev0_date (module_rev r))); [assumption|].
                     rewrite Ec. discriminate.
                 --- apply IH. rewrite <- Hfull.
                     newest_step Hmax; (split; [assumption|]); [assumption|].
                     unfold date_le. rewrite Ec. discriminate.
                 --- apply IH. rewrite <- Hfull.
                     newest_step Hmax; (split; [assumption|]); [|apply date_le_refl].
                     apply (date_le_step _ (rev0_date (module_rev r))); [assumption|].
                     rewrite Ec. discriminate.
        -- simpl in Hinv. apply IH. rewrite <- Hfull.
           newest_step Hinv.
           ++ exfalso. exact (Hinv _ _ Hj Hk).
           ++ split; [assumption | apply date_le_refl].
      * apply String.eqb_neq in Ek.
        apply IH. rewrite <- Hfull.
        destruct res as [[i r]|]; simpl in *.
        -- destruct Hinv as (Hi & Hr & Hmax).
           newest_step Hmax; [split; assumption | congruence].
        -- intros j m' Hj. apply lookup_snoc_inv in Hj as [Hj|[_ Hj]].
           ++ exact (Hinv j m' Hj).
           ++ inversion Hj; subst m'. congruence.
    + apply IH. rewrite <- Hfull.
      destruct res as [[i r]|]; simpl in *.
      * destruct Hinv as (Hi & Hr & Hmax).
        newest_step Hmax. split; assumption.
      * intros j m' Hj. apply lookup_snoc_inv in Hj as [Hj|[_ Hj]]; try discriminate.
        exact (Hinv j m' Hj).
Qed.

Lemma get_module_by_loop_exact (field : lys_module -> string) (key rv : string)
  (l : list (option lys_module)) :
  forall (pre : list (option lys_module)),
    (forall j m, pre !! j = Some (Some m) -> field m = key ->
       module_rev m = [] \/ rev0_date (module_rev m) <> rv) ->
    exact_revision field key rv (pre ++ l)
      (ly_ctx_get_module_by_loop key field (Some rv) (length pre) l None).
Proof.
  induction l as [|x rest IH]; intros pre Hpre; simpl.
  - rewrite app_nil_r. exact Hpre.
  - assert (Hfull : pre ++ x :: rest = (pre ++ [x]) ++ rest)
      by (rewrite <- app_assoc; reflexivity).
    assert (Hlen : S (length pre) = length (pre ++ [x]))
      by (rewrite length_app; simpl; lia).
    assert (Hx : (pre ++ x :: rest) !! length pre = Some x)
      by (rewrite lookup_app_r by lia; rewrite Nat.sub_diag; reflexivity).
    destruct x as [m|].
    + unfold strcmp0. destruct (String.eqb key (field m)) eqn:Ek; simpl.
      * apply String.eqb_eq in Ek.
        destruct (rev_size (module_rev m) =? 0) eqn:Em; simpl.
        -- apply rev_size_zero in Em. rewrite Hlen, Hfull. apply IH.
           intros j m' Hj Hk. apply lookup_snoc_inv in Hj as [Hj|[_ Hj]].
           ++ exact (Hpre j m' Hj Hk).
           ++ inversion Hj; subst m'. left. exact Em.
        -- apply rev_size_nonzero in Em.
           destruct (String.eqb rv (rev0_date (module_rev m))) eqn:Er.
           ++ apply String.eqb_eq in Er. simpl.
              split; [assumption | split; [congruence | split; congruence]].
           ++ apply String.eqb_neq in Er. rewrite Hlen, Hfull. apply IH.
              intros j m' Hj Hk. apply lookup_snoc_inv in Hj as [Hj|[_ Hj]].
              ** exact (Hpre j m' Hj Hk).
              ** inversion Hj; subst m'. right. congruence.
      * apply String.eqb_neq in Ek. rewrite Hlen, Hfull. apply IH.
        intros j m' Hj Hk. apply lookup_snoc_inv in Hj as [Hj|[_ Hj]].
        -- exact (Hpre j m' Hj Hk).
        -- inversion Hj; subst m'. congruence.
    + rewrite Hlen, Hfull. apply IH.
      intros j m' Hj Hk. apply lookup_snoc_inv in Hj as [Hj|[_ Hj]]; try discriminate.
      exact (Hpre j m' Hj Hk).
Qed.

Lemma ly_ctx_get_module_by_newest (field : lys_module -> string) (ctx : ly_ctx) (key : string) :
  newest_with_key field key (models_list ctx)
    (ly_ctx_get_module_by (Some ctx) (Some key) field None).
Proof.
  unfold ly_ctx_get_module_by.
  pose proof (get_module_by_loop_newest field key (models_list ctx) [] None) as H.
  simpl in H. apply H. intros j m Hj. destruct j; discriminate.
Qed.

Lemma ly_ctx_get_module_by_exact (field : lys_module -> string) (ctx : ly_ctx) (key rv : string) :
  exact_revision field key rv (models_list ctx)
    (ly_ctx_get_module_by (Some ctx) (Some key) field (Some rv)).
Proof.
  unfold ly_ctx_get_module_by.
  pose proof (get_module_by_loop_exact field key rv (models_list ctx) []) as H.
  simpl in H. apply H. intros j m Hj. destruct j; discriminate.
Qed.

(** C10: without a revision, [ly_ctx_get_module] returns a module of the
    context whose name is the requested one and whose newest revision date is
    maximal among the modules of that name, a module with a revision being
    preferred to one without (and NULL when no module has the name); with a
    revision it returns a module of that name whose newest revision date is
    exactly the requested one, and NULL when there is none; the lookup by
    namespace, [ly_ctx_get_module_by_ns], follows the same rule on the
    namespace. *)
Theorem ly_ctx_get_module_selection (ctx : ly_ctx) (key : string) :
  newest_with_key module_name key (models_list ctx)
    (ly_ctx_get_module (Some ctx) (Some key) None) /\
  (forall rv : string,
     exact_revision module_name key rv (models_list ctx)
       (ly_ctx_get_module (Some ctx) (Some key) (Some rv))) /\
  newest_with_key module_ns key (models_list ctx)
    (ly_ctx_get_module_by_ns (Some ctx) (Some key) None) /\
  (forall rv : string,
     exact_revision module_ns key rv (models_list ctx)
       (ly_ctx_get_module_by_ns (Some ctx) (Some key) (Some rv))).
Proof.
  repeat split; intros;
    first [ apply ly_ctx_get_module_by_newest | apply ly_ctx_get_module_by_exact ].
Qed.

(** ** context.c: the preloaded context and [ly_ctx_info] *)

Lemma lyd_extends_refl (r : lyd_node) : lyd_extends r r.
Proof. split; auto. Qed.

Lemma lyd_extends_trans (a b c : lyd_node) :
  lyd_extends a b -> lyd_extends b c -> lyd_extends a c.
Proof. intros [H1 H2] [H3 H4]. split; [congruence | auto]. Qed.

Lemma lyd_extends_insert (p c : lyd_node) : lyd_extends p (lyd_insert_last p c).
Proof.
  split; [reflexivity|]. intros x Hx. simpl. apply in_or_app. left. exact Hx.
Qed.

Lemma lyd_insert_last_in (p c : lyd_node) : In c (lyd_child (lyd_insert_last p c)).
Proof. simpl. apply in_or_app. right. left. reflexivity. Qed.

(** *** [sprintf(id, "%u", n)] writes the decimal notation of [n] *)

Lemma decimal_value_acc_uint (d : Decimal.uint) :
  forall acc, decimal_value_acc (NilEmpty.string_of_uint d) acc = Some (uint_value d acc).
Proof.
  induction d; intros acc; simpl; try reflexivity; apply IHd.
Qed.

Lemma uint_value_pos (d : Decimal.uint) :
  forall acc, uint_value d (Z.pos acc) = Z.pos (Pos.of_uint_acc d acc).
Proof.
  induction d; intros acc; cbn [uint_value Pos.of_uint_acc]; try reflexivity;
    rewrite <- IHd; f_equal; lia.
Qed.

Lemma uint_value_0 (d : Decimal.uint) : uint_value d 0 = Z.of_N (Pos.of_uint d).
Proof.
  induction d; cbn [uint_value Pos.of_uint N.of_uint]; try reflexivity; try exact IHd;
    cbn [Z.of_N]; rewrite <- uint_value_pos; reflexivity.
Qed.

Lemma to_uint_nonnil (n : N) : N.to_uint n <> Decimal.Nil.
Proof.
  destruct n; simpl; [discriminate | apply DecimalPos.Unsigned.to_uint_nonnil].
Qed.

Lemma string_of_uint_nonempty (d : Decimal.uint) :
  d <> Decimal.Nil -> NilEmpty.string_of_uint d <> EmptyString.
Proof. destruct d; simpl; congruence. Qed.

(** The digits written denote the number printed. *)
Lemma sprintf_u_decimal (n : Z) : 0 <= n -> decimal_value (sprintf_u n) = Some n.
Proof.
  intros Hn. unfold sprintf_u.
  pose proof (to_uint_nonnil (Z.to_N n)) as Hnil.
  assert (Hs : NilZero.string_of_uint (N.to_uint (Z.to_N n))
               = NilEmpty.string_of_uint (N.to_uint (Z.to_N n)))
    by (destruct (N.to_uint (Z.to_N n)); [contradiction|reflexivity..]).
  rewrite Hs. pose proof (string_of_uint_nonempty _ Hnil) as Hne.
  unfold decimal_value.
  destruct (NilEmpty.string_of_uint (N.to_uint (Z.to_N n))) eqn:Es; [contradiction|].
  rewrite <- Es, decimal_value_acc_uint, uint_value_0.
  change (Pos.of_uint (N.to_uint (Z.to_N n))) with (N.of_uint (N.to_uint (Z.to_N n))).
  rewrite DecimalN.Unsigned.of_to. rewrite Z2N.id by exact Hn. reflexivity.
Qed.

Lemma nzhead_no_zero (d : Decimal.uint) :
  leading_zero (NilEmpty.string_of_uint (Decimal.nzhead d)) = false.
Proof.
  induction d; simpl; try reflexivity; try exact IHd;
    match goal with |- context [NilEmpty.string_of_uint ?l] =>
      destruct (NilEmpty.string_of_uint l); reflexivity end.
Qed.

(** No zero is written before the digits of the number. *)
Lemma sprintf_u_canonical (n : Z) : leading_zero (sprintf_u n) = false.
Proof.
  unfold sprintf_u.
  assert (Hn : N.to_uint (Z.to_N n) = Decimal.unorm (N.to_uint (Z.to_N n))).
  { rewrite <- DecimalN.Unsigned.to_of, DecimalN.Unsigned.of_to. reflexivity. }
  rewrite Hn. unfold Decimal.unorm.
  pose proof (nzhead_no_zero (N.to_uint (Z.to_N n))) as H.
  destruct (Decimal.nzhead (N.to_uint (Z.to_N n))); try exact H; reflexivity.
Qed.

Section CtxInfo.

Variable E : ctx_env.
Variable describes : yin_text E -> lys_module.
Hypothesis contract : ctx_contract E describes.

Lemma add_leaf_ok (p : lyd_node) (n v : string) :
  add_leaf E p n v = Some (lyd_insert_last p (LydNode n (Some v) [])).
Proof. unfold add_leaf. rewrite (leaf_creates E describes contract). reflexivity. Qed.

Lemma ylib_feature_list_ok (fs : list lys_feature) :
  forall p, exists p', ylib_feature_list E p fs = Some p' /\ lyd_extends p p'.
Proof.
  induction fs as [|f rest IH]; intros p; simpl.
  - exists p. split; [reflexivity | apply lyd_extends_refl].
  - destruct (Z.land (feature_flags f) LYS_FENABLED =? 0); [apply IH|].
    rewrite add_leaf_ok.
    destruct (IH (lyd_insert_last p (LydNode "feature" (Some (feature_name f)) [])))
      as (p' & Hp' & Hext).
    exists p'. split; [exact Hp'|].
    eapply lyd_extends_trans; [apply lyd_extends_insert | exact Hext].
Qed.

Lemma ylib_feature_inc_ok (inc : list lys_include) :
  forall p, exists p', ylib_feature_inc E p inc = Some p' /\ lyd_extends p p'.
Proof.
  induction inc as [|i rest IH]; intros p; simpl.
  - exists p. split; [reflexivity | apply lyd_extends_refl].
  - destruct (inc_submodule i) as [sub|].
    + destruct (ylib_feature_list_ok (submodule_features sub) p) as (p1 & H1 & E1).
      rewrite H1. destruct (IH p1) as (p2 & H2 & E2).
      exists p2. split; [exact H2 | eapply lyd_extends_trans; eassumption].
    + exists p. split; [reflexivity | apply lyd_extends_refl].
Qed.

Lemma ylib_feature_ok (p : lyd_node) (m : lys_module) :
  exists p', ylib_feature E p m = Some p' /\ lyd_extends p p'.
Proof.
  unfold ylib_feature.
  destruct (ylib_feature_list_ok (module_features m) p) as (p1 & H1 & E1). rewrite H1.
  destruct (ylib_feature_inc_ok (module_inc m) p1) as (p2 & H2 & E2).
  exists p2. split; [exact H2 | eapply lyd_extends_trans; eassumption].
Qed.

Lemma ylib_deviation_ok (m : lys_module) (p : lyd_node) :
  exists p', ylib_deviation E p m = Some p' /\ lyd_extends p p'.
Proof.
  unfold ylib_deviation. generalize (module_imp m) as imp. intros imp. revert p.
  induction imp as [|i rest IH]; intros p; simpl.
  - exists p. split; [reflexivity | apply lyd_extends_refl].
  - destruct (imp_external i =? 2); [|apply IH].
    rewrite (new_creates E describes contract). rewrite !add_leaf_ok.
    match goal with |- context [ylib_deviation_list E ?q rest] =>
      destruct (IH q) as (p' & Hp' & Hext) end.
    exists p'. split; [exact Hp'|].
    eapply lyd_extends_trans; [apply lyd_extends_insert | exact Hext].
Qed.

Lemma ylib_submodules_list_ok (inc : list lys_include) :
  forall c, exists c', ylib_submodules_list E c inc = Some c'.
Proof.
  induction inc as [|i rest IH]; intros c; simpl.
  - exists c. reflexivity.
  - destruct (inc_submodule i) as [sub|]; [|exists c; reflexivity].
    rewrite (new_creates E describes contract). rewrite !add_leaf_ok.
    destruct (submodule_filepath sub); [rewrite add_leaf_ok|]; apply IH.
Qed.

Lemma ylib_submodules_ok (p : lyd_node) (m : lys_module) :
  exists p', ylib_submodules E p m = Some p' /\ lyd_extends p p'.
Proof.
  unfold ylib_submodules. destruct (module_inc m) as [|i rest].
  - exists p. split; [reflexivity | apply lyd_extends_refl].
  - rewrite (new_creates E describes contract).
    destruct (ylib_submodules_list_ok (i :: rest) (LydNode "submodules" None [])) as (c' & Hc).
    rewrite Hc. eexists. split; [reflexivity | apply lyd_extends_insert].
Qed.

(** One module, one entry: its name and its conformance type. *)
Lemma ly_ctx_info_module_ok (root : lyd_node) (m : lys_module) :
  exists root', ly_ctx_info_module E root m = Some root' /\ lyd_extends root root' /\
    has_module_entry root' (module_name m)
      (if module_implemented m then "implement" else "import").
Proof.
  unfold ly_ctx_info_module.
  rewrite (new_creates E describes contract). rewrite !add_leaf_ok.
  set (c2 := lyd_insert_last (lyd_insert_last (LydNode "module" None []) _) _).
  assert (Hname : In (LydNode "name" (Some (module_name m)) []) (lyd_child c2))
    by (simpl; auto).
  assert (Hn2 : lyd_name c2 = "module") by reflexivity.
  clearbody c2.
  assert (H3 : exists c3,
    match module_filepath m with
    | Some fp => add_leaf E c2 "schema" ("file://" ++ fp)
    | None => Some c2
    end = Some c3 /\ lyd_extends c2 c3).
  { destruct (module_filepath m).
    - rewrite add_leaf_ok. eexists. split; [reflexivity | apply lyd_extends_insert].
    - exists c2. split; [reflexivity | apply lyd_extends_refl]. }
  destruct H3 as (c3 & -> & E3). rewrite add_leaf_ok.
  destruct (ylib_feature_ok (lyd_insert_last c3 (LydNode "namespace" (Some (module_ns m)) [])) m)
    as (c5 & -> & E5).
  destruct (ylib_deviation_ok m c5) as (c6 & -> & E6).
  set (conf := if module_implemented m then "implement" else "import").
  assert (H7 : (if module_implemented m
                then add_leaf E c6 "conformance-type" "implement"
                else add_leaf E c6 "conformance-type" "import")
               = Some (lyd_insert_last c6 (LydNode "conformance-type" (Some conf) []))).
  { unfold conf. destruct (module_implemented m); apply add_leaf_ok. }
  rewrite H7.
  destruct (ylib_submodules_ok (lyd_insert_last c6 (LydNode "conformance-type" (Some conf) [])) m)
    as (c8 & -> & E8).
  eexists. split; [reflexivity|]. split; [apply lyd_extends_insert|].
  exists c8. split; [apply lyd_insert_last_in|].
  assert (Hc2c6 : lyd_extends c2 c6).
  { eapply lyd_extends_trans; [exact E3|].
    eapply lyd_extends_trans; [apply lyd_extends_insert|].
    eapply lyd_extends_trans; [exact E5 | exact E6]. }
  split; [|split].
  - destruct E8 as [-> _]. simpl. destruct Hc2c6 as [-> _]. exact Hn2.
  - apply E8. apply lyd_extends_insert. apply Hc2c6. exact Hname.
  - apply E8. apply lyd_insert_last_in.
Qed.

Lemma has_module_entry_extends (r r' : lyd_node) (n c : string) :
  lyd_extends r r' -> has_module_entry r n c -> has_module_entry r' n c.
Proof.
  intros [_ Hin] (e & He & Hrest). exists e. split; [apply Hin; exact He | exact Hrest].
Qed.

Lemma ly_ctx_info_loop_ok (l : list (option lys_module)) :
  (forall x, In x l -> x <> None) ->
  forall root, exists root', ly_ctx_info_loop E root l = Some root' /\ lyd_extends root root' /\
    forall m, In (Some m) l ->
      has_module_entry root' (module_name m)
        (if module_implemented m then "implement" else "import").
Proof.
  induction l as [|x rest IH]; intros Hall root; simpl.
  - exists root. split; [reflexivity|]. split; [apply lyd_extends_refl|]. intros m [].
  - destruct x as [m|]; [|exfalso; apply (Hall None); [left; reflexivity | reflexivity]].
    destruct (ly_ctx_info_module_ok root m) as (r1 & -> & E1 & H1).
    destruct (IH (fun x Hx => Hall x (or_intror Hx)) r1) as (r2 & H2 & E2 & Hr2).
    exists r2. split; [exact H2|]. split; [eapply lyd_extends_trans; eassumption|].
    intros m' [Hm|Hm].
    + inversion Hm; subst m'. eapply has_module_entry_extends; eassumption.
    + apply Hr2. exact Hm.
Qed.

(** The module list [ly_ctx_new] leaves behind. *)
Lemma ly_ctx_new_models (ctx : ly_ctx) :
  ly_ctx_new E None = Some ctx ->
  models_list ctx =
    [ Some (describes (yang_2016_02_11_yin E));
      Some (set_implemented false (describes (ietf_inet_types_2013_07_15_yin E)));
      Some (set_implemented false (describes (ietf_yang_types_2013_07_15_yin E)));
      Some (describes (ietf_yang_library_2016_02_01_yin E)) ].
Proof.
  unfold ly_ctx_new. intros H.
  destruct (lys_parse_mem E _ (yang_2016_02_11_yin E)) as [[i1 c1]|] eqn:P1; [|discriminate].
  apply (parse_adds E describes contract) in P1 as (_ & L1 & _). simpl in L1.
  destruct (lys_parse_mem E c1 (ietf_inet_types_2013_07_15_yin E)) as [[i2 c2]|] eqn:P2;
    [|discriminate].
  apply (parse_adds E describes contract) in P2 as (I2 & L2 & _).
  rewrite L1 in I2, L2. simpl in I2, L2. subst i2.
  destruct (lys_parse_mem E (clear_implemented 1 c2) (ietf_yang_types_2013_07_15_yin E))
    as [[i3 c3]|] eqn:P3; [|discriminate].
  apply (parse_adds E describes contract) in P3 as (I3 & L3 & _).
  unfold clear_implemented in I3, L3. simpl in I3, L3. rewrite L2 in I3, L3.
  simpl in I3, L3. subst i3.
  destruct (lys_parse_mem E (clear_implemented 2 c3) (ietf_yang_library_2016_02_01_yin E))
    as [[i4 c4]|] eqn:P4; [|discriminate].
  apply (parse_adds E describes contract) in P4 as (_ & L4 & _).
  unfold clear_implemented in L4. simpl in L4. rewrite L3 in L4. simpl in L4.
  inversion H; subst c4. exact L4.
Qed.

(** The module-set-id of the context [ly_ctx_new] returns is a natural
    number. *)
Lemma ly_ctx_new_set_id (ctx : ly_ctx) :
  ly_ctx_new E None = Some ctx -> 0 <= models_module_set_id ctx.
Proof.
  unfold ly_ctx_new. intros H.
  destruct (lys_parse_mem E _ (yang_2016_02_11_yin E)) as [[i1 c1]|] eqn:P1; [|discriminate].
  apply (parse_set_id E describes contract) in P1; [|simpl; lia].
  destruct (lys_parse_mem E c1 (ietf_inet_types_2013_07_15_yin E)) as [[i2 c2]|] eqn:P2;
    [|discriminate].
  apply (parse_set_id E describes contract) in P2; [|exact P1].
  destruct (lys_parse_mem E (clear_implemented i2 c2) (ietf_yang_types_2013_07_15_yin E))
    as [[i3 c3]|] eqn:P3; [|discriminate].
  apply (parse_set_id E describes contract) in P3; [|exact P2].
  destruct (lys_parse_mem E (clear_implemented i3 c3) (ietf_yang_library_2016_02_01_yin E))
    as [[i4 c4]|] eqn:P4; [|discriminate].
  apply (parse_set_id E describes contract) in P4; [|exact P3].
  inversion H; subst c4. exact P4.
Qed.

(** C9: a context returned by [ly_ctx_new(NULL)] holds the built-in YANG
    module, ietf-inet-types, ietf-yang-types and ietf-yang-library;
    [ly_ctx_get_module] finds ietf-yang-library at revision 2016-02-01; and
    [ly_ctx_info] returns a "modules-state" tree with a "module" entry named
    ietf-yang-library of conformance type "implement" and a "module-set-id"
    leaf whose value is the decimal notation of the context's
    [module_set_id]: a string of decimal digits that denotes the counter,
    without a zero before them. *)
Theorem ly_ctx_new_builtins (ctx : ly_ctx) :
  ly_ctx_new E None = Some ctx ->
  (forall name, In name ["yang"; "ietf-inet-types"; "ietf-yang-types"; "ietf-yang-library"] ->
     exists i m, models_list ctx !! i = Some (Some m) /\ module_name m = name) /\
  ly_ctx_get_module (Some ctx) (Some "ietf-yang-library") (Some "2016-02-01") <> None /\
  exists root id, ly_ctx_info E (Some ctx) = Some root /\
    lyd_name root = "modules-state" /\
    has_module_entry root "ietf-yang-library" "implement" /\
    In (LydNode "module-set-id" (Some id) []) (lyd_child root) /\
    decimal_value id = Some (models_module_set_id ctx) /\
    leading_zero id = false.
Proof.
  intros Hnew. pose proof (ly_ctx_new_models ctx Hnew) as HL.
  pose proof (yang_name E describes contract) as N1.
  pose proof (inet_name E describes contract) as N2.
  pose proof (types_name E describes contract) as N3.
  pose proof (library_name E describes contract) as N4.
  destruct (library_rev E describes contract) as (older & R4).
  pose proof (library_data E describes contract) as D4.
  assert (Himpl : module_implemented (describes (ietf_yang_library_2016_02_01_yin E)) = true).
  { unfold ly_ctx_new in Hnew.
    destruct (lys_parse_mem E _ (yang_2016_02_11_yin E)) as [[i1 c1]|]; [|discriminate].
    destruct (lys_parse_mem E c1 _) as [[i2 c2]|]; [|discriminate].
    destruct (lys_parse_mem E (clear_implemented i2 c2) _) as [[i3 c3]|]; [|discriminate].
    destruct (lys_parse_mem E (clear_implemented i3 c3) _) as [[i4 c4]|] eqn:P4; [|discriminate].
    apply (parse_adds E describes contract) in P4 as (_ & _ & P4). exact P4. }
  assert (Hget : ly_ctx_get_module (Some ctx) (Some "ietf-yang-library") (Some "2016-02-01")
                 = Some (3%nat, describes (ietf_yang_library_2016_02_01_yin E))).
  { unfold ly_ctx_get_module, ly_ctx_get_module_by. rewrite HL. simpl.
    unfold strcmp0. simpl. rewrite N1, N2, N3, N4, R4. reflexivity. }
  split; [|split].
  - intros name Hname. rewrite HL. simpl in Hname.
    destruct Hname as [<-|[<-|[<-|[<-|[]]]]].
    + exists 0%nat. eexists. split; [reflexivity | exact N1].
    + exists 1%nat. eexists. split; [reflexivity | exact N2].
    + exists 2%nat. eexists. split; [reflexivity | exact N3].
    + exists 3%nat. eexists. split; [reflexivity | exact N4].
  - rewrite Hget. discriminate.
  - unfold ly_ctx_info.
    change IETF_YANG_LIB_REV with "2016-02-01". rewrite Hget. rewrite D4. simpl negb. cbv iota.
    rewrite (new_creates E describes contract).
    destruct (ly_ctx_info_loop_ok (models_list ctx)) with (root := LydNode "modules-state" None [])
      as (r1 & -> & E1 & Hentries).
    { rewrite HL. intros x Hx. simpl in Hx.
      destruct Hx as [<-|[<-|[<-|[<-|[]]]]]; discriminate. }
    rewrite add_leaf_ok.
    destruct (validate_keeps E describes contract
                (lyd_insert_last r1
                   (LydNode "module-set-id" (Some (sprintf_u (models_module_set_id ctx))) [])))
      as (root & Hv & Hn & Hkeep).
    exists root, (sprintf_u (models_module_set_id ctx)).
    split; [exact Hv|]. split; [|split; [|split; [|split]]].
    + rewrite Hn. simpl. destruct E1 as [-> _]. reflexivity.
    + specialize (Hentries (describes (ietf_yang_library_2016_02_01_yin E))).
      rewrite N4, Himpl in Hentries.
      assert (Hin : In (Some (describes (ietf_yang_library_2016_02_01_yin E))) (models_list ctx))
        by (rewrite HL; simpl; auto).
      destruct (Hentries Hin) as (e & He & Hrest).
      exists e. split; [|exact Hrest]. apply Hkeep. apply lyd_extends_insert. exact He.
    + apply Hkeep. apply lyd_insert_last_in.
    + apply sprintf_u_decimal. exact (ly_ctx_new_set_id ctx Hnew).
    + apply sprintf_u_canonical.
Qed.

End CtxInfo.

(** The reference collaborators meet the contract. *)
Lemma spec_env_contract : ctx_contract spec_env (set_implemented true).
Proof.
  constructor; try reflexivity.
  - intros ctx t i ctx' H. unfold spec_env, lys_parse_mem, spec_lys_parse_mem in H.
    inversion H; subst. split; [reflexivity|]. split; reflexivity.
  - exists []. reflexivity.
  - intros ctx t i ctx' H Hid. unfold spec_env, lys_parse_mem, spec_lys_parse_mem in H.
    inversion H; subst. simpl. lia.
  - intros root. exists root. split; [reflexivity|]. split; [reflexivity|]. auto.
Defined.

Lemma ly_ctx_new_builtins_witness :
  exists ctx, ly_ctx_new spec_env None = Some ctx /\
    ly_ctx_get_module (Some ctx) (Some "ietf-yang-library") (Some "2016-02-01") <> None /\
    exists root, ly_ctx_info spec_env (Some ctx) = Some root /\
      has_module_entry root "ietf-yang-library" "implement" /\
      In (LydNode "module-set-id" (Some "5") []) (lyd_child root).
Proof.
  eexists. split; [reflexivity|].
  destruct (ly_ctx_new_builtins spec_env (set_implemented true) spec_env_contract _ eq_refl)
    as (_ & Hget & root & id & Hinfo & _ & Hentry & Hid & Hval & _).
  split; [exact Hget|]. exists root. split; [exact Hinfo|]. split; [exact Hentry|].
  assert (Hroot : Some root = ly_ctx_info spec_env (ly_ctx_new spec_env None))
    by (symmetry; exact Hinfo).
  vm_compute in Hroot. inversion Hroot; subst root. clear Hroot Hinfo Hentry.
  simpl in Hid.
  repeat (destruct Hid as [Hid|Hid]; [inversion Hid; subst id; clear Hid|]);
    try discriminate Hval; try (left; reflexivity); try (do 4 right; left; reflexivity).
Defined.

(** ** PathLex: what the identifier scanners consume *)

Section PathLexText.

#[local] Open Scope string_scope.

Lemma ident_start_char (c : ascii) : ident_start c = true -> ident_char c = true.
Proof.
  unfold ident_start, ident_char, isalnum. intros H.
  apply orb_true_iff in H as [H|H]; rewrite H; simpl; rewrite ?orb_true_r; reflexivity.
Qed.

Lemma ident_char_NUL : ident_char NUL = false.
Proof. reflexivity. Qed.

Lemma ident_run_le (id : string) : (ident_run id <= String.length id)%nat.
Proof.
  induction id as [|c rest IH]; simpl; [lia|]. destruct (ident_char c); lia.
Qed.

Lemma ident_run_chars (id : string) :
  forall i, (i < ident_run id)%nat -> ident_char (cchar id i) = true.
Proof.
  induction id as [|c rest IH]; simpl; intros i Hi; [lia|].
  destruct (ident_char c) eqn:Ec; [|lia].
  destruct i as [|i]; [exact Ec|]. apply (IH i). lia.
Qed.

Lemma ident_run_stop (id : string) : ident_char (cchar id (ident_run id)) = false.
Proof.
  induction id as [|c rest IH]; simpl; [reflexivity|].
  destruct (ident_char c) eqn:Ec; [exact IH | exact Ec].
Qed.

Lemma cchar_cskip (n : nat) : forall id i, cchar (cskip n id) i = cchar id (n + i).
Proof.
  induction n as [|n IH]; intros id i; [reflexivity|].
  destruct id as [|c rest]; simpl.
  - unfold cchar. simpl. destruct i; reflexivity.
  - rewrite IH. reflexivity.
Qed.

Lemma cchar_app_l (a b : string) (i : nat) :
  (i < String.length a)%nat -> cchar (a ++ b) i = cchar a i.
Proof.
  revert i. induction a as [|c rest IH]; simpl; intros i Hi; [lia|].
  destruct i as [|i]; [reflexivity|]. apply (IH i). lia.
Qed.

Lemma cchar_app_r (a b : string) (i : nat) :
  cchar (a ++ b) (String.length a + i) = cchar b i.
Proof.
  induction a as [|c rest IH]; simpl; [reflexivity|]. exact IH.
Qed.

Lemma cchar_past (a : string) (i : nat) : (String.length a <= i)%nat -> cchar a i = NUL.
Proof.
  revert i. induction a as [|c rest IH]; simpl; intros i Hi.
  - destruct i; reflexivity.
  - destruct i as [|i]; [lia|]. apply (IH i). lia.
Qed.

Lemma cskip_app (a b : string) : cskip (String.length a) (a ++ b) = b.
Proof. induction a as [|c rest IH]; simpl; [reflexivity | exact IH]. Qed.

Lemma cskip_add (n m : nat) : forall id, cskip (n + m) id = cskip m (cskip n id).
Proof.
  induction n as [|n IH]; intros id; [reflexivity|].
  destruct id as [|c rest]; simpl; [|apply IH].
  destruct m; reflexivity.
Qed.

Lemma length_app_string (a b : string) :
  String.length (a ++ b) = (String.length a + String.length b)%nat.
Proof. induction a as [|c rest IH]; simpl; [reflexivity | rewrite IH; reflexivity]. Qed.

(** The run of identifier characters of [a ++ b] when [a] consists of them
    and [b] starts with another character. *)
Lemma ident_run_app (a b : string) :
  ident_run a = String.length a -> ident_char (cchar b 0) = false ->
  ident_run (a ++ b) = String.length a.
Proof.
  intros Ha Hb. induction a as [|c rest IH]; simpl in *.
  - destruct b as [|c b']; [reflexivity|]. simpl. change (cchar (String c b') 0) with c in Hb.
    rewrite Hb. reflexivity.
  - destruct (ident_char c); [|discriminate]. f_equal. apply IH. lia.
Qed.

Lemma identifier_longest_run (id : string) :
  (parse_identifier id = 0 /\
   (xml_guard id = true \/ ident_start (cchar id 0) = false)) \/
  (0 < parse_identifier id <= Z.of_nat (String.length id) /\
   xml_guard id = false /\
   ident_start (cchar id 0) = true /\
   (forall i, Z.of_nat i < parse_identifier id -> ident_char (cchar id i) = true) /\
   ident_char (cchar id (Z.to_nat (parse_identifier id))) = false).
Proof.
  rewrite parse_identifier_value.
  destruct (xml_guard id) eqn:Eg; [left; auto|].
  destruct (ident_start (cchar id 0)) eqn:Es; [|left; auto].
  right.
  assert (Hpos : (0 < ident_run id)%nat).
  { destruct id as [|c rest]; [discriminate|]. change (cchar (String c rest) 0) with c in Es.
    simpl. rewrite (ident_start_char _ Es). lia. }
  pose proof (ident_run_le id).
  split; [lia|]. split; [reflexivity|]. split; [reflexivity|]. split.
  - intros i Hi. apply ident_run_chars. lia.
  - rewrite Nat2Z.id. apply ident_run_stop.
Qed.

(** X1: [parse_identifier] returns 0, for a string the guard refuses or that does
    not start with a letter or an underscore, or else the length of the
    longest run of identifier characters at the start of the string: it
    never reads past the terminator, and the character after what it
    consumed is not an identifier character. *)
Theorem parse_identifier_longest_run (id : string) :
  (parse_identifier id = 0 /\
   (xml_guard id = true \/ ident_start (cchar id 0) = false)) \/
  (0 < parse_identifier id <= Z.of_nat (String.length id) /\
   xml_guard id = false /\
   ident_start (cchar id 0) = true /\
   (forall i, Z.of_nat i < parse_identifier id -> ident_char (cchar id i) = true) /\
   ident_char (cchar id (Z.to_nat (parse_identifier id))) = false).
Proof. intros; eapply identifier_longest_run; eassumption. Qed.

Lemma whole_identifier_run (s : string) :
  whole_identifier s ->
  xml_guard s = false /\ ident_start (cchar s 0) = true /\ ident_run s = String.length s.
Proof.
  intros [Hne Hp]. rewrite parse_identifier_value in Hp.
  destruct s as [|c rest]; [congruence|].
  destruct (xml_guard (String c rest)); [simpl in Hp; lia|].
  destruct (ident_start (cchar (String c rest) 0)); [|simpl in Hp; lia].
  split; [reflexivity|]. split; [reflexivity|]. lia.
Qed.

(** The guard reads three bytes: a character after an identifier that is
    itself no identifier character does not change its answer. *)
Lemma xml_guard_app (a b : string) :
  a <> EmptyString -> ident_char (cchar b 0) = false ->
  xml_guard a = false -> xml_guard (a ++ b) = false.
Proof.
  intros Hne Hb Hg.
  assert (Hm : ceq (cchar b 0) "m" = false)
    by (destruct (ceq (cchar b 0) "m") eqn:E; [apply Ascii.eqb_eq in E; rewrite E in Hb;
        discriminate | reflexivity]).
  assert (Hl : ceq (cchar b 0) "l" = false)
    by (destruct (ceq (cchar b 0) "l") eqn:E; [apply Ascii.eqb_eq in E; rewrite E in Hb;
        discriminate | reflexivity]).
  assert (HL : ceq (cchar b 0) "L" = false)
    by (destruct (ceq (cchar b 0) "L") eqn:E; [apply Ascii.eqb_eq in E; rewrite E in Hb;
        discriminate | reflexivity]).
  destruct a as [|c0 [|c1 [|c2 rest]]]; [congruence| | |].
  - unfold xml_guard. change (cchar (String c0 "" ++ b) 0) with c0.
    change (cchar (String c0 "" ++ b) 1) with (cchar b 0).
    rewrite Hm. simpl orb.
    destruct (ceq c0 "x") eqn:Ex; [apply Ascii.eqb_eq in Ex; subst; reflexivity|].
    destruct (ceq c0 "X") eqn:EX; [apply Ascii.eqb_eq in EX; subst; reflexivity|].
    reflexivity.
  - unfold xml_guard. change (cchar (String c0 (String c1 "") ++ b) 0) with c0.
    change (cchar (String c0 (String c1 "") ++ b) 1) with c1.
    change (cchar (String c0 (String c1 "") ++ b) 2) with (cchar b 0).
    rewrite Hl, HL. simpl. rewrite !andb_false_r. reflexivity.
  - exact Hg.
Qed.

Lemma parse_identifier_app (a b : string) :
  whole_identifier a -> ident_char (cchar b 0) = false ->
  parse_identifier (a ++ b) = Z.of_nat (String.length a).
Proof.
  intros Ha Hb. destruct (whole_identifier_run a Ha) as (Hg & Hs & Hr).
  destruct Ha as [Hne _].
  rewrite parse_identifier_value, (xml_guard_app a b Hne Hb Hg).
  rewrite cchar_app_l by (destruct a; [congruence | simpl; lia]).
  rewrite Hs, (ident_run_app a b Hr Hb). reflexivity.
Qed.

Lemma node_identifier_prefixed (prefix name rest : string) :
  whole_identifier prefix -> whole_identifier name ->
  ident_char (cchar rest 0) = false ->
  parse_node_identifier (prefix ++ ":" ++ name ++ rest) =
    {| ni_ret := Z.of_nat (String.length prefix) + 1 + Z.of_nat (String.length name);
       ni_mod_name := Some (prefix ++ ":" ++ name ++ rest);
       ni_mod_name_len := Z.of_nat (String.length prefix);
       ni_name := Some (name ++ rest);
       ni_nam_len := Z.of_nat (String.length name) |}.
Proof.
  intros Hp Hn Hr. unfold parse_node_identifier.
  rewrite (parse_identifier_app prefix (":" ++ name ++ rest) Hp eq_refl).
  assert (Hlp : (0 < String.length prefix)%nat)
    by (destruct Hp as [Hne _]; destruct prefix; [congruence | simpl; lia]).
  assert (Hln : (0 < String.length name)%nat)
    by (destruct Hn as [Hne _]; destruct name; [congruence | simpl; lia]).
  destruct (Z.of_nat (String.length prefix) <? 1)%Z eqn:E1; [apply Z.ltb_lt in E1; lia|].
  rewrite Nat2Z.id, cskip_app.
  change (cchar (":" ++ name ++ rest) 0) with ":"%char.
  change (ceq ":" ":") with true. cbv iota.
  change (cskip 1 (":" ++ name ++ rest)) with (name ++ rest).
  rewrite (parse_identifier_app name rest Hn Hr).
  destruct (Z.of_nat (String.length name) <? 1)%Z eqn:E2; [apply Z.ltb_lt in E2; lia|].
  reflexivity.
Qed.

(** X2: Round trip of [parse_node_identifier]: the text made of a prefix, a
    colon and a name, followed by anything that does not continue the name,
    is parsed into that prefix and that name. *)
Theorem parse_node_identifier_prefixed (prefix name rest : string) :
  whole_identifier prefix -> whole_identifier name ->
  ident_char (cchar rest 0) = false ->
  parse_node_identifier (prefix ++ ":" ++ name ++ rest) =
    {| ni_ret := Z.of_nat (String.length prefix) + 1 + Z.of_nat (String.length name);
       ni_mod_name := Some (prefix ++ ":" ++ name ++ rest);
       ni_mod_name_len := Z.of_nat (String.length prefix);
       ni_name := Some (name ++ rest);
       ni_nam_len := Z.of_nat (String.length name) |}.
Proof. intros; eapply node_identifier_prefixed; eassumption. Qed.

Lemma parse_node_identifier_prefixed_witness :
  parse_node_identifier "ietf-ip:ipv4/address" =
    {| ni_ret := 12; ni_mod_name := Some "ietf-ip:ipv4/address"; ni_mod_name_len := 7;
       ni_name := Some "ipv4/address"; ni_nam_len := 4 |}.
Proof.
  apply (parse_node_identifier_prefixed "ietf-ip" "ipv4" "/address").
  - split; [discriminate | reflexivity].
  - split; [discriminate | reflexivity].
  - reflexivity.
Defined.

(** The text of a name alone is parsed as a name without prefix. *)
Theorem parse_node_identifier_plain (name rest : string) :
  whole_identifier name ->
  ident_char (cchar rest 0) = false -> ceq (cchar rest 0) ":" = false ->
  parse_node_identifier (name ++ rest) =
    {| ni_ret := Z.of_nat (String.length name); ni_mod_name := None; ni_mod_name_len := 0;
       ni_name := Some (name ++ rest); ni_nam_len := Z.of_nat (String.length name) |}.
Proof.
  intros Hn Hr Hc. unfold parse_node_identifier.
  rewrite (parse_identifier_app name rest Hn Hr).
  assert (Hln : (0 < String.length name)%nat)
    by (destruct Hn as [Hne _]; destruct name; [congruence | simpl; lia]).
  destruct (Z.of_nat (String.length name) <? 1)%Z eqn:E1; [apply Z.ltb_lt in E1; lia|].
  rewrite Nat2Z.id, cskip_app, Hc. reflexivity.
Qed.

Lemma parse_node_identifier_plain_witness :
  parse_node_identifier "address[ip='::1']" =
    {| ni_ret := 7; ni_mod_name := None; ni_mod_name_len := 0;
       ni_name := Some "address[ip='::1']"; ni_nam_len := 7 |}.
Proof.
  apply (parse_node_identifier_plain "address" "[ip='::1']").
  - split; [discriminate | reflexivity].
  - reflexivity.
  - reflexivity.
Defined.

Lemma node_identifier_result (id : string) :
  let ni := parse_node_identifier id in
  (ni_ret ni <= 0 /\ ni_name ni = None /\ ni_nam_len ni = 0 /\
   parse_identifier (cskip (Z.to_nat (- ni_ret ni)) id) = 0) \/
  (0 < ni_ret ni <= Z.of_nat (String.length id) /\
   0 < ni_nam_len ni /\
   ni_name ni = Some (cskip (Z.to_nat (ni_ret ni - ni_nam_len ni)) id) /\
   parse_identifier (cskip (Z.to_nat (ni_ret ni - ni_nam_len ni)) id) = ni_nam_len ni /\
   ((ni_mod_name ni = None /\ ni_mod_name_len ni = 0 /\ ni_ret ni = ni_nam_len ni /\
     ceq (cchar id (Z.to_nat (ni_ret ni))) ":" = false) \/
    (ni_mod_name ni = Some id /\ parse_identifier id = ni_mod_name_len ni /\
     0 < ni_mod_name_len ni /\
     ceq (cchar id (Z.to_nat (ni_mod_name_len ni))) ":" = true /\
     ni_ret ni = ni_mod_name_len ni + 1 + ni_nam_len ni))).
Proof.
  cbv zeta. unfold parse_node_identifier.
  pose proof (parse_identifier_nonneg id) as H0.
  destruct (parse_identifier id <? 1)%Z eqn:E1.
  - apply Z.ltb_lt in E1. left. simpl.
    assert (Hz : parse_identifier id = 0) by lia. rewrite Hz. simpl.
    repeat split; try lia.
  - apply Z.ltb_ge in E1.
    destruct (identifier_longest_run id) as [[Hz _]|(Hb & _ & _ & _ & Hstop)]; [lia|].
    set (r := parse_identifier id) in *.
    destruct (ceq (cchar (cskip (Z.to_nat r) id) 0) ":") eqn:Ec.
    + rewrite cchar_cskip, Nat.add_0_r in Ec.
      set (id2 := cskip 1 (cskip (Z.to_nat r) id)).
      assert (Hid2 : id2 = cskip (Z.to_nat (r + 1)) id).
      { unfold id2. rewrite <- cskip_add. f_equal. lia. }
      pose proof (parse_identifier_nonneg id2) as H2.
      assert (Hlen : Z.of_nat (String.length id2) + (r + 1) <= Z.of_nat (String.length id)).
      { assert (Hr1 : r + 1 <= Z.of_nat (String.length id)).
        { destruct (Z_lt_le_dec r (Z.of_nat (String.length id))) as [Hlt|Hge]; [lia|].
          rewrite cchar_past in Ec by lia. discriminate. }
        rewrite Hid2. clear - Hr1 Hb.
        assert (forall n s, (n <= String.length s)%nat ->
                  (String.length (cskip n s) + n = String.length s)%nat) as Hs.
        { induction n as [|n IH]; intros s Hn; simpl; [lia|].
          destruct s as [|c s']; simpl in *; [lia|]. specialize (IH s'). lia. }
        specialize (Hs (Z.to_nat (r + 1)) id). lia. }
      destruct (parse_identifier id2 <? 1)%Z eqn:E2.
      * apply Z.ltb_lt in E2. left. simpl.
        assert (Hz : parse_identifier id2 = 0) by lia. rewrite Hz.
        repeat split; try lia.
        replace (Z.to_nat (- (- (r + 1) + 0))) with (Z.to_nat (r + 1)) by lia.
        rewrite <- Hid2. exact Hz.
      * apply Z.ltb_ge in E2. right. simpl.
        destruct (identifier_longest_run id2) as [[Hz _]|(Hb2 & _)]; [lia|].
        replace (r + 1 + parse_identifier id2 - parse_identifier id2) with (r + 1) by lia.
        rewrite <- Hid2.
        split; [lia|]. split; [lia|]. split; [reflexivity|]. split; [reflexivity|].
        right. repeat split; try lia. exact Ec.
    + right. simpl. rewrite cchar_cskip, Nat.add_0_r in Ec.
      replace (r - r) with 0 by lia. simpl.
      split; [lia|]. split; [lia|]. split; [reflexivity|]. split; [reflexivity|].
      left. repeat split. exact Ec.
Qed.

(** X3: What a result of [parse_node_identifier] means. A positive result is the
    number of bytes consumed, at most the length of the string: the name is
    the identifier at offset [ret - nam_len], alone or after a prefix and a
    colon. A result that is not positive is minus the offset at which an
    identifier was expected and none starts, and then no name is returned. *)
Theorem parse_node_identifier_result (id : string) :
  let ni := parse_node_identifier id in
  (ni_ret ni <= 0 /\ ni_name ni = None /\ ni_nam_len ni = 0 /\
   parse_identifier (cskip (Z.to_nat (- ni_ret ni)) id) = 0) \/
  (0 < ni_ret ni <= Z.of_nat (String.length id) /\
   0 < ni_nam_len ni /\
   ni_name ni = Some (cskip (Z.to_nat (ni_ret ni - ni_nam_len ni)) id) /\
   parse_identifier (cskip (Z.to_nat (ni_ret ni - ni_nam_len ni)) id) = ni_nam_len ni /\
   ((ni_mod_name ni = None /\ ni_mod_name_len ni = 0 /\ ni_ret ni = ni_nam_len ni /\
     ceq (cchar id (Z.to_nat (ni_ret ni))) ":" = false) \/
    (ni_mod_name ni = Some id /\ parse_identifier id = ni_mod_name_len ni /\
     0 < ni_mod_name_len ni /\
     ceq (cchar id (Z.to_nat (ni_mod_name_len ni))) ":" = true /\
     ni_ret ni = ni_mod_name_len ni + 1 + ni_nam_len ni))).
Proof. intros; eapply node_identifier_result; eassumption. Qed.

(** *** Instance-identifiers *)

Lemma append_assoc_string (a b c : string) : (a ++ b) ++ c = a ++ b ++ c.
Proof. induction a as [|x a IH]; simpl; [reflexivity | rewrite IH; reflexivity]. Qed.

Lemma char_run_stop (p : ascii -> bool) (id : string) :
  p (cchar id 0) = false -> char_run p id = O.
Proof.
  destruct id as [|c rest]; [reflexivity|]. change (cchar (String c rest) 0) with c.
  intros H. simpl. rewrite H. reflexivity.
Qed.

Lemma char_run_app (p : ascii -> bool) (a b : string) :
  char_run p a = String.length a -> p (cchar b 0) = false ->
  char_run p (a ++ b) = String.length a.
Proof.
  intros Ha Hb. induction a as [|c rest IH]; simpl in *.
  - apply char_run_stop. exact Hb.
  - destruct (p c); [|discriminate]. f_equal. apply IH. lia.
Qed.

Lemma strchr_app (value rest : string) (q : ascii) :
  strchr value q = None -> strchr (value ++ String q rest) q = Some (String.length value).
Proof.
  induction value as [|c v IH]; simpl; intros H.
  - unfold ceq. rewrite Ascii.eqb_refl. reflexivity.
  - destruct (ceq c q); [discriminate|].
    destruct (strchr v q); [discriminate|]. rewrite IH by reflexivity. reflexivity.
Qed.

(** A character that starts an identifier is no white space, no digit, no
    dot and no bracket. *)
Lemma ident_start_class (c : ascii) :
  ident_start c = true ->
  isspace c = false /\ isdigit c = false /\ ceq c "." = false /\ ceq c "[" = false.
Proof.
  destruct c as [b0 b1 b2 b3 b4 b5 b6 b7].
  destruct b0, b1, b2, b3, b4, b5, b6, b7; vm_compute; intros H;
    first [discriminate H | repeat split].
Qed.

Lemma whole_identifier_start (s : string) :
  whole_identifier s -> ident_start (cchar s 0) = true /\ (0 < String.length s)%nat.
Proof.
  intros H. destruct (whole_identifier_run s H) as (_ & Hs & _).
  destruct H as [Hne _]. split; [exact Hs|]. destruct s; [congruence | simpl; lia].
Qed.

(** X4: [parse_instance_identifier] accepts a segment only with a model name:
    a positive result is the length of "/model:name", both parts identifiers
    that are not empty, and the flag tells whether a bracket follows; with a
    result that is not positive the flag is 0. *)
Theorem parse_instance_identifier_model (id : string) :
  let r := parse_instance_identifier id in
  (ii_ret r <= 0 /\ ii_has_predicate r = 0) \/
  (0 < ii_ret r <= Z.of_nat (String.length id) /\
   ceq (cchar id 0) "/" = true /\
   ii_model r = Some (cskip 1 id) /\
   parse_identifier (cskip 1 id) = ii_mod_len r /\ 0 < ii_mod_len r /\
   ceq (cchar id (Z.to_nat (1 + ii_mod_len r))) ":" = true /\
   ii_name r = Some (cskip (Z.to_nat (2 + ii_mod_len r)) id) /\
   parse_identifier (cskip (Z.to_nat (2 + ii_mod_len r)) id) = ii_nam_len r /\
   0 < ii_nam_len r /\
   ii_ret r = 2 + ii_mod_len r + ii_nam_len r /\
   ii_has_predicate r = (if ceq (cchar id (Z.to_nat (ii_ret r))) "[" then 1 else 0)).
Proof.
  cbv zeta. unfold parse_instance_identifier.
  destruct (ceq (cchar id 0) "/") eqn:Es; simpl negb; cbv iota; [|left; simpl; lia].
  pose proof (node_identifier_result (cskip 1 id)) as Hni. cbv zeta in Hni.
  set (ni := parse_node_identifier (cskip 1 id)) in *.
  destruct (ni_ret ni <? 1)%Z eqn:E1.
  { apply Z.ltb_lt in E1. left. simpl. lia. }
  apply Z.ltb_ge in E1.
  destruct Hni as [(Hle & _)|(Hb & Hnl & Hname & Hpn & Hcase)]; [lia|].
  destruct Hcase as [(Hm & _)|(Hm & Hpm & Hml & Hcolon & Hret)].
  { rewrite Hm. left. simpl. lia. }
  rewrite Hm. right.
  rewrite bool_decide_eq_false_2 by discriminate. simpl.
  assert (Hlen : (String.length (cskip 1 id) + 1 = String.length id)%nat).
  { destruct id as [|c rest]; [discriminate|]. simpl. lia. }
  rewrite cchar_cskip in Hcolon.
  rewrite <- cskip_add in Hname, Hpn.
  replace (Z.to_nat (1 + ni_mod_name_len ni)) with (1 + Z.to_nat (ni_mod_name_len ni))%nat
    by lia.
  replace (Z.to_nat (2 + ni_mod_name_len ni))
    with (1 + Z.to_nat (ni_ret ni - ni_nam_len ni))%nat by lia.
  split; [lia|]. split; [reflexivity|]. split; [reflexivity|]. split; [exact Hpm|].
  split; [exact Hml|]. split; [exact Hcolon|]. split; [exact Hname|].
  split; [exact Hpn|]. split; [exact Hnl|]. split; [lia|].
  change (match id with "" => "" | String _ rest => rest end) with (cskip 1 id).
  rewrite !cchar_cskip.
  replace (1 + (Z.to_nat (ni_ret ni) + 0))%nat with (Z.to_nat (0 + 1 + ni_ret ni)) by lia.
  reflexivity.
Qed.

(** X5: The segment "/name", without a model, is refused at offset 1. *)
Theorem parse_instance_identifier_no_model (name rest : string) :
  whole_identifier name ->
  ident_char (cchar rest 0) = false -> ceq (cchar rest 0) ":" = false ->
  ii_ret (parse_instance_identifier ("/" ++ name ++ rest)) = -1.
Proof.
  intros Hn Hr Hc. unfold parse_instance_identifier.
  change (cchar ("/" ++ name ++ rest) 0) with "/"%char.
  change (cskip 1 ("/" ++ name ++ rest)) with (name ++ rest).
  rewrite (parse_node_identifier_plain name rest Hn Hr Hc). simpl.
  destruct (whole_identifier_start name Hn) as [_ Hl].
  destruct (Z.of_nat (String.length name) <? 1)%Z eqn:E; [apply Z.ltb_lt in E; lia|].
  reflexivity.
Qed.

Lemma parse_instance_identifier_no_model_witness :
  ii_ret (parse_instance_identifier "/interfaces/interface") = -1.
Proof.
  apply (parse_instance_identifier_no_model "interfaces" "/interface").
  - split; [discriminate | reflexivity].
  - reflexivity.
  - reflexivity.
Defined.

(** *** Predicates of instance-identifiers *)

(** X6: Round trip of [parse_predicate]: the predicate written as
    [[model:name=<q>value<q>]], with either quote and a value free of that
    quote, is parsed into its model, name and value; the flag tells whether
    another predicate follows. *)
Theorem parse_predicate_quoted (model name value rest : string) (q : ascii) :
  whole_identifier model -> whole_identifier name ->
  q = dquote_char \/ q = "'"%char ->
  strchr value q = None ->
  parse_predicate
    ("[" ++ model ++ ":" ++ name ++ "=" ++ String q (value ++ String q ("]" ++ rest))) =
    {| pr_ret := Z.of_nat (String.length model) + Z.of_nat (String.length name)
                 + Z.of_nat (String.length value) + 6;
       pr_model :=
         Some (model ++ ":" ++ name ++ "=" ++ String q (value ++ String q ("]" ++ rest)));
       pr_mod_len := Z.of_nat (String.length model);
       pr_name := Some (name ++ "=" ++ String q (value ++ String q ("]" ++ rest)));
       pr_nam_len := Z.of_nat (String.length name);
       pr_value := Some (value ++ String q ("]" ++ rest));
       pr_val_len := Z.of_nat (String.length value);
       pr_has_predicate := if ceq (cchar rest 0) "[" then 1 else 0 |}.
Proof.
  intros Hm Hn Hq Hv.
  set (tail := "=" ++ String q (value ++ String q ("]" ++ rest))).
  destruct (whole_identifier_start model Hm) as [Hms Hml].
  destruct (whole_identifier_start name Hn) as [Hns Hnl].
  destruct (ident_start_class _ Hms) as (Hsp & Hdg & Hdot & _).
  unfold parse_predicate.
  change (cchar ("[" ++ model ++ ":" ++ name ++ tail) 0) with "["%char.
  change (cskip 1 ("[" ++ model ++ ":" ++ name ++ tail)) with (model ++ ":" ++ name ++ tail).
  change (negb (ceq "[" "[")) with false. cbv iota. cbv zeta.
  assert (H0 : cchar (model ++ ":" ++ name ++ tail) 0 = cchar model 0)
    by (apply cchar_app_l; exact Hml).
  rewrite (char_run_stop isspace) by (rewrite H0; exact Hsp).
  change (cskip 0 (model ++ ":" ++ name ++ tail)) with (model ++ ":" ++ name ++ tail).
  rewrite H0, Hdg, Hdot.
  rewrite (node_identifier_prefixed model name tail Hm Hn eq_refl). simpl ni_ret.
  simpl ni_mod_name. simpl ni_mod_name_len. simpl ni_name. simpl ni_nam_len.
  destruct (Z.of_nat (String.length model) + 1 + Z.of_nat (String.length name) <? 1)%Z eqn:E;
    [apply Z.ltb_lt in E; lia|].
  rewrite bool_decide_eq_false_2 by discriminate.
  replace (Z.to_nat (Z.of_nat (String.length model) + 1 + Z.of_nat (String.length name)))
    with (String.length (model ++ ":" ++ name))
    by (rewrite length_app_string; simpl; lia).
  assert (Hskip : cskip (String.length (model ++ ":" ++ name)) (model ++ ":" ++ name ++ tail)
                  = tail).
  { change (model ++ ":" ++ name ++ tail) with (model ++ (":" ++ name) ++ tail).
    rewrite <- (append_assoc_string model (":" ++ name) tail). apply cskip_app. }
  rewrite Hskip.
  unfold parse_predicate_value, tail.
  change (char_run isspace ("=" ++ String q (value ++ String q ("]" ++ rest)))) with O.
  cbv zeta.
  change (cskip 0 ("=" ++ String q (value ++ String q ("]" ++ rest))))
    with ("=" ++ String q (value ++ String q ("]" ++ rest))).
  change (cchar ("=" ++ String q (value ++ String q ("]" ++ rest))) 0) with "="%char.
  change (negb (ceq "=" "=")) with false. cbv iota.
  change (cskip 1 ("=" ++ String q (value ++ String q ("]" ++ rest))))
    with (String q (value ++ String q ("]" ++ rest))).
  assert (Hqs : isspace q = false) by (destruct Hq as [-> | ->]; reflexivity).
  rewrite (char_run_stop isspace (String q _)) by exact Hqs.
  change (cskip 0 (String q (value ++ String q ("]" ++ rest))))
    with (String q (value ++ String q ("]" ++ rest))).
  change (cchar (String q (value ++ String q ("]" ++ rest))) 0) with q.
  assert (Hqq : ceq q dquote_char || ceq q "'" = true)
    by (destruct Hq as [-> | ->]; reflexivity).
  rewrite Hqq.
  change (cskip 1 (String q (value ++ String q ("]" ++ rest))))
    with (value ++ String q ("]" ++ rest)).
  rewrite (strchr_app value ("]" ++ rest) q Hv).
  replace (String.length value + 1)%nat with (String.length (value ++ String q ""))
    by (rewrite length_app_string; reflexivity).
  assert (Hskip2 : cskip (String.length (value ++ String q ""))
                     (value ++ String q ("]" ++ rest)) = "]" ++ rest).
  { change (value ++ String q ("]" ++ rest)) with (value ++ String q "" ++ "]" ++ rest).
    rewrite <- (append_assoc_string value (String q "") ("]" ++ rest)). apply cskip_app. }
  rewrite Hskip2.
  change (char_run isspace ("]" ++ rest)) with O.
  change (cskip 0 ("]" ++ rest)) with ("]" ++ rest).
  change (cchar ("]" ++ rest) 0) with "]"%char.
  change (negb (ceq "]" "]")) with false. cbv iota.
  change (cskip 1 ("]" ++ rest)) with rest.
  f_equal. lia.
Qed.

Lemma parse_predicate_quoted_witness :
  parse_predicate "[ietf-ip:ip='::1'][x" =
    {| pr_ret := 18; pr_model := Some "ietf-ip:ip='::1'][x"; pr_mod_len := 7;
       pr_name := Some "ip='::1'][x"; pr_nam_len := 2; pr_value := Some "::1'][x";
       pr_val_len := 3; pr_has_predicate := 1 |}.
Proof.
  apply (parse_predicate_quoted "ietf-ip" "ip" "::1" "[x" "'"%char).
  - split; [discriminate | reflexivity].
  - split; [discriminate | reflexivity].
  - right. reflexivity.
  - reflexivity.
Defined.

(** X7: A position predicate: [parse_predicate] reads the number as the name
    and then asks for an equals sign, so "[pos]" alone is refused at its
    closing bracket. *)
Theorem parse_predicate_position (pos rest : string) :
  pos <> EmptyString -> char_run isdigit pos = String.length pos ->
  ceq (cchar pos 0) "0" = false \/ pos = "0" ->
  parse_predicate ("[" ++ pos ++ "]" ++ rest) =
    {| pr_ret := - (1 + Z.of_nat (String.length pos)); pr_model := None; pr_mod_len := 0;
       pr_name := Some (pos ++ "]" ++ rest); pr_nam_len := Z.of_nat (String.length pos);
       pr_value := None; pr_val_len := 0; pr_has_predicate := 0 |}.
Proof.
  intros Hne Hd Hz.
  assert (Hl : (0 < String.length pos)%nat) by (destruct pos; [congruence | simpl; lia]).
  assert (Hd0 : isdigit (cchar pos 0) = true).
  { destruct pos as [|c p]; [congruence|]. simpl in Hd. change (cchar (String c p) 0) with c.
    destruct (isdigit c); [reflexivity | discriminate]. }
  assert (Hsp : isspace (cchar pos 0) = false).
  { destruct (cchar pos 0) as [b0 b1 b2 b3 b4 b5 b6 b7].
    destruct b0, b1, b2, b3, b4, b5, b6, b7; vm_compute in Hd0; try discriminate Hd0;
      reflexivity. }
  unfold parse_predicate.
  change (cchar ("[" ++ pos ++ "]" ++ rest) 0) with "["%char.
  change (cskip 1 ("[" ++ pos ++ "]" ++ rest)) with (pos ++ "]" ++ rest).
  change (negb (ceq "[" "[")) with false. cbv iota. cbv zeta.
  assert (H0 : cchar (pos ++ "]" ++ rest) 0 = cchar pos 0) by (apply cchar_app_l; exact Hl).
  rewrite (char_run_stop isspace) by (rewrite H0; exact Hsp).
  change (cskip 0 (pos ++ "]" ++ rest)) with (pos ++ "]" ++ rest).
  rewrite H0, Hd0.
  assert (Hlead : ceq (cchar pos 0) "0" && isdigit (cchar (pos ++ "]" ++ rest) 1) = false).
  { destruct Hz as [Hz | ->]; [rewrite Hz; reflexivity | reflexivity]. }
  rewrite Hlead.
  rewrite (char_run_app isdigit pos ("]" ++ rest) Hd eq_refl), cskip_app.
  unfold parse_predicate_value.
  change (char_run isspace ("]" ++ rest)) with O. cbv zeta.
  change (cskip 0 ("]" ++ rest)) with ("]" ++ rest).
  change (cchar ("]" ++ rest) 0) with "]"%char.
  change (negb (ceq "]" "=")) with true. cbv iota.
  f_equal. lia.
Qed.

Lemma parse_predicate_position_witness :
  parse_predicate "[12]" =
    {| pr_ret := -3; pr_model := None; pr_mod_len := 0; pr_name := Some "12]";
       pr_nam_len := 2; pr_value := None; pr_val_len := 0; pr_has_predicate := 0 |}.
Proof.
  apply (parse_predicate_position "12" "").
  - discriminate.
  - reflexivity.
  - left. reflexivity.
Defined.

End PathLexText.

(** ** resolve.c: the unres arrays *)

Lemma u32_small (x : Z) : 0 <= x < 2 ^ 32 -> u32 x = x.
Proof. intros H. unfold u32. apply Z.mod_small. exact H. Qed.

(** A block grown by one element and written at its last place. *)
Lemma resize_append {A : Type} (uninit x : A) (arr : list A) (n : nat) :
  (n <= length arr)%nat ->
  <[n := x]> (resize (S n) uninit arr) = take n arr ++ [x].
Proof.
  intros Hn.
  replace (S n) with (n + 1)%nat by lia.
  rewrite resize_add, (resize_le arr n uninit Hn).
  assert (Hlen : length (take n arr) = n) by (rewrite length_take; lia).
  rewrite insert_app_r_alt by lia.
  rewrite Hlen, Nat.sub_diag.
  destruct (drop n arr); simpl; rewrite ?resize_0; reflexivity.
Qed.

Lemma data_add_appends (lyd_when : Z) (tree : list lyd_data) (unres : unres_data)
  (node : nat) (type : UNRES_ITEM) :
  unres_data_wf unres ->
  exists unres',
    unres_data_add true true lyd_when tree unres node type =
      (EXIT_SUCCESS,
       (if bool_decide (type = UNRES_WHEN) then alter (set_when_status lyd_when) node tree
        else tree),
       unres') /\
    und_count unres' = und_count unres + 1 /\
    unres_nodes unres' = unres_nodes unres ++ [Some node] /\
    unres_types unres' = unres_types unres ++ [type] /\
    (Z.to_nat (und_count unres') <= length (und_node unres'))%nat /\
    (Z.to_nat (und_count unres') <= length (und_type unres'))%nat.
Proof.
  intros (Hc & Hn & Ht). unfold unres_data_add. cbv zeta. simpl negb. cbv iota.
  eexists. split; [reflexivity|].
  assert (H1 : u32 (und_count unres + 1) = und_count unres + 1) by (apply u32_small; lia).
  assert (H2 : u32 (und_count unres + 1 - 1) = und_count unres)
    by (replace (und_count unres + 1 - 1) with (und_count unres) by lia; apply u32_small; lia).
  unfold unres_nodes, unres_types. simpl. rewrite H1, H2.
  replace (Z.to_nat (und_count unres + 1)) with (S (Z.to_nat (und_count unres))) by lia.
  rewrite !resize_append by assumption.
  assert (Hl1 : length (take (Z.to_nat (und_count unres)) (und_node unres))
                = Z.to_nat (und_count unres)) by (rewrite length_take; lia).
  assert (Hl2 : length (take (Z.to_nat (und_count unres)) (und_type unres))
                = Z.to_nat (und_count unres)) by (rewrite length_take; lia).
  split; [reflexivity|].
  split; [apply take_ge; rewrite length_app, Hl1; simpl; lia|].
  split; [apply take_ge; rewrite length_app, Hl2; simpl; lia|].
  rewrite !length_app, Hl1, Hl2. simpl. lia.
Qed.

(** X8: [unres_data_add] appends: when both allocations succeed it returns
    success, the structure holds one node and one type more, the new ones
    last, and the when status of the node alone is reset, for a when item
    only. *)
Theorem unres_data_add_appends (lyd_when : Z) (tree : list lyd_data) (unres : unres_data)
  (node : nat) (type : UNRES_ITEM) :
  unres_data_wf unres ->
  exists unres',
    unres_data_add true true lyd_when tree unres node type =
      (EXIT_SUCCESS,
       (if bool_decide (type = UNRES_WHEN) then alter (set_when_status lyd_when) node tree
        else tree),
       unres') /\
    und_count unres' = und_count unres + 1 /\
    unres_nodes unres' = unres_nodes unres ++ [Some node] /\
    unres_types unres' = unres_types unres ++ [type] /\
    (Z.to_nat (und_count unres') <= length (und_node unres'))%nat /\
    (Z.to_nat (und_count unres') <= length (und_type unres'))%nat.
Proof. intros; eapply data_add_appends; eassumption. Qed.

Lemma unres_data_add_appends_witness :
  exists unres',
    unres_data_add true true spec_LYD_WHEN data_c_q
      {| und_node := [Some 1%nat]; und_type := [UNRES_MUST]; und_count := 1 |} 0 UNRES_WHEN =
      (EXIT_SUCCESS, alter (set_when_status spec_LYD_WHEN) 0%nat data_c_q, unres') /\
    und_count unres' = 2 /\
    unres_nodes unres' = [Some 1%nat; Some 0%nat] /\
    unres_types unres' = [UNRES_MUST; UNRES_WHEN].
Proof.
  destruct (unres_data_add_appends spec_LYD_WHEN data_c_q
              {| und_node := [Some 1%nat]; und_type := [UNRES_MUST]; und_count := 1 |}
              0 UNRES_WHEN) as (u' & H1 & H2 & H3 & H4 & _).
  - repeat split; simpl; lia.
  - exists u'. repeat split; assumption.
Defined.

Lemma data_del_nodes (unres : unres_data) (i : Z) :
  0 <= und_count unres < 2 ^ 32 ->
  (Z.to_nat (und_count unres) <= length (und_node unres))%nat ->
  0 <= i < und_count unres ->
  unres_nodes (unres_data_del unres i) = delete (Z.to_nat i) (unres_nodes unres) /\
  und_count (unres_data_del unres i) = und_count unres - 1 /\
  und_type (unres_data_del unres i) = und_type unres.
Proof.
  intros Hc Hn Hi. unfold unres_data_del, unres_nodes. simpl.
  assert (H1 : u32 (i + 1) = i + 1) by (apply u32_small; lia).
  assert (H2 : u32 (und_count unres - 1) = und_count unres - 1) by (apply u32_small; lia).
  rewrite H1, H2. split; [|split; reflexivity].
  set (c := Z.to_nat (und_count unres)) in *.
  set (k := Z.to_nat i).
  assert (Hk : (k < c)%nat) by (unfold k, c; lia).
  replace (Z.to_nat (und_count unres - 1)) with (c - 1)%nat by (unfold c; lia).
  rewrite delete_take_drop, take_take.
  replace (k `min` c)%nat with k by lia.
  destruct (i + 1 <? und_count unres) eqn:E.
  - apply Z.ltb_lt in E.
    assert (H3 : u32 (und_count unres - (i + 1)) = und_count unres - (i + 1))
      by (apply u32_small; lia).
    rewrite H3. unfold memmove.
    replace (Z.to_nat (i + 1)) with (S k) by (unfold k; lia).
    replace (Z.to_nat (und_count unres - (i + 1))) with (c - S k)%nat by (unfold c, k; lia).
    assert (Hlk : length (take k (und_node unres)) = k) by (rewrite length_take; lia).
    assert (Hlm : length (take (c - S k) (drop (S k) (und_node unres))) = (c - S k)%nat)
      by (rewrite length_take, length_drop; lia).
    rewrite app_assoc, take_app_le by (rewrite length_app, Hlk, Hlm; lia).
    rewrite take_ge by (rewrite length_app, Hlk, Hlm; lia).
    f_equal. rewrite take_drop_commute. f_equal. f_equal. lia.
  - apply Z.ltb_ge in E.
    assert (Hlast : S k = c) by (unfold k, c; lia).
    rewrite <- Hlast.
    rewrite (drop_ge (take (S k) (und_node unres))) by (rewrite length_take; lia).
    rewrite app_nil_r.
    destruct (i =? 0) eqn:E0.
    + apply Z.eqb_eq in E0. subst i. reflexivity.
    + replace (S k - 1)%nat with k by lia. reflexivity.
Qed.

(** X9: [unres_data_del] removes the node at index [i] and keeps the others in
    their order; the type array is not touched. *)
Theorem unres_data_del_nodes (unres : unres_data) (i : Z) :
  0 <= und_count unres < 2 ^ 32 ->
  (Z.to_nat (und_count unres) <= length (und_node unres))%nat ->
  0 <= i < und_count unres ->
  unres_nodes (unres_data_del unres i) = delete (Z.to_nat i) (unres_nodes unres) /\
  und_count (unres_data_del unres i) = und_count unres - 1 /\
  und_type (unres_data_del unres i) = und_type unres.
Proof. intros; eapply data_del_nodes; eassumption. Qed.

Lemma unres_data_del_nodes_witness :
  unres_nodes (unres_data_del
     {| und_node := [Some 4%nat; Some 7%nat; Some 9%nat]; und_type := []; und_count := 3 |} 1)
    = [Some 4%nat; Some 9%nat].
Proof.
  apply (unres_data_del_nodes
           {| und_node := [Some 4%nat; Some 7%nat; Some 9%nat]; und_type := [];
              und_count := 3 |} 1).
  - simpl. lia.
  - simpl. lia.
  - simpl. lia.
Defined.

(** X10: Adding a node and deleting the last one gives back the nodes the
    structure held. *)
Theorem unres_data_add_del (lyd_when : Z) (tree : list lyd_data) (unres : unres_data)
  (node : nat) (type : UNRES_ITEM) :
  unres_data_wf unres ->
  unres_nodes (unres_data_del
                 (snd (unres_data_add true true lyd_when tree unres node type))
                 (und_count unres))
    = unres_nodes unres.
Proof.
  intros Hwf.
  destruct (data_add_appends lyd_when tree unres node type Hwf)
    as (u' & Heq & Hc & Hn & _ & Hl & _).
  rewrite Heq. simpl snd.
  destruct Hwf as (Hcount & Hln & _).
  destruct (data_del_nodes u' (und_count unres)) as (Hd & _); [lia | exact Hl | lia|].
  rewrite Hd, Hn.
  assert (Hlen : length (unres_nodes unres) = Z.to_nat (und_count unres))
    by (unfold unres_nodes; rewrite length_take; lia).
  rewrite delete_take_drop, <- Hlen, take_app_length.
  rewrite drop_ge by (rewrite length_app; simpl; lia).
  apply app_nil_r.
Qed.

Lemma unres_data_add_del_witness :
  unres_nodes (unres_data_del
                 (snd (unres_data_add true true spec_LYD_WHEN data_c_q
                         {| und_node := [Some 1%nat]; und_type := [UNRES_MUST];
                            und_count := 1 |} 0 UNRES_WHEN)) 1)
    = [Some 1%nat].
Proof.
  apply (unres_data_add_del spec_LYD_WHEN data_c_q
           {| und_node := [Some 1%nat]; und_type := [UNRES_MUST]; und_count := 1 |}
           0 UNRES_WHEN).
  repeat split; simpl; lia.
Defined.

(** *** [struct unres_schema] *)

Lemma unres_schema_find_loop_spec (unres : unres_schema) (item : nat) (type : UNRES_ITEM)
  (n : nat) :
  forall i, 0 <= i ->
    let r := unres_schema_find_loop unres item type n i in
    (r = 2 ^ 32 - 1 /\
     forall j, i <= j < i + Z.of_nat n ->
       ~ (uns_item unres !! Z.to_nat j = Some item /\
          uns_type unres !! Z.to_nat j = Some type)) \/
    (i <= r < i + Z.of_nat n /\
     uns_item unres !! Z.to_nat r = Some item /\
     uns_type unres !! Z.to_nat r = Some type /\
     forall j, i <= j < r ->
       ~ (uns_item unres !! Z.to_nat j = Some item /\
          uns_type unres !! Z.to_nat j = Some type)).
Proof.
  induction n as [|n IH]; intros i Hi; cbv zeta; simpl unres_schema_find_loop.
  - left. split; [reflexivity|]. intros j Hj. lia.
  - destruct (bool_decide_reflect (uns_item unres !! Z.to_nat i = Some item)) as [H1|H1];
      [destruct (bool_decide_reflect (uns_type unres !! Z.to_nat i = Some type)) as [H2|H2]|];
      simpl andb; cbv iota.
    + right. split; [lia|]. split; [exact H1|]. split; [exact H2|]. intros j Hj. lia.
    + specialize (IH (i + 1) ltac:(lia)). cbv zeta in IH.
      destruct IH as [(Hr & Hno)|(Hr & Hit & Hty & Hno)].
      * left. split; [exact Hr|]. intros j Hj.
        destruct (Z.eq_dec j i) as [->|Hne]; [intros [_ Ht]; contradiction|].
        apply Hno. lia.
      * right. split; [lia|]. split; [exact Hit|]. split; [exact Hty|]. intros j Hj.
        destruct (Z.eq_dec j i) as [->|Hne]; [intros [_ Ht]; contradiction|].
        apply Hno. lia.
    + specialize (IH (i + 1) ltac:(lia)). cbv zeta in IH.
      destruct IH as [(Hr & Hno)|(Hr & Hit & Hty & Hno)].
      * left. split; [exact Hr|]. intros j Hj.
        destruct (Z.eq_dec j i) as [->|Hne]; [intros [Ht _]; contradiction|].
        apply Hno. lia.
      * right. split; [lia|]. split; [exact Hit|]. split; [exact Hty|]. intros j Hj.
        destruct (Z.eq_dec j i) as [->|Hne]; [intros [Ht _]; contradiction|].
        apply Hno. lia.
Qed.

Lemma schema_find_first (unres : unres_schema) (item : nat) (type : UNRES_ITEM) :
  0 <= uns_count unres < 2 ^ 31 ->
  let r := unres_schema_find unres item type in
  (r = -1 /\ forall i, ~ unres_schema_holds unres i item type) \/
  (unres_schema_holds unres r item type /\
   forall j, 0 <= j < r -> ~ unres_schema_holds unres j item type).
Proof.
  intros Hc. cbv zeta. unfold unres_schema_find.
  pose proof (unres_schema_find_loop_spec unres item type (Z.to_nat (uns_count unres)) 0
                ltac:(lia)) as H.
  cbv zeta in H. rewrite Z2Nat.id in H by lia.
  destruct H as [(Hr & Hno)|(Hr & Hit & Hty & Hno)].
  - left. rewrite Hr. split; [reflexivity|].
    intros i (Hi & Hh). apply (Hno i); [lia | exact Hh].
  - right. unfold int_of_u32.
    destruct (_ <? 2 ^ 31) eqn:E; [|apply Z.ltb_ge in E; lia].
    split.
    + split; [lia|]. split; assumption.
    + intros j Hj (_ & Hh). apply (Hno j); [lia | exact Hh].
Qed.

(** X11: [unres_schema_find] returns -1 when no entry is the item with the type,
    and otherwise the index of the first such entry. *)
Theorem unres_schema_find_first (unres : unres_schema) (item : nat) (type : UNRES_ITEM) :
  0 <= uns_count unres < 2 ^ 31 ->
  let r := unres_schema_find unres item type in
  (r = -1 /\ forall i, ~ unres_schema_holds unres i item type) \/
  (unres_schema_holds unres r item type /\
   forall j, 0 <= j < r -> ~ unres_schema_holds unres j item type).
Proof. intros; eapply schema_find_first; eassumption. Qed.

Lemma unres_schema_find_first_witness :
  unres_schema_holds
    {| uns_item := [5; 8; 5; 8]%nat;
       uns_type := [UNRES_USES; UNRES_IDENT; UNRES_IDENT; UNRES_IDENT];
       uns_str_snode := [0; 0; 0; 0]%nat; uns_module := [0; 0; 0; 0]%nat; uns_count := 4 |}
    1 8%nat UNRES_IDENT.
Proof.
  destruct (unres_schema_find_first
              {| uns_item := [5; 8; 5; 8]%nat;
                 uns_type := [UNRES_USES; UNRES_IDENT; UNRES_IDENT; UNRES_IDENT];
                 uns_str_snode := [0; 0; 0; 0]%nat; uns_module := [0; 0; 0; 0]%nat;
                 uns_count := 4 |} 8%nat UNRES_IDENT) as [(Hr & _)|(Hh & _)].
  - simpl. lia.
  - vm_compute in Hr. discriminate Hr.
  - exact Hh.
Defined.

(** X12: [unres_schema_add_node] stores the item exactly when the resolver
    reports a forward reference: it then returns success, the item is the
    last entry with its type, schema node and module, the entries before it
    are kept, and [unres_schema_find] finds the item. Any other result of
    the resolver is returned as it is, and the structure is the one the
    resolver left. *)
Theorem unres_schema_add_node_stores {St : Type} (E : unres_add_env St) (st st1 : St)
  (unres unres1 : unres_schema) (mod_ item : nat) (type : UNRES_ITEM) (snode : nat)
  (rc : Z) :
  (forall k, ua_alloc E k = true) ->
  ua_resolve_unres_schema_item E st unres mod_ item type snode = (rc, st1, unres1) ->
  unres_schema_wf unres1 ->
  let r := unres_schema_add_node E st unres mod_ item type snode in
  (rc <> EXIT_FAILURE /\ uar_rc r = rc /\ uar_unres r = unres1 /\ uar_state r = st1) \/
  (rc = EXIT_FAILURE /\ uar_rc r = EXIT_SUCCESS /\
   uns_count (uar_unres r) = uns_count unres1 + 1 /\
   uns_item (uar_unres r) = take (Z.to_nat (uns_count unres1)) (uns_item unres1) ++ [item] /\
   uns_type (uar_unres r) = take (Z.to_nat (uns_count unres1)) (uns_type unres1) ++ [type] /\
   uns_str_snode (uar_unres r)
     = take (Z.to_nat (uns_count unres1)) (uns_str_snode unres1) ++ [snode] /\
   uns_module (uar_unres r)
     = take (Z.to_nat (uns_count unres1)) (uns_module unres1) ++ [mod_] /\
   unres_schema_holds (uar_unres r) (uns_count unres1) item type /\
   unres_schema_find (uar_unres r) item type <> -1).
Proof.
  intros Hok Hres (Hc & Hi & Ht & Hs & Hm). cbv zeta.
  unfold unres_schema_add_node. rewrite Hres.
  destruct (rc =? EXIT_FAILURE) eqn:Erc; simpl negb; cbv iota.
  - apply Z.eqb_eq in Erc. right. split; [exact Erc|].
    rewrite !Hok. simpl negb. cbv iota. cbv zeta. simpl.
    assert (H1 : u32 (uns_count unres1 + 1) = uns_count unres1 + 1)
      by (apply u32_small; lia).
    assert (H2 : u32 (uns_count unres1 + 1 - 1) = uns_count unres1)
      by (replace (uns_count unres1 + 1 - 1) with (uns_count unres1) by lia;
          apply u32_small; lia).
    rewrite H1, H2.
    replace (Z.to_nat (uns_count unres1 + 1)) with (S (Z.to_nat (uns_count unres1))) by lia.
    rewrite !resize_append by assumption.
    set (u' := {| uns_item := take (Z.to_nat (uns_count unres1)) (uns_item unres1) ++ [item];
                  uns_type := take (Z.to_nat (uns_count unres1)) (uns_type unres1) ++ [type];
                  uns_str_snode :=
                    take (Z.to_nat (uns_count unres1)) (uns_str_snode unres1) ++ [snode];
                  uns_module :=
                    take (Z.to_nat (uns_count unres1)) (uns_module unres1) ++ [mod_];
                  uns_count := uns_count unres1 + 1 |}).
    assert (Hh : unres_schema_holds u' (uns_count unres1) item type).
    { unfold unres_schema_holds, u'. simpl. split; [lia|]. split.
      - rewrite lookup_app_r by (rewrite length_take; lia).
        rewrite length_take.
        replace (Z.to_nat (uns_count unres1)
                 - Z.to_nat (uns_count unres1) `min` length (uns_item unres1))%nat
          with O by lia.
        reflexivity.
      - rewrite lookup_app_r by (rewrite length_take; lia).
        rewrite length_take.
        replace (Z.to_nat (uns_count unres1)
                 - Z.to_nat (uns_count unres1) `min` length (uns_type unres1))%nat
          with O by lia.
        reflexivity. }
    repeat (split; [reflexivity|]). split; [exact Hh|].
    destruct (schema_find_first u' item type) as [(_ & Hno)|(Hf & _)];
      [unfold u'; simpl; lia | exfalso; exact (Hno _ Hh)|].
    destruct Hf as (Hr & _). lia.
  - apply Z.eqb_neq in Erc. left. simpl. repeat split; try reflexivity. exact Erc.
Qed.

(** A resolver that reports a forward reference for every item and leaves
    the structure alone. *)
Lemma unres_schema_add_node_stores_witness :
  let E := {| ua_resolve_unres_schema_item :=
                fun (st : unit) u (_ _ : nat) (_ : UNRES_ITEM) (_ : nat) =>
                  (EXIT_FAILURE, st, u);
              ua_ly_errno := fun _ => LY_SUCCESS;
              ua_unlink_der := fun st _ => st;
              ua_alloc := fun _ => true |} in
  let u := {| uns_item := [5%nat]; uns_type := [UNRES_USES]; uns_str_snode := [2%nat];
              uns_module := [0%nat]; uns_count := 1 |} in
  unres_schema_find (uar_unres (unres_schema_add_node E tt u 0 8 UNRES_IDENT 3)) 8 UNRES_IDENT
    <> -1.
Proof.
  intros E u.
  destruct (unres_schema_add_node_stores E tt tt u u 0 8 UNRES_IDENT 3 EXIT_FAILURE)
    as [(Hne & _)|(_ & _ & _ & _ & _ & _ & _ & _ & Hf)].
  - intros k. reflexivity.
  - reflexivity.
  - unfold unres_schema_wf, u. simpl. lia.
  - congruence.
  - exact Hf.
Defined.

Section UnresSchemaFree.

Context {St : Type}.
Variable free_der : St -> nat -> St.
Variable module : option nat.

Lemma unres_schema_free_loop_spec (n : nat) :
  forall i st unres unresolved,
    (i + n <= length (uns_item unres))%nat ->
    (i + n <= length (uns_type unres))%nat ->
    (i + n <= length (uns_module unres))%nat ->
    0 <= unresolved -> unresolved + Z.of_nat n < 2 ^ 32 ->
    exists st' types' unresolved',
      unres_schema_free_loop free_der module n i st unres unresolved =
        Some (st', {| uns_item := uns_item unres; uns_type := types';
                      uns_str_snode := uns_str_snode unres; uns_module := uns_module unres;
                      uns_count := uns_count unres |}, unresolved') /\
      length types' = length (uns_type unres) /\
      unresolved <= unresolved' /\
      (forall j, (j < i \/ i + n <= j)%nat -> types' !! j = uns_type unres !! j) /\
      (forall j m, (i <= j < i + n)%nat -> uns_module unres !! j = Some m ->
         (Some m = module -> types' !! j = Some UNRES_RESOLVED) /\
         (Some m <> module -> types' !! j = uns_type unres !! j)) /\
      (unresolved' = unresolved <->
       forall j m t, (i <= j < i + n)%nat -> uns_module unres !! j = Some m ->
         uns_type unres !! j = Some t -> Some m <> module -> t = UNRES_RESOLVED).
Proof.
  induction n as [|n IH]; intros i st unres unresolved Hi Ht Hm H0 Hb.
  - exists st, (uns_type unres), unresolved. simpl.
    split; [destruct unres; reflexivity|]. split; [reflexivity|]. split; [lia|].
    split; [reflexivity|]. split; [intros j m Hj; lia|].
    split; [intros _ j m t Hj; lia | reflexivity].
  - simpl unres_schema_free_loop.
    destruct (lookup_lt_is_Some_2 (uns_module unres) i ltac:(lia)) as [m Em].
    destruct (lookup_lt_is_Some_2 (uns_type unres) i ltac:(lia)) as [t Et].
    destruct (lookup_lt_is_Some_2 (uns_item unres) i ltac:(lia)) as [it Ei].
    rewrite Em, Et. simpl.
    destruct (bool_decide_reflect (Some m = module)) as [Hmod|Hmod]; simpl negb; cbv iota.
    + set (st1 := if bool_decide (t = UNRES_TYPE_DER) then free_der st it else st).
      assert (Hst : (if bool_decide (t = UNRES_TYPE_DER)
                     then it0 ← uns_item unres !! i; Some (free_der st it0)
                     else Some st) = Some st1).
      { unfold st1. destruct (bool_decide (t = UNRES_TYPE_DER)); [|reflexivity].
        rewrite Ei. reflexivity. }
      rewrite Hst. cbn [mbind option_bind].
      set (u1 := {| uns_item := uns_item unres;
                    uns_type := <[i := UNRES_RESOLVED]> (uns_type unres);
                    uns_str_snode := uns_str_snode unres; uns_module := uns_module unres;
                    uns_count := uns_count unres |}).
      destruct (IH (S i) st1 u1 unresolved) as (st' & types' & un' & Heq & Hlen & Hle & Hout
                                                & Hin & Hcnt);
        try (unfold u1; simpl; rewrite ?length_insert; lia).
      exists st', types', un'. simpl in *.
      split; [exact Heq|]. split; [rewrite Hlen, length_insert; reflexivity|].
      split; [exact Hle|]. split; [|split].
      * intros j Hj. rewrite Hout by lia. apply list_lookup_insert_ne. lia.
      * intros j m' Hj Hm'. destruct (Nat.eq_dec j i) as [->|Hne].
        -- rewrite Hout by lia. rewrite list_lookup_insert_eq by lia.
           split; [reflexivity|]. intros Hx. rewrite Em in Hm'. congruence.
        -- destruct (Hin j m' ltac:(lia) Hm') as [Ha Hb'].
           split; [exact Ha|]. intros Hx. rewrite (Hb' Hx).
           apply list_lookup_insert_ne. lia.
      * rewrite Hcnt. split.
        -- intros H j m' t' Hj Hm' Ht' Hx. destruct (Nat.eq_dec j i) as [->|Hne].
           ++ rewrite Em in Hm'. congruence.
           ++ apply (H j m' t'); [lia | exact Hm' | | exact Hx].
              rewrite list_lookup_insert_ne by lia. exact Ht'.
        -- intros H j m' t' Hj Hm' Ht' Hx.
           rewrite list_lookup_insert_ne in Ht' by lia.
           apply (H j m' t'); [lia | exact Hm' | exact Ht' | exact Hx].
    + set (un1 := if negb (bool_decide (t = UNRES_RESOLVED)) then u32 (unresolved + 1)
                  else unresolved).
      assert (Hun1 : unresolved <= un1 <= unresolved + 1 /\
                     (un1 = unresolved <-> t = UNRES_RESOLVED)).
      { unfold un1. destruct (bool_decide_reflect (t = UNRES_RESOLVED)) as [Hr|Hr]; simpl.
        - split; [lia|]. split; auto.
        - rewrite u32_small by lia. split; [lia|]. split; [lia | contradiction]. }
      destruct Hun1 as (Hb1 & Hiff).
      destruct (IH (S i) st unres un1) as (st' & types' & un' & Heq & Hlen & Hle & Hout
                                             & Hin & Hcnt); try lia.
      exists st', types', un'.
      split; [exact Heq|]. split; [exact Hlen|]. split; [lia|]. split; [|split].
      * intros j Hj. destruct (Nat.eq_dec j i) as [->|Hne]; [|apply Hout; lia].
        apply Hout. lia.
      * intros j m' Hj Hm'. destruct (Nat.eq_dec j i) as [->|Hne].
        -- rewrite Em in Hm'. inversion Hm'; subst m'.
           split; [intros Hx; contradiction|]. intros _. apply Hout. lia.
        -- apply Hin; [lia | exact Hm'].
      * split.
        -- intros H j m' t' Hj Hm' Ht' Hx. destruct (Nat.eq_dec j i) as [->|Hne].
           ++ rewrite Et in Ht'. inversion Ht'; subst t'. apply Hiff. lia.
           ++ assert (Hu : un' = un1) by lia.
              apply (proj1 Hcnt Hu j m' t'); [lia | exact Hm' | exact Ht' | exact Hx].
        -- intros H.
           assert (Ht0 : t = UNRES_RESOLVED) by (apply (H i m t); [lia | exact Em | exact Et | exact Hmod]).
           apply Hiff in Ht0. rewrite <- Ht0. apply Hcnt.
           intros j m' t' Hj. apply H. lia.
Qed.

End UnresSchemaFree.

(** X13: [unres_schema_free] for a module: every entry of the module becomes
    resolved and the entries of other modules are left as they are; the
    structure is released, and the pointer set to NULL, exactly when no
    module is given, or when the module is not a submodule and no entry of
    another module is unresolved. *)
Theorem unres_schema_free_outcome {St : Type} (free_der : St -> nat -> St)
  (module : option nat) (submodule : bool) (st : St) (unres : unres_schema) :
  0 <= uns_count unres < 2 ^ 31 ->
  (Z.to_nat (uns_count unres) <= length (uns_item unres))%nat ->
  (Z.to_nat (uns_count unres) <= length (uns_type unres))%nat ->
  (Z.to_nat (uns_count unres) <= length (uns_module unres))%nat ->
  exists st' r,
    unres_schema_free free_der module submodule st (Some unres) = Some (st', r) /\
    ((r = None /\
      (module = None \/ (submodule = false /\ others_resolved unres module))) \/
     (exists types',
        r = Some {| uns_item := uns_item unres; uns_type := types';
                    uns_str_snode := uns_str_snode unres; uns_module := uns_module unres;
                    uns_count := uns_count unres |} /\
        module <> None /\
        (submodule = true \/ ~ others_resolved unres module) /\
        length types' = length (uns_type unres) /\
        forall j m, (j < Z.to_nat (uns_count unres))%nat -> uns_module unres !! j = Some m ->
          (Some m = module -> types' !! j = Some UNRES_RESOLVED) /\
          (Some m <> module -> types' !! j = uns_type unres !! j))).
Proof.
  intros Hc Hi Ht Hm. unfold unres_schema_free.
  destruct (unres_schema_free_loop_spec free_der module (Z.to_nat (uns_count unres)) 0 st
              unres 0) as (st' & types' & un' & Heq & Hlen & Hle & _ & Hin & Hcnt);
    try lia.
  rewrite Heq. simpl.
  assert (Hres : un' = 0 <-> others_resolved unres module).
  { rewrite Hcnt. unfold others_resolved. split; intros H j m t Hj; apply H; lia. }
  exists st'.
  destruct (bool_decide_reflect (module = None)) as [Hn|Hn]; simpl orb; cbv iota.
  - exists None. split; [reflexivity|]. left. split; [reflexivity|]. left. exact Hn.
  - destruct (un' =? 0) eqn:E0; simpl andb.
    + apply Z.eqb_eq in E0. destruct submodule; simpl; cbv iota.
      * eexists. split; [reflexivity|]. right. exists types'.
        split; [reflexivity|]. split; [exact Hn|]. split; [left; reflexivity|].
        split; [exact Hlen|]. intros j m Hj. apply Hin. lia.
      * exists None. split; [reflexivity|]. left. split; [reflexivity|]. right.
        split; [reflexivity|]. apply Hres. exact E0.
    + apply Z.eqb_neq in E0. eexists. split; [reflexivity|]. right. exists types'.
      split; [reflexivity|]. split; [exact Hn|].
      split; [right; intros H; apply E0, Hres, H|].
      split; [exact Hlen|]. intros j m Hj. apply Hin. lia.
Qed.

Lemma unres_schema_free_outcome_witness :
  exists r,
    unres_schema_free (fun (st : unit) (_ : nat) => st) (Some 1%nat) false tt
      (Some {| uns_item := [5; 8]%nat; uns_type := [UNRES_USES; UNRES_IDENT];
               uns_str_snode := [0; 0]%nat; uns_module := [1; 2]%nat; uns_count := 2 |})
      = Some (tt, r) /\
    r = Some {| uns_item := [5; 8]%nat; uns_type := [UNRES_RESOLVED; UNRES_IDENT];
                uns_str_snode := [0; 0]%nat; uns_module := [1; 2]%nat; uns_count := 2 |}.
Proof.
  destruct (unres_schema_free_outcome (fun (st : unit) (_ : nat) => st) (Some 1%nat) false tt
              {| uns_item := [5; 8]%nat; uns_type := [UNRES_USES; UNRES_IDENT];
                 uns_str_snode := [0; 0]%nat; uns_module := [1; 2]%nat; uns_count := 2 |})
    as (st' & r & Heq & _); try (simpl; lia).
  exists r. split; [destruct st'; exact Heq|].
  vm_compute in Heq. inversion Heq. reflexivity.
Defined.

(** ** context.c: submodules and older revisions *)

Lemma strcmp_eq (a b : string) : strcmp a b = Eq <-> a = b.
Proof.
  unfold strcmp. split.
  - intros H. destruct (String_as_OT.compare_spec a b) as [E|L|G]; try discriminate.
    exact E.
  - intros ->. apply strcmp_refl.
Qed.

Lemma is_Eq_strcmp (a b : string) : is_Eq (strcmp a b) = String.eqb a b.
Proof.
  destruct (String.eqb_spec a b) as [->|Hne].
  - rewrite strcmp_refl. reflexivity.
  - destruct (strcmp a b) eqn:E; try reflexivity.
    apply strcmp_eq in E. contradiction.
Qed.

Lemma strcmp_gt_lt (a b : string) : strcmp a b = Gt -> strcmp b a = Lt.
Proof.
  intros H. destruct (strcmp b a) eqn:E; [| reflexivity |].
  - apply strcmp_eq in E. subst. rewrite strcmp_refl in H. discriminate.
  - unfold strcmp in *.
    destruct (String_as_OT.compare_spec a b) as [_|_|G]; try discriminate.
    destruct (String_as_OT.compare_spec b a) as [_|_|G']; try discriminate.
    exfalso. apply (StrictOrder_Irreflexive (R := String_as_OT.lt) a).
    exact (StrictOrder_Transitive (R := String_as_OT.lt) _ _ _ G' G).
Qed.

(** [a <= b] and [b < c] give [a <= c]. *)
Lemma date_le_lt (a b c : string) : date_le a b -> strcmp c b = Gt -> date_le a c.
Proof.
  intros Hab Hcb. apply (date_le_step a b c Hab). rewrite Hcb. discriminate.
Qed.

Lemma is_Gt_true (c : comparison) : is_Gt c = true -> c = Gt.
Proof. destruct c; simpl; congruence. Qed.

Lemma not_gt_date_le (a b : string) : is_Gt (strcmp a b) = false -> date_le a b.
Proof. unfold date_le. destruct (strcmp a b); simpl; congruence. Qed.

(** *** [ly_ctx_get_submodule] *)

Lemma ly_ctx_get_module_iter_lookup (c : ly_ctx) (i : nat) :
  (i < length (models_list c))%nat -> Z.of_nat (length (models_list c)) < 2 ^ 32 ->
  ly_ctx_get_module_iter (Some c) (Some (Z.of_nat i))
    = (mjoin (models_list c !! i), Some (Z.of_nat (S i))).
Proof.
  intros Hi Hb. unfold ly_ctx_get_module_iter.
  destruct (Z.of_nat (length (models_list c)) <=? Z.of_nat i) eqn:E;
    [apply Z.leb_le in E; lia|].
  rewrite Nat2Z.id, u32_small by lia. f_equal. f_equal. lia.
Qed.

Lemma ly_ctx_get_module_iter_end (c : ly_ctx) (i : nat) :
  (length (models_list c) <= i)%nat ->
  ly_ctx_get_module_iter (Some c) (Some (Z.of_nat i)) = (None, Some (Z.of_nat i)).
Proof.
  intros Hi. unfold ly_ctx_get_module_iter.
  destruct (Z.of_nat (length (models_list c)) <=? Z.of_nat i) eqn:E;
    [reflexivity | apply Z.leb_gt in E; lia].
Qed.

Lemma ly_ctx_get_submodule_loop_scan (c : ly_ctx) (module revision : option string)
  (submodule : string) (sub_revision : option string) :
  Z.of_nat (length (models_list c)) < 2 ^ 32 ->
  forall fuel i ret,
    (length (models_list c) - i < fuel)%nat ->
    ly_ctx_get_submodule_loop fuel c (Z.of_nat i) module revision submodule sub_revision ret
      = Some (submodule_scan (drop i (models_list c)) module revision submodule
                sub_revision ret).
Proof.
  intros Hb. induction fuel as [|fuel IH]; intros i ret Hf; [lia|].
  cbn [ly_ctx_get_submodule_loop].
  destruct (decide (i < length (models_list c))%nat) as [Hi|Hi].
  - rewrite (ly_ctx_get_module_iter_lookup c i Hi Hb).
    destruct (lookup_lt_is_Some_2 (models_list c) i Hi) as [e He].
    rewrite (drop_S _ _ _ He), He. simpl mjoin.
    destruct e as [mainmod|]; simpl; [|reflexivity].
    destruct (ly_ctx_get_submodule_step module revision submodule sub_revision mainmod ret)
      as [ret' stop].
    destruct stop; [reflexivity|].
    apply IH. lia.
  - rewrite ly_ctx_get_module_iter_end by lia.
    rewrite drop_ge by lia. reflexivity.
Qed.

Lemma strcmp_gt_trans (a b c : string) :
  strcmp a b = Gt -> strcmp b c = Gt -> strcmp a c = Gt.
Proof.
  intros H1 H2. apply strcmp_gt_lt in H1. apply strcmp_gt_lt in H2.
  apply strcmp_lt_gt. unfold strcmp in *.
  exact (StrictOrder_Transitive (R := String_as_OT.lt) _ _ _ H2 H1).
Qed.

(** [c <= r] and [r < s] give [c < s]. *)
Lemma date_le_gt (c r s : string) : date_le c r -> strcmp s r = Gt -> strcmp s c = Gt.
Proof.
  intros Hle Hgt. unfold date_le in Hle.
  destruct (strcmp c r) eqn:E; [| |contradiction].
  - apply strcmp_eq in E. subst. exact Hgt.
  - apply strcmp_lt_gt in E. exact (strcmp_gt_trans _ _ _ Hgt E).
Qed.

Lemma submodule_scan_first_newest (module revision : option string) (submodule : string) :
  forall l pre ret,
    first_newest_submodule pre ret ->
    first_newest_submodule (pre ++ submodule_candidates l module revision submodule)
      (submodule_scan l module revision submodule None ret).
Proof.
  induction l as [|e rest IH]; intros pre ret Hinv; simpl.
  - rewrite app_nil_r. exact Hinv.
  - destruct e as [m|]; [|rewrite app_nil_r; exact Hinv].
    unfold ly_ctx_get_submodule_step, ly_ctx_get_submodule2.
    assert (Hname : match module with
                    | Some name => negb (is_Eq (strcmp (module_name m) name))
                    | None => false
                    end
                    = match module with
                      | Some name => negb (String.eqb (module_name m) name)
                      | None => false
                      end)
      by (destruct module; [rewrite is_Eq_strcmp|]; reflexivity).
    rewrite Hname. clear Hname.
    destruct (match module with
              | Some name => negb (String.eqb (module_name m) name)
              | None => false
              end); [apply IH; exact Hinv|].
    assert (Hrev : match revision with
                   | Some rv => bool_decide (module_rev m = [])
                                || negb (is_Eq (strcmp rv (rev0_date (module_rev m))))
                   | None => false
                   end
                   = match revision with
                     | Some rv => bool_decide (module_rev m = [])
                                  || negb (String.eqb rv (rev0_date (module_rev m)))
                     | None => false
                     end)
      by (destruct revision; [rewrite is_Eq_strcmp|]; reflexivity).
    rewrite Hrev. clear Hrev.
    destruct (match revision with
              | Some rv => bool_decide (module_rev m = [])
                           || negb (String.eqb rv (rev0_date (module_rev m)))
              | None => false
              end); [apply IH; exact Hinv|].
    destruct (ly_ctx_get_submodule2_loop (module_inc m) submodule) as [submod|];
      [|apply IH; exact Hinv].
    replace (pre ++ submod :: submodule_candidates rest module revision submodule)
      with ((pre ++ [submod]) ++ submodule_candidates rest module revision submodule)
      by (rewrite <- app_assoc; reflexivity).
    destruct ret as [r|].
    + destruct Hinv as (i & Hi & Hbefore & Hafter).
      assert (Hil : (i < length pre)%nat) by (apply lookup_lt_is_Some; eauto).
      assert (Hkeep : (submodule_rev submod <> [] ->
                       submodule_rev r <> [] /\
                       date_le (rev0_date (submodule_rev submod))
                         (rev0_date (submodule_rev r))) ->
                      first_newest_submodule (pre ++ [submod]) (Some r)).
      { intros Hnot. exists i. split; [rewrite lookup_app_l by exact Hil; exact Hi|].
        split.
        - intros j c Hj Hc. rewrite lookup_app_l in Hc by lia. exact (Hbefore j c Hj Hc).
        - intros j c Hj Hc Hcr. apply lookup_snoc_inv in Hc as [Hc|[_ ->]].
          + exact (Hafter j c Hj Hc Hcr).
          + exact (Hnot Hcr). }
      assert (Htake : submodule_rev submod <> [] ->
                      (submodule_rev r = [] \/
                       strcmp (rev0_date (submodule_rev submod))
                         (rev0_date (submodule_rev r)) = Gt) ->
                      first_newest_submodule (pre ++ [submod]) (Some submod)).
      { intros Hs Hr. exists (length pre). split.
        { rewrite lookup_app_r by lia. rewrite Nat.sub_diag. reflexivity. }
        split.
        - intros j c Hj Hc. rewrite lookup_app_l in Hc by exact Hj.
          split; [exact Hs|].
          destruct (submodule_rev c) as [|c0 cl] eqn:Ec; [left; reflexivity|].
          right. rewrite <- Ec.
          assert (Hcr : submodule_rev c <> []) by (rewrite Ec; discriminate).
          destruct (lt_eq_lt_dec j i) as [[Hlt|Heq]|Hgt].
          + destruct (Hbefore j c Hlt Hc) as (Hrr & [Hce|Hg]); [contradiction|].
            destruct Hr as [Hre|Hsr]; [contradiction|].
            exact (strcmp_gt_trans _ _ _ Hsr Hg).
          + subst j. rewrite Hi in Hc. inversion Hc; subst c.
            destruct Hr as [Hre|Hsr]; [contradiction | exact Hsr].
          + destruct (Hafter j c Hgt Hc Hcr) as (Hrr & Hle).
            destruct Hr as [Hre|Hsr]; [contradiction|].
            exact (date_le_gt _ _ _ Hle Hsr).
        - intros j c Hj Hc Hcr. apply lookup_lt_Some in Hc.
          rewrite length_app in Hc. simpl in Hc. lia. }
      destruct (bool_decide_reflect (submodule_rev submod = [])) as [Hs|Hs]; simpl.
      * apply IH. apply Hkeep. intros Hne. contradiction.
      * destruct (bool_decide_reflect (submodule_rev r = [])) as [Hr|Hr]; simpl.
        -- apply IH. apply Htake; [exact Hs | left; exact Hr].
        -- destruct (is_Gt (strcmp (rev0_date (submodule_rev submod))
                              (rev0_date (submodule_rev r)))) eqn:Eg.
           ++ apply IH. apply Htake; [exact Hs | right; apply is_Gt_true; exact Eg].
           ++ apply IH. apply Hkeep. intros _. split; [exact Hr|].
              apply not_gt_date_le. exact Eg.
    + simpl in Hinv. subst pre. apply IH. simpl.
      exists 0%nat. split; [reflexivity|]. split.
      * intros j c Hj. lia.
      * intros j c Hj Hc. destruct j; [lia|]. discriminate Hc.
Qed.

Lemma submodule_scan_exact (module revision : option string) (submodule sr : string) :
  forall l,
    submodule_scan l module revision submodule (Some sr) None
      = List.find (has_revision sr) (submodule_candidates l module revision submodule).
Proof.
  induction l as [|e rest IH]; simpl; [reflexivity|].
  destruct e as [m|]; [|reflexivity].
  unfold ly_ctx_get_submodule_step, ly_ctx_get_submodule2.
  assert (Hname : match module with
                  | Some name => negb (is_Eq (strcmp (module_name m) name))
                  | None => false
                  end
                  = match module with
                    | Some name => negb (String.eqb (module_name m) name)
                    | None => false
                    end)
    by (destruct module; [rewrite is_Eq_strcmp|]; reflexivity).
  rewrite Hname. clear Hname.
  destruct (match module with
            | Some name => negb (String.eqb (module_name m) name)
            | None => false
            end); [exact IH|].
  assert (Hrev : match revision with
                 | Some rv => bool_decide (module_rev m = [])
                              || negb (is_Eq (strcmp rv (rev0_date (module_rev m))))
                 | None => false
                 end
                 = match revision with
                   | Some rv => bool_decide (module_rev m = [])
                                || negb (String.eqb rv (rev0_date (module_rev m)))
                   | None => false
                   end)
    by (destruct revision; [rewrite is_Eq_strcmp|]; reflexivity).
  rewrite Hrev. clear Hrev.
  destruct (match revision with
            | Some rv => bool_decide (module_rev m = [])
                         || negb (String.eqb rv (rev0_date (module_rev m)))
            | None => false
            end); [exact IH|].
  destruct (ly_ctx_get_submodule2_loop (module_inc m) submodule) as [submod|]; [|exact IH].
  simpl List.find. unfold has_revision at 1.
  destruct (bool_decide (submodule_rev submod = [])); simpl; [exact IH|].
  rewrite is_Eq_strcmp.
  destruct (String.eqb sr (rev0_date (submodule_rev submod))); [reflexivity | exact IH].
Qed.

(** X14: [ly_ctx_get_submodule] looks, in the modules of the context that pass
    the name and revision filters, at the first include of the name. Without
    a submodule revision it returns the first of the newest of these
    submodules: the result stands at a position of the list of candidates,
    every candidate before it has no revision or a strictly older one (the
    result having a revision then), and no candidate after it is newer; one
    without revision is returned only when it is the first candidate and
    none has a revision. With a submodule revision it returns the first
    candidate that has it. *)
Theorem ly_ctx_get_submodule_selection (ctx : ly_ctx) (module revision : option string)
  (submodule : string) :
  Z.of_nat (length (models_list ctx)) < 2 ^ 32 ->
  revision = None \/ module <> None ->
  first_newest_submodule (submodule_candidates (models_list ctx) module revision submodule)
    (ly_ctx_get_submodule (Some ctx) module revision (Some submodule) None) /\
  forall sr,
    ly_ctx_get_submodule (Some ctx) module revision (Some submodule) (Some sr)
      = List.find (has_revision sr)
          (submodule_candidates (models_list ctx) module revision submodule).
Proof.
  intros Hb Harg. unfold ly_ctx_get_submodule.
  assert (Hchk : bool_decide (revision <> None) && bool_decide (module = None) = false).
  { destruct Harg as [-> | Hm].
    - rewrite bool_decide_eq_false_2 by congruence. reflexivity.
    - rewrite (bool_decide_eq_false_2 (module = None)) by exact Hm. apply andb_false_r. }
  rewrite Hchk. split.
  - rewrite (ly_ctx_get_submodule_loop_scan ctx module revision submodule None Hb _ 0%nat)
      by lia.
    simpl default. rewrite drop_0.
    apply (submodule_scan_first_newest module revision submodule (models_list ctx) [] None).
    reflexivity.
  - intros sr.
    rewrite (ly_ctx_get_submodule_loop_scan ctx module revision submodule (Some sr) Hb
               _ 0%nat) by lia.
    simpl default. rewrite drop_0. apply submodule_scan_exact.
Qed.

(** Of the two submodules of revision 2016-06-01 the first one is returned. *)
Lemma ly_ctx_get_submodule_selection_witness :
  submodule_candidates (models_list ctx_equal_revisions) (Some "m") None "sub"
    = [sub_2015; sub_2016_a; sub_2016_b] /\
  ly_ctx_get_submodule (Some ctx_equal_revisions) (Some "m") None (Some "sub") None
    = Some sub_2016_a /\
  ly_ctx_get_submodule (Some ctx_equal_revisions) (Some "m") None (Some "sub")
    (Some "2015-01-01") = Some sub_2015.
Proof.
  split; [reflexivity|].
  destruct (ly_ctx_get_submodule_selection ctx_equal_revisions (Some "m") None "sub")
    as [Hnew Hex].
  - simpl. lia.
  - left. reflexivity.
  - split.
    + destruct (ly_ctx_get_submodule (Some ctx_equal_revisions) (Some "m") None (Some "sub")
                  None) as [s|] eqn:E; [|discriminate Hnew].
      vm_compute in E. inversion E. reflexivity.
    + rewrite (Hex "2015-01-01"). reflexivity.
Defined.

(** X15: [ly_ctx_get_submodule2] returns the first include of the main module
    whose submodule is loaded and has the name, and NULL when there is
    none. *)
Theorem ly_ctx_get_submodule2_first (m : lys_module) (name : string) :
  (ly_ctx_get_submodule2 (Some m) (Some name) = None /\
   forall k s, module_inc m !! k = Some {| inc_submodule := Some s |} ->
     submodule_name s <> name) \/
  (exists k s,
     ly_ctx_get_submodule2 (Some m) (Some name) = Some s /\
     module_inc m !! k = Some {| inc_submodule := Some s |} /\
     submodule_name s = name /\
     forall j s', (j < k)%nat -> module_inc m !! j = Some {| inc_submodule := Some s' |} ->
       submodule_name s' <> name).
Proof.
  unfold ly_ctx_get_submodule2. induction (module_inc m) as [|i rest IH]; simpl.
  - left. split; [reflexivity|]. intros k s H. destruct k; discriminate.
  - destruct i as [[s0|]]; simpl.
    + unfold ly_strequal. destruct (String.eqb_spec name (submodule_name s0)) as [He|Hne].
      * right. exists 0%nat, s0. split; [reflexivity|]. split; [reflexivity|].
        split; [congruence|]. intros j s' Hj. lia.
      * destruct IH as [(Hn & Hall)|(k & s & Hr & Hk & Hs & Hall)].
        -- left. split; [exact Hn|]. intros k s Hk. destruct k as [|k]; simpl in Hk.
           ++ inversion Hk; subst. congruence.
           ++ exact (Hall k s Hk).
        -- right. exists (S k), s. split; [exact Hr|]. split; [exact Hk|].
           split; [exact Hs|]. intros j s' Hj Hl. destruct j as [|j]; simpl in Hl.
           ++ inversion Hl; subst. congruence.
           ++ apply (Hall j s'); [lia | exact Hl].
    + destruct IH as [(Hn & Hall)|(k & s & Hr & Hk & Hs & Hall)].
      * left. split; [exact Hn|]. intros k s Hk. destruct k as [|k]; simpl in Hk.
        -- discriminate.
        -- exact (Hall k s Hk).
      * right. exists (S k), s. split; [exact Hr|]. split; [exact Hk|].
        split; [exact Hs|]. intros j s' Hj Hl. destruct j as [|j]; simpl in Hl.
        -- discriminate.
        -- apply (Hall j s'); [lia | exact Hl].
Qed.

(** *** [ly_ctx_get_module_older] *)

Section Older.

Variable mi : nat.
Variable md : lys_module.
Variable full : list (option lys_module).

Lemma ly_ctx_get_module_older_loop_spec :
  forall l pre result,
    full = pre ++ l ->
    (forall j, l !! j <> Some None) ->
    older_so_far full mi md pre result ->
    exists res,
      ly_ctx_get_module_older_loop mi md (length pre) l result = Some res /\
      older_so_far full mi md full res.
Proof.
  induction l as [|e rest IH]; intros pre result Hfull Hnn Hinv.
  - exists result. split; [reflexivity|]. rewrite app_nil_r in Hfull.
    rewrite <- Hfull in Hinv. exact Hinv.
  - destruct e as [iter|]; [|exfalso; exact (Hnn 0%nat eq_refl)].
    assert (Hfull' : full = (pre ++ [Some iter]) ++ rest)
      by (rewrite <- app_assoc; exact Hfull).
    assert (Hnn' : forall j, rest !! j <> Some None) by (intros j; exact (Hnn (S j))).
    assert (Hlen : length (pre ++ [Some iter]) = S (length pre))
      by (rewrite length_app; simpl; lia).
    assert (Hat : full !! length pre = Some (Some iter)).
    { rewrite Hfull, lookup_app_r by lia. rewrite Nat.sub_diag. reflexivity. }
    (* what skipping [iter] needs: it is no older revision *)
    assert (Hskip : ~ older_revision full mi md (length pre) iter ->
                    older_so_far full mi md (pre ++ [Some iter]) result).
    { intros Hno. destruct result as [[i r]|]; simpl in *.
      - destruct Hinv as [Hr Hmax]. split; [exact Hr|].
        intros j it Hj Hc. apply lookup_snoc_inv in Hj as [Hj|[-> Hj]].
        + exact (Hmax j it Hj Hc).
        + inversion Hj; subst. contradiction.
      - intros i it Hi. apply lookup_snoc_inv in Hi as [Hi|[-> Hi]].
        + exact (Hinv i it Hi).
        + inversion Hi; subst. exact Hno. }
    simpl ly_ctx_get_module_older_loop.
    destruct ((length pre =? mi)%nat) eqn:Emi; simpl orb.
    { apply Nat.eqb_eq in Emi. rewrite <- Hlen. apply IH; try assumption.
      apply Hskip. intros (_ & Hne & _). congruence. }
    apply Nat.eqb_neq in Emi.
    destruct (rev_size (module_rev iter) =? 0) eqn:Erev.
    { apply rev_size_zero in Erev. rewrite <- Hlen. apply IH; try assumption.
      apply Hskip. intros (_ & _ & Hne & _). congruence. }
    apply rev_size_nonzero in Erev.
    unfold ly_strequal.
    destruct (String.eqb_spec (module_name md) (module_name iter)) as [Hname|Hname];
      simpl negb; cbv iota.
    2:{ rewrite <- Hlen. apply IH; try assumption.
        apply Hskip. intros (_ & _ & _ & Hn & _). congruence. }
    destruct (strcmp (rev0_date (module_rev iter)) (rev0_date (module_rev md))) eqn:Ecmp;
      simpl is_Lt; cbv iota.
    1,3: rewrite <- Hlen; apply IH; try assumption;
         apply Hskip; intros (_ & _ & _ & _ & Hlt); congruence.
    assert (Hcand : older_revision full mi md (length pre) iter).
    { repeat split; try assumption. congruence. }
    destruct result as [[i r]|]; simpl in Hinv.
    + destruct Hinv as [Hr Hmax].
      destruct (is_Gt (strcmp (rev0_date (module_rev iter)) (rev0_date (module_rev r))))
        eqn:Eg.
      * rewrite <- Hlen. apply IH; try assumption. simpl. split; [exact Hcand|].
        intros j it Hj Hc. apply lookup_snoc_inv in Hj as [Hj|[-> Hj]].
        -- apply (date_le_lt _ _ _ (Hmax j it Hj Hc)).
           apply is_Gt_true. exact Eg.
        -- inversion Hj; subst. apply date_le_refl.
      * rewrite <- Hlen. apply IH; try assumption. simpl. split; [exact Hr|].
        intros j it Hj Hc. apply lookup_snoc_inv in Hj as [Hj|[-> Hj]].
        -- exact (Hmax j it Hj Hc).
        -- inversion Hj; subst. apply not_gt_date_le. exact Eg.
    + rewrite <- Hlen. apply IH; try assumption. simpl. split; [exact Hcand|].
      intros j it Hj Hc. apply lookup_snoc_inv in Hj as [Hj|[-> Hj]].
      * exfalso. exact (Hinv j it Hj Hc).
      * inversion Hj; subst. apply date_le_refl.
Qed.

End Older.

(** X16: [ly_ctx_get_module_older], for a module of the context that has a
    revision, returns the newest of the other entries of the same name whose
    revision is older than that of the module, and NULL when there is none;
    a module without revision has no older one. *)
Theorem ly_ctx_get_module_older_newest (ctx : ly_ctx) (mi : nat) (md : lys_module) :
  (forall j, models_list ctx !! j <> Some None) ->
  models_list ctx !! mi = Some (Some md) ->
  (module_rev md = [] /\ ly_ctx_get_module_older (Some ctx) (Some mi) = Some None) \/
  (module_rev md <> [] /\
   exists res,
     ly_ctx_get_module_older (Some ctx) (Some mi) = Some res /\
     match res with
     | None => forall i it, ~ older_revision (models_list ctx) mi md i it
     | Some (i, r) =>
         older_revision (models_list ctx) mi md i r /\
         forall j it, older_revision (models_list ctx) mi md j it ->
           date_le (rev0_date (module_rev it)) (rev0_date (module_rev r))
     end).
Proof.
  intros Hnn Hmi. unfold ly_ctx_get_module_older. rewrite Hmi.
  change (mjoin (Some (Some md))) with (Some md). cbv iota.
  destruct (rev_size (module_rev md) =? 0) eqn:Erev.
  - apply rev_size_zero in Erev. left. split; [exact Erev | reflexivity].
  - apply rev_size_nonzero in Erev. right. split; [exact Erev|].
    destruct (ly_ctx_get_module_older_loop_spec mi md (models_list ctx) (models_list ctx) []
                None eq_refl Hnn) as (res & Heq & Hres).
    { intros i it Hi. destruct i; discriminate. }
    exists res. split; [exact Heq|].
    destruct res as [[i r]|]; simpl in Hres.
    + destruct Hres as [Hr Hmax]. split; [exact Hr|].
      intros j it Hc. apply (Hmax j it); [|exact Hc]. destruct Hc as [Hl _]. exact Hl.
    + intros i it Hc. apply (Hres i it); [|exact Hc]. destruct Hc as [Hl _]. exact Hl.
Qed.

Lemma ly_ctx_get_module_older_newest_witness :
  ly_ctx_get_module_older (Some ctx_two_revisions) (Some 2%nat)
    = Some (Some (0%nat, mod_with "m" "2015-01-01" [{| inc_submodule := Some sub_2015 |}])).
Proof.
  destruct (ly_ctx_get_module_older_newest ctx_two_revisions 2
              (mod_with "m" "2016-06-01" [{| inc_submodule := None |};
                                          {| inc_submodule := Some sub_2016 |}]))
    as [(Hr & _)|(_ & res & Heq & _)].
  - intros j. do 4 (destruct j as [|j]; [discriminate|]). discriminate.
  - reflexivity.
  - discriminate Hr.
  - rewrite Heq. vm_compute in Heq. inversion Heq. reflexivity.
Defined.

(** ** resolve.c: more schema resolvers *)

Lemma nodeid_syntax_scan_nonneg (fuel : nat) :
  forall id off rel v,
    0 <= off -> nodeid_syntax_scan fuel id off rel false = Some v -> 0 <= v.
Proof.
  induction fuel as [|fuel IH]; intros id off rel v Hoff Hs; [discriminate|].
  simpl in Hs. destruct (cnonzero (cchar id 0)); simpl in Hs; [|discriminate].
  destruct (sn_ret (parse_schema_nodeid id rel) <? 1) eqn:Ep.
  - apply Z.ltb_lt in Ep. inversion Hs. lia.
  - apply Z.ltb_ge in Ep. eapply IH; [|exact Hs]. lia.
Qed.

Section NodeidOutcome.

Variable E : schema_env.
Variable sch : list lys_node.
Variable options : list getnext_option.
Variable ret_nodetype : option (list LYS_NODE).
Variable no_innerlist : bool.
Variables getnext_mod module : nat.

Lemma scan_siblings_found (name : option string) (nam_len : Z) (id : string)
  (mod_name : option string) (siblings : list nat) :
  forall shorthand start s,
    scan_siblings E sch ret_nodetype name nam_len id module mod_name siblings shorthand start
      = ScanFound s ->
    of_nodetype sch ret_nodetype (Some s).
Proof.
  induction siblings as [|x rest IH]; intros shorthand start s H; simpl in H;
    [discriminate|].
  destruct (sch !! x) as [sd|] eqn:Ex; [|exact (IH _ _ _ H)].
  destruct (name_match name nam_len (node_name sd)); [|exact (IH _ _ _ H)].
  destruct (schema_nodeid_siblingcheck E sch x sd shorthand id module mod_name start)
    as [[r sh1] st1].
  destruct (r =? 0).
  - destruct ret_nodetype as [mask|] eqn:Em.
    + destruct (nodetype_in (node_nodetype sd) mask) eqn:Ein; simpl in H.
      * inversion H; subst. exists sd. split; [exact Ex | exact Ein].
      * exact (IH _ _ _ H).
    + inversion H; subst. exists sd. split; [exact Ex | exact I].
  - destruct (r =? 1); [exact (IH _ _ _ H)|].
    destruct (r =? 2); discriminate.
Qed.

(** How the loop of the resolvers ends: with success and NULL or a node of
    the type asked for, with -1 or (under [no_innerlist]) -2, or with one
    more than the offset at which the rest of the nodeid does not parse. *)
Lemma schema_nodeid_loop_outcome (fuel : nat) :
  forall id off sn shorthand start ret0,
    0 <= off ->
    let r := schema_nodeid_loop E sch options ret_nodetype no_innerlist getnext_mod module
               fuel id off sn shorthand start ret0 in
    (nr_rc r = 0 /\ of_nodetype sch ret_nodetype (nr_ret r)) \/
    (nr_rc r = -1 /\ nr_ret r = ret0) \/
    (nr_rc r = -2 /\ no_innerlist = true /\ nr_ret r = None) \/
    (0 < nr_rc r /\ nr_ret r = ret0 /\
     nodeid_syntax_scan fuel id off (sn_is_relative sn) false = Some (nr_rc r - 1)).
Proof.
  induction fuel as [|fuel IH]; intros id off sn shorthand start ret0 Hoff; simpl.
  - right. left. split; reflexivity.
  - destruct (scan_siblings E sch ret_nodetype (sn_name sn) (sn_nam_len sn) id module
                (cprefix (sn_mod_name_len sn) (sn_mod_name sn))
                (se_getnext E sch (lys_parent sch start) getnext_mod options) shorthand start)
      as [s| | |s sh' start'] eqn:Escan; simpl.
    + left. split; [reflexivity|]. exact (scan_siblings_found _ _ _ _ _ _ _ _ Escan).
    + left. split; [reflexivity | exact I].
    + right. left. split; reflexivity.
    + apply scan_siblings_break_nonempty in Escan. rewrite Escan. simpl.
      destruct (no_innerlist && _) eqn:Eil.
      * right. right. left. simpl. apply andb_prop in Eil as [-> _]. auto.
      * destruct (sn_ret (parse_schema_nodeid id (sn_is_relative sn)) <? 1) eqn:Ep.
        -- apply Z.ltb_lt in Ep. right. right. right. simpl.
           split; [lia|]. split; [reflexivity|]. f_equal. lia.
        -- apply Z.ltb_ge in Ep. apply IH. lia.
Qed.

End NodeidOutcome.

Lemma resolve_descendant_schema_nodeid_outcome (E : schema_env) (sch : list lys_node)
  (nodeid : string) (start : nat) (mask : list LYS_NODE) (check_shorthand no_innerlist : bool)
  (ret0 : option nat) :
  let r := resolve_descendant_schema_nodeid E sch nodeid start mask check_shorthand
             no_innerlist ret0 in
  (nr_rc r = 0 /\ of_nodetype sch (Some mask) (nr_ret r)) \/
  (nr_rc r = -1 /\ nr_ret r = ret0) \/
  (nr_rc r = -2 /\ no_innerlist = true /\ nr_ret r = None) \/
  (0 < nr_rc r /\ nr_ret r = ret0 /\ nodeid_syntax_error nodeid = Some (nr_rc r - 1)).
Proof.
  cbv zeta. unfold resolve_descendant_schema_nodeid. rewrite nodeid_syntax_error_first.
  cbv zeta.
  destruct (sch !! start) as [sd|]; [|right; left; split; reflexivity].
  set (sn := parse_schema_nodeid nodeid (-1)).
  destruct (sn_ret sn <? 1) eqn:Ep.
  - apply Z.ltb_lt in Ep. right. right. right. simpl. split; [lia|]. split; [reflexivity|].
    f_equal. lia.
  - apply Z.ltb_ge in Ep.
    destruct (sn_is_relative sn =? 0); [right; left; split; reflexivity|].
    apply schema_nodeid_loop_outcome. lia.
Qed.



Lemma unique_outcome (E : schema_env) (lys_unique : Z) (sch : list lys_node)
  (parent : nat) (uniq_str_path : string) (r : unique_result) :
  resolve_unique E lys_unique sch parent uniq_str_path = Some r ->
  exists start,
    (exists pd, sch !! parent = Some pd /\ node_child pd = Some start) /\
    let res := resolve_descendant_schema_nodeid E sch uniq_str_path start [LYS_LEAF] true
                 true None in
    ((uq_rc r = EXIT_SUCCESS /\ uq_log r = [] /\
      exists leaf ld,
        nr_ret res = Some leaf /\
        sch !! leaf = Some ld /\ node_nodetype ld = LYS_LEAF /\
        se_check_status E sch parent leaf = 0 /\
        uq_schema r = <[leaf := set_flags (Z.lor (node_flags ld) lys_unique) ld]> sch) \/
     (uq_rc r = EXIT_FAILURE /\ uq_schema r = sch /\ uq_log r = [LYE_INARG; LYE_SPEC] /\
      nr_rc res = 0 /\ nr_ret res = None) \/
     (uq_rc r = -1 /\ uq_schema r = sch /\
      ((uq_log r = [LYE_INARG; LYE_INCHAR] /\
        nodeid_syntax_error uniq_str_path = Some (nr_rc res - 1)) \/
       (uq_log r = [LYE_INARG; LYE_SPEC] /\ nr_rc res = -2) \/
       (uq_log r = [LYE_INARG] /\ nr_rc res = -1) \/
       (uq_log r = [LYE_INSTATUS] /\
        exists leaf, nr_ret res = Some leaf /\ se_check_status E sch parent leaf <> 0)))).
Proof.
  unfold resolve_unique. intros H.
  destruct (sch !! parent) as [pd|]; [|discriminate]. simpl in H.
  destruct (node_child pd) as [start|] eqn:Ech; [|discriminate]. simpl in H.
  exists start. split; [exists pd; split; [reflexivity | exact Ech]|]. cbv zeta.
  pose proof (resolve_descendant_schema_nodeid_outcome E sch uniq_str_path start [LYS_LEAF]
                true true None) as Ho. cbv zeta in Ho.
  set (res := resolve_descendant_schema_nodeid E sch uniq_str_path start [LYS_LEAF] true true
                None) in *.
  destruct (nr_rc res =? 0) eqn:Erc; simpl in H.
  2:{ apply Z.eqb_neq in Erc. inversion H; subst. right. right. simpl.
      split; [reflexivity|]. split; [reflexivity|].
      destruct Ho as [(Ho & _)|[(Ho & _)|[(Ho & _)|(Ho & _ & Hs)]]]; [contradiction| | |].
      - rewrite Ho. simpl. right. right. left. split; reflexivity.
      - rewrite Ho. simpl. right. left. split; reflexivity.
      - destruct (0 <? nr_rc res) eqn:Epos; [|apply Z.ltb_ge in Epos; lia].
        left. split; [reflexivity | exact Hs]. }
  apply Z.eqb_eq in Erc.
  destruct Ho as [(_ & Ho)|[(Ho & _)|[(Ho & _)|(Ho & _)]]]; try lia.
  destruct (nr_ret res) as [leaf|] eqn:Eret.
  2:{ inversion H; subst. right. left. simpl. auto. }
  destruct Ho as (ld' & Hld' & Hmask).
  rewrite Hld' in H. simpl in H.
  assert (Hleaf : node_nodetype ld' = LYS_LEAF).
  { unfold nodetype_in in Hmask. simpl in Hmask. rewrite orb_false_r in Hmask.
    apply bool_decide_eq_true_1 in Hmask. congruence. }
  rewrite (bool_decide_eq_true_2 _ Hleaf) in H. simpl in H.
  destruct (se_check_status E sch parent leaf =? 0) eqn:Est; simpl in H.
  2:{ apply Z.eqb_neq in Est. inversion H; subst. right. right. simpl.
      split; [reflexivity|]. split; [reflexivity|]. right. right. right.
      split; [reflexivity|]. exists leaf. split; [reflexivity | exact Est]. }
  apply Z.eqb_eq in Est. inversion H; subst. left. simpl.
  split; [reflexivity|]. split; [reflexivity|].
  exists leaf, ld'. auto.
Qed.

Lemma resolve_unique_returns (E : schema_env) (lys_unique : Z) (sch : list lys_node)
  (parent : nat) (pd : lys_node) (start : nat) (uniq_str_path : string) :
  sch !! parent = Some pd -> node_child pd = Some start ->
  exists r, resolve_unique E lys_unique sch parent uniq_str_path = Some r.
Proof.
  intros Hp Hc. unfold resolve_unique. rewrite Hp. cbn [mbind option_bind].
  rewrite Hc. cbn [mbind option_bind]. cbv zeta.
  pose proof (resolve_descendant_schema_nodeid_outcome E sch uniq_str_path start [LYS_LEAF]
                true true None) as Ho. cbv zeta in Ho.
  set (res := resolve_descendant_schema_nodeid E sch uniq_str_path start [LYS_LEAF] true true
                None) in *.
  destruct (nr_rc res =? 0) eqn:Erc; simpl negb; cbv iota; [|eexists; reflexivity].
  apply Z.eqb_eq in Erc.
  destruct Ho as [(_ & Ho)|[(Ho & _)|[(Ho & _)|(Ho & _)]]]; try lia.
  destruct (nr_ret res) as [leaf|]; [|eexists; reflexivity].
  destruct Ho as (ld & Hld & _). rewrite Hld. cbn [mbind option_bind].
  destruct (negb (bool_decide (node_nodetype ld = LYS_LEAF))); [eexists; reflexivity|].
  destruct (negb (se_check_status E sch parent leaf =? 0)); eexists; reflexivity.
Qed.

(** X19: [resolve_unique] on a parent with a child returns success, EXIT_FAILURE
    or -1. With success the target is a leaf whose status fits, it alone is
    changed, and only by the unique flag added to its flags. With
    EXIT_FAILURE the resolver found no node. With -1 the schema is left as it
    was and the log tells the cause: a path that does not parse (with the
    offset), a path through a list, an error of the resolver, or a status
    that does not fit; the test "Target is not a leaf" never fails. *)
Theorem resolve_unique_outcome (E : schema_env) (lys_unique : Z) (sch : list lys_node)
  (parent : nat) (pd : lys_node) (start : nat) (uniq_str_path : string) :
  sch !! parent = Some pd -> node_child pd = Some start ->
  exists r,
    resolve_unique E lys_unique sch parent uniq_str_path = Some r /\
    let res := resolve_descendant_schema_nodeid E sch uniq_str_path start [LYS_LEAF] true
                 true None in
    ((uq_rc r = EXIT_SUCCESS /\ uq_log r = [] /\
      exists leaf ld,
        nr_ret res = Some leaf /\
        sch !! leaf = Some ld /\ node_nodetype ld = LYS_LEAF /\
        se_check_status E sch parent leaf = 0 /\
        uq_schema r = <[leaf := set_flags (Z.lor (node_flags ld) lys_unique) ld]> sch) \/
     (uq_rc r = EXIT_FAILURE /\ uq_schema r = sch /\ uq_log r = [LYE_INARG; LYE_SPEC] /\
      nr_rc res = 0 /\ nr_ret res = None) \/
     (uq_rc r = -1 /\ uq_schema r = sch /\
      ((uq_log r = [LYE_INARG; LYE_INCHAR] /\
        nodeid_syntax_error uniq_str_path = Some (nr_rc res - 1)) \/
       (uq_log r = [LYE_INARG; LYE_SPEC] /\ nr_rc res = -2) \/
       (uq_log r = [LYE_INARG] /\ nr_rc res = -1) \/
       (uq_log r = [LYE_INSTATUS] /\
        exists leaf, nr_ret res = Some leaf /\ se_check_status E sch parent leaf <> 0)))).
Proof.
  intros Hp Hc.
  destruct (resolve_unique_returns E lys_unique sch parent pd start uniq_str_path Hp Hc)
    as [r Hr].
  exists r. split; [exact Hr|].
  destruct (unique_outcome E lys_unique sch parent uniq_str_path r Hr)
    as (start' & (pd' & Hp' & Hc') & H).
  assert (start' = start) by congruence. subst start'. exact H.
Qed.

Lemma resolve_unique_outcome_witness :
  exists r,
    resolve_unique (plain_env ["m"]) 256 schema_list_keys 0 "v" = Some r /\
    uq_rc r = EXIT_SUCCESS /\
    uq_schema r
      = <[3%nat := mk_node "v" LYS_LEAF 257 0 (Some 0%nat) None None (Some 2%nat)]>
          schema_list_keys.
Proof.
  destruct (resolve_unique_outcome (plain_env ["m"]) 256 schema_list_keys 0 _ 1 "v"
              eq_refl eq_refl)
    as (r & Hr & _).
  exists r. split; [exact Hr|]. vm_compute in Hr. inversion Hr. split; reflexivity.
Defined.

(** *** The default case of a choice *)

Lemma resolve_choice_dflt_from_spec (sch : list lys_node) (dflt : string) (fuel : nat) :
  forall child res,
    resolve_choice_dflt_from fuel sch child dflt = Some res ->
    match res with
    | Some r =>
        exists rd, sch !! r = Some rd /\ node_name rd = Some dflt /\
          nodetype_in (node_nodetype rd) choice_dflt_types = true /\
          through_uses sch child r
    | None =>
        forall n nd, through_uses sch child n -> sch !! n = Some nd ->
          node_name nd = Some dflt ->
          nodetype_in (node_nodetype nd) choice_dflt_types = false
    end.
Proof.
  induction fuel as [|fuel IH]; intros child res H; [discriminate|].
  cbn [resolve_choice_dflt_from] in H. destruct child as [c|].
  2:{ inversion H; subst. intros n nd Hn. inversion Hn. }
  destruct (sch !! c) as [cd|] eqn:Ec; [|discriminate]. cbn [mbind option_bind] in H.
  (* the content of a uses *)
  assert (Huses : exists ret,
             (if bool_decide (node_nodetype cd = LYS_USES)
              then resolve_choice_dflt_from fuel sch (node_child cd) dflt
              else Some None) = Some ret /\
             match ret with
             | Some r =>
                 exists rd, sch !! r = Some rd /\ node_name rd = Some dflt /\
                   nodetype_in (node_nodetype rd) choice_dflt_types = true /\
                   through_uses sch (Some c) r
             | None =>
                 forall n nd, node_nodetype cd = LYS_USES ->
                   through_uses sch (node_child cd) n -> sch !! n = Some nd ->
                   node_name nd = Some dflt ->
                   nodetype_in (node_nodetype nd) choice_dflt_types = false
             end).
  { destruct (bool_decide_reflect (node_nodetype cd = LYS_USES)) as [Hu|Hu].
    - destruct (resolve_choice_dflt_from fuel sch (node_child cd) dflt) as [ret|] eqn:Er;
        [|discriminate].
      exists ret. split; [reflexivity|]. specialize (IH _ _ Er).
      destruct ret as [r|].
      + destruct IH as (rd & H1 & H2 & H3 & H4). exists rd.
        split; [exact H1|]. split; [exact H2|]. split; [exact H3|].
        exact (tu_uses sch c cd r Ec Hu H4).
      + intros n nd _. apply IH.
    - exists None. split; [reflexivity|]. intros n nd Hx. contradiction. }
  destruct Huses as (ret & Hret & Hspec). rewrite Hret in H. cbn [mbind option_bind] in H.
  destruct ret as [r|]; [inversion H; subst; exact Hspec|].
  destruct (match node_name cd with
            | Some name => ly_strequal name dflt
            | None => false
            end
            && nodetype_in (node_nodetype cd)
                 [LYS_ANYXML; LYS_CASE; LYS_CONTAINER; LYS_LEAF; LYS_LEAFLIST; LYS_LIST])
    eqn:Ehere.
  - inversion H; subst. apply andb_prop in Ehere as [Hn Ht]. cbv beta iota.
    exists cd. split; [exact Ec|]. split; [|split; [exact Ht | apply tu_here]].
    destruct (node_name cd) as [name|]; [|discriminate].
    unfold ly_strequal in Hn. apply String.eqb_eq in Hn. congruence.
  - specialize (IH _ _ H). destruct res as [r|].
    + destruct IH as (rd & H1 & H2 & H3 & H4). exists rd.
      split; [exact H1|]. split; [exact H2|]. split; [exact H3|].
      exact (tu_next sch c cd r Ec H4).
    + intros n nd Hn Hnd Hname. inversion Hn; subst.
      * rewrite Ec in Hnd. inversion Hnd; subst nd.
        rewrite Hname in Ehere. unfold ly_strequal in Ehere.
        rewrite String.eqb_refl in Ehere. exact Ehere.
      * match goal with Hc : sch !! c = Some ?x |- _ =>
          rewrite Ec in Hc; inversion Hc; subst x end.
        exact (IH n nd ltac:(assumption) Hnd Hname).
      * match goal with Hc : sch !! c = Some ?x |- _ =>
          rewrite Ec in Hc; inversion Hc; subst x end.
        exact (Hspec n nd ltac:(assumption) ltac:(assumption) Hnd Hname).
Qed.

Lemma resolve_choice_dflt_from_returns (sch : list lys_node) (dflt : string) (fuel : nat) :
  forall child,
    choice_walk_ends fuel sch child = true ->
    exists res, resolve_choice_dflt_from fuel sch child dflt = Some res.
Proof.
  induction fuel as [|fuel IH]; intros child H; [discriminate|].
  cbn [choice_walk_ends] in H. cbn [resolve_choice_dflt_from].
  destruct child as [c|]; [|eexists; reflexivity].
  destruct (sch !! c) as [cd|]; [|discriminate]. cbn [mbind option_bind].
  apply andb_prop in H as [Hu Hn].
  assert (Huses : exists ret,
             (if bool_decide (node_nodetype cd = LYS_USES)
              then resolve_choice_dflt_from fuel sch (node_child cd) dflt
              else Some None) = Some ret).
  { destruct (bool_decide (node_nodetype cd = LYS_USES)); [apply IH; exact Hu|].
    eexists; reflexivity. }
  destruct Huses as [ret Hret]. rewrite Hret. cbn [mbind option_bind].
  destruct ret as [r|]; [eexists; reflexivity|].
  destruct (_ && _); [eexists; reflexivity|]. apply IH. exact Hn.
Qed.

(** X20: [resolve_choice_dflt] on a choice whose sibling lists end searches the
    children of the choice and, through uses nodes, their content: it
    returns, a node it returns has the name of the default and is an anyxml,
    case, container, leaf, leaf-list or list, and it returns NULL only when
    no such node is there. *)
Theorem resolve_choice_dflt_found (fuel : nat) (sch : list lys_node) (choic : nat)
  (cd : lys_node) (dflt : string) :
  sch !! choic = Some cd ->
  choice_walk_ends fuel sch (node_child cd) = true ->
  exists res,
    resolve_choice_dflt fuel sch choic dflt = Some res /\
    match res with
    | Some r =>
        exists rd, sch !! r = Some rd /\ node_name rd = Some dflt /\
          nodetype_in (node_nodetype rd) choice_dflt_types = true /\
          through_uses sch (node_child cd) r
    | None =>
        forall n nd, through_uses sch (node_child cd) n -> sch !! n = Some nd ->
          node_name nd = Some dflt ->
          nodetype_in (node_nodetype nd) choice_dflt_types = false
    end.
Proof.
  intros Hc Hw. unfold resolve_choice_dflt. rewrite Hc. cbn [mbind option_bind].
  destruct (resolve_choice_dflt_from_returns sch dflt fuel _ Hw) as [res Hres].
  exists res. split; [exact Hres|].
  exact (resolve_choice_dflt_from_spec sch dflt fuel _ _ Hres).
Qed.

(** The default "x" of the choice "ch" is the container that the uses
    brings, not the case "x" after it. *)
Lemma resolve_choice_dflt_found_witness :
  resolve_choice_dflt 8 schema_choice 0 "x" = Some (Some 4%nat) /\
  through_uses schema_choice (Some 1%nat) 4.
Proof.
  destruct (resolve_choice_dflt_found 8 schema_choice 0 _ "x" eq_refl eq_refl)
    as (res & Hres & H).
  vm_compute in Hres. inversion Hres; subst res. split; [reflexivity|].
  destruct H as (rd & _ & _ & _ & Ht). exact Ht.
Defined.

(** ** resolve.c: identityref values *)

Section IdentrefText.

#[local] Open Scope string_scope.

Lemma whole_identifier_nul_free (s : string) : whole_identifier s -> nul_free s.
Proof.
  intros H. destruct (whole_identifier_run s H) as (_ & _ & Hr).
  intros i Hi Hn. pose proof (ident_run_chars s i ltac:(lia)) as Hc.
  rewrite Hn in Hc. discriminate.
Qed.

Lemma nul_free_tail (c : ascii) (s : string) : nul_free (String c s) -> nul_free s.
Proof. intros H i Hi. apply (H (S i)). simpl. lia. Qed.

Lemma nul_free_head (c : ascii) (s : string) : nul_free (String c s) -> c <> NUL.
Proof. intros H. apply (H 0%nat). simpl. lia. Qed.

(** Comparing with the first bytes of a longer text and testing for the
    end of the string is string equality. *)
Lemma name_is_app (p : string) :
  forall a rest, nul_free a -> nul_free p ->
    name_is a (Some (p ++ rest)) (Z.of_nat (String.length p)) = String.eqb a p.
Proof.
  unfold name_is. induction p as [|c p IH]; intros a rest Ha Hp; rewrite Nat2Z.id.
  - cbn [String.length strncmp0 andb]. destruct a as [|d a]; [reflexivity|].
    change (cchar (String d a) 0) with d. unfold cnonzero.
    pose proof (nul_free_head _ _ Ha) as Hd.
    destruct (Ascii.eqb_spec d NUL); [contradiction | reflexivity].
  - simpl String.length. cbn [strncmp0].
    change (cchar (String c p ++ rest) 0) with c.
    pose proof (nul_free_head _ _ Hp) as Hc.
    destruct a as [|d a].
    + change (cchar "" 0) with NUL. unfold ceq.
      destruct (Ascii.eqb_spec NUL c) as [He|He]; [congruence|]. reflexivity.
    + change (cchar (String d a) 0) with d. unfold ceq. simpl String.eqb.
      destruct (Ascii.eqb_spec d c) as [He|He]; simpl negb; cbv iota; [|reflexivity].
      subst d. destruct (Ascii.eqb_spec c NUL) as [Hz|Hz]; [contradiction|].
      change (cskip 1 (String c a)) with a.
      change (cskip 1 (String c p ++ rest)) with (p ++ rest).
      change (cchar (String c a) (S (String.length p))) with (cchar a (String.length p)).
      specialize (IH a rest (nul_free_tail _ _ Ha) (nul_free_tail _ _ Hp)).
      rewrite Nat2Z.id in IH. exact IH.
Qed.

(** A name with an optional prefix parses as a whole. *)
Lemma parse_node_identifier_text (prefix : option string) (name : string) :
  whole_identifier name ->
  match prefix with Some p => whole_identifier p | None => True end ->
  exists ni,
  parse_node_identifier (prefixed_text prefix name) = ni /\
  ni_ret ni = Z.of_nat (String.length (prefixed_text prefix name)) /\
  0 < ni_ret ni /\
  ni_name ni = Some name /\
  match prefix with
  | Some p => ni_mod_name ni = Some (p ++ ":" ++ name)
              /\ ni_mod_name_len ni = Z.of_nat (String.length p)
  | None => ni_mod_name ni = None
  end.
Proof.
  intros Hn Hp. destruct (whole_identifier_start name Hn) as [_ Hln].
  destruct prefix as [p|]; unfold prefixed_text.
  - pose proof (node_identifier_prefixed p name "" Hp Hn eq_refl) as H.
    assert (Happ : name ++ "" = name)
      by (clear; induction name as [|c s IH]; simpl; [reflexivity | rewrite IH; reflexivity]).
    rewrite Happ in H. eexists. split; [reflexivity|]. rewrite H. simpl.
    rewrite length_app_string. simpl. split; [lia|]. split; [lia|]. auto.
  - pose proof (parse_node_identifier_plain name "" Hn eq_refl eq_refl) as H.
    assert (Happ : name ++ "" = name)
      by (clear; induction name as [|c s IH]; simpl; [reflexivity | rewrite IH; reflexivity]).
    rewrite Happ in H. eexists. split; [reflexivity|]. rewrite H. simpl.
    split; [reflexivity|]. split; [lia|]. auto.
Qed.

Lemma resolve_identref_der_find (h : list lys_ident) (module_name_of : nat -> string)
  (ni : node_identifier) (p : nat -> bool) (der : list nat) :
  (forall d dd, In d der -> h !! d = Some dd -> identref_match module_name_of d dd ni = p d) ->
  (forall d, In d der -> is_Some (h !! d)) ->
  resolve_identref_der h module_name_of ni der = Some (List.find p der).
Proof.
  induction der as [|d rest IH]; intros Hm Hv; [reflexivity|].
  simpl. destruct (Hv d (or_introl eq_refl)) as [dd Hd]. rewrite Hd. simpl.
  rewrite (Hm d dd (or_introl eq_refl) Hd).
  destruct (p d); [reflexivity|].
  apply IH; intros; [apply Hm | apply Hv]; try right; assumption.
Qed.

Lemma identref_first (h : list lys_ident) (module_name_of : nat -> string)
  (base : nat) (bd : lys_ident) (prefix : option string) (name : string) :
  h !! base = Some bd ->
  (forall d, In d (default [] (ident_der bd)) -> is_Some (h !! d)) ->
  (forall i, nul_free (module_name_of i)) ->
  whole_identifier name ->
  match prefix with Some p => whole_identifier p | None => True end ->
  let found := List.find (identity_named h module_name_of prefix name)
                 (base :: default [] (ident_der bd)) in
  resolve_identref h module_name_of (Some base) (Some (prefixed_text prefix name))
    = Some (found, match found with Some _ => [] | None => [LYE_INRESOLV] end).
Proof.
  intros Hb Hder Hnf Hn Hp found. subst found.
  destruct (whole_identifier_start name Hn) as [_ Hln].
  destruct (parse_node_identifier_text prefix name Hn Hp) as (ni & Hni & Hret & Hpos & Hname & Hmod).
  (* the test of the code is the test of the statement *)
  assert (Hmatch : forall i idn, h !! i = Some idn ->
            identref_match module_name_of i idn ni
              = identity_named h module_name_of prefix name i).
  { intros i idn Hi. unfold identref_match, identity_named. rewrite Hname, Hi.
    unfold strcmp0. f_equal.
    destruct prefix as [p|].
    - destruct Hmod as [Hm Hl]. rewrite Hm, Hl.
      rewrite bool_decide_eq_false_2 by discriminate. simpl orb.
      apply name_is_app; [apply Hnf | apply whole_identifier_nul_free; exact Hp].
    - rewrite Hmod. reflexivity. }
  unfold resolve_identref. rewrite Hni.
  destruct (ni_ret ni <? 1)%Z eqn:E1; [apply Z.ltb_lt in E1; lia|].
  destruct (ni_ret ni <? Z.of_nat (String.length (prefixed_text prefix name)))%Z eqn:E2;
    [apply Z.ltb_lt in E2; lia|].
  rewrite Hb. simpl mbind. cbn [mbind option_bind].
  simpl List.find. rewrite <- (Hmatch base bd Hb).
  destruct (identref_match module_name_of base bd ni); [reflexivity|].
  assert (Hscan : match ident_der bd with
                  | Some der => resolve_identref_der h module_name_of ni der
                  | None => Some None
                  end
                  = Some (List.find (identity_named h module_name_of prefix name)
                            (default [] (ident_der bd)))).
  { destruct (ident_der bd) as [der|]; [|reflexivity]. simpl default.
    apply resolve_identref_der_find.
    - intros d dd _ Hd. apply Hmatch. exact Hd.
    - exact Hder. }
  rewrite Hscan. cbn [mbind option_bind].
  destruct (List.find _ _); reflexivity.
Qed.

(** X21: An identityref value [name] or [prefix:name] resolves to the first
    identity among the base and its derived identities, in the order of the
    back-links, that has the name and, with a prefix, belongs to the module
    of that name, and logs nothing; when there is none the result is NULL
    and the failure to resolve is logged. *)
Theorem resolve_identref_first (h : list lys_ident) (module_name_of : nat -> string)
  (base : nat) (bd : lys_ident) (prefix : option string) (name : string) :
  h !! base = Some bd ->
  (forall d, In d (default [] (ident_der bd)) -> is_Some (h !! d)) ->
  (forall i, nul_free (module_name_of i)) ->
  whole_identifier name ->
  match prefix with Some p => whole_identifier p | None => True end ->
  let found := List.find (identity_named h module_name_of prefix name)
                 (base :: default [] (ident_der bd)) in
  resolve_identref h module_name_of (Some base) (Some (prefixed_text prefix name))
    = Some (found, match found with Some _ => [] | None => [LYE_INRESOLV] end).
Proof. intros; eapply identref_first; eassumption. Qed.

Lemma no_nul_free (s : string) : no_nul s = true -> nul_free s.
Proof.
  induction s as [|c s IH]; intros H i Hi; simpl in *; [lia|].
  apply andb_prop in H as [Hc Hs]. destruct i as [|i].
  - change (cchar (String c s) 0) with c. intros ->. discriminate Hc.
  - change (cchar (String c s) (S i)) with (cchar s i). apply (IH Hs). lia.
Qed.

Lemma resolve_identref_first_witness :
  resolve_identref graph_animals_resolved (fun _ => "zoo") (Some 0%nat) (Some "zoo:dog")
    = Some (Some 2%nat, []).
Proof.
  apply (resolve_identref_first graph_animals_resolved (fun _ => "zoo") 0
           {| ident_name := "animal"; ident_base := None; ident_der := Some [1%nat; 2%nat] |}
           (Some "zoo") "dog").
  - reflexivity.
  - intros d [<-|[<-|[]]]; simpl; eauto.
  - intros _. apply no_nul_free. reflexivity.
  - split; [discriminate | reflexivity].
  - split; [discriminate | reflexivity].
Defined.

End IdentrefText.


(** ** resolve.c: the back-links of identities *)

Lemma bases_insert (h : list lys_ident) (i : nat) (x y : lys_ident) :
  h !! i = Some x -> ident_base y = ident_base x ->
  ident_base <$> <[i := y]> h = ident_base <$> h.
Proof.
  intros Hi Hy. rewrite list_fmap_insert. apply list_insert_id.
  rewrite list_lookup_fmap, Hi. simpl. congruence.
Qed.

Lemma add_backlinks_bases (fuel : nat) :
  forall (h h' : list lys_ident) (ident : nat) (base : option nat),
    add_backlinks fuel h ident base = Some h' ->
    ident_base <$> h' = ident_base <$> h.
Proof.
  induction fuel as [|fuel IH]; intros h h' ident [b|] H; simpl in H;
    try discriminate; try (inversion H; reflexivity).
  destruct (h !! b) as [bi|] eqn:Hb; [|inversion H; reflexivity].
  apply IH in H. rewrite H. apply (bases_insert h b bi); [exact Hb | reflexivity].
Qed.

(** The chain of bases depends on the [base] pointers only. *)
Lemma on_base_chain_bases (h h' : list lys_ident) (s : option nat) (a : nat) :
  ident_base <$> h = ident_base <$> h' ->
  on_base_chain h s a -> on_base_chain h' s a.
Proof.
  intros Hb Hc. induction Hc as [a|b bi a Hl _ IH]; [constructor|].
  assert (Hi : ident_base <$> (h !! b) = ident_base <$> (h' !! b))
    by (rewrite <- !list_lookup_fmap, Hb; reflexivity).
  rewrite Hl in Hi. destruct (h' !! b) as [bi'|] eqn:Hl'; [|discriminate].
  simpl in Hi. inversion Hi as [Hbb]. apply (obc_step h' b bi' a Hl').
  rewrite <- Hbb. exact IH.
Qed.

Lemma der_of_insert_add (h : list lys_ident) (b : nat) (bi : lys_ident) (ident a x : nat) :
  h !! b = Some bi ->
  In x (der_of h a) -> In x (der_of (<[b := add_der ident bi]> h) a).
Proof.
  intros Hb Hx. unfold der_of in *. destruct (decide (a = b)) as [->|Hne].
  - rewrite list_lookup_insert_eq by (apply lookup_lt_is_Some; eauto).
    rewrite Hb in Hx. simpl. destruct (ident_der bi); simpl in *; [|contradiction].
    apply in_or_app. left. exact Hx.
  - rewrite list_lookup_insert_ne by congruence. exact Hx.
Qed.

(** The loop of the back-links only appends. *)
Lemma add_backlinks_der_mono (fuel : nat) :
  forall (h h' : list lys_ident) (ident : nat) (base : option nat),
    add_backlinks fuel h ident base = Some h' ->
    forall a x, In x (der_of h a) -> In x (der_of h' a).
Proof.
  induction fuel as [|fuel IH]; intros h h' ident [b|] H a x Hx; simpl in H;
    try discriminate; try (inversion H; subst; exact Hx).
  destruct (h !! b) as [bi|] eqn:Hb; [|inversion H; subst; exact Hx].
  apply (IH _ _ _ _ H). apply der_of_insert_add; assumption.
Qed.

Lemma add_backlinks_chain (fuel : nat) :
  forall (h h' : list lys_ident) (ident : nat) (base : option nat),
    add_backlinks fuel h ident base = Some h' ->
    forall a, on_base_chain h base a -> is_Some (h' !! a) -> In ident (der_of h' a).
Proof.
  induction fuel as [|fuel IH]; intros h h' ident base H a Hc Ha.
  - destruct base as [b|]; simpl in H; [discriminate|]. inversion Hc.
  - destruct base as [b|]; [|inversion Hc]. simpl in H.
    destruct (h !! b) as [bi|] eqn:Hb.
    + assert (Hbases : ident_base <$> h = ident_base <$> <[b := add_der ident bi]> h)
        by (symmetry; apply (bases_insert h b bi); [exact Hb | reflexivity]).
      inversion Hc as [a'|b' bi' a' Hl Hrest]; subst.
      * apply (add_backlinks_der_mono _ _ _ _ _ H). unfold der_of.
        rewrite list_lookup_insert_eq by (apply lookup_lt_is_Some; eauto).
        simpl. destruct (ident_der bi); simpl; [apply in_or_app; right|]; left; reflexivity.
      * rewrite Hb in Hl. inversion Hl; subst bi'.
        apply (IH _ _ _ _ H); [|exact Ha].
        apply (on_base_chain_bases h); assumption.
    + inversion H; subst h'. inversion Hc as [a'|b' bi' a' Hl Hrest]; subst.
      * rewrite Hb in Ha. destruct Ha as [? Ha]. discriminate.
      * rewrite Hb in Hl. discriminate.
Qed.

Lemma add_backlinks_off_chain (fuel : nat) :
  forall (h h' : list lys_ident) (ident : nat) (base : option nat),
    add_backlinks fuel h ident base = Some h' ->
    forall a, ~ on_base_chain h base a -> h' !! a = h !! a.
Proof.
  induction fuel as [|fuel IH]; intros h h' ident [b|] H a Hc; simpl in H;
    try discriminate; try (inversion H; reflexivity).
  destruct (h !! b) as [bi|] eqn:Hb; [|inversion H; reflexivity].
  assert (Hbases : ident_base <$> <[b := add_der ident bi]> h = ident_base <$> h)
    by (apply (bases_insert h b bi); [exact Hb | reflexivity]).
  assert (Hne : a <> b) by (intros ->; apply Hc; apply obc_here).
  rewrite (IH _ _ _ _ H a).
  - apply list_lookup_insert_ne. congruence.
  - intros Hc'. apply Hc. apply (obc_step h b bi a Hb).
    apply (on_base_chain_bases _ h _ _ Hbases). exact Hc'.
Qed.

Lemma base_chain_ends_bases (fuel : nat) :
  forall (h h' : list lys_ident) (s : option nat),
    ident_base <$> h = ident_base <$> h' ->
    base_chain_ends fuel h s = base_chain_ends fuel h' s.
Proof.
  induction fuel as [|fuel IH]; intros h h' [b|] Hb; simpl; try reflexivity.
  assert (Hi : ident_base <$> (h !! b) = ident_base <$> (h' !! b))
    by (rewrite <- !list_lookup_fmap, Hb; reflexivity).
  destruct (h !! b) as [bi|], (h' !! b) as [bi'|]; simpl in Hi; try discriminate;
    [|reflexivity].
  inversion Hi as [Hbb]. rewrite Hbb. apply IH. exact Hb.
Qed.

Lemma add_backlinks_returns (fuel : nat) :
  forall (h : list lys_ident) (ident : nat) (base : option nat),
    base_chain_ends fuel h base = true ->
    exists h', add_backlinks fuel h ident base = Some h'.
Proof.
  induction fuel as [|fuel IH]; intros h ident [b|] H; simpl in *;
    try discriminate; try (eexists; reflexivity).
  destruct (h !! b) as [bi|] eqn:Hb; [|eexists; reflexivity].
  apply IH. rewrite <- H. apply base_chain_ends_bases.
  apply (bases_insert h b bi); [exact Hb | reflexivity].
Qed.

(** The check for a circular reference passes exactly for an identity that
    is not on the chain. *)
Lemma circular_check_off_chain (fuel : nat) :
  forall (h : list lys_ident) (ident : nat) (s : option nat),
    base_chain_ends fuel h s = true ->
    ~ on_base_chain h s ident ->
    circular_check fuel h ident s = Some None.
Proof.
  induction fuel as [|fuel IH]; intros h ident [b|] He Hc; simpl in *;
    try discriminate; try reflexivity.
  destruct (Nat.eqb_spec ident b) as [->|Hne]; [exfalso; apply Hc; apply obc_here|].
  destruct (h !! b) as [bi|] eqn:Hb; [|reflexivity].
  apply IH; [exact He|]. intros Hc'. apply Hc. exact (obc_step h b bi ident Hb Hc').
Qed.

(** A change of an identity off the chain does not change the chain. *)
Lemma on_base_chain_insert (h : list lys_ident) (i : nat) (x : lys_ident) (s : option nat)
  (a : nat) :
  ~ on_base_chain h s i ->
  on_base_chain h s a <-> on_base_chain (<[i := x]> h) s a.
Proof.
  intros Hoff. split; intros Hc.
  - induction Hc as [a|b bi a Hl Hrest IH]; [constructor|].
    assert (Hne : i <> b) by (intros ->; apply Hoff; apply obc_here).
    apply (obc_step _ b bi a); [rewrite list_lookup_insert_ne by exact Hne; exact Hl|].
    apply IH. intros Hc'. apply Hoff. exact (obc_step h b bi i Hl Hc').
  - induction Hc as [a|b bi a Hl Hrest IH]; [constructor|].
    assert (Hne : i <> b) by (intros ->; apply Hoff; apply obc_here).
    rewrite list_lookup_insert_ne in Hl by exact Hne.
    apply (obc_step _ b bi a Hl). apply IH.
    intros Hc'. apply Hoff. exact (obc_step h b bi i Hl Hc').
Qed.

Lemma base_chain_ends_insert (fuel : nat) :
  forall (h : list lys_ident) (i : nat) (x : lys_ident) (s : option nat),
    ~ on_base_chain h s i ->
    base_chain_ends fuel (<[i := x]> h) s = base_chain_ends fuel h s.
Proof.
  induction fuel as [|fuel IH]; intros h i x [b|] Hoff; simpl; try reflexivity.
  assert (Hne : i <> b) by (intros ->; apply Hoff; apply obc_here).
  rewrite list_lookup_insert_ne by exact Hne.
  destruct (h !! b) as [bi|] eqn:Hb; [|reflexivity].
  apply IH. intros Hc'. apply Hoff. exact (obc_step h b bi i Hb Hc').
Qed.

Lemma add_backlinks_der_only (fuel : nat) :
  forall (h h' : list lys_ident) (ident : nat) (base : option nat),
    add_backlinks fuel h ident base = Some h' ->
    forall a x, In x (der_of h' a) -> x = ident \/ In x (der_of h a).
Proof.
  induction fuel as [|fuel IH]; intros h h' ident [b|] H a x Hx; simpl in H;
    try discriminate; try (inversion H; subst; right; exact Hx).
  destruct (h !! b) as [bi|] eqn:Hb; [|inversion H; subst; right; exact Hx].
  destruct (IH _ _ _ _ H a x Hx) as [->|Hx']; [left; reflexivity|].
  unfold der_of in *. destruct (decide (a = b)) as [->|Hne].
  - rewrite list_lookup_insert_eq in Hx' by (apply lookup_lt_is_Some; eauto).
    rewrite Hb. simpl in Hx'. destruct (ident_der bi); simpl in *.
    + apply in_app_or in Hx' as [Hx'|[<-|[]]]; [right; exact Hx' | left; reflexivity].
    + destruct Hx' as [<-|[]]. left; reflexivity.
  - rewrite list_lookup_insert_ne in Hx' by congruence. right. exact Hx'.
Qed.

(** What a resolution of a base does when the chain of bases from the base
    found ends and does not hold the identity. *)
Lemma resolve_base_ident_sub_links (fuel : nat) (g : ident_graph)
  (module : lys_module_idents) (i b : nat) (ii : lys_ident) (basename : string)
  (ret0 : option nat) :
  search_base g module basename = Some b ->
  ig_ident g !! i = Some ii ->
  base_chain_ends fuel (ig_ident g) (Some b) = true ->
  ~ on_base_chain (ig_ident g) (Some b) i ->
  exists h2,
    resolve_base_ident_sub fuel g module (Some i) basename ret0
      = Some {| bi_rc := EXIT_SUCCESS; bi_ret := Some b; bi_ident := h2; bi_log := [] |} /\
    add_backlinks fuel (<[i := set_ident_base (Some b) ii]> (ig_ident g)) i (Some b) = Some h2.
Proof.
  intros Hs Hi He Hoff. unfold resolve_base_ident_sub. rewrite Hs.
  rewrite (circular_check_off_chain fuel _ i _ He Hoff). rewrite Hi.
  destruct (add_backlinks_returns fuel (<[i := set_ident_base (Some b) ii]> (ig_ident g)) i
              (Some b)) as [h2 Hadd].
  { rewrite base_chain_ends_insert by exact Hoff. exact He. }
  exists h2. rewrite Hadd. split; reflexivity.
Qed.

(** X22: The effect of [resolve_base_ident_sub] that finds the base [b] of the
    identity [i], when the chain of bases from [b] ends and does not hold
    [i]: it returns success, [*ret] and the [base] of [i] are [b], every
    identity on the chain has [i] among its derived identities, no back-link
    is lost and none but [i] is added, and an identity off the chain, other
    than [i], is as it was. *)
Theorem resolve_base_ident_sub_backlinks (fuel : nat) (g : ident_graph)
  (module : lys_module_idents) (i b : nat) (ii : lys_ident) (basename : string)
  (ret0 : option nat) :
  search_base g module basename = Some b ->
  ig_ident g !! i = Some ii ->
  base_chain_ends fuel (ig_ident g) (Some b) = true ->
  ~ on_base_chain (ig_ident g) (Some b) i ->
  exists r,
    resolve_base_ident_sub fuel g module (Some i) basename ret0 = Some r /\
    bi_rc r = EXIT_SUCCESS /\ bi_ret r = Some b /\ bi_log r = [] /\
    ident_base <$> (bi_ident r !! i) = Some (Some b) /\
    (forall a, on_base_chain (ig_ident g) (Some b) a -> is_Some (ig_ident g !! a) ->
       In i (der_of (bi_ident r) a)) /\
    (forall a x, In x (der_of (ig_ident g) a) -> In x (der_of (bi_ident r) a)) /\
    (forall a x, In x (der_of (bi_ident r) a) -> x = i \/ In x (der_of (ig_ident g) a)) /\
    (forall a, ~ on_base_chain (ig_ident g) (Some b) a -> a <> i ->
       bi_ident r !! a = ig_ident g !! a).
Proof.
  intros Hs Hi He Hoff.
  destruct (resolve_base_ident_sub_links fuel g module i b ii basename ret0 Hs Hi He Hoff)
    as (h2 & Hr & Hadd).
  eexists. split; [exact Hr|]. simpl.
  set (h1 := <[i := set_ident_base (Some b) ii]> (ig_ident g)) in *.
  pose proof (add_backlinks_bases _ _ _ _ _ Hadd) as Hbases.
  assert (Hilt : (i < length (ig_ident g))%nat) by (apply lookup_lt_is_Some; eauto).
  assert (Hder1 : forall a, der_of h1 a = der_of (ig_ident g) a).
  { intros a. unfold der_of, h1. destruct (decide (a = i)) as [->|Hne].
    - rewrite list_lookup_insert_eq by exact Hilt. rewrite Hi. reflexivity.
    - rewrite list_lookup_insert_ne by congruence. reflexivity. }
  split; [reflexivity|]. split; [reflexivity|]. split; [reflexivity|].
  split; [|split; [|split; [|split]]].
  - assert (Hl : ident_base <$> (h2 !! i) = ident_base <$> (h1 !! i))
      by (rewrite <- !list_lookup_fmap, Hbases; reflexivity).
    rewrite Hl. unfold h1. rewrite list_lookup_insert_eq by exact Hilt. reflexivity.
  - intros a Hc Ha. apply (add_backlinks_chain _ _ _ _ _ Hadd).
    + apply on_base_chain_insert; assumption.
    + apply lookup_lt_is_Some. apply lookup_lt_is_Some in Ha.
      assert (Hlen : length h2 = length (ig_ident g)).
      { rewrite <- (length_fmap ident_base h2), Hbases, length_fmap. unfold h1.
        apply length_insert. }
      lia.
  - intros a x Hx. apply (add_backlinks_der_mono _ _ _ _ _ Hadd). rewrite Hder1. exact Hx.
  - intros a x Hx. rewrite <- Hder1. apply (add_backlinks_der_only _ _ _ _ _ Hadd). exact Hx.
  - intros a Hc Hne. rewrite (add_backlinks_off_chain _ _ _ _ _ Hadd a).
    + unfold h1. apply list_lookup_insert_ne. congruence.
    + intros Hc'. apply Hc. apply (on_base_chain_insert _ i (set_ident_base (Some b) ii));
        assumption.
Qed.

Lemma resolve_base_ident_sub_backlinks_witness :
  exists r,
    resolve_base_ident_sub 3 graph_animals module_animals (Some 2%nat) "mammal" None = Some r /\
    bi_ident r = graph_animals_resolved.
Proof.
  destruct (resolve_base_ident_sub_backlinks 3 graph_animals module_animals 2 1
              {| ident_name := "dog"; ident_base := None; ident_der := None |}
              "mammal" None eq_refl eq_refl eq_refl) as (r & Hr & _).
  - intros Hc. inversion Hc as [|b bi a Hl Hrest]; subst.
    vm_compute in Hl. inversion Hl; subst bi. simpl in Hrest.
    inversion Hrest as [|b' bi' a' Hl' Hrest']; subst.
    vm_compute in Hl'. inversion Hl'; subst bi'. simpl in Hrest'. inversion Hrest'.
  - exists r. split; [exact Hr|]. vm_compute in Hr. inversion Hr. reflexivity.
Defined.

Lemma search_ident_array_valid (h : list lys_ident) (basename : string) (ids : list nat)
  (i : nat) :
  search_ident_array h basename ids = Some i -> is_Some (h !! i).
Proof.
  induction ids as [|k rest IH]; simpl; [discriminate|].
  destruct (h !! k) as [idn|] eqn:Hk; [|exact IH].
  destruct (strcmp0 basename (ident_name idn)); [|exact IH].
  intros H. inversion H; subst. eauto.
Qed.

Lemma search_base_valid (g : ident_graph) (m : lys_module_idents) (basename : string)
  (i : nat) :
  search_base g m basename = Some i -> is_Some (ig_ident g !! i).
Proof.
  unfold search_base.
  destruct (search_ident_array (ig_ident g) basename (mi_ident m)) as [k|] eqn:Hk.
  - intros H. inversion H; subst. eapply search_ident_array_valid; exact Hk.
  - generalize (mi_inc m) as inc. induction inc as [|[s|] rest IH]; simpl; try discriminate.
    destruct (ig_module g !! s) as [sub|]; [|discriminate].
    destruct (search_ident_array (ig_ident g) basename (mi_ident sub)) as [k|] eqn:Hs;
      [|exact IH].
    intros H. inversion H; subst. eapply search_ident_array_valid; exact Hs.
Qed.

Section IdentrefAfterBase.

#[local] Open Scope string_scope.

(** X23: Resolving the base of an identity makes the identity a value of an
    identityref to that base: when [resolve_base_ident_sub] records the base
    [b] of the identity [i], [resolve_identref] on [b] and the name of [i],
    alone or with the name of the module of [i] as prefix, returns an
    identity of that name (and module) and logs nothing. *)
Theorem resolve_identref_after_base (fuel : nat) (g : ident_graph)
  (module : lys_module_idents) (module_name_of : nat -> string) (i b : nat)
  (ii : lys_ident) (basename : string) (ret0 : option nat) (prefix : option string) :
  search_base g module basename = Some b ->
  ig_ident g !! i = Some ii ->
  base_chain_ends fuel (ig_ident g) (Some b) = true ->
  ~ on_base_chain (ig_ident g) (Some b) i ->
  whole_identifier (ident_name ii) ->
  (forall k, nul_free (module_name_of k)) ->
  match prefix with
  | Some p => whole_identifier p /\ module_name_of i = p
  | None => True
  end ->
  (forall d, In d (der_of (ig_ident g) b) -> is_Some (ig_ident g !! d)) ->
  exists r d,
    resolve_base_ident_sub fuel g module (Some i) basename ret0 = Some r /\
    resolve_identref (bi_ident r) module_name_of (Some b)
      (Some (prefixed_text prefix (ident_name ii))) = Some (Some d, []) /\
    identity_named (bi_ident r) module_name_of prefix (ident_name ii) d = true.
Proof.
  intros Hs Hi He Hoff Hn Hnf Hp Hder.
  destruct (resolve_base_ident_sub_links fuel g module i b ii basename ret0 Hs Hi He Hoff)
    as (h2 & Hr & Hadd).
  eexists. cbn [bi_ident].
  set (h1 := <[i := set_ident_base (Some b) ii]> (ig_ident g)) in *.
  assert (Hnames : ident_name <$> h2 = ident_name <$> ig_ident g).
  { rewrite (add_backlinks_names _ _ _ _ _ Hadd). unfold h1.
    apply (names_insert _ i ii); [exact Hi | reflexivity]. }
  assert (Hlook : forall k, ident_name <$> (h2 !! k) = ident_name <$> (ig_ident g !! k))
    by (intros k; rewrite <- !list_lookup_fmap, Hnames; reflexivity).
  assert (Hilt : (i < length (ig_ident g))%nat) by (apply lookup_lt_is_Some; eauto).
  assert (Hder1 : forall a, der_of h1 a = der_of (ig_ident g) a).
  { intros a. unfold der_of, h1. destruct (decide (a = i)) as [->|Hne].
    - rewrite list_lookup_insert_eq by exact Hilt. rewrite Hi. reflexivity.
    - rewrite list_lookup_insert_ne by congruence. reflexivity. }
  destruct (search_base_valid g module basename b Hs) as [bd0 Hb0].
  pose proof (Hlook b) as Hb. rewrite Hb0 in Hb.
  destruct (h2 !! b) as [bd|] eqn:Hbd; [|discriminate]. clear Hb.
  pose proof (Hlook i) as Hi2. rewrite Hi in Hi2.
  destruct (h2 !! i) as [ii2|] eqn:Hii2; [|discriminate].
  simpl in Hi2. assert (Hname2 : ident_name ii2 = ident_name ii) by congruence. clear Hi2.
  assert (Hin : In i (default [] (ident_der bd))).
  { pose proof (add_backlinks_chain _ _ _ _ _ Hadd b (obc_here _ b)) as Hc.
    unfold der_of in Hc. rewrite Hbd in Hc. apply Hc. eauto. }
  assert (Hnamed : identity_named h2 module_name_of prefix (ident_name ii) i = true).
  { unfold identity_named. rewrite Hii2, Hname2, String.eqb_refl. simpl.
    destruct prefix as [p|]; [|reflexivity]. destruct Hp as [_ Hp]. rewrite Hp.
    apply String.eqb_refl. }
  assert (Hder' : forall d, In d (default [] (ident_der bd)) -> is_Some (h2 !! d)).
  { intros d Hd.
    assert (Hd2 : In d (der_of h2 b)) by (unfold der_of; rewrite Hbd; exact Hd).
    destruct (add_backlinks_der_only _ _ _ _ _ Hadd b d Hd2) as [->|Hd1]; [eauto|].
    rewrite Hder1 in Hd1. specialize (Hder d Hd1).
    specialize (Hlook d). destruct Hder as [dd Hdd]. rewrite Hdd in Hlook.
    destruct (h2 !! d); [eauto | discriminate]. }
  assert (Hp' : match prefix with Some p => whole_identifier p | None => True end)
    by (destruct prefix; [apply Hp | exact I]).
  pose proof (identref_first h2 module_name_of b bd prefix (ident_name ii)
                Hbd Hder' Hnf Hn Hp') as Hres.
  cbv zeta in Hres.
  destruct (List.find (identity_named h2 module_name_of prefix (ident_name ii))
              (b :: default [] (ident_der bd))) as [d|] eqn:Hfind.
  - exists d. split; [exact Hr|]. split; [exact Hres|].
    apply List.find_some in Hfind. apply Hfind.
  - exfalso. pose proof (List.find_none _ _ Hfind i (or_intror Hin)) as Hno.
    rewrite Hnamed in Hno. discriminate.
Qed.

Lemma resolve_identref_after_base_witness :
  exists r,
    resolve_base_ident_sub 3 graph_animals module_animals (Some 2%nat) "mammal" None = Some r /\
    resolve_identref (bi_ident r) (fun _ => "zoo") (Some 1%nat) (Some "zoo:dog")
      = Some (Some 2%nat, []).
Proof.
  destruct (resolve_identref_after_base 3 graph_animals module_animals (fun _ => "zoo") 2 1
              {| ident_name := "dog"; ident_base := None; ident_der := None |}
              "mammal" None (Some "zoo") eq_refl eq_refl eq_refl)
    as (r & d & Hr & _).
  - intros Hc. inversion Hc as [|b bi a Hl Hrest]; subst.
    vm_compute in Hl. inversion Hl; subst bi. simpl in Hrest.
    inversion Hrest as [|b' bi' a' Hl' Hrest']; subst.
    vm_compute in Hl'. inversion Hl'; subst bi'. simpl in Hrest'. inversion Hrest'.
  - split; [discriminate | reflexivity].
  - intros _. apply no_nul_free. reflexivity.
  - split; [split; [discriminate | reflexivity] | reflexivity].
  - intros d []. 
  - exists r. split; [exact Hr|]. vm_compute in Hr. inversion Hr. reflexivity.
Defined.

End IdentrefAfterBase.

(** ** resolve.c: features *)

Section FeatureText.

#[local] Open Scope string_scope.

Lemma substring_app_prefix (p rest : string) :
  String.substring 0 (String.length p) (p ++ rest) = p.
Proof. induction p as [|c p IH]; simpl; [destruct rest|rewrite IH]; reflexivity. Qed.

Lemma feature_search_find (name : string) (m : option nat)
  (tail : list (feature_ptr * lys_feature)) (fs : list lys_feature) :
  forall j,
    fst <$> List.find (fun c => String.eqb name (feature_name (snd c)))
              (features_from m j fs ++ tail)
    = match feature_search name fs j with
      | Some k => Some (m, k)
      | None => fst <$> List.find (fun c => String.eqb name (feature_name (snd c))) tail
      end.
Proof.
  induction fs as [|f rest IH]; intros j; simpl; [reflexivity|].
  unfold strcmp0. destruct (String.eqb name (feature_name f)); [reflexivity | apply IH].
Qed.

Lemma resolve_feature_inc_find (E : feature_env) (id name : string) (ret : option nat)
  (inc : list lys_include) :
  forall i,
    resolve_feature_inc E id name ret inc i
    = match fst <$> List.find (fun c => String.eqb name (feature_name (snd c)))
                      (features_of_includes inc i) with
      | Some f => feature_hit E ret f
      | None => {| fr_rc := EXIT_FAILURE; fr_ret := None;
                   fr_log := [LYE_INRESOLV_msg "feature" id] |}
      end.
Proof.
  induction inc as [|inc0 rest IH]; intros i; [reflexivity|].
  cbn [resolve_feature_inc features_of_includes].
  destruct (inc_submodule inc0) as [sub|]; [|apply IH].
  rewrite feature_search_find.
  destruct (feature_search name (submodule_features sub) 0); [reflexivity | apply IH].
Qed.

(** X24: [resolve_feature] on a feature name, alone or with a prefix that names
    the module [md], takes the first feature of that name among the features
    of [md] followed by those of its resolved submodules in the order of the
    includes; an include that is not resolved is skipped. Without such a
    feature it returns EXIT_FAILURE and logs the failure to resolve. With
    one it returns success, and when [ret] is given it first checks the
    status: [*ret] becomes the feature, or the result is -1 and [*ret] is
    not written. *)
Theorem resolve_feature_first (E : feature_env) (module md : lys_module)
  (prefix : option string) (name : string) (ret : option nat) :
  whole_identifier name ->
  match prefix with Some p => whole_identifier p | None => True end ->
  fe_import_module E module prefix = Some md ->
  resolve_feature E (prefixed_text prefix name) module ret
  = Some match fst <$> List.find (fun c => String.eqb name (feature_name (snd c)))
                         (visible_features md) with
         | None => {| fr_rc := EXIT_FAILURE; fr_ret := None;
                      fr_log := [LYE_INRESOLV_msg "feature" (prefixed_text prefix name)] |}
         | Some f =>
             match ret with
             | None => {| fr_rc := EXIT_SUCCESS; fr_ret := None; fr_log := [] |}
             | Some node =>
                 if (fe_check_status E node f =? 0)%Z
                 then {| fr_rc := EXIT_SUCCESS; fr_ret := Some f; fr_log := [] |}
                 else {| fr_rc := -1; fr_ret := None; fr_log := [] |}
             end
         end.
Proof.
  intros Hn Hp Himp.
  destruct (parse_node_identifier_text prefix name Hn Hp)
    as (ni & Hni & Hret & Hpos & Hname & Hmod).
  unfold resolve_feature. rewrite Hni. cbv zeta.
  destruct (ni_ret ni <? 1)%Z eqn:E1; [apply Z.ltb_lt in E1; lia|].
  assert (Hpre : cprefix (ni_mod_name_len ni) (ni_mod_name ni) = prefix).
  { destruct prefix as [p|].
    - destruct Hmod as [Hmn Hml]. rewrite Hmn, Hml. unfold cprefix.
      rewrite Nat2Z.id, substring_app_prefix. reflexivity.
    - rewrite Hmod. reflexivity. }
  rewrite Hpre, Himp, Hname. cbn [mbind option_bind].
  unfold visible_features. rewrite feature_search_find.
  assert (Hhit : forall f, feature_hit E ret f
                 = match ret with
                   | None => {| fr_rc := EXIT_SUCCESS; fr_ret := None; fr_log := [] |}
                   | Some node =>
                       if (fe_check_status E node f =? 0)%Z
                       then {| fr_rc := EXIT_SUCCESS; fr_ret := Some f; fr_log := [] |}
                       else {| fr_rc := -1; fr_ret := None; fr_log := [] |}
                   end).
  { intros f. unfold feature_hit. destruct ret as [node|]; [|reflexivity].
    destruct (fe_check_status E node f =? 0)%Z; reflexivity. }
  destruct (feature_search name (module_features md) 0) as [j|]; [rewrite Hhit; reflexivity|].
  rewrite resolve_feature_inc_find.
  destruct (fst <$> List.find _ (features_of_includes (module_inc md) 0)) as [f|];
    [rewrite Hhit|]; reflexivity.
Qed.

(** "tls" is found in the submodule behind the include that is not
    resolved. *)
Lemma resolve_feature_first_witness :
  resolve_feature env_features "m:tls" mod_features (Some 7%nat)
    = Some {| fr_rc := EXIT_SUCCESS; fr_ret := Some (Some 1%nat, 0%nat); fr_log := [] |}.
Proof.
  apply (resolve_feature_first env_features mod_features mod_features
           (Some "m") "tls" (Some 7%nat)).
  - split; [discriminate | reflexivity].
  - split; [discriminate | reflexivity].
  - reflexivity.
Defined.

End FeatureText.

(** ** resolve.c: the search of data nodes *)

Section ResolveData.

Variable tree : list lyd_named.
Variable mod_ : nat.
Variable name : string.
Variable nam_len : Z.

Lemma resolve_data_loop_end (ok : bool) (fuel : nat) (start : option nat)
  (parents : unres_data) (i : Z) :
  und_count parents <= i ->
  resolve_data_loop ok fuel tree mod_ name nam_len start parents i
  = Some (if negb (und_count parents =? 0) then EXIT_SUCCESS else EXIT_FAILURE, parents).
Proof.
  intros H. assert (Hlt : (i <? und_count parents) = false) by (apply Z.ltb_ge; exact H).
  destruct fuel; simpl; rewrite Hlt; reflexivity.
Qed.

(** The siblings after the first match: every match is appended. *)
Lemma resolve_data_siblings_more (fuel : nat) :
  forall node sibs parents i,
    data_siblings fuel tree node = Some sibs ->
    0 <= i -> i + 1 = und_count parents ->
    und_count parents + Z.of_nat (length sibs) < 2 ^ 32 ->
    (Z.to_nat (und_count parents) <= length (und_node parents))%nat ->
    exists parents' i',
      resolve_data_siblings true fuel tree mod_ name nam_len node parents i true
        = Some (Next (parents', i', true)) /\
      0 <= i' /\ i' + 1 = und_count parents' /\
      und_count parents' < 2 ^ 32 /\
      (Z.to_nat (und_count parents') <= length (und_node parents'))%nat /\
      unres_nodes parents'
        = unres_nodes parents ++ (Some <$> List.filter (data_match_at tree mod_ name nam_len) sibs) /\
      und_type parents' = und_type parents.
Proof.
  induction fuel as [|fuel IH]; intros node sibs parents i Hs Hi Hc Hb Hl.
  - destruct node as [n|]; [discriminate|]. inversion Hs; subst sibs. simpl.
    exists parents, i. rewrite app_nil_r. repeat split; try assumption; simpl in Hb; lia.
  - destruct node as [n|].
    2:{ inversion Hs; subst sibs. simpl.
        exists parents, i. rewrite app_nil_r. repeat split; try assumption; simpl in Hb; lia. }
    cbn [data_siblings] in Hs. cbn [resolve_data_siblings].
    destruct (tree !! n) as [nd|] eqn:Hn; [|discriminate]. cbn [mbind option_bind] in Hs |- *.
    destruct (data_siblings fuel tree (dm_next nd)) as [rest|] eqn:Hrest; [|discriminate].
    cbn [mbind option_bind] in Hs. inversion Hs; subst sibs. clear Hs.
    simpl length in Hb. cbn [List.filter]. unfold data_match_at at 1. rewrite Hn.
    destruct (data_matches mod_ name nam_len nd).
    + simpl negb. cbv iota. cbv zeta.
      assert (H1 : u32 (und_count parents + 1) = und_count parents + 1)
        by (apply u32_small; lia).
      assert (H2 : u32 (und_count parents + 1 - 1) = und_count parents)
        by (replace (und_count parents + 1 - 1) with (und_count parents) by lia;
            apply u32_small; lia).
      assert (H3 : u32 (i + 1) = i + 1) by (apply u32_small; lia).
      rewrite H1, H2, H3.
      assert (Hnodes : <[Z.to_nat (und_count parents) := Some n]>
                         (ly_realloc true None (und_node parents)
                            (Z.to_nat (und_count parents + 1)))
                       = unres_nodes parents ++ [Some n]).
      { unfold ly_realloc, unres_nodes.
        replace (Z.to_nat (und_count parents + 1)) with (S (Z.to_nat (und_count parents)))
          by lia.
        apply resize_append. exact Hl. }
      rewrite Hnodes.
      assert (Hlen : length (unres_nodes parents) = Z.to_nat (und_count parents))
        by (unfold unres_nodes; rewrite length_take; lia).
      destruct (IH (dm_next nd) rest
                  (set_nodes (unres_nodes parents ++ [Some n]) (und_count parents + 1) parents)
                  (i + 1) Hrest) as (p' & i' & Hr & Hi' & Hc' & Hb' & Hl' & Hn' & Ht');
        try (simpl; lia).
      { simpl. rewrite length_app, Hlen. simpl. lia. }
      exists p', i'. split; [exact Hr|]. repeat split; try assumption.
      rewrite Hn'. unfold unres_nodes at 1. simpl und_node. simpl und_count.
      rewrite take_ge by (rewrite length_app, Hlen; simpl; lia).
      rewrite <- app_assoc. reflexivity.
    + destruct (IH (dm_next nd) rest parents i Hrest Hi Hc ltac:(lia) Hl)
        as (p' & i' & Hr & H'). exists p', i'. split; [exact Hr | exact H'].
Qed.

(** The siblings up to the first match: it takes the place of the parent. *)
Lemma resolve_data_siblings_first (fuel : nat) :
  forall node sibs parents,
    data_siblings fuel tree node = Some sibs ->
    und_count parents = 1 ->
    Z.of_nat (length sibs) < 2 ^ 32 - 1 ->
    (1 <= length (und_node parents))%nat ->
    exists parents' i' flag,
      resolve_data_siblings true fuel tree mod_ name nam_len node parents 0 false
        = Some (Next (parents', i', flag)) /\
      und_type parents' = und_type parents /\
      match List.filter (data_match_at tree mod_ name nam_len) sibs with
      | [] => parents' = parents /\ i' = 0 /\ flag = false
      | ms =>
          flag = true /\ 0 <= i' /\ i' + 1 = und_count parents' /\
          und_count parents' < 2 ^ 32 /\
          (Z.to_nat (und_count parents') <= length (und_node parents'))%nat /\
          unres_nodes parents' = Some <$> ms
      end.
Proof.
  induction fuel as [|fuel IH]; intros node sibs parents Hs Hc Hb Hl.
  - destruct node as [n|]; [discriminate|]. inversion Hs; subst sibs. simpl.
    exists parents, 0, false. auto.
  - destruct node as [n|].
    2:{ inversion Hs; subst sibs. simpl. exists parents, 0, false. auto. }
    cbn [data_siblings] in Hs. cbn [resolve_data_siblings].
    destruct (tree !! n) as [nd|] eqn:Hn; [|discriminate]. cbn [mbind option_bind] in Hs |- *.
    destruct (data_siblings fuel tree (dm_next nd)) as [rest|] eqn:Hrest; [|discriminate].
    cbn [mbind option_bind] in Hs. inversion Hs; subst sibs. clear Hs.
    simpl length in Hb. cbn [List.filter]. unfold data_match_at at 1. rewrite Hn.
    destruct (data_matches mod_ name nam_len nd).
    + simpl negb. cbv iota.
      set (p1 := set_nodes (<[Z.to_nat 0 := Some n]> (und_node parents)) (und_count parents)
                   parents).
      assert (Hp1 : unres_nodes p1 = [Some n]).
      { unfold unres_nodes, p1. simpl. rewrite Hc.
        destruct (und_node parents) as [|x tl]; [simpl in Hl; lia|]. reflexivity. }
      destruct (resolve_data_siblings_more fuel (dm_next nd) rest p1 0 Hrest)
        as (p' & i' & Hr & Hi' & Hc' & Hb' & Hl' & Hn' & Ht');
        try (unfold p1; simpl; rewrite ?Hc; lia).
      { unfold p1. simpl. rewrite length_insert, Hc. simpl. lia. }
      exists p', i', true. split; [exact Hr|]. split; [exact Ht'|].
      rewrite Hn', Hp1. simpl. repeat split; assumption.
    + apply IH; try assumption. lia.
Qed.


End ResolveData.


(** ** resolve.c: whether a when applies to a data node *)

Lemma resolve_applies_when_loop_spec (sch : list lys_node) (fuel : nat) :
  forall n,
    parents_end fuel sch (lys_parent sch (Some n)) = true ->
    exists r,
      resolve_applies_when_loop fuel sch (lys_parent sch (Some n)) = Some r /\
      ((r = 1 /\
        exists a ad, schema_only_above sch n a /\ sch !! a = Some ad /\ node_when ad = true) \/
       (r = 0 /\
        forall a ad, schema_only_above sch n a -> sch !! a = Some ad -> node_when ad = false)).
Proof.
  induction fuel as [|fuel IH]; intros n He.
  - destruct (lys_parent sch (Some n)) as [p|] eqn:Hp.
    + simpl in He. destruct (sch !! p); discriminate.
    + exists 0. split; [reflexivity|]. right. split; [reflexivity|].
      intros a ad Ha. inversion Ha; congruence.
  - destruct (lys_parent sch (Some n)) as [p|] eqn:Hp.
    2:{ exists 0. split; [reflexivity|]. right. split; [reflexivity|].
        intros a ad Ha. inversion Ha; congruence. }
    cbn [parents_end] in He. cbn [resolve_applies_when_loop].
    destruct (sch !! p) as [pd|] eqn:Hpd; [|discriminate]. cbn [mbind option_bind].
    destruct (nodetype_in (node_nodetype pd) [LYS_USES; LYS_CHOICE; LYS_CASE]) eqn:Ht.
    2:{ exists 0. split; [reflexivity|]. right. split; [reflexivity|].
        intros a ad Ha. inversion Ha; subst;
          match goal with H : lys_parent sch (Some n) = Some ?q |- _ =>
            rewrite Hp in H; inversion H; subst q end; congruence. }
    destruct (node_when pd) eqn:Hw.
    { exists 1. split; [reflexivity|]. left. split; [reflexivity|].
      exists p, pd. split; [exact (soa_parent sch n p pd Hp Hpd Ht)|]. auto. }
    destruct (IH p He) as (r & Hr & Hcase). exists r. split; [exact Hr|].
    destruct Hcase as [(-> & a & ad & Ha & Had & Hwa)|(-> & Hall)].
    + left. split; [reflexivity|]. exists a, ad.
      split; [exact (soa_step sch n p a pd Hp Hpd Ht Ha)|]. auto.
    + right. split; [reflexivity|]. intros a ad Ha Had.
      inversion Ha; subst;
        match goal with H : lys_parent sch (Some n) = Some ?q |- _ =>
          rewrite Hp in H; inversion H; subst q end.
      * congruence.
      * eapply Hall; eassumption.
Qed.

(** X26: [resolve_applies_when] returns 1 exactly when the schema node of the
    data node has a when of its own (and is no notification or rpc), or one
    of the uses, choice and case nodes directly above it has one; otherwise
    it returns 0. The when of an augment is looked at and not used. *)
Theorem resolve_applies_when_spec (fuel : nat) (sch : list lys_node) (schema : nat)
  (sd : lys_node) :
  sch !! schema = Some sd ->
  parents_end fuel sch (lys_parent sch (Some schema)) = true ->
  exists r,
    resolve_applies_when fuel sch schema = Some r /\
    ((r = 1 /\
      (own_when sd = true \/
       exists a ad, schema_only_above sch schema a /\ sch !! a = Some ad /\
                    node_when ad = true)) \/
     (r = 0 /\ own_when sd = false /\
      forall a ad, schema_only_above sch schema a -> sch !! a = Some ad ->
                   node_when ad = false)).
Proof.
  intros Hs He. unfold resolve_applies_when. rewrite Hs. cbn [mbind option_bind].
  fold (own_when sd). destruct (own_when sd) eqn:Hown.
  - exists 1. split; [reflexivity|]. left. auto.
  - destruct (resolve_applies_when_loop_spec sch fuel schema He) as (r & Hr & Hcase).
    exists r. split; [exact Hr|].
    destruct Hcase as [(-> & H)|(-> & H)]; [left | right]; auto.
Qed.

(** The leaf in the case is under the when of the case; the leaf that the
    augment with a when adds is under no when. *)
Lemma resolve_applies_when_spec_witness :
  resolve_applies_when 4 schema_when 3 = Some 1 /\
  resolve_applies_when 4 schema_when 5 = Some 0.
Proof.
  split.
  - destruct (resolve_applies_when_spec 4 schema_when 3 _ eq_refl eq_refl) as (r & Hr & _).
    vm_compute in Hr. inversion Hr. reflexivity.
  - destruct (resolve_applies_when_spec 4 schema_when 5 _ eq_refl eq_refl) as (r & Hr & _).
    vm_compute in Hr. inversion Hr. reflexivity.
Defined.

(** ** resolve.c: the config flag passed down *)

Lemma set_flags_same (nd : lys_node) : set_flags (node_flags nd) nd = nd.
Proof. destruct nd; reflexivity. Qed.

Lemma config_bits_added_refl (sch : list lys_node) : config_bits_added sch sch.
Proof.
  split; [reflexivity|]. intros k nd Hk. exists 0. split; [reflexivity|].
  rewrite Z.lor_0_r, set_flags_same. exact Hk.
Qed.

Lemma config_bits_added_trans (a b c : list lys_node) :
  config_bits_added a b -> config_bits_added b c -> config_bits_added a c.
Proof.
  intros [Hl1 H1] [Hl2 H2]. split; [congruence|].
  intros k nd Hk. destruct (H1 k nd Hk) as (c1 & Hc1 & Hb).
  destruct (H2 k _ Hb) as (c2 & Hc2 & Hc). exists (Z.lor c1 c2). split.
  - rewrite Z.land_lor_distr_l, Hc1, Hc2. reflexivity.
  - rewrite Hc. simpl. rewrite Z.lor_assoc. destruct nd; reflexivity.
Qed.

Lemma config_bits_added_insert (sch : list lys_node) (n : nat) (nd : lys_node) (c : Z) :
  sch !! n = Some nd -> Z.land c LYS_CONFIG_MASK = c ->
  config_bits_added sch (<[n := set_flags (Z.lor (node_flags nd) c) nd]> sch).
Proof.
  intros Hn Hc. split; [apply length_insert|].
  intros k kd Hk. destruct (decide (k = n)) as [->|Hne].
  - rewrite Hn in Hk. inversion Hk; subst kd. exists c. split; [exact Hc|].
    apply list_lookup_insert_eq. apply lookup_lt_is_Some. eauto.
  - exists 0. split; [reflexivity|].
    rewrite list_lookup_insert_ne by congruence.
    rewrite Z.lor_0_r, set_flags_same. exact Hk.
Qed.

(** The parent of a node does not depend on the flags. *)
Lemma lys_parent_config (sch sch' : list lys_node) (node : option nat) :
  config_bits_added sch sch' -> lys_parent sch' node = lys_parent sch node.
Proof.
  intros [Hl H]. destruct node as [n|]; [|reflexivity]. unfold lys_parent.
  assert (Hnone : forall k, sch !! k = None -> sch' !! k = None).
  { intros k Hk. apply lookup_ge_None. apply lookup_ge_None in Hk. lia. }
  destruct (sch !! n) as [nd|] eqn:Hn.
  - destruct (H n nd Hn) as (c & _ & ->). simpl.
    destruct (node_parent nd) as [p|]; [|reflexivity].
    destruct (sch !! p) as [pd|] eqn:Hp.
    + destruct (H p pd Hp) as (c' & _ & ->). reflexivity.
    + rewrite (Hnone p Hp). reflexivity.
  - rewrite (Hnone n Hn). reflexivity.
Qed.

Lemma config_walk_ends_config (fuel : nat) :
  forall sch sch' node,
    config_bits_added sch sch' ->
    config_walk_ends fuel sch' node = config_walk_ends fuel sch node.
Proof.
  induction fuel as [|fuel IH]; intros sch sch' [n|] Hc; try reflexivity.
  cbn [config_walk_ends]. rewrite (lys_parent_config sch sch' _ Hc).
  destruct Hc as [Hl H].
  assert (Hnone : forall k, sch !! k = None -> sch' !! k = None).
  { intros k Hk. apply lookup_ge_None. apply lookup_ge_None in Hk. lia. }
  destruct (sch !! n) as [nd|] eqn:Hn.
  - destruct (H n nd Hn) as (c & _ & ->).
    destruct (lys_parent sch (Some n)) as [p|]; [|reflexivity].
    destruct (sch !! p) as [pd|] eqn:Hp.
    + destruct (H p pd Hp) as (c' & _ & ->). simpl.
      rewrite !(IH sch sch') by (split; assumption). reflexivity.
    + rewrite (Hnone p Hp). reflexivity.
  - rewrite (Hnone n Hn). reflexivity.
Qed.

Lemma land_lor_self (a b : Z) : Z.land (Z.lor a b) b = b.
Proof.
  apply Z.bits_inj'. intros k Hk. rewrite Z.land_spec, Z.lor_spec.
  destruct (Z.testbit a k), (Z.testbit b k); reflexivity.
Qed.

Lemma inherit_config_flag_adds (fuel : nat) :
  forall sch node sch',
    inherit_config_flag fuel sch node = Some sch' -> config_bits_added sch sch'.
Proof.
  induction fuel as [|fuel IH]; intros sch [n|] sch' H; cbn [inherit_config_flag] in H;
    try discriminate; try (inversion H; subst; apply config_bits_added_refl).
  destruct (sch !! n) as [nd|] eqn:Hn; [|discriminate].
  destruct (lys_parent sch (Some n)) as [p|]; [|discriminate].
  destruct (sch !! p) as [pd|]; [|discriminate].
  match type of H with
  | match inherit_config_flag _ ?s1 _ with _ => _ end = _ => set (sch1 := s1) in *
  end.
  destruct (inherit_config_flag fuel sch1 (node_child nd)) as [sch2|] eqn:H2; [|discriminate].
  eapply config_bits_added_trans; [|eapply config_bits_added_trans].
  - apply (config_bits_added_insert sch n nd (Z.land (node_flags pd) LYS_CONFIG_MASK) Hn).
    rewrite <- Z.land_assoc. reflexivity.
  - exact (IH _ _ _ H2).
  - exact (IH _ _ _ H).
Qed.

Lemma inherit_config_flag_returns (fuel : nat) :
  forall sch node,
    config_walk_ends fuel sch node = true ->
    exists sch', inherit_config_flag fuel sch node = Some sch'.
Proof.
  induction fuel as [|fuel IH]; intros sch [n|] H; cbn [inherit_config_flag config_walk_ends] in H |- *;
    try discriminate; try (eexists; reflexivity).
  destruct (sch !! n) as [nd|] eqn:Hn; [|discriminate].
  destruct (lys_parent sch (Some n)) as [p|]; [|discriminate].
  destruct (sch !! p) as [pd|]; [|discriminate].
  apply andb_prop in H as [Hc Hx].
  match goal with
  | |- exists _, match inherit_config_flag _ ?s1 _ with _ => _ end = _ => set (sch1 := s1)
  end.
  assert (H1 : config_bits_added sch sch1).
  { apply (config_bits_added_insert sch n nd (Z.land (node_flags pd) LYS_CONFIG_MASK) Hn).
    rewrite <- Z.land_assoc. reflexivity. }
  destruct (IH sch1 (node_child nd)) as [sch2 H2].
  { rewrite (config_walk_ends_config fuel sch sch1 _ H1). exact Hc. }
  rewrite H2. apply IH.
  rewrite (config_walk_ends_config fuel sch sch2); [exact Hx|].
  eapply config_bits_added_trans; [exact H1|]. exact (inherit_config_flag_adds _ _ _ _ H2).
Qed.

(** X27: [inherit_config_flag] on a node whose walk ends returns, and what it
    leaves is the schema with config bits added to flags: no node is added
    or removed, no flag is cleared, no bit outside the config mask and no
    other member of a node is changed. The node itself has the config bits
    of its parent. *)
Theorem inherit_config_flag_only_adds (fuel : nat) (sch : list lys_node) (n p : nat)
  (pd : lys_node) :
  config_walk_ends fuel sch (Some n) = true ->
  lys_parent sch (Some n) = Some p -> sch !! p = Some pd ->
  exists sch',
    inherit_config_flag fuel sch (Some n) = Some sch' /\
    config_bits_added sch sch' /\
    exists nd', sch' !! n = Some nd' /\
      Z.land (node_flags nd') (Z.land (node_flags pd) LYS_CONFIG_MASK)
        = Z.land (node_flags pd) LYS_CONFIG_MASK.
Proof.
  intros He Hp Hpd.
  destruct (inherit_config_flag_returns fuel sch (Some n) He) as [sch' Hr].
  exists sch'. split; [exact Hr|]. split; [exact (inherit_config_flag_adds _ _ _ _ Hr)|].
  destruct fuel as [|fuel]; [discriminate|]. cbn [inherit_config_flag] in Hr.
  destruct (sch !! n) as [nd|] eqn:Hn; [|discriminate].
  rewrite Hp, Hpd in Hr.
  match type of Hr with
  | match inherit_config_flag _ ?s1 _ with _ => _ end = _ => set (sch1 := s1) in *
  end.
  destruct (inherit_config_flag fuel sch1 (node_child nd)) as [sch2|] eqn:H2; [|discriminate].
  assert (H12 : config_bits_added sch1 sch')
    by (eapply config_bits_added_trans; eapply inherit_config_flag_adds; eassumption).
  assert (Hn1 : sch1 !! n
                = Some (set_flags (Z.lor (node_flags nd)
                                     (Z.land (node_flags pd) LYS_CONFIG_MASK)) nd)).
  { unfold sch1. apply list_lookup_insert_eq. apply lookup_lt_is_Some. eauto. }
  destruct H12 as [_ H12]. destruct (H12 n _ Hn1) as (c & _ & Hn').
  eexists. split; [exact Hn'|]. simpl.
  rewrite (Z.lor_comm _ c), Z.lor_assoc. apply land_lor_self.
Qed.

(** The leaves of the list "l" take over its config bit. *)
Lemma inherit_config_flag_only_adds_witness :
  exists sch',
    inherit_config_flag 4 schema_list_keys (Some 1%nat) = Some sch' /\
    config_bits_added schema_list_keys sch'.
Proof.
  destruct (inherit_config_flag_only_adds 4 schema_list_keys 1 0 _ eq_refl eq_refl eq_refl)
    as (sch' & Hr & Hc & _).
  exists sch'. split; [exact Hr | exact Hc].
Defined.

(** ** log.c: the path of an error *)

Lemma u16_small (x : Z) : 0 <= x < 2 ^ 16 -> u16 x = x.
Proof. intros H. unfold u16. apply Z.mod_small. exact H. Qed.

Lemma length_list_ascii_of_string (s : string) :
  length (list_ascii_of_string s) = String.length s.
Proof. induction s as [|c s IH]; simpl; [reflexivity | rewrite IH; reflexivity]. Qed.

Lemma list_ascii_of_string_app (a b : string) :
  list_ascii_of_string (a ++ b) = list_ascii_of_string a ++ list_ascii_of_string b.
Proof. induction a as [|c a IH]; simpl; [reflexivity | rewrite IH; reflexivity]. Qed.

Lemma prepended_index (txt : list ascii) (b : path_buf) :
  pb_index (prepended txt b) = pb_index b - Z.of_nat (length txt).
Proof. reflexivity. Qed.

Lemma prepended_length (txt : list ascii) (b : path_buf) :
  Z.of_nat (length txt) <= pb_index b <= Z.of_nat (length (pb_path b)) ->
  length (pb_path (prepended txt b)) = length (pb_path b).
Proof.
  intros H. unfold prepended. simpl.
  rewrite !length_app, length_take, length_drop. lia.
Qed.

(** Writing [t1] and then [t2] before it is writing [t2 ++ t1]. *)
Lemma prepended_prepended (t1 t2 : list ascii) (b : path_buf) :
  Z.of_nat (length t1) + Z.of_nat (length t2) <= pb_index b <= Z.of_nat (length (pb_path b)) ->
  prepended t2 (prepended t1 b) = prepended (t2 ++ t1) b.
Proof.
  intros H. unfold prepended. simpl. f_equal.
  - set (i := pb_index b) in *. set (p := pb_path b) in *.
    assert (H1 : length (take (Z.to_nat (i - Z.of_nat (length t1))) p)
                 = Z.to_nat (i - Z.of_nat (length t1)))
      by (rewrite length_take; lia).
    rewrite take_app_le by lia. rewrite take_take.
    rewrite drop_app_length' by (symmetry; exact H1).
    rewrite length_app.
    replace (Z.to_nat (i - Z.of_nat (length t1) - Z.of_nat (length t2))
               `min` Z.to_nat (i - Z.of_nat (length t1)))%nat
      with (Z.to_nat (i - Z.of_nat (length t2 + length t1)%nat)) by lia.
    rewrite <- !app_assoc. reflexivity.
  - rewrite length_app. lia.
Qed.

Lemma prepend_str_spec (s : string) (b : path_buf) :
  Z.of_nat (String.length s) <= pb_index b <= Z.of_nat (length (pb_path b)) ->
  pb_index b < 2 ^ 16 ->
  prepend_str s b = Some (prepended (list_ascii_of_string s) b).
Proof.
  intros H Hi. unfold prepend_str, path_memcpy. cbv zeta.
  rewrite u16_small by lia.
  destruct (Z.of_nat (length (pb_path b))
            <? pb_index b - Z.of_nat (String.length s) + Z.of_nat (String.length s)) eqn:E;
    [apply Z.ltb_lt in E; lia|].
  cbn [mbind option_bind]. unfold prepended. rewrite length_list_ascii_of_string.
  replace (Z.to_nat (pb_index b - Z.of_nat (String.length s)) + String.length s)%nat
    with (Z.to_nat (pb_index b)) by lia.
  reflexivity.
Qed.

Lemma prepend_char_spec (c : ascii) (b : path_buf) :
  1 <= pb_index b <= Z.of_nat (length (pb_path b)) ->
  pb_index b < 2 ^ 16 ->
  prepend_char c b = Some (prepended [c] b).
Proof.
  intros H Hi. unfold prepend_char. cbv zeta. rewrite u16_small by lia.
  destruct (Z.of_nat (length (pb_path b)) <=? pb_index b - 1) eqn:E;
    [apply Z.leb_le in E; lia|].
  unfold prepended. simpl length. f_equal. f_equal.
  rewrite insert_take_drop by lia. simpl. do 2 f_equal. f_equal. lia.
Qed.

Section PathText.

#[local] Open Scope string_scope.

Lemma path_segment_length (name : string) (prefix : option string) :
  String.length (path_segment name prefix)
  = (1 + match prefix with Some p => String.length p + 1 | None => 0 end
     + String.length name)%nat.
Proof.
  destruct prefix as [p|]; simpl; [|reflexivity].
  rewrite length_app_string. simpl. lia.
Qed.

Lemma prepend_segment_spec (name : string) (prefix : option string) (b : path_buf) :
  (Z.of_nat (String.length (path_segment name prefix)) <= pb_index b
   <= Z.of_nat (length (pb_path b)))%Z ->
  (pb_index b < 2 ^ 16)%Z ->
  prepend_segment name prefix b
  = Some (prepended (list_ascii_of_string (path_segment name prefix)) b).
Proof.
  intros H Hi. rewrite path_segment_length in H. unfold prepend_segment.
  rewrite prepend_str_spec by lia. cbn [mbind option_bind].
  set (b1 := prepended (list_ascii_of_string name) b).
  assert (Hi1 : pb_index b1 = (pb_index b - Z.of_nat (String.length name))%Z)
    by (unfold b1; rewrite prepended_index, length_list_ascii_of_string; reflexivity).
  assert (Hl1 : length (pb_path b1) = length (pb_path b))
    by (apply prepended_length; rewrite length_list_ascii_of_string; lia).
  destruct prefix as [p|].
  - rewrite prepend_char_spec by lia. cbn [mbind option_bind].
    set (b2 := prepended [":"%char] b1).
    assert (Hi2 : pb_index b2 = (pb_index b1 - 1)%Z) by reflexivity.
    assert (Hl2 : length (pb_path b2) = length (pb_path b1))
      by (apply prepended_length; cbn [length]; lia).
    rewrite prepend_str_spec by lia. cbn [mbind option_bind].
    set (b3 := prepended (list_ascii_of_string p) b2).
    assert (Hi3 : pb_index b3 = (pb_index b2 - Z.of_nat (String.length p))%Z)
      by (unfold b3; rewrite prepended_index, length_list_ascii_of_string; reflexivity).
    assert (Hl3 : length (pb_path b3) = length (pb_path b2))
      by (apply prepended_length; rewrite length_list_ascii_of_string; lia).
    rewrite prepend_char_spec by lia.
    unfold b3, b2, b1.
    rewrite (prepended_prepended _ [":"%char])
      by (rewrite length_list_ascii_of_string; simpl; lia).
    rewrite (prepended_prepended _ (list_ascii_of_string p))
      by (rewrite length_app, !length_list_ascii_of_string; simpl; lia).
    rewrite (prepended_prepended _ ["/"%char])
      by (rewrite !length_app, !length_list_ascii_of_string; simpl; lia).
    f_equal. f_equal. simpl. rewrite !list_ascii_of_string_app. simpl.
    rewrite <- ?app_assoc. reflexivity.
  - cbn [mbind option_bind]. rewrite prepend_char_spec by lia.
    unfold b1.
    rewrite (prepended_prepended _ ["/"%char])
      by (rewrite length_list_ascii_of_string; simpl; lia).
    reflexivity.
Qed.

Lemma vlog_build_loop_xml (W : vlog_world) (buf_size : Z) (fuel : nat) :
  forall elem prefix b txt,
    xml_path fuel (vw_xml W) elem = Some txt ->
    (Z.of_nat (String.length txt) <= pb_index b <= Z.of_nat (length (pb_path b)))%Z ->
    (pb_index b < 2 ^ 16)%Z ->
    vlog_build_loop W buf_size fuel LY_VLOG_XML (VE_node <$> elem) prefix b
    = Some (prepended (list_ascii_of_string txt) b).
Proof.
  induction fuel as [|fuel IH]; intros elem prefix b txt Hp Hb Hi.
  - destruct elem as [n|]; [discriminate|]. inversion Hp; subst txt. simpl.
    unfold prepended. simpl. rewrite Z.sub_0_r, take_drop. destruct b; reflexivity.
  - destruct elem as [n|].
    2:{ inversion Hp; subst txt. simpl.
        unfold prepended. simpl. rewrite Z.sub_0_r, take_drop. destruct b; reflexivity. }
    cbn [xml_path] in Hp. cbn [fmap option_fmap option_map vlog_build_loop].
    destruct (vw_xml W !! n) as [xe|]; [|discriminate]. cbn [mbind option_bind] in Hp |- *.
    destruct (xml_path fuel (vw_xml W) (xe_parent xe)) as [above|] eqn:Ha; [|discriminate].
    cbn [mbind option_bind] in Hp. inversion Hp; subst txt. clear Hp.
    rewrite length_app_string in Hb.
    set (seg := path_segment (xe_name xe) match xe_ns xe with Some p => p | None => None end)
      in *.
    rewrite prepend_segment_spec by (fold seg; lia). cbn [mbind option_bind]. fold seg.
    rewrite (IH (xe_parent xe) _ _ above Ha).
    + rewrite prepended_prepended by (rewrite !length_list_ascii_of_string; lia).
      rewrite list_ascii_of_string_app. reflexivity.
    + rewrite prepended_index, length_list_ascii_of_string.
      rewrite prepended_length by (rewrite length_list_ascii_of_string; lia). lia.
    + rewrite prepended_index. lia.
Qed.

(** X28: For an XML element [ly_vlog_build_path_reverse] writes, right before the
    byte [*index] points at, the path of the element from the root down:
    for each element a slash, the prefix of its namespace and a colon when
    it has one, and its name. [*index] moves to the first byte of the path;
    the bytes before it and from the old [*index] on are left as they were.
    This holds when the path fits before [*index]. *)
Theorem ly_vlog_build_path_reverse_xml (W : vlog_world) (buf_size : Z) (fuel : nat)
  (n : nat) (b : path_buf) (txt : string) :
  xml_path fuel (vw_xml W) (Some n) = Some txt ->
  (Z.of_nat (String.length txt) <= pb_index b <= Z.of_nat (length (pb_path b)))%Z ->
  (pb_index b < 2 ^ 16)%Z ->
  exists b',
    ly_vlog_build_path_reverse W buf_size fuel LY_VLOG_XML (Some (VE_node n)) b = Some b' /\
    pb_index b' = (pb_index b - Z.of_nat (String.length txt))%Z /\
    pb_path b' = (take (Z.to_nat (pb_index b')) (pb_path b) ++ list_ascii_of_string txt
                    ++ drop (Z.to_nat (pb_index b)) (pb_path b))%list /\
    pb_logint b' = pb_logint b.
Proof.
  intros Hp Hb Hi. unfold ly_vlog_build_path_reverse.
  change (Some (VE_node n)) with (VE_node <$> Some n).
  rewrite (vlog_build_loop_xml W buf_size fuel (Some n) None b txt Hp Hb Hi).
  eexists. split; [reflexivity|]. unfold prepended. simpl.
  rewrite length_list_ascii_of_string. auto.
Qed.

Lemma ly_vlog_build_path_reverse_xml_witness :
  exists b',
    ly_vlog_build_path_reverse world_xml 16 2 LY_VLOG_XML (Some (VE_node 1)) buf16 = Some b' /\
    pb_index b' = 1%Z /\
    pb_path b' = ("."%char :: list_ascii_of_string "/nc:config/top" ++ [NUL])%list.
Proof.
  destruct (ly_vlog_build_path_reverse_xml world_xml 16 2 1 buf16 "/nc:config/top" eq_refl)
    as (b' & Hr & Hi & Hpath & _).
  - vm_compute. split; discriminate.
  - reflexivity.
  - exists b'. split; [exact Hr|]. split; [exact Hi|]. rewrite Hpath, Hi. reflexivity.
Defined.

(** X29: For a string [ly_vlog_build_path_reverse] puts the string right before
    the last byte of the buffer and sets [*index] to its first byte. A
    string shorter than the buffer is kept whole; a longer one is cut to the
    size of the buffer less two. The other bytes of the buffer are left as
    they were. *)
Theorem ly_vlog_build_path_reverse_str (W : vlog_world) (buf_size : Z) (fuel : nat)
  (s : string) (b : path_buf) :
  (2 <= buf_size <= 2 ^ 16)%Z ->
  Z.of_nat (length (pb_path b)) = buf_size ->
  let kept := if (Z.of_nat (String.length s) <? buf_size)%Z then s
              else String.substring 0 (Z.to_nat (buf_size - 2)) s in
  exists b',
    ly_vlog_build_path_reverse W buf_size (S fuel) LY_VLOG_STR (Some (VE_str s)) b = Some b' /\
    pb_index b' = (buf_size - 1 - Z.of_nat (String.length kept))%Z /\
    pb_path b' = (take (Z.to_nat (pb_index b')) (pb_path b) ++ list_ascii_of_string kept
                    ++ drop (Z.to_nat (buf_size - 1)) (pb_path b))%list /\
    pb_logint b' = pb_logint b.
Proof.
  intros Hs Hl kept. unfold ly_vlog_build_path_reverse. cbn [vlog_build_loop]. cbv zeta.
  assert (Hsub : forall k, (k <= String.length s)%nat ->
                   String.length (String.substring 0 k s) = k).
  { clear. induction s as [|c s IH]; intros k Hk.
    - destruct k; [reflexivity | simpl in Hk; lia].
    - destruct k as [|k]; [reflexivity|]. simpl. rewrite IH by (simpl in Hk; lia).
      reflexivity. }
  assert (Hall : String.substring 0 (String.length s) s = s).
  { clear. induction s as [|c s IH]; [reflexivity|]. simpl. rewrite IH. reflexivity. }
  destruct (buf_size <? Z.of_nat (String.length s) + 1)%Z eqn:E.
  - (* the string does not fit *)
    apply Z.ltb_lt in E.
    assert (Hk : kept = String.substring 0 (Z.to_nat (buf_size - 2)) s).
    { unfold kept. destruct (Z.of_nat (String.length s) <? buf_size)%Z eqn:E2;
        [apply Z.ltb_lt in E2; lia | reflexivity]. }
    replace (buf_size - 1 - 1)%Z with (buf_size - 2)%Z by lia. rewrite <- Hk.
    assert (Hlen : String.length kept = Z.to_nat (buf_size - 2))
      by (rewrite Hk; apply Hsub; lia).
    replace (buf_size - (buf_size - 1))%Z with 1%Z by lia.
    rewrite u16_small by lia. unfold path_memcpy. cbv zeta. rewrite Hlen.
    destruct (Z.of_nat (length (pb_path b)) <? 1 + Z.of_nat (Z.to_nat (buf_size - 2)))%Z
      eqn:E3; [apply Z.ltb_lt in E3; lia|].
    cbn [mbind option_bind]. eexists. split; [reflexivity|]. simpl.
    split; [lia|]. split; [|reflexivity].
    replace (Z.to_nat (buf_size - 1 - Z.of_nat (Z.to_nat (buf_size - 2)))) with 1%nat by lia.
    do 3 f_equal. lia.
  - (* the string fits *)
    apply Z.ltb_ge in E.
    assert (Hk : kept = s).
    { unfold kept. destruct (Z.of_nat (String.length s) <? buf_size)%Z eqn:E2;
        [reflexivity | apply Z.ltb_ge in E2; lia]. }
    replace (Z.to_nat (Z.of_nat (String.length s) + 1 - 1)) with (String.length s) by lia.
    rewrite Hall, Hk.
    rewrite u16_small by lia. unfold path_memcpy. cbv zeta.
    destruct (Z.of_nat (length (pb_path b))
              <? buf_size - (Z.of_nat (String.length s) + 1) + Z.of_nat (String.length s))%Z
      eqn:E3; [apply Z.ltb_lt in E3; lia|].
    cbn [mbind option_bind]. eexists. split; [reflexivity|]. simpl.
    split; [lia|]. split; [|reflexivity].
    replace (buf_size - 1 - Z.of_nat (String.length s))%Z
      with (buf_size - (Z.of_nat (String.length s) + 1))%Z by lia.
    do 3 f_equal. lia.
Qed.

Lemma ly_vlog_build_path_reverse_str_witness :
  exists b',
    ly_vlog_build_path_reverse world_xml 16 1 LY_VLOG_STR
      (Some (VE_str "0123456789abcdefgh")) buf16 = Some b' /\
    pb_index b' = 1%Z /\
    pb_path b' = ("."%char :: list_ascii_of_string "0123456789abcd" ++ [NUL])%list.
Proof.
  destruct (ly_vlog_build_path_reverse_str world_xml 16 0 "0123456789abcdefgh" buf16)
    as (b' & Hr & Hi & Hpath & _).
  - lia.
  - reflexivity.
  - exists b'. split; [exact Hr|]. split; [exact Hi|]. rewrite Hpath, Hi. reflexivity.
Defined.

Lemma prepended_nil (b : path_buf) : prepended [] b = b.
Proof.
  unfold prepended. simpl. rewrite Z.sub_0_r, take_drop. destruct b; reflexivity.
Qed.

Lemma vlog_build_loop_end (W : vlog_world) (buf_size : Z) (fuel : nat)
  (elem_type : LY_VLOG_ELEM) (prefix : option string) (b : path_buf) :
  vlog_build_loop W buf_size fuel elem_type None prefix b = Some b.
Proof. destruct fuel; reflexivity. Qed.

Lemma vlog_build_loop_lys (W : vlog_world) (buf_size : Z) (fuel : nat) :
  forall elem b txt,
    lys_one_module W fuel elem = true ->
    lys_path W fuel elem = Some txt ->
    (Z.of_nat (String.length txt) <= pb_index b <= Z.of_nat (length (pb_path b)))%Z ->
    (pb_index b < 2 ^ 16)%Z ->
    vlog_build_loop W buf_size fuel LY_VLOG_LYS (VE_node <$> elem) None b
    = Some (prepended (list_ascii_of_string txt) b).
Proof.
  induction fuel as [|fuel IH]; intros elem b txt Hm Hp Hb Hi.
  - destruct elem as [n|]; [discriminate|]. inversion Hp; subst txt. simpl.
    rewrite prepended_nil. reflexivity.
  - destruct elem as [n|].
    2:{ inversion Hp; subst txt. simpl. rewrite prepended_nil. reflexivity. }
    cbn [lys_path lys_one_module] in Hp, Hm.
    cbn [fmap option_fmap option_map vlog_build_loop].
    destruct (vw_sch W !! n) as [nd|] eqn:Hn; [|discriminate].
    cbn [mbind option_bind] in Hp |- *.
    destruct (node_name nd) as [name|]; [|discriminate].
    cbn [mbind option_bind] in Hp |- *.
    apply andb_prop in Hm as [Hmod Hup].
    destruct (vlog_lys_up fuel (vw_sch W) n) as [up|] eqn:Hu; [|discriminate].
    cbn [mbind option_bind] in Hp.
    destruct (lys_path W fuel up) as [above|] eqn:Ha; [|discriminate].
    cbn [mbind option_bind] in Hp. inversion Hp; subst txt. clear Hp.
    rewrite length_app_string in Hb.
    destruct (bool_decide (node_parent nd = None)) eqn:Htop.
    + (* the top-level node: the walk ends here *)
      cbn [mbind option_bind].
      set (seg := path_segment name (Some (vw_module_name W (vw_lys_node_module W n)))) in *.
      rewrite prepend_segment_spec by (fold seg; lia). cbn [mbind option_bind].
      apply bool_decide_eq_true_1 in Htop.
      assert (Hpar : lys_parent (vw_sch W) (Some n) = None)
        by (unfold lys_parent; rewrite Hn, Htop; reflexivity).
      assert (Hnone : up = None).
      { destruct fuel; cbn [vlog_lys_up] in Hu; rewrite Hpar in Hu; inversion Hu;
          reflexivity. }
      subst up.
      assert (Habove : above = "")
        by (destruct fuel; simpl in Ha; inversion Ha; reflexivity).
      subst above. rewrite vlog_build_loop_end. reflexivity.
    + cbn [orb] in Hmod.
      destruct (lys_parent (vw_sch W) (Some n)) as [p|]; [|discriminate Hmod].
      cbn [mbind option_bind]. rewrite Hmod. simpl negb. cbv iota.
      cbn [mbind option_bind].
      set (seg := path_segment name None) in *.
      rewrite prepend_segment_spec by (fold seg; lia). cbn [mbind option_bind]. fold seg.
      rewrite (IH up _ above Hup Ha).
      * rewrite prepended_prepended by (rewrite !length_list_ascii_of_string; lia).
        rewrite list_ascii_of_string_app. reflexivity.
      * rewrite prepended_index, length_list_ascii_of_string.
        rewrite prepended_length by (rewrite length_list_ascii_of_string; lia). lia.
      * rewrite prepended_index. lia.
Qed.

(** X30: For a schema node whose ancestors are all of its own module
    [ly_vlog_build_path_reverse] writes, right before the byte [*index]
    points at, the path of the node from the top down: a slash and the name
    of each node, uses nodes left out, and the name of the module with a
    colon before the name of the top-level node only. [*index] moves to the
    first byte of the path and the other bytes are left as they were. This
    holds when the path fits before [*index]. *)
Theorem ly_vlog_build_path_reverse_lys (W : vlog_world) (buf_size : Z) (fuel : nat)
  (n : nat) (b : path_buf) (txt : string) :
  lys_one_module W fuel (Some n) = true ->
  lys_path W fuel (Some n) = Some txt ->
  (Z.of_nat (String.length txt) <= pb_index b <= Z.of_nat (length (pb_path b)))%Z ->
  (pb_index b < 2 ^ 16)%Z ->
  exists b',
    ly_vlog_build_path_reverse W buf_size fuel LY_VLOG_LYS (Some (VE_node n)) b = Some b' /\
    pb_index b' = (pb_index b - Z.of_nat (String.length txt))%Z /\
    pb_path b' = (take (Z.to_nat (pb_index b')) (pb_path b) ++ list_ascii_of_string txt
                    ++ drop (Z.to_nat (pb_index b)) (pb_path b))%list /\
    pb_logint b' = pb_logint b.
Proof.
  intros Hm Hp Hb Hi. unfold ly_vlog_build_path_reverse.
  change (Some (VE_node n)) with (VE_node <$> Some n).
  rewrite (vlog_build_loop_lys W buf_size fuel (Some n) b txt Hm Hp Hb Hi).
  eexists. split; [reflexivity|]. unfold prepended. simpl.
  rewrite length_list_ascii_of_string. auto.
Qed.

(** The container "x" that the uses brings into the choice "ch". *)
Lemma ly_vlog_build_path_reverse_lys_witness :
  exists b',
    ly_vlog_build_path_reverse world_choice 16 3 LY_VLOG_LYS (Some (VE_node 4)) buf16
      = Some b' /\
    pb_index b' = 8%Z /\
    pb_path b' = (repeat "."%char 8 ++ list_ascii_of_string "/m:ch/x" ++ [NUL])%list.
Proof.
  destruct (ly_vlog_build_path_reverse_lys world_choice 16 3 4 buf16 "/m:ch/x"
              eq_refl eq_refl) as (b' & Hr & Hi & Hpath & _).
  - vm_compute. split; discriminate.
  - reflexivity.
  - exists b'. split; [exact Hr|]. split; [exact Hi|]. rewrite Hpath, Hi. reflexivity.
Defined.

End PathText.

